(** * Template instantiation core of SWIG (Source/CParse/templ.c)

    A shallow embedding of the template locator, the argument preparer, the
    pack expander and the substitution engine of [templ.c], with the
    properties of the specification stated and proved over it.

    Conventions of the embedding:
    - a DOH [String] is a list of characters; a NULL [String *] is [None];
    - a [ParmList] (a NULL-terminated chain of parameter hashes linked by
      [nextSibling]) is a list of [Parm] records; NULL is the empty list;
    - C [int]s are [Z]; lengths of DOH objects are [int]s in DOH itself, so no
      wrap-around arises from [Len] and [ParmList_len];
    - nodes live in a store indexed by node identifiers (the pointers of the
      C code); diagnostics are collected in a log, in the order of the calls;
    - the debugging output guarded by [template_debug] goes to stdout only
      and is left out. *)

From Stdlib Require Import Ascii String ZArith Lia Bool DecimalString.
From stdpp Require Import base option list gmap.

Local Open Scope Z_scope.

(** ** DOH strings *)

Module DOH.

Abbreviation String := (list ascii).

(** Literals are written [str "..."]. *)
Definition str (s : string) : String := list_ascii_of_string s.

Definition NUL : ascii := Ascii.zero.

(** [isalnum] of the C locale. *)
Definition isalnum (c : ascii) : bool :=
  let n := nat_of_ascii c in
  ((48 <=? n) && (n <=? 57) || (65 <=? n) && (n <=? 90) || (97 <=? n) && (n <=? 122))%nat.

(** The test [isalnum(c) || c == '_'] of DOH's identifier matching. *)
Definition idchar (c : ascii) : bool := isalnum c || Ascii.eqb c "_"%char.

(** The character at offset [i] of the C string; the terminating NUL past
    its end. *)
Definition char_at (s : String) (i : nat) : ascii := nth i s NUL.

Fixpoint is_prefix (p s : String) : bool :=
  match p, s with
  | [], _ => true
  | _ :: _, [] => false
  | a :: p', b :: s' => Ascii.eqb a b && is_prefix p' s'
  end.

(** Modelled from the spec: [strstr] of the C library, as the offset of the
    first occurrence of [token] in [s]. *)
Fixpoint strstr (s token : String) : option nat :=
  if is_prefix token s then Some 0%nat
  else match s with
       | [] => None
       | _ :: s' => S <$> strstr s' token
       end.

(** Modelled from the spec: [Strstr]/[strchr] used as a test. *)
Definition Strstr (s token : String) : bool := bool_decide (is_Some (strstr s token)).
Definition strchr (s : String) (c : ascii) : bool := existsb (Ascii.eqb c) s.

(** Modelled from the spec: DOH's [match_identifier] (DOH/string.c).  Starting at offset [s] of [base], find the
    next occurrence of [token] that is neither preceded nor followed by an
    identifier character; an occurrence that fails the test is skipped whole
    ([s += tokenlen]).  [fuel] bounds the number of occurrences tried. *)
Fixpoint match_identifier (fuel : nat) (base : String) (s : nat) (token : String) : option nat :=
  match fuel with
  | O => None
  | S fuel' =>
      match strstr (drop s base) token with
      | None => None
      | Some k =>
          let s1 := (s + k)%nat in
          if (0 <? s1)%nat && idchar (char_at base (s1 - 1)) then
            match_identifier fuel' base (s1 + length token) token
          else if idchar (char_at base (s1 + length token)) then
            match_identifier fuel' base (s1 + length token) token
          else Some s1
      end
  end.

Definition match_id (base : String) (s : nat) (token : String) : option nat :=
  match_identifier (S (length base)) base s token.

(** Modelled from the spec: DOH's [match_simple]: the next occurrence. *)
Definition match_simple (base : String) (s : nat) (token : String) : option nat :=
  (fun k => (s + k)%nat) <$> strstr (drop s base) token.

(** Modelled from the spec: the replacement loop of DOH's [replace_simple]:
    the text from offset [s] on with the matches replaced, at most [count]
    of them when a count is given, and the number of replacements.  Matches
    are searched in the text as it was before the call. *)
Fixpoint replace_from (mt : String -> nat -> String -> option nat) (fuel : nat)
    (count : option nat) (base : String) (s : nat) (token rep : String) : String * Z :=
  match fuel, count with
  | O, _ => (drop s base, 0)
  | _, Some O => (drop s base, 0)
  | S fuel', _ =>
      match mt base s token with
      | None => (drop s base, 0)
      | Some c =>
          let '(rest, k) :=
            replace_from mt fuel' (Nat.pred <$> count) base (c + length token) token rep in
          (take (c - s) (drop s base) ++ rep ++ rest, 1 + k)
      end
  end.

(** An empty token replaces nothing. *)
Definition replace_simple (mt : String -> nat -> String -> option nat) (count : option nat)
    (s token rep : String) : String * Z :=
  match token with
  | [] => (s, 0)
  | _ => replace_from mt (S (length s)) count s 0 token rep
  end.

(** Modelled from the spec: [Replaceid(s, token, rep)], which is
    [Replace(s, token, rep, DOH_REPLACE_ID)]: identifier-wise replacement of
    [token] by [rep] in [s].  The C function rewrites [s] in place and
    returns the number of substitutions; here both are returned. *)
Definition Replaceid (s token rep : String) : String * Z :=
  replace_simple match_id None s token rep.

(** Modelled from the spec: [Replace] with [DOH_REPLACE_ANY] and with
    [DOH_REPLACE_FIRST]. *)
Definition Replace_any (s token rep : String) : String * Z :=
  replace_simple match_simple None s token rep.
Definition Replace_first (s token rep : String) : String * Z :=
  replace_simple match_simple (Some 1%nat) s token rep.

(** [Equal] on two strings. *)
Definition Equal (a b : String) : bool := bool_decide (a = b).

(** [Len] of a string. *)
Definition Len (s : String) : Z := Z.of_nat (length s).

Definition code (c : ascii) : Z := Z.of_nat (nat_of_ascii c).

(** Modelled from the spec: [Strncmp], the C library's [strncmp] on the
    character data: at most [n] characters are compared, and the end of a
    string compares as NUL. *)
Fixpoint strncmp (s1 s2 : String) (n : nat) : Z :=
  match n with
  | O => 0
  | S n' =>
      let a := char_at s1 0 in
      let b := char_at s2 0 in
      if Ascii.eqb a b then
        if Ascii.eqb a NUL then 0 else strncmp (tail s1) (tail s2) n'
      else code a - code b
  end.

Definition Strncmp (s1 s2 : String) (n : Z) : Z := strncmp s1 s2 (Z.to_nat n).

(** A string without an embedded NUL, as every C string is. *)
Definition no_nul (s : String) : Prop := Forall (fun c => c <> NUL) s.

End DOH.

Export DOH.

(** ** Parameter lists (Swig/parms.c) *)

(** A parameter: the attributes of a [Parm] hash that [templ.c] reads and
    writes.  An attribute that is not set is [None]. *)
Record Parm := mkParm {
  parm_type : option String;
  parm_value : option String;
  parm_name : option String;
  parm_default : option String
}.

Abbreviation ParmList := (list Parm).

Definition set_parm_type (p : Parm) (t : option String) : Parm :=
  mkParm t (parm_value p) (parm_name p) (parm_default p).
Definition set_parm_value (p : Parm) (v : option String) : Parm :=
  mkParm (parm_type p) v (parm_name p) (parm_default p).
Definition set_parm_name (p : Parm) (n : option String) : Parm :=
  mkParm (parm_type p) (parm_value p) n (parm_default p).
Definition set_parm_default (p : Parm) (d : option String) : Parm :=
  mkParm (parm_type p) (parm_value p) (parm_name p) d.

(** Modelled from the spec: [SwigType_isvariadic]: the encoded type starts
    with the variadic marker [v.]; a NULL type is not variadic. *)
Definition SwigType_isvariadic (t : option String) : bool :=
  match t with
  | Some ("v"%char :: "."%char :: _) => true
  | _ => false
  end.

(** Modelled from the spec: [SwigType_del_variadic]: delete the leading
    variadic marker.  The C function exits the program on a type that is not
    variadic, which is [None] here. *)
Definition SwigType_del_variadic (t : String) : option String :=
  match t with
  | "v"%char :: "."%char :: t' => Some t'
  | _ => None
  end.

(** Modelled from the spec: [ParmList_len]. *)
Definition ParmList_len (p : ParmList) : Z := Z.of_nat (length p).

(** Modelled from the spec: [ParmList_nth_parm]: the chain from the [n]th
    parameter on. *)
Definition ParmList_nth_parm (p : ParmList) (n : Z) : ParmList := drop (Z.to_nat n) p.

(** Modelled from the spec: [ParmList_variadic_parm]: the last parameter if
    it is variadic, NULL otherwise. *)
Definition ParmList_variadic_parm (p : ParmList) : option Parm :=
  match last p with
  | Some q => if SwigType_isvariadic (parm_type q) then Some q else None
  | None => None
  end.

(** Modelled from the spec: [ParmList_join]: the second chain linked after
    the first. *)
Definition ParmList_join (p p2 : ParmList) : ParmList := p ++ p2.

(** Modelled from the spec: [ParmList_replace_last]: the last parameter of
    [p] deleted and the chain [pnew] put in its place; NULL for an empty
    [p]. *)
Definition ParmList_replace_last {A} (p pnew : list A) : list A :=
  match p with
  | [] => []
  | _ => removelast p ++ pnew
  end.

(** Modelled from the spec: [CopyParmList] makes a deep copy, which is the
    same value. *)
Definition CopyParmList (p : ParmList) : ParmList := p.

(** ** The external collaborators *)

Definition Symtab := nat.
Definition NodeId := nat.

(** The operations on encoded types that are taken as given. *)
Class TypeOps := {
  SwigType_base : String -> String;
  SwigType_add_template : String -> ParmList -> String;
  SwigType_typename_replace : String -> String -> String -> String;
  SwigType_variadic_replace : String -> option Parm -> ParmList -> String;
  SwigType_templateprefix : String -> String;
  SwigType_prefix : String -> String;
  SwigType_last : String -> option String;
  SwigType_isfunction : String -> bool;
  SwigType_isqualifier : String -> bool;
  SwigType_isarray : String -> bool;
  SwigType_istemplate : String -> bool;
  SwigType_str : String -> String;
  SwigType_namestr : String -> String;
  SwigType_function_parms : String -> ParmList;
  SwigType_is_void : option String -> bool;
  Swig_scopename_last : String -> String
}.

(** The symbol table, as the queries [templ.c] makes of it.  The table is
    only read while a template is located or expanded. *)
Class Symbols := {
  Swig_symbol_clookup : String -> option Symtab -> option NodeId;
  Swig_symbol_clookup_local : String -> option Symtab -> option NodeId;
  Swig_symbol_typedef_reduce : String -> option Symtab -> String;
  Swig_symbol_type_qualify : String -> option Symtab -> String;
  Swig_symbol_template_deftype : String -> option Symtab -> String;
  Swig_symbol_template_defargs : ParmList -> ParmList -> option Symtab -> option Symtab -> ParmList
}.

(** ** Template argument deduction: [does_parm_match] *)

Inductive EMatch := ExactNoMatch | PartiallySpecializedNoMatch | PartiallySpecializedMatch | ExactMatch.

(** The values of the enumerators. *)
Definition EMatch_val (m : EMatch) : Z :=
  match m with
  | ExactNoMatch => -2
  | PartiallySpecializedNoMatch => -1
  | PartiallySpecializedMatch => 1
  | ExactMatch => 2
  end.

Definition EXACT_MATCH_PRIORITY : Z := 99999.

Section Matching.
Context `{TypeOps} `{Symbols}.

(** [does_parm_match]: the result and the value left in
    [*specialization_priority]. *)
Definition does_parm_match (type partial_parm_type partial_parm_type_base : String)
    (tscope : option Symtab) : EMatch * Z :=
  let ty := Swig_symbol_typedef_reduce type tscope in
  let base := SwigType_base ty in
  let '(t, substitutions) := Replaceid partial_parm_type partial_parm_type_base base in
  let matches := Equal ty t in
  let specialization_priority := -1 in
  if substitutions =? 1 then
    let '(tt', _) := Replaceid partial_parm_type partial_parm_type_base [] in
    let len := Len tt' in
    if Strncmp tt' ty len =? 0 then (PartiallySpecializedMatch, len)
    else (PartiallySpecializedNoMatch, specialization_priority)
  else
    (if matches then ExactMatch else ExactNoMatch,
     if matches then EXACT_MATCH_PRIORITY else specialization_priority).

End Matching.

(** ** The template locator *)

(** Diagnostics, one constructor per call of [Swig_error] or [Swig_warning]
    in [templ.c], with the arguments of its format string. *)
Inductive Diag :=
| Error_template_undefined (name : String)
| Error_not_a_template (name : String) (nodeType : option String)
| Error_too_many_parameters (maximum : Z)
| Error_not_enough_parameters (required : Z)
| Warn_duplicate_instantiation (tname : String) (symname : String)
| Warn_previous_instantiation (n : NodeId) (previous_name previous_symname : option String)
| Warn_ambiguous (tname : String)
| Warn_ambiguous_used (n : NodeId) (name : option String)
| Warn_ambiguous_ignored (n : NodeId) (name : option String).

(** How a call ends: it returns, it is stopped by a failed [assert], or the
    model runs out of fuel on a chain that does not end. *)
Inductive Outcome (A : Type) :=
| Ret (a : A)
| Abort
| OutOfFuel.
Arguments Ret {A} a.
Arguments Abort {A}.
Arguments OutOfFuel {A}.

(** A node as the locator sees it: the attributes it reads, by value. *)
Record Node := mkNode {
  nodeType : option String;
  name : option String;
  sym_name : option String;
  sym_symtab : option Symtab;
  sym_nextSibling : option NodeId;
  csym_nextSibling : option NodeId;
  templatetype : option String;
  templateparms : ParmList;
  partials : option (list NodeId);
  partialparms : ParmList;
  templcsymname : option String;
  template : option NodeId;
  hidden : option String;
  instantiate : option String
}.

(** The nodes of the parse tree, by pointer. *)
Definition Store := NodeId -> Node.

(** [GetFlag]: the attribute is set and is not "0". *)
Definition GetFlag (v : option String) : bool :=
  match v with
  | Some s => negb (Equal s (str "0"))
  | None => false
  end.

(** A node with its flag [instantiate] set. *)
Definition flagged (x : Node) : Node :=
  mkNode (nodeType x) (name x) (sym_name x) (sym_symtab x) (sym_nextSibling x)
    (csym_nextSibling x) (templatetype x) (templateparms x) (partials x) (partialparms x)
    (templcsymname x) (template x) (hidden x) (Some (str "1")).

(** [SetFlag(n, "instantiate")]. *)
Definition SetFlag_instantiate (st : Store) (n : NodeId) : Store :=
  fun k => if decide (k = n) then flagged (st n) else st k.

(** [Equal(s, "literal")] on a possibly NULL string. *)
Definition Equal_lit (s : option String) (lit : string) : bool :=
  match s with
  | Some s => Equal s (str lit)
  | None => false
  end.

(** The text [sprintf(tmp, "$%d", i)] leaves in [tmp]. *)
Definition placeholder (i : nat) : String :=
  str "$" ++ list_ascii_of_string (NilEmpty.string_of_uint (Nat.to_uint i)).

(** The priorities matrix: a block of [int]s addressed as in the C code,
    row after row. *)
Definition cell (m : list Z) (i : nat) : Z := m !!! i.

Section Locate.
Context `{TypeOps} `{Symbols}.

(** Modelled from the spec: [ParmList_numrequired]: the parameters before
    the first one that has a default value or is of type void. *)
Fixpoint ParmList_numrequired (p : ParmList) : Z :=
  match p with
  | [] => 0
  | q :: p' =>
      match parm_value q with
      | Some _ => 0
      | None => if SwigType_is_void (parm_type q) then 0 else 1 + ParmList_numrequired p'
      end
  end.

(** A name that may be NULL looked up locally; a NULL name finds nothing. *)
Definition clookup_local_opt (s : option String) (scope : option Symtab) : option NodeId :=
  s ≫= fun s => Swig_symbol_clookup_local s scope.

(** The loop [while (p && pp)] of [template_locate] over the parameters of
    one partial specialization: whether all parameters match, and the matrix
    with the priorities written into the row at [row].  A partial parameter
    without a type matches nothing. *)
Fixpoint match_parms (tscope : option Symtab) (p pp : ParmList) (i row : nat) (m : list Z)
    : bool * list Z :=
  match p, pp with
  | q :: p', qq :: pp' =>
      let t := match parm_type q with Some t => Some t | None => parm_value q end in
      match t with
      | Some t =>
          let '(mt, priority) :=
            match parm_type qq with
            | Some pt => does_parm_match t pt (placeholder i) tscope
            | None => (ExactNoMatch, -1)
            end in
          let m' := <[(row + i - 1)%nat := priority]> m in
          if EMatch_val mt <? EMatch_val PartiallySpecializedMatch then (false, m')
          else match_parms tscope p' pp' (S i) row m'
      | None => match_parms tscope p' pp' (S i) row m
      end
  | _, _ => (true, m)
  end.

(** The loop over [partials]: the candidates whose parameters all match, in
    the order found, and the matrix; a row is kept only for a candidate that
    is appended. *)
Fixpoint scan_partials (st : Store) (tscope : option Symtab) (parms : ParmList)
    (partials : list NodeId) (possiblepartials : list NodeId) (row : nat) (m : list Z)
    : list NodeId * list Z :=
  match partials with
  | [] => (possiblepartials, m)
  | item :: rest =>
      let pparms := partialparms (st item) in
      if ParmList_len pparms =? ParmList_len parms then
        let '(all_parameters_match, m') := match_parms tscope parms pparms 1 row m in
        if all_parameters_match then
          scan_partials st tscope parms rest (possiblepartials ++ [item]) (row + length parms) m'
        else scan_partials st tscope parms rest possiblepartials row m'
      else scan_partials st tscope parms rest possiblepartials row m
  end.

(** The highest priority found in column [col], starting from -1. *)
Definition column_max (m : list Z) (posslen parms_len col : nat) : Z :=
  foldl (fun maxpriority row =>
           let priority := cell m (col + row * parms_len) in
           if priority >? maxpriority then priority else maxpriority)
        (-1) (seq 0 posslen).

(** Flag the entries of column [col] that reach the highest priority. *)
Definition flag_column (m : list Z) (posslen parms_len col : nat) : list Z :=
  let maxpriority := column_max m posslen parms_len col in
  foldl (fun m row =>
           let priority := cell m (col + row * parms_len) in
           <[(col + row * parms_len)%nat := if priority >=? maxpriority then 1 else 0]> m)
        m (seq 0 posslen).

Definition flag_matrix (m : list Z) (posslen parms_len : nat) : list Z :=
  foldl (fun m col => flag_column m posslen parms_len col) m (seq 0 parms_len).

(** The count of highest priority parameters of a row. *)
Definition highest_count (m : list Z) (parms_len row : nat) : Z :=
  foldl (fun count col => count + cell m (row * parms_len + col)) 0 (seq 0 parms_len).

(** The candidates whose row counts [parms_len] flags. *)
Fixpoint choose_partials (m : list Z) (parms_len row : nat) (possiblepartials : list NodeId)
    : list NodeId :=
  match possiblepartials with
  | [] => []
  | item :: rest =>
      (if highest_count m parms_len row =? Z.of_nat parms_len then [item] else [])
      ++ choose_partials m parms_len (S row) rest
  end.

(** The warnings for the candidates that are ignored; the lookup of each
    is asserted to succeed. *)
Fixpoint warn_ignored (st : Store) (primary_scope : option Symtab) (ignored : list NodeId)
    : Outcome (list Diag) :=
  match ignored with
  | [] => Ret []
  | item :: rest =>
      match clookup_local_opt (templcsymname (st item)) primary_scope with
      | None => Abort
      | Some ignored_node =>
          match warn_ignored st primary_scope rest with
          | Ret ds =>
              Ret (Warn_ambiguous_ignored ignored_node
                     (SwigType_namestr <$> name (st ignored_node)) :: ds)
          | o => o
          end
      end
  end.

(** The selection among the candidates that survived: the node chosen, if
    any, and the warnings. *)
Definition select_partial (st : Store) (primary_scope : option Symtab) (tname : String)
    (parms_len : nat) (possiblepartials : list NodeId) (m : list Z)
    : Outcome (option NodeId) * list Diag :=
  let posslen := length possiblepartials in
  let possiblepartials :=
    if (1 <? posslen)%nat then
      let m := flag_matrix m posslen parms_len in
      let chosenpartials := choose_partials m parms_len 0 possiblepartials in
      if (0 <? length chosenpartials)%nat then chosenpartials else possiblepartials
    else possiblepartials in
  let posslen := length possiblepartials in
  match possiblepartials with
  | [] => (Ret None, [])
  | first :: others =>
      let n := clookup_local_opt (templcsymname (st first)) primary_scope in
      if (1 <? posslen)%nat then
        let ds := match n with
                  | Some n' => [Warn_ambiguous (SwigType_namestr tname);
                                Warn_ambiguous_used n' (SwigType_namestr <$> name (st n'))]
                  | None => []
                  end in
        match warn_ignored st primary_scope others with
        | Ret ds' => (Ret n, ds ++ ds')
        | Abort => (Abort, ds)
        | OutOfFuel => (OutOfFuel, ds)
        end
      else (Ret n, [])
  end.

(** What [template_locate] does with a node [n] found under the name of the
    instantiation. *)
Definition found_by_name (st : Store) (name_ : String) (instantiated_parms : ParmList)
    (symname : option String) (n : NodeId) : option NodeId * list Diag :=
  if Equal_lit (nodeType (st n)) "template" then (Some n, [])
  else
    match template (st n) with
    | Some tn =>
        let previous_named_instantiation :=
          if GetFlag (hidden (st n)) then csym_nextSibling (st n) else Some n in
        match symname with
        | None => (None, [])
        | Some symname =>
            match previous_named_instantiation with
            | Some prev =>
                let previous_name := name (st prev) in
                let previous_symname := sym_name (st prev) in
                let unprocessed_tname := SwigType_add_template name_ instantiated_parms in
                (None,
                 [Warn_duplicate_instantiation (SwigType_namestr unprocessed_tname) symname;
                  Warn_previous_instantiation n (SwigType_namestr <$> previous_name)
                    previous_symname])
            | None => (Some tn, [])
            end
        end
    | None => (None, [Error_not_a_template name_ (nodeType (st n))])
    end.

(** The arguments as [template_locate] prepares them: [expandedparms], with
    the defaults of the primary template and the types qualified, and
    [parms].  [Swig_symbol_template_defargs] fills the defaults into the
    argument list it is given: the chain it returns is the chain [parms]
    itself, extended, unless [parms] is NULL; so the types qualified in
    [expandedparms] are those of [parms] too. *)
Definition prepare_parms (st : Store) (templ : NodeId) (instantiated_parms : ParmList)
    (tscope : option Symtab) : ParmList * ParmList :=
  let parms := CopyParmList instantiated_parms in
  let primary_scope := sym_symtab (st templ) in
  let targs := templateparms (st templ) in
  let expandedparms := Swig_symbol_template_defargs parms targs tscope primary_scope in
  let expandedparms :=
    map (fun p => match parm_type p with
                  | Some ty => set_parm_type p (Some (Swig_symbol_type_qualify ty tscope))
                  | None => p
                  end) expandedparms in
  (expandedparms, match parms with [] => [] | _ => expandedparms end).

(** The search for an explicit specialization under the encoded name. *)
Definition search_explicit (tname : String) (primary_scope tscope : option Symtab)
    : option NodeId :=
  match Swig_symbol_clookup_local tname primary_scope with
  | Some n => Some n
  | None =>
      let rname := Swig_symbol_typedef_reduce tname tscope in
      if negb (Equal rname tname) then Swig_symbol_clookup_local rname primary_scope
      else None
  end.

(** [template_locate].  [garbage] is the content of the block that [Malloc]
    hands out for the priorities matrix. *)
Definition template_locate (garbage : nat -> Z) (st : Store) (name_ : String)
    (instantiated_parms : ParmList) (symname : option String) (tscope : option Symtab)
    : Outcome (option NodeId) * list Diag :=
  match Swig_symbol_clookup name_ None with
  | Some templ =>
      let primary_scope := sym_symtab (st templ) in
      let '(expandedparms, parms) := prepare_parms st templ instantiated_parms tscope in
      let tname := SwigType_add_template name_ expandedparms in
      match search_explicit tname primary_scope tscope with
      | Some n =>
          let '(r, ds) := found_by_name st name_ instantiated_parms symname n in (Ret r, ds)
      | None =>
          let parms_len := length parms in
          let '(possiblepartials, m) :=
            match partials (st templ) with
            | Some partials =>
                let max_possible_partials := length partials in
                let priorities_matrix := map garbage (seq 0 (max_possible_partials * parms_len)) in
                scan_partials st tscope parms partials [] 0 priorities_matrix
            | None => ([], [])
            end in
          match select_partial st primary_scope tname parms_len possiblepartials m with
          | (Ret n, ds) =>
              let n := match n with Some n => n | None => templ end in
              if Equal_lit (nodeType (st n)) "template" then (Ret (Some n), ds)
              else (Ret None, ds ++ [Error_not_a_template name_ (nodeType (st n))])
          | r => r
          end
      end
  | None => (Ret None, [Error_template_undefined name_])
  end.

End Locate.

Section LocateEntry.
Context `{TypeOps} `{Symbols}.

(** One pass over the chain of [sym:nextSibling] from [n] on, flagging the
    templates that [accept] and keeping the first of them in [match]. *)
Fixpoint mark_siblings (accept : ParmList -> bool) (fuel : nat) (st : Store)
    (n : option NodeId) (match_ : option NodeId) : Outcome (Store * option NodeId) :=
  match n with
  | None => Ret (st, match_)
  | Some n =>
      match fuel with
      | O => OutOfFuel
      | S fuel' =>
          let tparmsfound := templateparms (st n) in
          if Equal_lit (nodeType (st n)) "template" && accept tparmsfound then
            let st' := SetFlag_instantiate st n in
            mark_siblings accept fuel' st' (sym_nextSibling (st' n))
              (match match_ with Some m => Some m | None => Some n end)
          else mark_siblings accept fuel' st (sym_nextSibling (st n)) match_
      end
  end.

(** The test of the first pass: a template that is not variadic and has as
    many parameters as the instantiation. *)
Definition accept_nonvariadic (instantiated_parms tparmsfound : ParmList) : bool :=
  negb (bool_decide (is_Some (ParmList_variadic_parm tparmsfound)))
  && (ParmList_len instantiated_parms =? ParmList_len tparmsfound).

(** The test of the second pass. *)
Definition accept_variadic (instantiated_parms tparmsfound : ParmList) : bool :=
  bool_decide (is_Some (ParmList_variadic_parm tparmsfound))
  && (ParmList_len instantiated_parms >=? ParmList_len tparmsfound - 1).

(** The arity check on a templated class. *)
Definition arity_check (instantiated_parms tparmsfound : ParmList) : list Diag :=
  let specialized := bool_decide (tparmsfound = []) in
  let variadic := bool_decide (is_Some (ParmList_variadic_parm tparmsfound)) in
  if negb specialized then
    if negb variadic && (ParmList_len instantiated_parms >? ParmList_len tparmsfound) then
      [Error_too_many_parameters (ParmList_len tparmsfound)]
    else if ParmList_len instantiated_parms
            <? ParmList_numrequired tparmsfound - (if variadic then 1 else 0) then
      [Error_not_enough_parameters
         (ParmList_numrequired tparmsfound - (if variadic then 1 else 0))]
    else []
  else [].

(** [Swig_cparse_template_locate]: the node returned, the store with the
    [instantiate] flags set, and the diagnostics. *)
Definition Swig_cparse_template_locate (garbage : nat -> Z) (fuel : nat) (st : Store)
    (name_ : String) (instantiated_parms : ParmList) (symname : option String)
    (tscope : option Symtab) : Outcome (option NodeId) * Store * list Diag :=
  match template_locate garbage st name_ instantiated_parms symname tscope with
  | (Ret (Some n), ds) =>
      if negb (Equal_lit (nodeType (st n)) "template") then (Abort, st, ds)
      else
        let isclass := Equal_lit (templatetype (st n)) "class" in
        if isclass then
          let tparmsfound := templateparms (st n) in
          (Ret (Some n), SetFlag_instantiate st n,
           ds ++ arity_check instantiated_parms tparmsfound)
        else
          let firstn := Swig_symbol_clookup_local name_ None in
          match mark_siblings (accept_nonvariadic instantiated_parms) fuel st firstn None with
          | Ret (st1, Some m) => (Ret (Some m), st1, ds)
          | Ret (st1, None) =>
              match mark_siblings (accept_variadic instantiated_parms) fuel st1 firstn None with
              | Ret (st2, Some m) => (Ret (Some m), st2, ds)
              | Ret (st2, None) => (Ret None, st2, ds ++ [Error_template_undefined name_])
              | Abort => (Abort, st1, ds)
              | OutOfFuel => (OutOfFuel, st1, ds)
              end
          | Abort => (Abort, st, ds)
          | OutOfFuel => (OutOfFuel, st, ds)
          end
  | (r, ds) => (r, st, ds)
  end.

End LocateEntry.

(** The chain of [sym:nextSibling] that starts at [n] and ends with NULL. *)
Inductive sym_chain (st : Store) : option NodeId -> list NodeId -> Prop :=
| sym_chain_end : sym_chain st None []
| sym_chain_next n l :
    sym_chain st (sym_nextSibling (st n)) l -> sym_chain st (Some n) (n :: l).

(** The templates of a chain that a pass accepts. *)
Definition accepted (accept : ParmList -> bool) (st : Store) (l : list NodeId) : list NodeId :=
  filter (fun x => Equal_lit (nodeType (st x)) "template" && accept (templateparms (st x)) = true) l.

(** *** The selection in the words of the specification *)

(** The priority of the candidate [row] for the parameter [col]. *)
Definition entry (m : list Z) (parms_len row col : nat) : Z :=
  cell m (row * parms_len + col).

(** The entry equals the maximum of its column over the candidates. *)
Definition column_best (m : list Z) (posslen parms_len row col : nat) : bool :=
  forallb (fun row' => entry m parms_len row' col <=? entry m parms_len row col)
          (seq 0 posslen).

(** A candidate wins: it is column-best on every parameter. *)
Definition wins (m : list Z) (posslen parms_len row : nat) : bool :=
  forallb (column_best m posslen parms_len row) (seq 0 parms_len).

(** The elements of a list whose position, counted from [row], is kept. *)
Fixpoint select_rows {A} (keep : nat -> bool) (row : nat) (l : list A) : list A :=
  match l with
  | [] => []
  | x :: l' => (if keep row then [x] else []) ++ select_rows keep (S row) l'
  end.

(** The candidates that win, in the order of discovery. *)
Definition winners (m : list Z) (parms_len : nat) (possiblepartials : list NodeId)
    : list NodeId :=
  select_rows (wins m (length possiblepartials) parms_len) 0 possiblepartials.

(** ** The argument preparer *)

(** [merge_parameters]: the chain [expanded_templateparms] with the names,
    and the types that are missing, taken from [templateparms]. *)
Fixpoint merge_parameters (expanded_templateparms templateparms_ : ParmList) : ParmList :=
  match expanded_templateparms, templateparms_ with
  | p :: ps, tp :: tps =>
      mkParm (match parm_type p with Some t => Some t | None => parm_type tp end)
             (parm_value p) (parm_name tp) (parm_default p)
      :: merge_parameters ps tps
  | _, _ => expanded_templateparms
  end.

(** [mark_defaults]. *)
Definition mark_defaults (defaults : ParmList) : ParmList :=
  map (fun tp => set_parm_default tp (Some (str "1"))) defaults.

(** The string that [expand_defaults] rewrites for a parameter, and the one
    it substitutes for a parameter: its value, or its type without one. *)
Definition value_or_type (p : Parm) : option String :=
  match parm_value p with
  | Some v => Some v
  | None => parm_type p
  end.

Definition set_value_or_type (p : Parm) (s : String) : Parm :=
  match parm_value p with
  | Some _ => set_parm_value p (Some s)
  | None => set_parm_type p (Some s)
  end.

(** Modelled from the spec: the string that DOH's [Replace] substitutes
    when it is given the value, or without one the type, of [p]: a NULL
    replacement stands for the empty string. *)
Definition replacement_of (p : Parm) : String := default [] (value_or_type p).

(** One turn of the inner loop of [expand_defaults]: [Replaceid(tv, name,
    value)] with [tv] the string of the parameter at [i] and [name], [value]
    those of the parameter at [j], as they are at that point.  The string is
    rewritten in place.  Nothing is replaced in a NULL [tv]; a NULL [value]
    deletes the name. *)
Definition expand_defaults_step (l : ParmList) (i j : nat) : ParmList :=
  match l !! i, l !! j with
  | Some tp, Some p =>
      match value_or_type tp, parm_name p with
      | Some tv, Some name_ =>
          <[i := set_value_or_type tp (Replaceid tv name_ (replacement_of p)).1]> l
      | _, _ => l
      end
  | _, _ => l
  end.

(** [expand_defaults]. *)
Definition expand_defaults (expanded_templateparms : ParmList) : ParmList :=
  foldl (fun l i => foldl (fun l j => expand_defaults_step l i j) l (seq 0 (length l)))
        expanded_templateparms (seq 0 (length expanded_templateparms)).

(** [Swig_cparse_template_parms_expand]. *)
Definition Swig_cparse_template_parms_expand (instantiated_parms : ParmList) (primary : Node)
    : ParmList :=
  let templateparms_ := templateparms primary in
  if Equal_lit (templatetype primary) "class" then
    let expanded_templateparms := merge_parameters (CopyParmList instantiated_parms) templateparms_ in
    let variadic := bool_decide (is_Some (ParmList_variadic_parm templateparms_)) in
    if negb variadic then
      let defaults_start := ParmList_nth_parm templateparms_ (ParmList_len instantiated_parms) in
      match defaults_start with
      | [] => expanded_templateparms
      | _ =>
          let defaults := mark_defaults (CopyParmList defaults_start) in
          expand_defaults (ParmList_join expanded_templateparms defaults)
      end
    else expanded_templateparms
  else merge_parameters (CopyParmList instantiated_parms) templateparms_.

(** One turn of the inner loop of [expand_defaults], as a rewriting of the
    string [tv] of the parameter at [i]: the name of the parameter at [j] is
    replaced by its value, or by its type, and by the empty string if it has
    neither; the parameter at [i] itself stands for the string as rewritten
    so far. *)
Definition default_value_step (l : ParmList) (i : nat) (tv : String) (j : nat) : String :=
  match l !! j with
  | Some p =>
      match parm_name p with
      | Some name_ => (Replaceid tv name_ (if decide (j = i) then tv else replacement_of p)).1
      | None => tv
      end
  | None => tv
  end.

(** The string of the parameter at [i] when the inner loop reaches the
    parameter at [k], and once it has run on the whole list [l]. *)
Definition default_value_upto (l : ParmList) (i : nat) (tv : String) (k : nat) : String :=
  foldl (default_value_step l i) tv (seq 0 k).

Definition expand_default_value (l : ParmList) (i : nat) (tv : String) : String :=
  default_value_upto l i tv (length l).

(** The identifier [name] occurs in [s]: [Replaceid] would find it. *)
Definition occurs_id (name_ s : String) : bool :=
  match name_ with
  | [] => false
  | _ => bool_decide (is_Some (match_id s 0 name_))
  end.

(** An identifier: a name of identifier characters. *)
Definition identifier (t : String) : Prop := t <> [] /\ forallb idchar t = true.

(** The parameters of [l] that carry a name carry an identifier. *)
Definition named_by_identifiers (l : ParmList) : Prop :=
  Forall (fun tp => forall n, parm_name tp = Some n -> identifier n) l.

(** ** The expander: the store of strings and the tree *)

(** The strings of the tree are objects that the patch lists refer to and
    that are rewritten in place: they live in a store, and the tree and the
    lists hold their locations. *)
Definition loc := nat.
Abbreviation Strs := (list String).

(** A parameter of a node: the locations of its strings. *)
Record XParm := mkXParm {
  xp_type : option loc;
  xp_value : option loc;
  xp_name : option loc
}.

(** The value of an attribute of a node. *)
Inductive Attr :=
| AStr (l : loc)
| AParms (p : list XParm)
| AList (l : list loc)
| ATemplateParms (p : ParmList)
| ASymtab (s : Symtab).

(** A node of the tree to expand: its attributes by key, and its children
    from [firstChild] along [nextSibling]. *)
#[warnings="-register-all"]
Inductive XNode := mkXNode {
  x_attrs : gmap string Attr;
  x_children : list XNode
}.

Abbreviation Attrs := (gmap string Attr).

Definition Getattr (a : Attrs) (k : string) : option loc :=
  match a !! k with
  | Some (AStr l) => Some l
  | _ => None
  end.

Definition Getparms (a : Attrs) (k : string) : list XParm :=
  match a !! k with
  | Some (AParms p) => p
  | _ => []
  end.

Definition Getlist (a : Attrs) (k : string) : option (list loc) :=
  match a !! k with
  | Some (AList l) => Some l
  | _ => None
  end.

Definition Gettemplateparms (a : Attrs) : ParmList :=
  match a !! "templateparms"%string with
  | Some (ATemplateParms p) => p
  | _ => []
  end.

Definition Getsymtab (a : Attrs) (k : string) : option Symtab :=
  match a !! k with
  | Some (ASymtab s) => Some s
  | _ => None
  end.

(** [Setattr] with a string; a NULL value deletes the attribute. *)
Definition Setattr (a : Attrs) (k : string) (v : option loc) : Attrs :=
  match v with
  | Some l => <[k := AStr l]> a
  | None => delete k a
  end.

(** [Setattr] with a parameter list; NULL is the empty list. *)
Definition Setparms (a : Attrs) (k : string) (p : list XParm) : Attrs :=
  match p with
  | [] => delete k a
  | _ => <[k := AParms p]> a
  end.

(** The state of an expansion: the store, the three patch lists, and the
    static flag [expanded] of [cparse_template_expand]. *)
Record W := mkW {
  strs : Strs;
  patchlist : list loc;
  typelist : list loc;
  cpatchlist : list loc;
  expanded : bool
}.

(** Computations on that state that return, abort or do not end. *)
Definition M (A : Type) : Type := W -> Outcome (A * W).

Definition ret {A} (a : A) : M A := fun w => Ret (a, w).

Definition bind {A B} (m : M A) (k : A -> M B) : M B :=
  fun w =>
    match m w with
    | Ret (a, w') => k a w'
    | Abort => Abort
    | OutOfFuel => OutOfFuel
    end.

Notation "x <- m ;; k" := (bind m (fun x => k))
  (at level 100, m at next level, right associativity).
Notation "m ;;; k" := (bind m (fun _ => k))
  (at level 100, right associativity).

Definition abort {A} : M A := fun _ => Abort.
Definition diverge {A} : M A := fun _ => OutOfFuel.

(** [assert(b)]. *)
Definition assert_ (b : bool) : M unit := if b then ret tt else abort.

(** A pointer that the C code reads through: the run ends on NULL. *)
Definition need {A} (o : option A) : M A :=
  match o with
  | Some a => ret a
  | None => abort
  end.

(** The text of the string at [l]. *)
Definition Char (h : Strs) (l : loc) : String := h !!! l.
Definition Char_opt (h : Strs) (o : option loc) : option String := Char h <$> o.

Definition read (l : loc) : M String := fun w => Ret (Char (strs w) l, w).
Definition read_opt (o : option loc) : M (option String) :=
  fun w => Ret (Char_opt (strs w) o, w).

(** Rewrite the string at [l] in place. *)
Definition write (l : loc) (s : String) : M unit :=
  fun w => Ret (tt, mkW (<[l := s]> (strs w)) (patchlist w) (typelist w) (cpatchlist w)
                        (expanded w)).

(** A new string object. *)
Definition alloc (s : String) : M loc :=
  fun w => Ret (length (strs w),
                mkW (strs w ++ [s]) (patchlist w) (typelist w) (cpatchlist w) (expanded w)).

Definition alloc_opt (s : option String) : M (option loc) :=
  match s with
  | Some s => l <- alloc s ;; ret (Some l)
  | None => ret None
  end.

(** [Copy] of a possibly NULL string. *)
Definition Copy (o : option loc) : M (option loc) :=
  s <- read_opt o ;; alloc_opt s.

(** [Append(list, item)]; a NULL item is not appended. *)
Definition Append_item (l : list loc) (o : option loc) : list loc :=
  match o with
  | Some x => l ++ [x]
  | None => l
  end.

Definition Append_patchlist (o : option loc) : M unit :=
  fun w => Ret (tt, mkW (strs w) (Append_item (patchlist w) o) (typelist w) (cpatchlist w)
                        (expanded w)).
Definition Append_typelist (o : option loc) : M unit :=
  fun w => Ret (tt, mkW (strs w) (patchlist w) (Append_item (typelist w) o) (cpatchlist w)
                        (expanded w)).
Definition Append_cpatchlist (o : option loc) : M unit :=
  fun w => Ret (tt, mkW (strs w) (patchlist w) (typelist w) (Append_item (cpatchlist w) o)
                        (expanded w)).

Definition get_expanded : M bool := fun w => Ret (expanded w, w).
Definition set_expanded (b : bool) : M unit :=
  fun w => Ret (tt, mkW (strs w) (patchlist w) (typelist w) (cpatchlist w) b).

Definition get_typelist : M (list loc) := fun w => Ret (typelist w, w).
Definition get_patchlist : M (list loc) := fun w => Ret (patchlist w, w).
Definition get_cpatchlist : M (list loc) := fun w => Ret (cpatchlist w, w).

(** A loop over a list that threads an accumulator. *)
Fixpoint foldM {A B} (f : B -> A -> M B) (b : B) (l : list A) : M B :=
  match l with
  | [] => ret b
  | a :: l' => b' <- f b a ;; foldM f b' l'
  end.

Definition iterM {A} (f : A -> M unit) (l : list A) : M unit :=
  foldM (fun _ a => f a) tt l.

(** ** The expander: pack expansion and the tree walker *)

(** Modelled from the spec: [Replaceid] on a token or a replacement that
    may be NULL: DOH replaces nothing for a NULL token, and takes the empty
    string for a NULL replacement. *)
Definition Replaceid_opt (s : String) (token rep : option String) : String :=
  match token with
  | Some t => (Replaceid s t (default [] rep)).1
  | None => s
  end.

(** [ParmList_variadic_parm] on the parameters of a node. *)
Definition XParmList_variadic_parm (h : Strs) (p : list XParm) : option XParm :=
  match last p with
  | Some q => if SwigType_isvariadic (Char_opt h (xp_type q)) then Some q else None
  | None => None
  end.

Definition has_attr (a : Attrs) (k : string) : bool := bool_decide (is_Some (a !! k)).

Section Walker.
Context `{TypeOps} `{Symbols}.

(** [add_parms]; the two lists it appends to are given by their append
    operations. *)
Fixpoint add_parms (p : list XParm) (Append_patch Append_type : option loc -> M unit)
    (is_pattern : bool) : M unit :=
  match p with
  | [] => ret tt
  | q :: p' =>
      Append_type (xp_type q) ;;;
      Append_type (xp_value q) ;;;
      (if is_pattern then Append_type (xp_name q) else ret tt) ;;;
      Append_patch (xp_value q) ;;;
      add_parms p' Append_patch Append_type is_pattern
  end.

(** The parameter that takes the place of the variadic one for the pack
    argument [ep]: a copy of [ep] whose type is [newtype]. *)
Definition expand_one (type : String) (unexpanded_name : option String) (ep : Parm)
    : M XParm :=
  v <- alloc_opt (parm_value ep) ;;
  nm <- alloc_opt (parm_name ep) ;;
  newtype <- need (SwigType_del_variadic type) ;;
  t <- alloc (Replaceid_opt newtype unexpanded_name (parm_type ep)) ;;
  ret (mkXParm (Some t) v nm).

(** [expand_variadic_parms] on the attribute [attribute] of a node with
    attributes [a]. *)
Definition expand_variadic_parms (a : Attrs) (attribute : string)
    (unexpanded_variadic_parm : option Parm) (expanded_variadic_parms : ParmList) : M Attrs :=
  let p := Getparms a attribute in
  match unexpanded_variadic_parm with
  | None => ret a
  | Some u =>
      fun w =>
        match XParmList_variadic_parm (strs w) p with
        | None => ret a w
        | Some variadic =>
            (type <- (l <- need (xp_type variadic) ;; read l) ;;
             let unexpanded_name := parm_name u in
             expanded <- foldM (fun acc ep =>
                                  x <- expand_one type unexpanded_name ep ;; ret (acc ++ [x]))
                               [] expanded_variadic_parms ;;
             ret (Setparms a attribute (ParmList_replace_last p expanded))) w
        end
  end.

(** [expand_parms]. *)
Definition expand_parms (a : Attrs) (attribute : string)
    (unexpanded_variadic_parm : option Parm) (expanded_variadic_parms : ParmList)
    (Append_patch Append_type : option loc -> M unit) (is_pattern : bool) : M Attrs :=
  a' <- expand_variadic_parms a attribute unexpanded_variadic_parm expanded_variadic_parms ;;
  add_parms (Getparms a' attribute) Append_patch Append_type is_pattern ;;;
  ret a'.

(** [checkAttribute(n, k, lit)]. *)
Definition checkAttribute (a : Attrs) (k : string) (lit : string) : M bool :=
  v <- read_opt (Getattr a k) ;; ret (Equal_lit v lit).

(** The branch for a [cdecl] node. *)
Definition expand_cdecl (a : Attrs) (uvp : option Parm) (evp : ParmList) : M Attrs :=
  Append_typelist (Getattr a "type") ;;;
  Append_typelist (Getattr a "decl") ;;;
  Append_patchlist (Getattr a "value") ;;;
  Append_cpatchlist (Getattr a "code") ;;;
  (if has_attr a "conversion_operator" then
     Append_cpatchlist (Getattr a "name") ;;;
     Append_cpatchlist (Getattr a "sym:name")
   else ret tt) ;;;
  friend <- checkAttribute a "storage" "friend" ;;
  a <- (if friend then
          a <- match Getattr a "sym:name" with
               | Some symname =>
                   sn <- read symname ;;
                   stripped_name <- alloc (SwigType_templateprefix sn) ;;
                   ret (Setattr a "sym:name" (Some stripped_name))
               | None => ret a
               end ;;
          Append_typelist (Getattr a "name") ;;;
          ret a
        else ret a) ;;
  a <- expand_parms a "parms" uvp evp Append_cpatchlist Append_typelist false ;;
  expand_parms a "throws" uvp evp Append_cpatchlist Append_typelist false.

(** The items of a list of base classes from index [ilen - k] on. *)
Fixpoint patch_bases (uvp : option Parm) (evp : ParmList) (ilen k : nat) (bases : list loc)
    : M (list loc) :=
  match k with
  | O => ret bases
  | S k' =>
      let i := (ilen - k)%nat in
      item <- need (bases !! i) ;;
      s <- read item ;;
      name_ <- alloc s ;;
      if SwigType_isvariadic (Some s) then
        parm_type_ <- alloc s ;;
        let temp_parm_node := Setparms ∅ "variadicbaseparms" [mkXParm (Some parm_type_) None None] in
        assert_ (bool_decide (i = (ilen - 1)%nat)) ;;;
        let bases := delete i bases in
        temp_parm_node <- expand_variadic_parms temp_parm_node "variadicbaseparms" uvp evp ;;
        bases <- foldM (fun bases vp =>
                          name_ <- Copy (xp_type vp) ;;
                          Append_typelist name_ ;;;
                          ret (Append_item bases name_))
                       bases (Getparms temp_parm_node "variadicbaseparms") ;;
        patch_bases uvp evp ilen k' bases
      else
        Append_typelist (Some name_) ;;;
        patch_bases uvp evp ilen k' (<[i := name_]> bases)
  end.

(** The patching of the three lists of base classes of a [class] node. *)
Definition expand_class_bases (a : Attrs) (uvp : option Parm) (evp : ParmList) : M Attrs :=
  foldM (fun a baselist =>
           match Getlist a baselist with
           | Some bases =>
               bases' <- patch_bases uvp evp (length bases) (length bases) bases ;;
               ret (<[baselist := AList bases']> a)
           | None => ret a
           end)
        a ["baselist"; "protectedbaselist"; "privatebaselist"]%string.

(** [Replaceid(s, token, rep)] on the string at [l], in place. *)
Definition Replaceid_at (l : loc) (token rep : String) : M unit :=
  s <- read l ;; write l (Replaceid s token rep).1.

(** [Replace(s, token, rep, DOH_REPLACE_ANY)] on the string at [l]. *)
Definition Replace_any_at (l : loc) (token rep : String) : M unit :=
  s <- read l ;; write l (Replace_any s token rep).1.

(** [Append(s, x)] on the string at [l]. *)
Definition Append_at (l : loc) (x : String) : M unit :=
  s <- read l ;; write l (s ++ x).

Definition contains_lt (s : String) : bool := strchr s "<"%char.

(** The branch for a [constructor] node. *)
Definition expand_constructor (a : Attrs) (tname rname templateargs : String)
    (uvp : option Parm) (evp : ParmList) : M Attrs :=
  (if negb (has_attr a "templatetype") then
     name_ <- need (Getattr a "name") ;;
     nm <- read name_ ;;
     (let stripped_name := SwigType_templateprefix nm in
      if Strstr tname stripped_name then Replaceid_at name_ stripped_name tname else ret tt) ;;;
     match Getattr a "sym:name" with
     | Some symname =>
         sn <- read symname ;;
         let stripped_name := SwigType_templateprefix sn in
         if Strstr tname stripped_name then Replaceid_at symname stripped_name tname else ret tt
     | None => ret tt
     end ;;;
     nm <- read name_ ;;
     (if contains_lt nm then Append_patchlist (Getattr a "name")
      else Append_at name_ templateargs) ;;;
     match Getattr a "sym:name" with
     | Some name_ =>
         sn <- read name_ ;;
         if contains_lt sn then write name_ rname
         else write name_ (Replace_any sn tname rname).1
     | None => ret tt
     end
   else ret tt) ;;;
  Append_cpatchlist (Getattr a "code") ;;;
  Append_typelist (Getattr a "decl") ;;;
  a <- expand_parms a "parms" uvp evp Append_cpatchlist Append_typelist false ;;
  expand_parms a "throws" uvp evp Append_cpatchlist Append_typelist false.

(** The branch for a [destructor] node; [is_dtor_of_template] is the test on
    its parent. *)
Definition expand_destructor (a : Attrs) (is_dtor_of_template : bool)
    (tname rname templateargs : String) : M Attrs :=
  if is_dtor_of_template then
    match Getattr a "name" with
    | Some name_ =>
        nm <- read name_ ;;
        if contains_lt nm then Append_patchlist (Getattr a "name")
        else Append_at name_ templateargs
    | None => ret tt
    end ;;;
    a <- match Getattr a "sym:name" with
         | Some name_ =>
             sn <- read name_ ;;
             if contains_lt sn then
               sn' <- alloc tname ;; ret (Setattr a "sym:name" (Some sn'))
             else Replace_any_at name_ tname rname ;;; ret a
         | None => ret a
         end ;;
    Append_cpatchlist (Getattr a "code") ;;;
    ret a
  else ret a.

(** The branch for a [using] node. *)
Definition expand_using (a : Attrs) : M Attrs :=
  match Getattr a "uname" with
  | Some uname =>
      u <- read uname ;;
      (if contains_lt u then Append_patchlist (Some uname) else ret tt) ;;;
      ret a
  | None => ret a
  end.

(** The last branch, before its children are visited. *)
Definition expand_other (a : Attrs) (uvp : option Parm) (evp : ParmList) : M Attrs :=
  Append_cpatchlist (Getattr a "code") ;;;
  Append_typelist (Getattr a "type") ;;;
  Append_typelist (Getattr a "decl") ;;;
  a <- expand_parms a "parms" uvp evp Append_cpatchlist Append_typelist false ;;
  a <- expand_parms a "kwargs" uvp evp Append_cpatchlist Append_typelist false ;;
  a <- expand_parms a "pattern" uvp evp Append_cpatchlist Append_typelist true ;;
  expand_parms a "throws" uvp evp Append_cpatchlist Append_typelist false.

(** The test of the [destructor] branch: the parent is the root template
    node, or an [extend] node under it.  [anc] lists the node types of the
    ancestors inside the tree, the parent first. *)
Definition dtor_of_template (anc : list (option String)) : bool :=
  match anc with
  | [_] => true
  | [parent; _] => Equal_lit parent "extend"
  | _ => false
  end.

(** [cparse_template_expand] on the node [n]; the root is visited with
    [anc = []].  A [template] node whose [templatetype] is again "template"
    is visited without end. *)
Fixpoint cparse_template_expand (anc : list (option String)) (n : XNode)
    (tname rname templateargs : String) (uvp : option Parm) (evp : ParmList) {struct n}
    : M XNode :=
  match n with
  | mkXNode a children =>
      let visit_children (nodeType_ : option String) : M (list XNode) :=
        (fix visit (cs : list XNode) : M (list XNode) :=
           match cs with
           | [] => ret []
           | cn :: cs' =>
               cn' <- cparse_template_expand (nodeType_ :: anc) cn tname rname templateargs
                        uvp evp ;;
               cs'' <- visit cs' ;;
               ret (cn' :: cs'')
           end) children in
      let branches (a : Attrs) (nodeType_ : option String) : M XNode :=
        if Equal_lit nodeType_ "cdecl" then
          a' <- expand_cdecl a uvp evp ;; ret (mkXNode a' children)
        else if Equal_lit nodeType_ "class" then
          a' <- expand_class_bases a uvp evp ;;
          cs <- visit_children nodeType_ ;;
          ret (mkXNode a' cs)
        else if Equal_lit nodeType_ "constructor" then
          a' <- expand_constructor a tname rname templateargs uvp evp ;;
          ret (mkXNode a' children)
        else if Equal_lit nodeType_ "destructor" then
          a' <- expand_destructor a (dtor_of_template anc) tname rname templateargs ;;
          ret (mkXNode a' children)
        else if Equal_lit nodeType_ "using" then
          a' <- expand_using a ;; ret (mkXNode a' children)
        else
          a' <- expand_other a uvp evp ;;
          cs <- visit_children nodeType_ ;;
          ret (mkXNode a' cs) in
      if has_attr a "error" then ret n
      else
        nodeType_ <- read_opt (Getattr a "nodeType") ;;
        if Equal_lit nodeType_ "template" then
          let a1 := Setattr a "nodeType" (Getattr a "templatetype") in
          nodeType1 <- read_opt (Getattr a1 "nodeType") ;;
          if Equal_lit nodeType1 "template" then diverge
          else
            e <- get_expanded ;;
            if negb e then
              set_expanded true ;;;
              n' <- branches a1 nodeType1 ;;
              set_expanded false ;;;
              ret n'
            else
              n' <- branches a1 nodeType1 ;;
              l <- alloc (str "template") ;;
              ret (mkXNode (Setattr (x_attrs n') "nodeType" (Some l)) (x_children n'))
        else branches a nodeType_
  end.

End Walker.

(** *** The parameters of a node, by value *)

(** The parameter that the locations of [x] denote in the store [h]. *)
Definition parm_view (h : Strs) (x : XParm) : Parm :=
  mkParm (Char_opt h (xp_type x)) (Char_opt h (xp_value x)) (Char_opt h (xp_name x)) None.

Definition parms_view (h : Strs) (l : list XParm) : ParmList := map (parm_view h) l.

(** The strings of [x] are objects of the store [h]. *)
Definition allocated (h : Strs) (x : XParm) : Prop :=
  (forall l, xp_type x = Some l -> (l < length h)%nat) /\
  (forall l, xp_value x = Some l -> (l < length h)%nat) /\
  (forall l, xp_name x = Some l -> (l < length h)%nat).

(** The parameter that pack expansion makes of the pack argument [ep]:
    a copy of [ep] whose type is the type [rest] of the variadic parameter,
    its marker deleted, with the name of the pack replaced by the type of
    [ep]. *)
Definition expanded_parm (rest : String) (unexpanded_name : option String) (ep : Parm) : Parm :=
  mkParm (Some (Replaceid_opt rest unexpanded_name (parm_type ep)))
         (parm_value ep) (parm_name ep) None.

(** A state that differs from [w] by new strings only. *)
Definition with_strs (w : W) (h : Strs) : W :=
  mkW h (patchlist w) (typelist w) (cpatchlist w) (expanded w).

(** ** The expander: the entry point and the substitution engine *)

Section Substitution.
Context `{TypeOps} `{Symbols}.

(** [partial_arg]. *)
Definition partial_arg (s p : String) : String :=
  match strstr p (str "$") with
  | None => s
  | Some c => (Replace_first s (take c p) []).1
  end.

(** The loop of [Swig_cparse_template_expand] over the partial arguments
    [p] and the arguments [tp]: the types of [tp] after it. *)
Fixpoint patch_partial_types (p tp : ParmList) : ParmList :=
  match p, tp with
  | q :: p', tq :: tp' =>
      match parm_type q, parm_type tq with
      | Some ptype, Some tptype => set_parm_type tq (Some (partial_arg tptype ptype))
      | _, _ => tq
      end :: patch_partial_types p' tp'
  | _, _ => tp
  end.

(** The default arguments after position [j] patched in place:
    [Replace(rvalue, name, dvalue, DOH_REPLACE_ID)]. *)
Definition patch_default_arguments (l : ParmList) (j : nat) (name_ dvalue : String) : ParmList :=
  imap (fun i rp =>
          if (j <? i)%nat then
            match parm_value rp with
            | Some rvalue => set_parm_value rp (Some (Replaceid rvalue name_ dvalue).1)
            | None => rp
            end
          else rp) l.

(** The test that guards the typename replacement: there is no type of the
    same name as the template which is not itself a template. *)
Definition replace_template_args (tynode : option Node) (tsname : option String) : bool :=
  let tyname := tynode ≫= sym_name in
  match tyname, tsname with
  | Some tyname, Some tsname =>
      negb (Equal tyname tsname) || bool_decide (is_Some (tynode ≫= templatetype))
  | _, _ => true
  end.

(** One turn of the loop over [typelist] for the parameter [name] with
    value [dvalue]. *)
Definition patch_type (st : Store) (tsname : option loc) (name_ dvalue tbase : String)
    (iname : loc) (uvp : option Parm) (evp : ParmList) (s : loc) : M unit :=
  c <- read s ;;
  assert_ (negb (SwigType_isvariadic (Some c))) ;;;
  let c1 := SwigType_variadic_replace c uvp evp in
  write s c1 ;;;
  let tynode := st <$> Swig_symbol_clookup c1 None in
  tsname_ <- read_opt tsname ;;
  if replace_template_args tynode tsname_ then
    write s (SwigType_typename_replace c1 name_ dvalue) ;;;
    c2 <- read s ;;
    iname_ <- read iname ;;
    write s (SwigType_typename_replace c2 tbase iname_)
  else ret tt.

(** One turn of the loop over [typelist] when there are no template
    parameters at all. *)
Definition patch_type_specialization (tbase : String) (iname : loc) (uvp : option Parm)
    (evp : ParmList) (s : loc) : M unit :=
  c <- read s ;;
  assert_ (negb (SwigType_isvariadic (Some c))) ;;;
  write s (SwigType_variadic_replace c uvp evp) ;;;
  c1 <- read s ;;
  iname_ <- read iname ;;
  write s (SwigType_typename_replace c1 tbase iname_).

(** The double quote character. *)
Definition dquote : String := [ascii_of_nat 34].

(** One turn of the loop over [cpatchlist]. *)
Definition patch_code (name_ valuestr : String) (s : loc) : M unit :=
  Replaceid_at s (str "#" ++ name_) (dquote ++ valuestr ++ dquote) ;;;
  Replaceid_at s name_ valuestr.

(** The pack arguments, as the chain of [tparms] stands. *)
Definition pack_arguments (templateparms_ tparms : ParmList) : ParmList :=
  match ParmList_variadic_parm templateparms_ with
  | Some _ => ParmList_nth_parm tparms (ParmList_len templateparms_ - 1)
  | None => []
  end.

(** The loop [while (p && tp)] of the substitution, at position [j]; once
    the arguments are used up, [p] runs along the template parameters
    themselves.  It returns the arguments and the template parameters, whose
    default values it patches in place. *)
Fixpoint patch_all (k j : nat) (st : Store) (tsdecl tscope : option Symtab)
    (tsname : option loc) (tbase : String) (iname : loc) (tparms tps : ParmList)
    : M (ParmList * ParmList) :=
  match k with
  | O => ret (tparms, tps)
  | S k' =>
      match tps !! j with
      | None => ret (tparms, tps)
      | Some tp =>
          let p := match tparms !! j with Some p => p | None => tp end in
          match parm_name tp with
          | Some name_ =>
              value <- need (value_or_type p) ;;
              let qvalue := Swig_symbol_typedef_reduce value tsdecl in
              let dvalue := Swig_symbol_type_qualify qvalue tsdecl in
              let dvalue := if SwigType_istemplate dvalue
                            then Swig_symbol_template_deftype dvalue tscope else dvalue in
              let valuestr := SwigType_str dvalue in
              let '(tparms, tps) :=
                match tparms !! j with
                | Some _ => (patch_default_arguments tparms j name_ dvalue, tps)
                | None => (tparms, patch_default_arguments tps j name_ dvalue)
                end in
              pl <- get_patchlist ;;
              iterM (fun s => Replaceid_at s name_ dvalue) pl ;;;
              tl <- get_typelist ;;
              iterM (patch_type st tsname name_ dvalue tbase iname
                       (ParmList_variadic_parm tps) (pack_arguments tps tparms)) tl ;;;
              cl <- get_cpatchlist ;;
              iterM (patch_code name_ valuestr) cl ;;;
              patch_all k' (S j) st tsdecl tscope tsname tbase iname tparms tps
          | None => patch_all k' (S j) st tsdecl tscope tsname tbase iname tparms tps
          end
      end
  end.

(** The loop of [cparse_fix_function_decl] that takes the trailing
    qualifiers and arrays off [prefix]; [None] when it does not end. *)
Fixpoint strip_qualifiers (fuel : nat) (prefix : String) : option String :=
  match SwigType_last prefix with
  | None => Some prefix
  | Some last_ =>
      if SwigType_isqualifier last_ || SwigType_isarray last_ then
        match fuel with
        | O => None
        | S fuel' => strip_qualifiers fuel' (take (length prefix - length last_) prefix)
        end
      else Some prefix
  end.

(** [cparse_fix_function_decl] on the strings at [decl] and [type]. *)
Definition cparse_fix_function_decl (decl type : loc) : M unit :=
  t <- read type ;;
  match strip_qualifiers (S (length (SwigType_prefix t))) (SwigType_prefix t) with
  | None => diverge
  | Some prefix =>
      let prefixLen := length prefix in
      if (0 <? prefixLen)%nat then
        Append_at decl prefix ;;;
        t <- read type ;;
        write type (drop prefixLen t)
      else ret tt
  end.

(** [cparse_postprocess_expanded_template]. *)
Fixpoint cparse_postprocess_expanded_template (n : XNode) : M unit :=
  match n with
  | mkXNode a children =>
      if has_attr a "error" then ret tt
      else
        nodeType_ <- read_opt (Getattr a "nodeType") ;;
        if Equal_lit nodeType_ "cdecl" then
          match Getattr a "decl" with
          | Some d =>
              dc <- read d ;;
              if SwigType_isfunction dc then
                match Getattr a "type" with
                | Some t => cparse_fix_function_decl d t
                | None => ret tt
                end
              else ret tt
          | None => ret tt
          end
        else
          (fix visit (cs : list XNode) : M unit :=
             match cs with
             | [] => ret tt
             | cn :: cs' => cparse_postprocess_expanded_template cn ;;; visit cs'
             end) children
  end.

(** [Swig_cparse_template_expand]: the value returned, the node, and the
    arguments [tparms], whose strings are rewritten as well.  [st] holds the
    nodes that the symbol table refers to.  A node without a name is read
    through a NULL pointer by [Swig_scopename_last]. *)
Definition Swig_cparse_template_expand (st : Store) (n : XNode) (rname : String)
    (tparms : ParmList) (tscope : option Symtab) : M (Z * XNode * ParmList) :=
  let templateargs := SwigType_add_template [] tparms in
  tname <- (l <- need (Getattr (x_attrs n) "name") ;; read l) ;;
  let tbase := Swig_scopename_last tname in
  tparms <- match Getattr (x_attrs n) "partialargs" with
            | Some partialargs =>
                pa <- read partialargs ;;
                let ptargs := SwigType_function_parms pa in
                let tparms' := patch_partial_types ptargs tparms in
                assert_ (ParmList_len ptargs =? ParmList_len tparms') ;;;
                ret tparms'
            | None => ret tparms
            end ;;
  let templateparms_ := Gettemplateparms (x_attrs n) in
  let unexpanded_variadic_parm := ParmList_variadic_parm templateparms_ in
  let expanded_variadic_parms := pack_arguments templateparms_ tparms in
  n <- cparse_template_expand [] n tname rname templateargs unexpanded_variadic_parm
         expanded_variadic_parms ;;
  iname <- need (Getattr (x_attrs n) "name") ;;
  Append_at iname templateargs ;;;
  r <- match tparms, Gettemplateparms (x_attrs n) with
       | _ :: _, _ :: _ =>
           let tsdecl := Getsymtab (x_attrs n) "sym:symtab" in
           let tsname := Getattr (x_attrs n) "sym:name" in
           patch_all (length (Gettemplateparms (x_attrs n))) 0 st tsdecl tscope tsname tbase
             iname tparms (Gettemplateparms (x_attrs n))
       | _, _ =>
           tl <- get_typelist ;;
           iterM (patch_type_specialization tbase iname unexpanded_variadic_parm
                    expanded_variadic_parms) tl ;;;
           ret (tparms, Gettemplateparms (x_attrs n))
       end ;;
  let '(tparms, tps) := r in
  let n := mkXNode (match tps with
                    | [] => x_attrs n
                    | _ => <["templateparms"%string := ATemplateParms tps]> (x_attrs n)
                    end) (x_children n) in
  cparse_postprocess_expanded_template n ;;;
  match Getlist (x_attrs n) "baselist" with
  | Some bases =>
      iterM (fun item => b <- read item ;; write item (Swig_symbol_type_qualify b tscope)) bases
  | None => ret tt
  end ;;;
  ret (0, n, tparms).

(** A call of [Swig_cparse_template_expand] on the store [h]: the patch
    lists are new and empty, and [expanded] is 0 between calls. *)
Definition run_template_expand (st : Store) (h : Strs) (n : XNode) (rname : String)
    (tparms : ParmList) (tscope : option Symtab) : Outcome (Z * XNode * ParmList * Strs) :=
  match Swig_cparse_template_expand st n rname tparms tscope (mkW h [] [] [] false) with
  | Ret (r, w) => Ret (r, strs w)
  | Abort => Abort
  | OutOfFuel => OutOfFuel
  end.

End Substitution.

(** ** A small environment to run the model on *)

Module Demo.

(** Where the scan of [SwigType_base] is: at the top level, or inside a
    template or a parameter list, with the depth of nesting. *)
Inductive scan_mode := Top | InTemplate (depth : nat) | InParens (depth : nat).

Definition step_depth (opening closing ch : ascii) (depth : nat) : nat :=
  if Ascii.eqb ch closing then (depth - 1)%nat
  else if Ascii.eqb ch opening then S depth
  else depth.

Fixpoint base_scan (c lastop : String) (m : scan_mode) : String :=
  match c with
  | [] => lastop
  | ch :: c' =>
      match m with
      | Top =>
          if Ascii.eqb ch "."%char then
            base_scan c' (match c' with [] => lastop | _ => c' end) Top
          else if Ascii.eqb ch "<"%char then base_scan c' lastop (InTemplate 1)
          else if Ascii.eqb ch "("%char then base_scan c' lastop (InParens 1)
          else base_scan c' lastop Top
      | InTemplate d =>
          let d' := step_depth "<"%char ">"%char ch d in
          base_scan c' lastop (match d' with O => Top | _ => InTemplate d' end)
      | InParens d =>
          let d' := step_depth "("%char ")"%char ch d in
          base_scan c' lastop (match d' with O => Top | _ => InParens d' end)
      end
  end.

(** Modelled from the spec: [SwigType_base], the terminal base name of an
    encoded type: what follows the last separator [.] that is outside of
    template arguments and parameter lists. *)
Definition base (t : String) : String := base_scan t t Top.

Fixpoint join_comma (l : list String) : String :=
  match l with
  | [] => []
  | [x] => x
  | x :: l' => x ++ str "," ++ join_comma l'
  end.

(** Modelled from the spec: [SwigType_add_template], the encoded template
    tail [<(a1,...,an)>] of the arguments that are not defaults, appended to
    the name. *)
Definition add_template (t : String) (parms : ParmList) : String :=
  t ++ str "<(" ++
  join_comma (map (fun p => default [] (value_or_type p))
                  (filter (fun p => parm_default p = None) parms)) ++
  str ")>".

(** Modelled from the spec: [SwigType_templateprefix], the name without its
    template tail. *)
Definition templateprefix (t : String) : String :=
  match strstr t (str "<(") with
  | Some k => take k t
  | None => t
  end.

(** The operations on types of the examples.  The typename replacement
    stands for [SwigType_typename_replace] by an identifier replacement; the
    operations that the examples do not reach are trivial. *)
Definition type_ops : TypeOps := {|
  SwigType_base := base;
  SwigType_add_template := add_template;
  SwigType_typename_replace := fun s n v => (Replaceid s n v).1;
  SwigType_variadic_replace := fun s _ _ => s;
  SwigType_templateprefix := templateprefix;
  SwigType_prefix := fun t => take (length t - length (base t)) t;
  SwigType_last := fun _ => None;
  SwigType_isfunction := fun t => is_prefix (str "f(") t;
  SwigType_isqualifier := fun t => is_prefix (str "q(") t;
  SwigType_isarray := fun t => is_prefix (str "a(") t;
  SwigType_istemplate := fun t => Strstr t (str "<(");
  SwigType_str := fun t => t;
  SwigType_namestr := fun t => t;
  SwigType_function_parms := fun _ => [];
  SwigType_is_void := fun t => Equal_lit t "void";
  Swig_scopename_last := fun t => t
|}.

Definition lookup_table (tbl : list (String * NodeId)) (s : String) : option NodeId :=
  snd <$> List.find (fun e => Equal e.1 s) tbl.

(** A symbol table without typedefs and with one scope: the names of [tbl]. *)
Definition table_symbols (tbl : list (String * NodeId)) : Symbols := {|
  Swig_symbol_clookup := fun s _ => lookup_table tbl s;
  Swig_symbol_clookup_local := fun s _ => lookup_table tbl s;
  Swig_symbol_typedef_reduce := fun t _ => t;
  Swig_symbol_type_qualify := fun t _ => t;
  Swig_symbol_template_deftype := fun t _ => t;
  Swig_symbol_template_defargs := fun parms _ _ _ => parms
|}.

(** A node without attributes. *)
Definition no_node : Node :=
  mkNode None None None None None None None [] None [] None None None None.

(** A type argument. *)
Definition targ (t : string) : Parm := mkParm (Some (str t)) None None None.

(** A type parameter of a template, with its name and its default. *)
Definition tparm (t : string) (n : string) (v : option String) : Parm :=
  mkParm (Some (str t)) v (Some (str n)) None.

(** A class template [X] with the template parameters [parms], as node 1;
    node 2 is a class that an instantiation of it made under the name
    [IntBox]; node 3 is one that an empty instantiation made. *)
Definition template_node (kind : string) (parms : ParmList) : Node :=
  mkNode (Some (str "template")) (Some (str "X")) (Some (str "X")) None None None
         (Some (str kind)) parms None [] None None None None.

Definition instantiated_node (symname : string) (hidden_ : option String) : Node :=
  mkNode (Some (str "class")) (Some (str "X<(int)>")) (Some (str symname)) None None None
         None [] None [] None (Some 1%nat) hidden_ None.

Definition class_store (parms : ParmList) : Store :=
  fun k =>
    match k with
    | 1%nat => template_node "class" parms
    | 2%nat => instantiated_node "IntBox" None
    | 3%nat => instantiated_node "__dummy_0__" (Some (str "1"))
    | _ => no_node
    end.

Definition one_parameter : ParmList := [tparm "typename" "T" None].

(** Three overloaded function templates [f], chained as siblings in the
    symbol table: [template<typename T> f], [template<typename T, typename U>
    f] and [template<typename... Args> f]. *)
Definition function_template (parms : ParmList) (next : option NodeId) : Node :=
  mkNode (Some (str "template")) (Some (str "f")) (Some (str "f")) None next None
         (Some (str "cdecl")) parms None [] None None None None.

Definition function_store : Store :=
  fun k =>
    match k with
    | 1%nat => function_template [tparm "typename" "T" None] (Some 2%nat)
    | 2%nat => function_template [tparm "typename" "T" None; tparm "typename" "U" None]
                 (Some 3%nat)
    | 3%nat => function_template [tparm "v.typename" "Args" None] None
    | _ => no_node
    end.

(** The class template [template<typename T> X] with the two partial
    specializations [X<T *>] (node 4) and [X<const T *>] (node 5). *)
Definition partial_node (tname : string) (partialparms_ : ParmList) : Node :=
  mkNode (Some (str "template")) (Some (str tname)) (Some (str "X")) None None None
         (Some (str "class")) one_parameter None partialparms_ (Some (str tname))
         None None None.

Definition partial_store : Store :=
  fun k =>
    match k with
    | 1%nat => mkNode (Some (str "template")) (Some (str "X")) (Some (str "X")) None None None
                 (Some (str "class")) one_parameter (Some [4; 5]%nat) [] None None None None
    | 4%nat => partial_node "X<(p.$1)>" [targ "p.$1"]
    | 5%nat => partial_node "X<(p.q(const).$1)>" [targ "p.q(const).$1"]
    | _ => no_node
    end.

Definition partial_table : list (String * NodeId) :=
  [(str "X", 1%nat); (str "X<(p.$1)>", 4%nat); (str "X<(p.q(const).$1)>", 5%nat)].

(** [template<class K, class C = Less<K>> struct Map], with the parameter
    names [k] and [c] for the first and the second parameter. *)
Definition map_template (k c : string) (default_ : string) : Node :=
  mkNode (Some (str "template")) (Some (str "Map")) (Some (str "Map")) None None None
         (Some (str "class"))
         [tparm "typename" k None; tparm "typename" c (Some (str default_))]
         None [] None None None None.

(** [template<class K, class V = K, class C = Less<K>> struct Pair]. *)
Definition pair_template : Node :=
  mkNode (Some (str "template")) (Some (str "Pair")) (Some (str "Pair")) None None None
         (Some (str "class"))
         [tparm "typename" "K" None; tparm "typename" "V" (Some (str "K"));
          tparm "typename" "C" (Some (str "Less<(K)>"))]
         None [] None None None None.

(** [template<class... T> struct Tup], and the arguments of [Tup<A, B>] as
    [Swig_cparse_template_parms_expand] prepares them: the first one carries
    the name of the pack. *)
Definition tup_template : Node :=
  mkNode (Some (str "template")) (Some (str "Tup")) (Some (str "Tup")) None None None
         (Some (str "class")) [tparm "v.typename" "T" None] None [] None None None None.

Definition tup_args : ParmList :=
  Swig_cparse_template_parms_expand [targ "A"; targ "B"] tup_template.

(** [template<class T> struct Box { T x; Box(const T& v); };] as a tree, and
    the store of its strings. *)
Definition box_strs : Strs :=
  [str "template"; str "class"; str "Box"; str "Box";
   str "cdecl"; str "T"; str "x";
   str "constructor"; str "Box"; str "Box"; str "f(r.q(const).T)."; str "r.q(const).T";
   str "v"].

Definition box_tree : XNode :=
  mkXNode
    (list_to_map [("nodeType", AStr 0%nat); ("templatetype", AStr 1%nat); ("name", AStr 2%nat);
                  ("sym:name", AStr 3%nat);
                  ("templateparms", ATemplateParms one_parameter)]%string)
    [mkXNode (list_to_map [("nodeType", AStr 4%nat); ("type", AStr 5%nat); ("name", AStr 6%nat)]%string) [];
     mkXNode (list_to_map [("nodeType", AStr 7%nat); ("name", AStr 8%nat); ("sym:name", AStr 9%nat);
                           ("decl", AStr 10%nat);
                           ("parms", AParms [mkXParm (Some 11%nat) None (Some 12%nat)])]%string)
             []].

(** The argument [int] for the parameter [T]. *)
Definition box_int : ParmList := [mkParm (Some (str "int")) None (Some (str "T")) None].

(** [template<class... T> struct Tup { Tup(T&... t); };] as a tree, and the
    store of its strings. *)
Definition tup_strs : Strs :=
  [str "template"; str "class"; str "Tup"; str "Tup";
   str "constructor"; str "Tup"; str "Tup"; str "f(v.r.T)."; str "v.r.T"; str "t"].

Definition tup_tree : XNode :=
  mkXNode
    (list_to_map [("nodeType", AStr 0%nat); ("templatetype", AStr 1%nat); ("name", AStr 2%nat);
                  ("sym:name", AStr 3%nat);
                  ("templateparms", ATemplateParms (templateparms tup_template))]%string)
    [mkXNode (list_to_map [("nodeType", AStr 4%nat); ("name", AStr 5%nat); ("sym:name", AStr 6%nat);
                           ("decl", AStr 7%nat);
                           ("parms", AParms [mkXParm (Some 8%nat) None (Some 9%nat)])]%string)
             []].

(** [template<class... T> struct X : T..., Base {};] as a tree, and the
    store of its strings: the variadic base is not the last one. *)
Definition bases_strs : Strs :=
  [str "template"; str "class"; str "X"; str "X"; str "v.T"; str "Base"].

Definition bases_tree : XNode :=
  mkXNode
    (list_to_map [("nodeType", AStr 0%nat); ("templatetype", AStr 1%nat); ("name", AStr 2%nat);
                  ("sym:name", AStr 3%nat);
                  ("templateparms", ATemplateParms (templateparms tup_template));
                  ("baselist", AList [4%nat; 5%nat])]%string)
    [].
End Demo.

(** ** The statements of the specification that the code does not meet *)

Section AsStated.
Context `{TypeOps} `{Symbols}.

(** The priority law as the specification words it: the exact priority is
    returned just when no substitution took place and the reduced type is
    the substituted candidate; with one substitution the match is a deduced
    one just when the reduced type starts with the candidate without its
    placeholder, with the length of that prefix as priority; every other
    outcome is a no-match. *)
Definition priority_law_as_stated (type partial_parm_type placeholder_ : String)
    (tscope : option Symtab) : Prop :=
  let ty := Swig_symbol_typedef_reduce type tscope in
  let t := (Replaceid partial_parm_type placeholder_ (SwigType_base ty)).1 in
  let substitutions := (Replaceid partial_parm_type placeholder_ (SwigType_base ty)).2 in
  let prefix_ := (Replaceid partial_parm_type placeholder_ []).1 in
  let r := does_parm_match type partial_parm_type placeholder_ tscope in
  (r.2 = EXACT_MATCH_PRIORITY <-> substitutions = 0 /\ ty = t) /\
  (substitutions = 1 ->
     (r.1 = PartiallySpecializedMatch <-> prefix_ `prefix_of` ty) /\
     (r.1 = PartiallySpecializedMatch -> r.2 = Len prefix_)) /\
  (~ (substitutions = 0 /\ ty = t) -> ~ (substitutions = 1 /\ prefix_ `prefix_of` ty) ->
     EMatch_val r.1 < EMatch_val PartiallySpecializedMatch).

(** The arity law as the specification words it, for a class template that
    is not variadic, with [k] required and [total] parameters: the
    instantiation is accepted when [k <= len(args) <= total]; otherwise an
    arity error is emitted and no instantiation is returned. *)
Definition is_arity_error (d : Diag) : bool :=
  match d with
  | Error_too_many_parameters _ | Error_not_enough_parameters _ => true
  | _ => false
  end.

Definition arity_law_as_stated (garbage : nat -> Z) (fuel : nat) (st : Store) (name_ : String)
    (instantiated_parms : ParmList) (symname : option String) (tscope : option Symtab)
    : Prop :=
  forall n ds,
    template_locate garbage st name_ instantiated_parms symname tscope = (Ret (Some n), ds) ->
    Equal_lit (nodeType (st n)) "template" = true ->
    Equal_lit (templatetype (st n)) "class" = true ->
    templateparms (st n) <> [] ->
    ParmList_variadic_parm (templateparms (st n)) = None ->
    let k := ParmList_numrequired (templateparms (st n)) in
    let total := ParmList_len (templateparms (st n)) in
    let len := ParmList_len instantiated_parms in
    let r := Swig_cparse_template_locate garbage fuel st name_ instantiated_parms symname tscope in
    if (k <=? len) && (len <=? total) then
      r.1.1 = Ret (Some n) /\ r.2 = ds
    else
      r.1.1 = Ret None /\ exists e, e ∈ r.2 /\ is_arity_error e = true.

(** Pack expansion as the specification words it.  The parameter that
    takes the place of the variadic one for the pack argument [E]: its type
    is the type [rest] of the variadic parameter, the marker deleted, with
    the name of the pack replaced by the type of [E]; the incoming name is
    discarded. *)
Definition expanded_parm_as_stated (rest : String) (unexpanded_name : option String)
    (ep : Parm) : Parm :=
  mkParm (Some (Replaceid_opt rest unexpanded_name (parm_type ep))) (parm_value ep) None None.

(** When the parameter list of the attribute ends with a variadic parameter
    and a pack is in scope, the list becomes what stood before the variadic
    parameter followed by these parameters. *)
Definition pack_expansion_as_stated (a : Attrs) (attribute : string) (u : Parm)
    (expanded_variadic_parms : ParmList) (w : W) : Prop :=
  forall V rest,
    XParmList_variadic_parm (strs w) (Getparms a attribute) = Some V ->
    Char_opt (strs w) (xp_type V) = Some ("v"%char :: "."%char :: rest) ->
    exists a' w',
      expand_variadic_parms a attribute (Some u) expanded_variadic_parms w = Ret (a', w') /\
      parms_view (strs w') (Getparms a' attribute)
      = removelast (parms_view (strs w) (Getparms a attribute))
        ++ map (expanded_parm_as_stated rest (parm_name u)) expanded_variadic_parms.

(** The type strings that can be reached from a node: its attributes [type]
    and [decl], its base classes, the types of the parameters of its
    parameter lists and of its template parameters, and the type strings of
    its children. *)
Inductive type_string_of (h : Strs) : XNode -> option String -> Prop :=
| type_string_attr a cs k l :
    k = "type"%string \/ k = "decl"%string -> Getattr a k = Some l ->
    type_string_of h (mkXNode a cs) (Some (Char h l))
| type_string_base a cs k bases l :
    Getlist a k = Some bases -> l ∈ bases ->
    type_string_of h (mkXNode a cs) (Some (Char h l))
| type_string_parm a cs k q :
    q ∈ Getparms a k -> type_string_of h (mkXNode a cs) (Char_opt h (xp_type q))
| type_string_templateparm a cs q :
    q ∈ Gettemplateparms a -> type_string_of h (mkXNode a cs) (parm_type q)
| type_string_child a cs c t :
    c ∈ cs -> type_string_of h c t -> type_string_of h (mkXNode a cs) t.

(** The elimination of variadic types as the specification words it: after
    the expansion of a node, no type string that can be reached from it is
    variadic. *)
Definition variadic_elimination_as_stated (st : Store) (h : Strs) (n : XNode)
    (rname : String) (tparms : ParmList) (tscope : option Symtab) : Prop :=
  forall r n' tparms' h',
    run_template_expand st h n rname tparms tscope = Ret (r, n', tparms', h') ->
    forall t, type_string_of h' n' t -> SwigType_isvariadic t = false.

(** The specification's wording of the value returned: the call returns 0
    on every input. *)
Definition returns_zero_as_stated (st : Store) (h : Strs) (n : XNode) (rname : String)
    (tparms : ParmList) (tscope : option Symtab) : Prop :=
  exists n' tparms' h',
    run_template_expand st h n rname tparms tscope = Ret (0, n', tparms', h').

End AsStated.

(** ** Auxiliary definitions of the proofs *)

(** The loop over the rows of one column, with any flag function. *)
Definition flag_rows (g : Z -> Z) (C col : nat) (m : list Z) (rows : list nat) : list Z :=
  foldl (fun m row => <[(col + row * C)%nat := g (cell m (col + row * C))]> m) m rows.

Definition max_step (m : list Z) (C col : nat) (maxpriority : Z) (row : nat) : Z :=
  let priority := cell m (col + row * C) in
  if priority >? maxpriority then priority else maxpriority.

Definition flag (maxpriority priority : Z) : Z := if priority >=? maxpriority then 1 else 0.

(** The list after the outer loop has treated the parameters before [K]. *)
Definition defaults_upto (l : ParmList) (K : nat) : ParmList :=
  foldl (fun l i => foldl (fun l j => expand_defaults_step l i j) l (seq 0 (length l)))
        l (seq 0 K).

Definition treated (lK : ParmList) (k : nat) (tp : Parm) : Parm :=
  match value_or_type tp with
  | Some v0 => set_value_or_type tp (expand_default_value lK k v0)
  | None => tp
  end.

(** The test that [match_identifier] makes on an occurrence of [t] at the
    head of [u], [prev] telling whether an identifier character stands
    before it. *)
Definition id_here (t : String) (prev : bool) (u : String) : bool :=
  negb prev && is_prefix t u && negb (idchar (char_at u (length t))).

(** The offset in [u] of the first occurrence of the identifier [t]. *)
Fixpoint find_id (t : String) (prev : bool) (u : String) : option nat :=
  if id_here t prev u then Some 0%nat
  else match u with
       | [] => None
       | c :: u' => S <$> find_id t (idchar c) u'
       end.

(** Whether an identifier character stands before offset [s] of [base]. *)
Definition prev_id (base : String) (s : nat) : bool :=
  (0 <? s)%nat && idchar (char_at base (s - 1)).

(** Whether [a] ends with an identifier character, [p] telling what stands
    before [a]. *)
Definition last_id (p : bool) (a : String) : bool :=
  match last a with
  | Some c => idchar c
  | None => p
  end.

(** Nothing of an identifier can lie across the junction of [a] and [b]. *)
Definition separated (a b : String) : Prop :=
  a = [] \/ last_id true a = false \/ idchar (char_at b 0) = false.

Definition starts_variadic (s : String) : bool :=
  match s with
  | a :: b :: _ => Ascii.eqb a "v"%char && Ascii.eqb b "."%char
  | _ => false
  end.

(** ** Definitions for the further properties *)

(** Two stores that differ in flags [instantiate] only. *)
Definition flags_only (st st' : Store) : Prop :=
  forall k, flagged (st' k) = flagged (st k).

(** The string of an argument that [template_locate] matches against a
    partial specialization: its type, or its value without one. *)
Definition type_or_value (q : Parm) : option String :=
  match parm_type q with
  | Some t => Some t
  | None => parm_value q
  end.

Section Candidate.
Context `{TypeOps} `{Symbols}.

(** The parameter [qq] of a partial specialization matches the argument [q]
    at position [i], counted from 1. *)
Definition parm_matches (tscope : option Symtab) (i : nat) (q qq : Parm) : Prop :=
  forall t, type_or_value q = Some t ->
    exists pt, parm_type qq = Some pt /\
               EMatch_val PartiallySpecializedMatch
               <= EMatch_val (does_parm_match t pt (placeholder i) tscope).1.

End Candidate.

(** The state [w'] comes from [w] by appending to the patch lists and by
    creating or rewriting strings; the flag [expanded] is the same. *)
Definition extends (w w' : W) : Prop :=
  expanded w' = expanded w /\
  patchlist w `prefix_of` patchlist w' /\
  typelist w `prefix_of` typelist w' /\
  cpatchlist w `prefix_of` cpatchlist w' /\
  (length (strs w) <= length (strs w'))%nat.

(** Every run of [m] that returns extends the state. *)
Definition keeps {A} (m : M A) : Prop :=
  forall w a w', m w = Ret (a, w') -> extends w w'.

(** The attributes [a'] are those of [a] but for the keys of [K]. *)
Definition agree (K : list string) (a a' : Attrs) : Prop :=
  forall k, k ∉ K -> a' !! k = a !! k.

(** Every run of [m] that returns extends the state and returns the
    attributes [a0] but for the keys of [K]. *)
Definition changes_only (K : list string) (a0 : Attrs) (m : M Attrs) : Prop :=
  forall w a' w', m w = Ret (a', w') -> extends w w' /\ agree K a0 a'.

(** The keys that the branches of [cparse_template_expand] set, and those
    that it sets in all. *)
Definition branch_keys : list string :=
  ["sym:name"; "parms"; "throws"; "kwargs"; "pattern"; "baselist"; "protectedbaselist";
   "privatebaselist"]%string.
Definition walker_keys : list string := "nodeType"%string :: branch_keys.

(** The tree [n'] is the tree [n] but for the attributes of [K] of its
    nodes. *)
#[warnings="-register-all"]
Inductive same_but (K : list string) : XNode -> XNode -> Prop :=
| same_but_node a a' cs cs' :
    agree K a a' -> Forall2 (same_but K) cs cs' ->
    same_but K (mkXNode a cs) (mkXNode a' cs').

(** The keys that [Swig_cparse_template_expand] sets in the tree. *)
Definition expand_keys : list string := "templateparms"%string :: walker_keys.

(** The types of the parameters of [p] are registered in the list [tl]. *)
Definition registered (tl : list loc) (p : list XParm) : Prop :=
  Forall (fun q => forall l, xp_type q = Some l -> l ∈ tl) p.

(** Every parameter list of [a'] that is not the one [a] has under the same
    key is registered in [tl]. *)
Definition lists_registered (tl : list loc) (a a' : Attrs) : Prop :=
  forall k, Getparms a' k <> Getparms a k -> registered tl (Getparms a' k).

(** The same of the nodes of two trees, place by place. *)
#[warnings="-register-all"]
Inductive expansions_registered (tl : list loc) : XNode -> XNode -> Prop :=
| expansions_registered_node a a' cs cs' :
    lists_registered tl a a' -> Forall2 (expansions_registered tl) cs cs' ->
    expansions_registered tl (mkXNode a cs) (mkXNode a' cs').

(** Every run of [m] that returns extends the state, and has registered in
    [typelist] the parameter lists it has put in the place of those of
    [a0]. *)
Definition registers (a0 : Attrs) (m : M Attrs) : Prop :=
  forall w a' w', m w = Ret (a', w') -> extends w w' /\ lists_registered (typelist w') a0 a'.

#[local] Instance XParm_eq_dec : EqDecision XParm.
Proof. solve_decision. Defined.

(** The string objects that the nodes of a tree are named by: those bound
    to [name] and to [sym:name]. *)
Fixpoint name_locs (n : XNode) : list loc :=
  match n with
  | mkXNode a cs =>
      option_list (Getattr a "name") ++ option_list (Getattr a "sym:name")
      ++ flat_map name_locs cs
  end.

(** Every run of [m] that returns has deleted no string object, and has
    left the text of every string object that existed as it was, but for
    those of [L]. *)
Definition rewrites_only {A} (L : list loc) (m : M A) : Prop :=
  forall w a w', m w = Ret (a, w') ->
    (length (strs w) <= length (strs w'))%nat /\
    forall l, (l < length (strs w))%nat -> l ∉ L -> Char (strs w') l = Char (strs w) l.

(** *** The runs that return *)

(** Every run of [m] returns. *)
Definition total {A} (m : M A) : Prop := forall w, exists a w', m w = Ret (a, w').

(** Every run of [m] from a state of [P] returns, with a value and a state
    of [Q]. *)
Definition establishes {A} (P : W -> Prop) (m : M A) (Q : A -> W -> Prop) : Prop :=
  forall w, P w -> exists a w', m w = Ret (a, w') /\ Q a w'.

(** The keys of the three lists of base classes. *)
Definition base_keys : list string := ["baselist"; "protectedbaselist"; "privatebaselist"]%string.

(** Each list of base classes of a node has one base at most. *)
Definition short_bases (a : Attrs) : bool :=
  forallb (fun k => match Getlist a k with
                    | Some bases => (length bases <=? 1)%nat
                    | None => true
                    end) base_keys.

(** A node below the root that the walk gets through whatever the strings
    are: it is flagged with [error], or it is no template node, it has a
    name, each list of its base classes has one base at most, and its
    children are such nodes. *)
Fixpoint walkable (n : XNode) : bool :=
  match n with
  | mkXNode a cs =>
      has_attr a "error"
      || (negb (has_attr a "templatetype") && bool_decide (is_Some (Getattr a "name"))
          && short_bases a && forallb walkable cs)
  end.

(** The same of the node that is expanded, in the store [h]: it is not a
    template whose [templatetype] is "template" again. *)
Definition walkable_root (h : Strs) (n : XNode) : bool :=
  negb (Equal_lit (Char_opt h (Getattr (x_attrs n) "nodeType")) "template"
        && Equal_lit (Char_opt h (Getattr (x_attrs n) "templatetype")) "template")
  && short_bases (x_attrs n) && forallb walkable (x_children n).

(** A string that can be put into a type without making it variadic: it is
    not variadic, not empty and not the bare name [v]. *)
Definition plain (b : String) : bool :=
  negb (SwigType_isvariadic (Some b)) && bool_decide (b <> []) && bool_decide (b <> str "v").

Section Returns.
Context `{TypeOps} `{Symbols}.

(** The arguments as the loop over [partialargs] leaves them. *)
Definition partial_patched (h : Strs) (a : Attrs) (tparms : ParmList) : ParmList :=
  match Getattr a "partialargs" with
  | Some partialargs => patch_partial_types (SwigType_function_parms (Char h partialargs)) tparms
  | None => tparms
  end.

(** The values that the loop [while (p && tp)] substitutes, from position
    [j] on: each template parameter that has a name has a value to
    substitute, and that value, as it is substituted in the types and as it
    is substituted in the code, is plain. *)
Fixpoint values_plain (k j : nat) (tsdecl tscope : option Symtab) (tparms tps : ParmList)
    : bool :=
  match k with
  | O => true
  | S k' =>
      match tps !! j with
      | None => true
      | Some tp =>
          let p := match tparms !! j with Some p => p | None => tp end in
          match parm_name tp with
          | Some name_ =>
              match value_or_type p with
              | Some value =>
                  let qvalue := Swig_symbol_typedef_reduce value tsdecl in
                  let dvalue := Swig_symbol_type_qualify qvalue tsdecl in
                  let dvalue := if SwigType_istemplate dvalue
                                then Swig_symbol_template_deftype dvalue tscope else dvalue in
                  let valuestr := SwigType_str dvalue in
                  let '(tparms, tps) :=
                    match tparms !! j with
                    | Some _ => (patch_default_arguments tparms j name_ dvalue, tps)
                    | None => (tparms, patch_default_arguments tps j name_ dvalue)
                    end in
                  plain dvalue && plain valuestr
                  && values_plain k' (S j) tsdecl tscope tparms tps
              | None => false
              end
          | None => values_plain k' (S j) tsdecl tscope tparms tps
          end
      end
  end.

End Returns.

(** What the turns of the substitution keep: the three lists are [TL], [PL]
    and [CL], the string at [nl] is [I0], and no string of [TL] is
    variadic. *)
Definition types_plain (TL PL CL : list loc) (nl : loc) (I0 : String) (w : W) : Prop :=
  typelist w = TL /\ patchlist w = PL /\ cpatchlist w = CL /\ Char (strs w) nl = I0 /\
  forall l, l ∈ TL -> SwigType_isvariadic (Some (Char (strs w) l)) = false.

(** The loop over the children of a node, with the visit of a child given. *)
Definition visit_with (f : XNode -> M XNode) : list XNode -> M (list XNode) :=
  fix visit (cs : list XNode) : M (list XNode) :=
    match cs with
    | [] => ret []
    | cn :: cs' => cn' <- f cn ;; cs'' <- visit cs' ;; ret (cn' :: cs'')
    end.

Section WalkerBranches.
Context `{TypeOps} `{Symbols}.

(** The branches of [cparse_template_expand] on the node type, with the
    visit of the children given. *)
Definition node_branches (visit_children : option String -> M (list XNode))
    (anc : list (option String)) (children : list XNode)
    (tname rname templateargs : String) (uvp : option Parm) (evp : ParmList)
    (a : Attrs) (nodeType_ : option String) : M XNode :=
  if Equal_lit nodeType_ "cdecl" then
    a' <- expand_cdecl a uvp evp ;; ret (mkXNode a' children)
  else if Equal_lit nodeType_ "class" then
    a' <- expand_class_bases a uvp evp ;;
    cs <- visit_children nodeType_ ;;
    ret (mkXNode a' cs)
  else if Equal_lit nodeType_ "constructor" then
    a' <- expand_constructor a tname rname templateargs uvp evp ;;
    ret (mkXNode a' children)
  else if Equal_lit nodeType_ "destructor" then
    a' <- expand_destructor a (dtor_of_template anc) tname rname templateargs ;;
    ret (mkXNode a' children)
  else if Equal_lit nodeType_ "using" then
    a' <- expand_using a ;; ret (mkXNode a' children)
  else
    a' <- expand_other a uvp evp ;;
    cs <- visit_children nodeType_ ;;
    ret (mkXNode a' cs).

End WalkerBranches.

(** ** The last element of a type, for the examples *)

Module DemoDecl.

(** The elements of an encoded type: each ends with the separator [.] that
    follows it outside of parentheses; [cur] is the element being read. *)
Fixpoint split_elements (c cur : String) (depth : nat) : list String :=
  match c with
  | [] => match cur with [] => [] | _ => [cur] end
  | ch :: c' =>
      if Ascii.eqb ch "."%char && (depth =? 0)%nat then
        (cur ++ [ch]) :: split_elements c' [] 0
      else split_elements c' (cur ++ [ch]) (Demo.step_depth "("%char ")"%char ch depth)
  end.

(** Modelled from the spec: [SwigType_last], the last element of a type,
    with the separator that ends it; NULL for an empty type. *)
Definition last_element (t : String) : option String := last (split_elements t [] 0).

(** The operations of [Demo.type_ops], with the last element of a type. *)
Definition type_ops : TypeOps := {|
  SwigType_base := Demo.base;
  SwigType_add_template := Demo.add_template;
  SwigType_typename_replace := fun s n v => (Replaceid s n v).1;
  SwigType_variadic_replace := fun s _ _ => s;
  SwigType_templateprefix := Demo.templateprefix;
  SwigType_prefix := fun t => take (length t - length (Demo.base t)) t;
  SwigType_last := last_element;
  SwigType_isfunction := fun t => is_prefix (str "f(") t;
  SwigType_isqualifier := fun t => is_prefix (str "q(") t;
  SwigType_isarray := fun t => is_prefix (str "a(") t;
  SwigType_istemplate := fun t => Strstr t (str "<(");
  SwigType_str := fun t => t;
  SwigType_namestr := fun t => t;
  SwigType_function_parms := fun _ => [];
  SwigType_is_void := fun t => Equal_lit t "void";
  Swig_scopename_last := fun t => t
|}.

End DemoDecl.

(** * Properties *)

(** ** Strings *)

Lemma code_inj a b : code a = code b -> a = b.
Proof.
  unfold code. intros E. apply Nat2Z.inj in E.
  rewrite <- (ascii_nat_embedding a), <- (ascii_nat_embedding b). by rewrite E.
Qed.

Lemma eqb_ascii_true a b : Ascii.eqb a b = true <-> a = b.
Proof. apply Ascii.eqb_eq. Qed.

Lemma eqb_ascii_false a b : Ascii.eqb a b = false <-> a <> b.
Proof. apply Ascii.eqb_neq. Qed.

(** [strncmp] over the whole length of a NUL-free string tells whether it is
    a prefix. *)
Lemma strncmp_prefix (p s : String) :
  no_nul p -> strncmp p s (length p) = 0 <-> p `prefix_of` s.
Proof.
  intros Hp. revert s. induction Hp as [|a p Ha Hp IH]; intros s.
  - split; [intros _; apply prefix_nil | done].
  - cbn [length strncmp tail]. cbv zeta. unfold char_at. cbn [nth].
    destruct s as [|b s]; cbn [nth tail].
    + pose proof Ha as Ha'. apply eqb_ascii_false in Ha' as ->. split.
      * intros E. exfalso. apply Ha, code_inj. lia.
      * intros E. by apply prefix_nil_not in E.
    + destruct (Ascii.eqb a b) eqn:E.
      * apply eqb_ascii_true in E as <-.
        apply eqb_ascii_false in Ha as ->.
        rewrite IH. split; [apply prefix_cons | apply prefix_cons_inv_2].
      * apply eqb_ascii_false in E. split.
        -- intros E'. exfalso. apply E, code_inj. lia.
        -- intros E'. by apply prefix_cons_inv_1 in E'.
Qed.

Lemma Strncmp_prefix (p s : String) :
  no_nul p -> Strncmp p s (Len p) = 0 <-> p `prefix_of` s.
Proof.
  intros Hp. unfold Strncmp, Len. rewrite Nat2Z.id. by apply strncmp_prefix.
Qed.

Lemma Equal_true (a b : String) : Equal a b = true <-> a = b.
Proof. unfold Equal. apply bool_decide_eq_true. Qed.

(** ** C1: the priority of a match *)

Section MatchingProperties.
Context `{TypeOps} `{Symbols}.

(** The three results that [does_parm_match] chooses between. *)
Lemma does_parm_match_cases (type partial_parm_type placeholder_ : String)
    (tscope : option Symtab) :
  let ty := Swig_symbol_typedef_reduce type tscope in
  let t := (Replaceid partial_parm_type placeholder_ (SwigType_base ty)).1 in
  let substitutions := (Replaceid partial_parm_type placeholder_ (SwigType_base ty)).2 in
  let prefix_ := (Replaceid partial_parm_type placeholder_ []).1 in
  does_parm_match type partial_parm_type placeholder_ tscope =
    if substitutions =? 1 then
      if Strncmp prefix_ ty (Len prefix_) =? 0 then (PartiallySpecializedMatch, Len prefix_)
      else (PartiallySpecializedNoMatch, -1)
    else if Equal ty t then (ExactMatch, EXACT_MATCH_PRIORITY)
    else (ExactNoMatch, -1).
Proof.
  simpl. unfold does_parm_match.
  destruct (Replaceid partial_parm_type placeholder_ _) as [t n]; simpl.
  destruct (Replaceid partial_parm_type placeholder_ []) as [t' n']; simpl.
  destruct (n =? 1); [done|]. by destruct (Equal _ t).
Qed.

(** C1, as the code has it.  [does_parm_match] returns an exact match with
    the priority [EXACT_MATCH_PRIORITY] if and only if the number of
    substitutions of the placeholder by the base of the reduced type is not
    exactly one and the reduced type equals the substituted candidate.  When
    the number is exactly one, it returns a deduced match, with the length of
    the candidate without its placeholder as priority, if and only if the
    reduced type starts with that candidate without its placeholder.  In
    every other case the result is a no-match and the priority is -1. *)
Theorem does_parm_match_priority (type partial_parm_type placeholder_ : String)
    (tscope : option Symtab) :
  let ty := Swig_symbol_typedef_reduce type tscope in
  let t := (Replaceid partial_parm_type placeholder_ (SwigType_base ty)).1 in
  let substitutions := (Replaceid partial_parm_type placeholder_ (SwigType_base ty)).2 in
  let prefix_ := (Replaceid partial_parm_type placeholder_ []).1 in
  let r := does_parm_match type partial_parm_type placeholder_ tscope in
  no_nul prefix_ ->
  (r = (ExactMatch, EXACT_MATCH_PRIORITY) <-> substitutions <> 1 /\ ty = t) /\
  (substitutions = 1 ->
     (r = (PartiallySpecializedMatch, Len prefix_) <-> prefix_ `prefix_of` ty)) /\
  (~ (substitutions <> 1 /\ ty = t) -> ~ (substitutions = 1 /\ prefix_ `prefix_of` ty) ->
     EMatch_val r.1 < EMatch_val PartiallySpecializedMatch /\ r.2 = -1).
Proof.
  intros ty t substitutions prefix_ r Hnul. subst r.
  rewrite does_parm_match_cases. fold ty t substitutions prefix_.
  pose proof (Strncmp_prefix prefix_ ty Hnul) as Hpre.
  destruct (substitutions =? 1) eqn:E1.
  - apply Z.eqb_eq in E1.
    destruct (Strncmp prefix_ ty (Len prefix_) =? 0) eqn:E2.
    + apply Z.eqb_eq in E2. apply Hpre in E2. split; [|split].
      * split; [done | intros [? _]; done].
      * done.
      * intros _ Hn. exfalso. by apply Hn.
    + apply Z.eqb_neq in E2. split; [|split].
      * split; [done | intros [? _]; done].
      * intros _. split; [done | intros Hp; exfalso; by apply E2, Hpre].
      * intros _ _. simpl. lia.
  - apply Z.eqb_neq in E1.
    destruct (Equal ty t) eqn:E2.
    + apply Equal_true in E2. split; [|split]; try done.
      intros Hn. exfalso. by apply Hn.
    + assert (ty <> t) as Hne.
      { intros E. apply Equal_true in E. congruence. }
      split; [|split].
      * split; [done | intros [_ ?]; done].
      * done.
      * intros _ _. simpl. lia.
Qed.

End MatchingProperties.

Lemma does_parm_match_priority_witness :
  @does_parm_match Demo.type_ops (Demo.table_symbols [])
    (str "q(const).p.int") (str "q(const).p.$1") (str "$1") None
  = (PartiallySpecializedMatch, 11).
Proof.
  pose proof (@does_parm_match_priority Demo.type_ops (Demo.table_symbols [])
                (str "q(const).p.int") (str "q(const).p.$1") (str "$1") None) as W.
  cbv zeta in W. destruct W as (_ & W & _).
  - vm_compute. repeat (constructor; [discriminate|]). constructor.
  - apply W; [reflexivity|]. exists (str "int"). reflexivity.
Defined.

(** The specification's wording of C1 fails for a candidate that holds its
    placeholder twice, as in the partial specialization [X<T(T)>] matched
    with [X<int(int)>]: two substitutions take place, the substituted
    candidate equals the type, and the exact priority is returned. *)
Lemma priority_law_counterexample :
  ~ @priority_law_as_stated Demo.type_ops (Demo.table_symbols [])
      (str "f(int).int") (str "f($1).$1") (str "$1") None.
Proof.
  intros [[He _] _]. vm_compute in He. specialize (He eq_refl) as [He _]. discriminate.
Qed.

(** ** C3: an instantiation that was made before *)

Section LocateProperties.
Context `{TypeOps} `{Symbols}.

(** C3.  When [template_locate] finds, under the encoded name of the
    instantiation, a node that a previous instantiation produced (it is not
    a template, and its [template] attribute points to the template [tn]):
    an instantiation without a name is ignored without a diagnostic and 0 is
    returned; a named instantiation is rejected with the two warnings of a
    duplicate and 0 is returned when a previous named instantiation exists
    (the node itself, or for a hidden node its [csym:nextSibling]); and a
    named instantiation of which only an empty previous instantiation
    exists returns the template node [tn] of that instantiation. *)
Theorem template_locate_previous_instantiation (garbage : nat -> Z) (st : Store)
    (name_ : String) (instantiated_parms : ParmList) (symname : option String)
    (tscope : option Symtab) (templ n tn : NodeId) :
  Swig_symbol_clookup name_ None = Some templ ->
  search_explicit
    (SwigType_add_template name_ (prepare_parms st templ instantiated_parms tscope).1)
    (sym_symtab (st templ)) tscope = Some n ->
  Equal_lit (nodeType (st n)) "template" = false ->
  template (st n) = Some tn ->
  let previous_named_instantiation :=
    if GetFlag (hidden (st n)) then csym_nextSibling (st n) else Some n in
  let r := template_locate garbage st name_ instantiated_parms symname tscope in
  (symname = None -> r = (Ret None, [])) /\
  (forall s prev, symname = Some s -> previous_named_instantiation = Some prev ->
     r = (Ret None,
          [Warn_duplicate_instantiation
             (SwigType_namestr (SwigType_add_template name_ instantiated_parms)) s;
           Warn_previous_instantiation n (SwigType_namestr <$> name (st prev))
             (sym_name (st prev))])) /\
  (forall s, symname = Some s -> previous_named_instantiation = None ->
     r = (Ret (Some tn), [])).
Proof.
  intros Hl Hs Hn Ht prev r. subst r. unfold template_locate. rewrite Hl.
  destruct (prepare_parms st templ instantiated_parms tscope) as [ep ps] eqn:Ep.
  simpl in Hs. rewrite Hs. unfold found_by_name. rewrite Hn, Ht. fold prev.
  repeat split.
  - by intros ->.
  - by intros s p -> ->.
  - by intros s -> ->.
Qed.

(** ** C2: the arity of a class template *)

(** C2, as the code has it.  For a class template [n] that
    [template_locate] finds and that has template parameters, with [k]
    required and [total] parameters, [Swig_cparse_template_locate] marks [n]
    for instantiation and returns it whatever the number of arguments.  When
    [n] is not variadic it emits no arity error if and only if
    [k <= len(args) <= total], the error "too many" above [total] and the
    error "not enough" below [k]; when [n] is variadic it emits the error
    "not enough" if and only if [len(args) < k - 1]. *)
Theorem template_locate_class_arity (garbage : nat -> Z) (fuel : nat) (st : Store)
    (name_ : String) (instantiated_parms : ParmList) (symname : option String)
    (tscope : option Symtab) (n : NodeId) (ds : list Diag) :
  template_locate garbage st name_ instantiated_parms symname tscope = (Ret (Some n), ds) ->
  Equal_lit (nodeType (st n)) "template" = true ->
  Equal_lit (templatetype (st n)) "class" = true ->
  templateparms (st n) <> [] ->
  let k := ParmList_numrequired (templateparms (st n)) in
  let total := ParmList_len (templateparms (st n)) in
  let len := ParmList_len instantiated_parms in
  exists ds',
    Swig_cparse_template_locate garbage fuel st name_ instantiated_parms symname tscope
    = (Ret (Some n), SetFlag_instantiate st n, ds ++ ds') /\
    instantiate (SetFlag_instantiate st n n) = Some (str "1") /\
    (ParmList_variadic_parm (templateparms (st n)) = None ->
       (ds' = [] <-> k <= len <= total) /\
       (total < len -> ds' = [Error_too_many_parameters total]) /\
       (len < k -> ds' = [Error_not_enough_parameters k])) /\
    (is_Some (ParmList_variadic_parm (templateparms (st n))) ->
       (ds' = [] <-> k - 1 <= len) /\
       (len < k - 1 -> ds' = [Error_not_enough_parameters (k - 1)])).
Proof.
  intros Hl Hn Hc Hp k total len.
  exists (arity_check instantiated_parms (templateparms (st n))).
  assert (k <= total) as Hk.
  { subst k total. unfold ParmList_len. clear.
    induction (templateparms (st n)) as [|q l IH]; [simpl; lia|].
    cbn [ParmList_numrequired length]. rewrite Nat2Z.inj_succ.
    destruct (parm_value q); [lia|]. destruct (SwigType_is_void _); lia. }
  split; [|split; [|split]].
  - unfold Swig_cparse_template_locate. by rewrite Hl, Hn, Hc.
  - unfold SetFlag_instantiate. by rewrite decide_True.
  - intros Hv. unfold arity_check. rewrite Hv.
    rewrite bool_decide_eq_false_2 by done.
    rewrite (bool_decide_eq_false_2 (is_Some None)) by (by intros [? ?]).
    fold k total len. simpl. rewrite Z.sub_0_r.
    destruct (len >? total) eqn:E1; [|destruct (len <? k) eqn:E2].
    + apply Z.gtb_lt in E1. split; [split; [done | lia] | split; [done | lia]].
    + rewrite Z.gtb_ltb, Z.ltb_ge in E1. apply Z.ltb_lt in E2.
      split; [split; [done | lia] | split; [lia | done]].
    + rewrite Z.gtb_ltb, Z.ltb_ge in E1. apply Z.ltb_ge in E2.
      split; [split; [lia | done] | split; lia].
  - intros Hv. unfold arity_check.
    rewrite bool_decide_eq_false_2 by done.
    rewrite (bool_decide_eq_true_2 _ Hv).
    fold k total len. simpl.
    destruct (len <? k - 1) eqn:E2.
    + apply Z.ltb_lt in E2. split; [split; [done | lia] | done].
    + apply Z.ltb_ge in E2. split; [split; [lia | done] | lia].
Qed.

End LocateProperties.

(** The class template [template<typename T> X] located for [X<int>] with
    a table that holds [X] alone: one argument is within the arity. *)
Lemma template_locate_class_arity_witness :
  (@Swig_cparse_template_locate Demo.type_ops (Demo.table_symbols [(str "X", 1%nat)])
     (fun _ => 0) 0 (Demo.class_store Demo.one_parameter) (str "X") [Demo.targ "int"]
     (Some (str "IntBox")) None).2 = [].
Proof.
  destruct (@template_locate_class_arity Demo.type_ops (Demo.table_symbols [(str "X", 1%nat)])
              (fun _ => 0) 0%nat (Demo.class_store Demo.one_parameter) (str "X")
              [Demo.targ "int"] (Some (str "IntBox")) None 1%nat [])
    as (ds' & E & _ & Hnv & _).
  - vm_compute. reflexivity.
  - reflexivity.
  - reflexivity.
  - discriminate.
  - rewrite E. simpl. apply Hnv; [reflexivity|]. vm_compute. split; discriminate.
Defined.

(** The specification's wording of C2 fails for [X<int, double>] with
    [template<typename T> X]: the error is emitted, and the template is
    marked and returned all the same. *)
Lemma arity_law_counterexample :
  ~ @arity_law_as_stated Demo.type_ops (Demo.table_symbols [(str "X", 1%nat)])
      (fun _ => 0) 0 (Demo.class_store Demo.one_parameter) (str "X")
      [Demo.targ "int"; Demo.targ "double"] (Some (str "IntBox")) None.
Proof.
  intros Hc. specialize (Hc 1%nat []).
  destruct Hc as [Hc _]; try reflexivity; try discriminate.
Qed.

(** A second [%template(Again) X<int>] after [%template(IntBox) X<int>]. *)
Lemma template_locate_previous_instantiation_witness :
  @template_locate Demo.type_ops
    (Demo.table_symbols [(str "X", 1%nat); (str "X<(int)>", 2%nat)])
    (fun _ => 0) (Demo.class_store Demo.one_parameter) (str "X") [Demo.targ "int"]
    (Some (str "Again")) None
  = (Ret None,
     [Warn_duplicate_instantiation (str "X<(int)>") (str "Again");
      Warn_previous_instantiation 2%nat (Some (str "X<(int)>")) (Some (str "IntBox"))]).
Proof.
  pose proof (@template_locate_previous_instantiation Demo.type_ops
                (Demo.table_symbols [(str "X", 1%nat); (str "X<(int)>", 2%nat)])
                (fun _ => 0) (Demo.class_store Demo.one_parameter) (str "X")
                [Demo.targ "int"] (Some (str "Again")) None 1%nat 2%nat 1%nat
                eq_refl eq_refl eq_refl eq_refl) as W.
  cbv zeta in W. destruct W as (_ & W & _).
  apply (W (str "Again") 2%nat); reflexivity.
Defined.

(** ** C5: function templates *)

Section FunctionTemplates.
Context `{TypeOps} `{Symbols}.

Lemma flagged_flagged x : flagged (flagged x) = flagged x.
Proof. reflexivity. Qed.

Lemma SetFlag_instantiate_chain st x n l :
  sym_chain st n l -> sym_chain (SetFlag_instantiate st x) n l.
Proof.
  induction 1 as [|n l Hc IH]; constructor.
  unfold SetFlag_instantiate at 2. destruct (decide (n = x)) as [->|]; exact IH.
Qed.

Lemma accepted_SetFlag accept st x l :
  accepted accept (SetFlag_instantiate st x) l = accepted accept st l.
Proof.
  unfold accepted. apply list_filter_iff. intros k.
  unfold SetFlag_instantiate. by destruct (decide (k = x)) as [->|].
Qed.

(** One pass over a chain that ends: the first accepted template is kept
    unless one was kept before, and exactly the accepted templates are
    flagged. *)
Lemma mark_siblings_spec accept l : forall fuel st n m,
  sym_chain st n l -> (length l <= fuel)%nat ->
  exists st',
    mark_siblings accept fuel st n m
    = Ret (st', match m with Some x => Some x | None => head (accepted accept st l) end) /\
    forall k, st' k = if decide (k ∈ accepted accept st l) then flagged (st k) else st k.
Proof.
  induction l as [|x l IH]; intros fuel st n m Hc Hf; inversion Hc; subst.
  - exists st. split; [by destruct fuel, m|]. intros k. unfold accepted. rewrite filter_nil.
    by rewrite decide_False by apply not_elem_of_nil.
  - destruct fuel as [|fuel]; [simpl in Hf; lia|]. simpl in Hf.
    cbn [mark_siblings]. unfold accepted. rewrite filter_cons. fold (accepted accept st l).
    destruct (Equal_lit (nodeType (st x)) "template" && accept (templateparms (st x))) eqn:E.
    + rewrite decide_True by done.
      destruct (IH fuel (SetFlag_instantiate st x)
                  (sym_nextSibling (SetFlag_instantiate st x x))
                  (match m with Some y => Some y | None => Some x end)) as (st' & E' & Hst').
      { apply SetFlag_instantiate_chain. unfold SetFlag_instantiate.
        rewrite decide_True by done. done. }
      { lia. }
      exists st'. split.
      * rewrite E'. by destruct m.
      * intros k. rewrite Hst', accepted_SetFlag. unfold SetFlag_instantiate.
        destruct (decide (k = x)) as [->|Hk].
        -- rewrite (decide_True (P := x ∈ x :: _)) by apply list_elem_of_here.
           by destruct (decide _).
        -- destruct (decide (k ∈ accepted accept st l)) as [Hin|Hin].
           ++ by rewrite decide_True by by apply list_elem_of_further.
           ++ rewrite decide_False; [done|]. intros Hin'.
              apply elem_of_cons in Hin' as [?|?]; done.
    + rewrite decide_False by done.
      destruct (IH fuel st (sym_nextSibling (st x)) m) as (st' & E' & Hst'); [done|lia|].
      exists st'. by split.
Qed.

(** The tests of the two passes, in the words of the specification. *)
Lemma accept_nonvariadic_spec (instantiated_parms tparmsfound : ParmList) :
  accept_nonvariadic instantiated_parms tparmsfound = true <->
  ParmList_variadic_parm tparmsfound = None /\
  length tparmsfound = length instantiated_parms.
Proof.
  unfold accept_nonvariadic, ParmList_len. rewrite andb_true_iff, negb_true_iff, Z.eqb_eq.
  rewrite bool_decide_eq_false. split.
  - intros [Hv Hl]. split; [|lia].
    destruct (ParmList_variadic_parm tparmsfound); [|done]. exfalso. apply Hv. by eexists.
  - intros [-> Hl]. split; [by intros [? ?]|lia].
Qed.

Lemma accept_variadic_spec (instantiated_parms tparmsfound : ParmList) :
  accept_variadic instantiated_parms tparmsfound = true <->
  is_Some (ParmList_variadic_parm tparmsfound) /\
  (length tparmsfound <= length instantiated_parms + 1)%nat.
Proof.
  unfold accept_variadic, ParmList_len.
  rewrite andb_true_iff, bool_decide_eq_true, Z.geb_le. split; intros [Hv Hl]; (split; [done|lia]).
Qed.

(** Without partial specializations, and with a template under the name of
    the instantiation or under the encoded name, [template_locate] returns
    that template and reports nothing. *)
Lemma template_locate_no_partials (garbage : nat -> Z) (st : Store) (name_ : String)
    (instantiated_parms : ParmList) (symname : option String) (tscope : option Symtab)
    (templ : NodeId) :
  Swig_symbol_clookup name_ None = Some templ ->
  partials (st templ) = None ->
  let tname := SwigType_add_template name_ (prepare_parms st templ instantiated_parms tscope).1 in
  let n := default templ (search_explicit tname (sym_symtab (st templ)) tscope) in
  Equal_lit (nodeType (st n)) "template" = true ->
  template_locate garbage st name_ instantiated_parms symname tscope = (Ret (Some n), []).
Proof.
  intros Ht Hp tname n Hn. unfold template_locate. rewrite Ht.
  subst n tname. destruct (prepare_parms st templ instantiated_parms tscope) as [ep ps].
  cbn [fst] in *.
  destruct (search_explicit _ _ _) as [n|]; simpl in Hn.
  - simpl. unfold found_by_name. by rewrite Hn.
  - simpl. rewrite Hp. unfold select_partial. cbn. by rewrite Hn.
Qed.

(** C5.  An instantiation for which [template_locate] finds a template that
    is not a class template.  With [l] the chain of symbol-table siblings of
    the name, the locator flags every template of [l] that is not variadic
    and has as many parameters as the instantiation has arguments; only if
    there is none it flags every variadic template of [l] with
    [len(args) >= len(templateparms) - 1]; it returns the first template it
    flagged, and when it flagged none it returns nothing and emits the error
    of an undefined template.  What [template_locate] has found plays no
    part in the choice, and its diagnostics are kept.  For a template
    without partial specializations, [template_locate] finds the template
    that stands under the encoded name, or else the one under the name of the
    instantiation, and it reports nothing: no matching of partial
    specializations takes place. *)
Theorem template_locate_function_template (garbage : nat -> Z) (fuel : nat) (st : Store)
    (name_ : String) (instantiated_parms : ParmList) (symname : option String)
    (tscope : option Symtab) (l : list NodeId) :
  sym_chain st (Swig_symbol_clookup_local name_ None) l ->
  (length l <= fuel)%nat ->
  let is_template x := Equal_lit (nodeType (st x)) "template" = true in
  let nonvariadic :=
    filter (fun x => is_template x /\
                     ParmList_variadic_parm (templateparms (st x)) = None /\
                     length (templateparms (st x)) = length instantiated_parms) l in
  let variadic :=
    filter (fun x => is_template x /\
                     is_Some (ParmList_variadic_parm (templateparms (st x))) /\
                     (length (templateparms (st x)) <= length instantiated_parms + 1)%nat) l in
  let flagged_ := match nonvariadic with [] => variadic | _ => nonvariadic end in
  let undefined :=
    match flagged_ with [] => [Error_template_undefined name_] | _ => [] end in
  (forall n ds,
     template_locate garbage st name_ instantiated_parms symname tscope = (Ret (Some n), ds) ->
     Equal_lit (nodeType (st n)) "template" = true ->
     Equal_lit (templatetype (st n)) "class" = false ->
     exists st',
       Swig_cparse_template_locate garbage fuel st name_ instantiated_parms symname tscope
       = (Ret (head flagged_), st', ds ++ undefined) /\
       forall k, st' k = if decide (k ∈ flagged_) then flagged (st k) else st k) /\
  (forall templ,
     Swig_symbol_clookup name_ None = Some templ ->
     partials (st templ) = None ->
     let tname :=
       SwigType_add_template name_ (prepare_parms st templ instantiated_parms tscope).1 in
     let n := default templ (search_explicit tname (sym_symtab (st templ)) tscope) in
     Equal_lit (nodeType (st n)) "template" = true ->
     Equal_lit (templatetype (st n)) "class" = false ->
     exists st',
       Swig_cparse_template_locate garbage fuel st name_ instantiated_parms symname tscope
       = (Ret (head flagged_), st', undefined) /\
       forall k, st' k = if decide (k ∈ flagged_) then flagged (st k) else st k).
Proof.
  intros Hch Hf is_template nonvariadic variadic flagged_ undefined.
  assert (nonvariadic = accepted (accept_nonvariadic instantiated_parms) st l) as Env.
  { subst nonvariadic is_template. unfold accepted. apply list_filter_iff. intros x.
    rewrite andb_true_iff, accept_nonvariadic_spec. tauto. }
  assert (variadic = accepted (accept_variadic instantiated_parms) st l) as Ev.
  { subst variadic is_template. unfold accepted. apply list_filter_iff. intros x.
    rewrite andb_true_iff, accept_variadic_spec. tauto. }
  assert (forall n ds,
     template_locate garbage st name_ instantiated_parms symname tscope = (Ret (Some n), ds) ->
     Equal_lit (nodeType (st n)) "template" = true ->
     Equal_lit (templatetype (st n)) "class" = false ->
     exists st',
       Swig_cparse_template_locate garbage fuel st name_ instantiated_parms symname tscope
       = (Ret (head flagged_), st', ds ++ undefined) /\
       forall k, st' k = if decide (k ∈ flagged_) then flagged (st k) else st k) as Hgen.
  { intros n ds Hl Hn Hc. subst undefined flagged_. rewrite Env, Ev. clear Env Ev.
    unfold Swig_cparse_template_locate. rewrite Hl, Hn, Hc. simpl.
    destruct (mark_siblings_spec (accept_nonvariadic instantiated_parms) l fuel st _ None
                Hch Hf) as (st1 & E1 & H1).
    rewrite E1.
    destruct (accepted (accept_nonvariadic instantiated_parms) st l) as [|m ms] eqn:Enva; simpl.
    - assert (forall k, st1 k = st k) as Hsame.
      { intros k. rewrite H1. by rewrite decide_False by apply not_elem_of_nil. }
      assert (sym_chain st1 (Swig_symbol_clookup_local name_ None) l) as Hch1.
      { clear -Hch Hsame. induction Hch; constructor. by rewrite Hsame. }
      destruct (mark_siblings_spec (accept_variadic instantiated_parms) l fuel st1 _ None
                  Hch1 Hf) as (st2 & E2 & H2).
      rewrite E2.
      assert (accepted (accept_variadic instantiated_parms) st1 l
              = accepted (accept_variadic instantiated_parms) st l) as Eva.
      { unfold accepted. apply list_filter_iff. intros k. by rewrite Hsame. }
      rewrite Eva in *. exists st2. split.
      + destruct (accepted (accept_variadic instantiated_parms) st l); simpl;
          by rewrite ?app_nil_r.
      + intros k. rewrite H2, Hsame. done.
    - exists st1. split; [by rewrite app_nil_r|]. exact H1. }
  split; [exact Hgen|].
  intros templ Ht Hp tname n Hn Hc.
  apply (Hgen n []); [|done..].
  by apply template_locate_no_partials.
Qed.

End FunctionTemplates.

(** The three overloads [template<typename T> f], [template<typename T,
    typename U> f] and [template<typename... Args> f].  For
    [%template(fid) f<int, double>] the template with two parameters is
    flagged and returned; for [%template(fidc) f<int, double, char>] no
    template that is not variadic has three parameters, and the variadic one
    is flagged and returned. *)
Lemma template_locate_function_template_witness :
  (@Swig_cparse_template_locate Demo.type_ops (Demo.table_symbols [(str "f", 1%nat)])
     (fun _ => 0) 3 Demo.function_store (str "f") [Demo.targ "int"; Demo.targ "double"]
     (Some (str "fid")) None).1.1 = Ret (Some 2%nat) /\
  (@Swig_cparse_template_locate Demo.type_ops (Demo.table_symbols [(str "f", 1%nat)])
     (fun _ => 0) 3 Demo.function_store (str "f")
     [Demo.targ "int"; Demo.targ "double"; Demo.targ "char"]
     (Some (str "fidc")) None).1.1 = Ret (Some 3%nat).
Proof.
  split.
  - destruct (@template_locate_function_template Demo.type_ops
                (Demo.table_symbols [(str "f", 1%nat)]) (fun _ => 0) 3%nat Demo.function_store
                (str "f") [Demo.targ "int"; Demo.targ "double"] (Some (str "fid")) None
                [1; 2; 3]%nat) as [_ W].
    + repeat constructor.
    + simpl. lia.
    + destruct (W 1%nat) as (st' & E & _); [reflexivity..|].
      rewrite E. reflexivity.
  - destruct (@template_locate_function_template Demo.type_ops
                (Demo.table_symbols [(str "f", 1%nat)]) (fun _ => 0) 3%nat Demo.function_store
                (str "f") [Demo.targ "int"; Demo.targ "double"; Demo.targ "char"]
                (Some (str "fidc")) None [1; 2; 3]%nat) as [_ W].
    + repeat constructor.
    + simpl. lia.
    + destruct (W 1%nat) as (st' & E & _); [reflexivity..|].
      rewrite E. reflexivity.
Defined.

(** ** C4: the reduction of the priorities matrix *)

Section Matrix.

Lemma index_inj (C c r c' r' : nat) :
  (c < C)%nat -> (c' < C)%nat -> (c + r * C = c' + r' * C)%nat -> c = c' /\ r = r'.
Proof.
  intros Hc Hc' E.
  assert (r = r') as ->; [|lia].
  destruct (Nat.lt_trichotomy r r') as [Hlt|[->|Hlt]]; [|done|]; nia.
Qed.

Lemma index_bound (R C c r : nat) : (c < C)%nat -> (r < R)%nat -> (c + r * C < R * C)%nat.
Proof. intros. nia. Qed.

Lemma cell_insert_eq (m : list Z) i v : (i < length m)%nat -> cell (<[i := v]> m) i = v.
Proof. intros. unfold cell. by apply list_lookup_total_insert_eq. Qed.

Lemma cell_insert_ne (m : list Z) i j v : i <> j -> cell (<[i := v]> m) j = cell m j.
Proof. intros. unfold cell. by apply list_lookup_total_insert_ne. Qed.

Lemma flag_rows_length g C col rows : forall m, length (flag_rows g C col m rows) = length m.
Proof.
  induction rows as [|r rows IH]; intros m; [done|].
  cbn [flag_rows foldl]. unfold flag_rows in IH. by rewrite IH, length_insert.
Qed.

Lemma flag_rows_cell g (C col : nat) (m : list Z) (R : nat) :
  (col < C)%nat -> (R * C <= length m)%nat ->
  forall r' c', (c' < C)%nat ->
    cell (flag_rows g C col m (seq 0 R)) (c' + r' * C)
    = if bool_decide (c' = col) && (r' <? R)%nat then g (cell m (c' + r' * C))
      else cell m (c' + r' * C).
Proof.
  intros Hcol. induction R as [|R IH]; intros HR r' c' Hc'.
  - by rewrite andb_false_r.
  - rewrite seq_S. unfold flag_rows. rewrite foldl_app. cbn [foldl].
    fold (flag_rows g C col m (seq 0 R)). simpl.
    assert (R * C <= length m)%nat as HR' by lia.
    destruct (decide (c' = col /\ r' = R)) as [[-> ->]|Hne].
    + rewrite cell_insert_eq.
      2:{ rewrite flag_rows_length. pose proof (index_bound (S R) C col R). lia. }
      rewrite IH by done. rewrite Nat.ltb_irrefl, andb_false_r.
      rewrite bool_decide_eq_true_2 by done.
      by rewrite (proj2 (Nat.ltb_lt R (S R))) by lia.
    + rewrite cell_insert_ne.
      2:{ intros E. apply index_inj in E as [-> ->]; [|done..]. by apply Hne. }
      rewrite IH by done.
      destruct (bool_decide (c' = col)) eqn:Ec; [|done]. simpl.
      apply bool_decide_eq_true in Ec.
      assert (r' <> R) by (intros ->; by apply Hne).
      destruct (r' <? R)%nat eqn:E1, (r' <? S R)%nat eqn:E2; try done.
      * apply Nat.ltb_lt in E1. apply Nat.ltb_ge in E2. lia.
      * apply Nat.ltb_ge in E1. apply Nat.ltb_lt in E2. lia.
Qed.

Lemma column_max_unfold m R C col :
  column_max m R C col = foldl (max_step m C col) (-1) (seq 0 R).
Proof. reflexivity. Qed.

(** [column_max] is the greatest of -1 and the entries of the column. *)
Lemma column_max_spec m R C col :
  -1 <= column_max m R C col /\
  (forall r, (r < R)%nat -> cell m (col + r * C) <= column_max m R C col) /\
  (column_max m R C col = -1 \/
   exists r, (r < R)%nat /\ column_max m R C col = cell m (col + r * C)).
Proof.
  rewrite column_max_unfold. induction R as [|R (IH1 & IH2 & IH3)].
  - simpl. split; [lia|]. split; [intros; lia | by left].
  - rewrite seq_S, foldl_app. cbn [foldl]. simpl.
    set (M := foldl (max_step m C col) (-1) (seq 0 R)) in *.
    unfold max_step. cbv zeta.
    destruct (cell m (col + R * C) >? M) eqn:E.
    + rewrite Z.gtb_ltb in E. apply Z.ltb_lt in E. split; [lia|]. split.
      * intros r Hr. destruct (decide (r = R)) as [->|]; [lia|].
        specialize (IH2 r). lia.
      * right. exists R. split; [lia | done].
    + rewrite Z.gtb_ltb in E. apply Z.ltb_ge in E. split; [lia|]. split.
      * intros r Hr. destruct (decide (r = R)) as [->|]; [lia|].
        apply IH2. lia.
      * destruct IH3 as [?|(r & ? & ?)]; [by left|]. right. exists r. split; [lia|done].
Qed.

(** It depends on the entries of its column only. *)
Lemma column_max_ext m m' R C col :
  (forall r, (r < R)%nat -> cell m (col + r * C) = cell m' (col + r * C)) ->
  column_max m R C col = column_max m' R C col.
Proof.
  rewrite !column_max_unfold. induction R as [|R IH]; intros Hm; [done|].
  rewrite seq_S, !foldl_app. cbn [foldl]. simpl.
  rewrite IH by (intros; apply Hm; lia).
  unfold max_step. by rewrite Hm by lia.
Qed.

Lemma flag_column_unfold m R C col :
  flag_column m R C col = flag_rows (flag (column_max m R C col)) C col m (seq 0 R).
Proof. reflexivity. Qed.

(** After the columns before [K] are flagged. *)
Lemma flag_columns_cell (m : list Z) (R C K : nat) :
  (R * C <= length m)%nat -> (K <= C)%nat ->
  let m' := foldl (fun m col => flag_column m R C col) m (seq 0 K) in
  length m' = length m /\
  forall r c, (c < C)%nat ->
    cell m' (c + r * C)
    = if (c <? K)%nat && (r <? R)%nat
      then flag (column_max m R C c) (cell m (c + r * C))
      else cell m (c + r * C).
Proof.
  intros HR. induction K as [|K IH]; intros HK; cbv zeta.
  - done.
  - rewrite seq_S, foldl_app. cbn [foldl]. simpl.
    destruct IH as [IHl IHc]; [lia|].
    set (mK := foldl (fun m col => flag_column m R C col) m (seq 0 K)) in *.
    rewrite flag_column_unfold. split; [by rewrite flag_rows_length|].
    intros r c Hc. rewrite flag_rows_cell by (done || lia).
    rewrite (column_max_ext mK m).
    2:{ intros r' Hr'. rewrite IHc by lia. by rewrite Nat.ltb_irrefl. }
    rewrite IHc by done.
    destruct (decide (c = K)) as [->|Hne].
    + rewrite bool_decide_eq_true_2 by done. rewrite Nat.ltb_irrefl.
      by rewrite (proj2 (Nat.ltb_lt K (S K))) by lia.
    + rewrite bool_decide_eq_false_2 by done. simpl.
      destruct (c <? K)%nat eqn:E1, (c <? S K)%nat eqn:E2; try done.
      * apply Nat.ltb_lt in E1. apply Nat.ltb_ge in E2. lia.
      * apply Nat.ltb_ge in E1. apply Nat.ltb_lt in E2. lia.
Qed.

Lemma entry_cell m C r c : entry m C r c = cell m (c + r * C).
Proof. unfold entry. f_equal. lia. Qed.

(** An entry that is not below -1 reaches the highest priority of its
    column just when it is the maximum of the column. *)
Lemma flag_column_best (m : list Z) (R C r c : nat) :
  (r < R)%nat ->
  (forall r', (r' < R)%nat -> -1 <= entry m C r' c) ->
  flag (column_max m R C c) (entry m C r c) = if column_best m R C r c then 1 else 0.
Proof.
  intros Hr Hlow. destruct (column_max_spec m R C c) as (M1 & M2 & M3).
  unfold flag. destruct (column_best m R C r c) eqn:Eb.
  - unfold column_best in Eb. rewrite forallb_forall in Eb.
    assert (column_max m R C c <= entry m C r c) as Hle.
    { destruct M3 as [->|(r' & Hr' & ->)]; [by apply Hlow|].
      rewrite <- entry_cell. apply Z.leb_le, Eb, in_seq. lia. }
    by rewrite (proj2 (Z.geb_le _ _)) by done.
  - destruct (entry m C r c >=? column_max m R C c) eqn:E; [|done].
    apply Z.geb_le in E. exfalso.
    assert (column_best m R C r c = true); [|congruence].
    unfold column_best. apply forallb_forall. intros r' Hr'. apply in_seq in Hr'.
    apply Z.leb_le. specialize (M2 r'). rewrite <- entry_cell in M2. lia.
Qed.

(** A sum of [K] flags is [K] just when every flag is 1. *)
Lemma sum_flags (g : nat -> Z) (K : nat) :
  (forall c, (c < K)%nat -> g c = 0 \/ g c = 1) ->
  let s := foldl (fun count col => count + g col) 0 (seq 0 K) in
  0 <= s <= Z.of_nat K /\ (s = Z.of_nat K <-> forall c, (c < K)%nat -> g c = 1).
Proof.
  induction K as [|K IH]; intros Hg; cbv zeta.
  - simpl. split; [lia|]. split; [intros _ c Hc; lia | done].
  - rewrite seq_S, foldl_app. cbn [foldl]. simpl.
    destruct IH as [IH1 IH2]; [intros; apply Hg; lia|].
    set (s := foldl (fun count col => count + g col) 0 (seq 0 K)) in *.
    destruct (Hg K) as [E|E]; [lia| |]; rewrite E; (split; [lia|]).
    + split; [lia|]. intros Hall. specialize (Hall K). lia.
    + split.
      * intros Hs c Hc. destruct (decide (c = K)) as [->|]; [done|].
        apply IH2; lia.
      * intros Hall. assert (s = Z.of_nat K); [|lia].
        apply IH2. intros; apply Hall; lia.
Qed.

Lemma flag_matrix_entry (m : list Z) (R C : nat) :
  (R * C <= length m)%nat ->
  (forall r c, (r < R)%nat -> (c < C)%nat -> -1 <= entry m C r c) ->
  forall r c, (r < R)%nat -> (c < C)%nat ->
    entry (flag_matrix m R C) C r c = if column_best m R C r c then 1 else 0.
Proof.
  intros HR Hlow r c Hr Hc. unfold flag_matrix.
  destruct (flag_columns_cell m R C C HR) as [_ Hcell]; [done|].
  rewrite entry_cell, Hcell by done.
  rewrite (proj2 (Nat.ltb_lt c C)), (proj2 (Nat.ltb_lt r R)) by done. simpl.
  rewrite <- entry_cell. apply flag_column_best; [done|]. intros; by apply Hlow.
Qed.

Lemma wins_true m R C r :
  wins m R C r = true <-> forall c, (c < C)%nat -> column_best m R C r c = true.
Proof.
  unfold wins. rewrite forallb_forall. split.
  - intros Hw c Hc. apply Hw, in_seq. lia.
  - intros Hw c Hc. apply in_seq in Hc. apply Hw. lia.
Qed.

Lemma highest_count_wins (m : list Z) (R C r : nat) :
  (R * C <= length m)%nat ->
  (forall r c, (r < R)%nat -> (c < C)%nat -> -1 <= entry m C r c) ->
  (r < R)%nat ->
  highest_count (flag_matrix m R C) C r = Z.of_nat C <-> wins m R C r = true.
Proof.
  intros HR Hlow Hr.
  pose proof (flag_matrix_entry m R C HR Hlow r) as He.
  destruct (sum_flags (entry (flag_matrix m R C) C r) C) as [_ Hs].
  { intros c Hc. rewrite He by done. destruct (column_best m R C r c); auto. }
  etrans; [exact Hs|]. rewrite wins_true.
  split; intros Hall c Hc; specialize (Hall c Hc).
  - rewrite He in Hall by done. by destruct (column_best m R C r c).
  - rewrite He by done. by rewrite Hall.
Qed.

Lemma choose_partials_winners (m : list Z) (R C : nat) :
  (R * C <= length m)%nat ->
  (forall r c, (r < R)%nat -> (c < C)%nat -> -1 <= entry m C r c) ->
  forall (l : list NodeId) row, (row + length l <= R)%nat ->
    choose_partials (flag_matrix m R C) C row l = select_rows (wins m R C) row l.
Proof.
  intros HR Hlow. induction l as [|x l IH]; intros row Hrow; [done|].
  simpl in Hrow. cbn [choose_partials select_rows]. rewrite IH by lia. f_equal.
  pose proof (highest_count_wins m R C row HR Hlow) as Hw.
  destruct (wins m R C row) eqn:E.
  - by rewrite (proj2 (Z.eqb_eq _ _)) by (apply Hw; [lia|done]).
  - destruct (_ =? _) eqn:E'; [|done]. apply Z.eqb_eq in E'. apply Hw in E'; [done|lia].
Qed.

Lemma select_rows_elem_of {A} keep (l : list A) : forall row x,
  x ∈ select_rows keep row l -> x ∈ l.
Proof.
  induction l as [|y l IH]; intros row x; cbn [select_rows]; [done|].
  rewrite elem_of_app. intros [Hx|Hx].
  - destruct (keep row); [|by apply elem_of_nil in Hx].
    apply list_elem_of_singleton in Hx as ->. apply list_elem_of_here.
  - apply list_elem_of_further. by eapply IH.
Qed.

End Matrix.

Section Selection.
Context `{TypeOps} `{Symbols}.

Lemma warn_ignored_found (st : Store) (primary_scope : option Symtab)
    (node_of : NodeId -> NodeId) (l : list NodeId) :
  (forall x, x ∈ l ->
     clookup_local_opt (templcsymname (st x)) primary_scope = Some (node_of x)) ->
  warn_ignored st primary_scope l
  = Ret (map (fun x => Warn_ambiguous_ignored (node_of x)
                         (SwigType_namestr <$> name (st (node_of x)))) l).
Proof.
  induction l as [|x l IH]; intros Hl; [done|].
  cbn [warn_ignored map]. rewrite Hl by apply list_elem_of_here.
  rewrite IH; [done|]. intros y Hy. by apply Hl, list_elem_of_further.
Qed.

(** A match comes with a priority that is not negative. *)
Lemma does_parm_match_priority_nonneg (type partial_parm_type placeholder_ : String)
    (tscope : option Symtab) :
  let r := does_parm_match type partial_parm_type placeholder_ tscope in
  (EMatch_val r.1 <? EMatch_val PartiallySpecializedMatch) = false -> 0 <= r.2.
Proof.
  cbv zeta. rewrite does_parm_match_cases.
  destruct (_ =? 1).
  - destruct (_ =? 0); simpl; [unfold Len; lia | done].
  - destruct (Equal _ _); simpl; [unfold EXACT_MATCH_PRIORITY; lia | done].
Qed.

(** The loop over the parameters of a candidate writes the cells of the row
    of the candidate only, and when all the parameters match, it writes each
    cell of the row, with a priority that is not negative. *)
Lemma match_parms_row (tscope : option Symtab) (row : nat) (p : ParmList) :
  Forall (fun q => is_Some (parm_type q) \/ is_Some (parm_value q)) p ->
  forall (pp : ParmList) (i : nat) (m : list Z),
    length pp = length p -> (1 <= i)%nat ->
    let r := match_parms tscope p pp i row m in
    length r.2 = length m /\
    (forall k, ~ (row + i - 1 <= k < row + i - 1 + length p)%nat -> cell r.2 k = cell m k) /\
    (r.1 = true ->
     forall k, (row + i - 1 <= k < row + i - 1 + length p)%nat -> (k < length m)%nat ->
               0 <= cell r.2 k).
Proof.
  induction 1 as [|q p Hq Hp IH]; intros pp i m Hlen Hi; cbv zeta.
  - simpl. split; [done|]. split; [done|]. intros _ k Hk. lia.
  - destruct pp as [|qq pp]; [done|]. simpl in Hlen.
    cbn [match_parms]. cbv zeta.
    destruct (match parm_type q with Some t => Some t | None => parm_value q end)
      as [t|] eqn:Et.
    2:{ exfalso. destruct Hq as [[? E]|[? E]]; rewrite E in Et; [done|].
        by destruct (parm_type q). }
    set (r0 := match parm_type qq with
               | Some pt => does_parm_match t pt (placeholder i) tscope
               | None => (ExactNoMatch, -1)
               end).
    assert ((EMatch_val r0.1 <? EMatch_val PartiallySpecializedMatch) = false -> 0 <= r0.2)
      as Hr0.
    { subst r0. destruct (parm_type qq); [apply does_parm_match_priority_nonneg|done]. }
    destruct r0 as [mt priority]. simpl in Hr0.
    destruct (EMatch_val mt <? EMatch_val PartiallySpecializedMatch) eqn:Em.
    + simpl. split; [by rewrite length_insert|]. split; [|done].
      intros k Hk. apply cell_insert_ne. lia.
    + specialize (IH pp (S i) (<[(row + i - 1)%nat := priority]> m)).
      destruct IH as (IH1 & IH2 & IH3); [lia|lia|].
      rewrite length_insert in IH1. split; [done|]. split.
      * intros k Hk. rewrite IH2 by (simpl in *; lia). apply cell_insert_ne. simpl in Hk. lia.
      * intros Hok k Hk Hkm. destruct (decide (k = row + i - 1)%nat) as [->|Hne].
        -- rewrite IH2 by lia. rewrite cell_insert_eq by done. by apply Hr0.
        -- apply IH3; [done| simpl in Hk; lia | by rewrite length_insert].
Qed.

(** The rows of the candidates that the loop over [partials] keeps hold no
    negative priority, when every argument has a type or a value. *)
Lemma scan_partials_rows (st : Store) (tscope : option Symtab) (parms : ParmList) :
  Forall (fun q => is_Some (parm_type q) \/ is_Some (parm_value q)) parms ->
  forall (partials_ possiblepartials : list NodeId) (m : list Z),
    ((length possiblepartials + length partials_) * length parms <= length m)%nat ->
    (forall row col, (row < length possiblepartials)%nat -> (col < length parms)%nat ->
       0 <= entry m (length parms) row col) ->
    let r := scan_partials st tscope parms partials_ possiblepartials
               (length possiblepartials * length parms) m in
    (length r.1 * length parms <= length r.2)%nat /\
    forall row col, (row < length r.1)%nat -> (col < length parms)%nat ->
      0 <= entry r.2 (length parms) row col.
Proof.
  intros Hparms. induction partials_ as [|item rest IH]; intros poss m Hlen Hrows; cbv zeta.
  - simpl. split; [lia | done].
  - cbn [scan_partials].
    destruct (ParmList_len (partialparms (st item)) =? ParmList_len parms) eqn:El.
    2:{ apply IH; [simpl in Hlen; lia | done]. }
    apply Z.eqb_eq in El. unfold ParmList_len in El. apply Nat2Z.inj in El.
    pose proof (match_parms_row tscope (length poss * length parms) parms Hparms
                  (partialparms (st item)) 1 m El (le_n 1)) as Hrow.
    cbv zeta in Hrow.
    destruct (match_parms tscope parms (partialparms (st item)) 1
                (length poss * length parms) m) as [ok m'].
    simpl in Hrow. destruct Hrow as (H1 & H2 & H3).
    assert (forall row col, (row < length poss)%nat -> (col < length parms)%nat ->
              0 <= entry m' (length parms) row col) as Hold.
    { intros row col Hr Hc. unfold entry. rewrite H2; [by apply Hrows|]. nia. }
    destruct ok.
    + replace (length poss * length parms + length parms)%nat
        with (length (poss ++ [item]) * length parms)%nat
        by (rewrite length_app; simpl; lia).
      apply IH.
      * rewrite length_app, H1. simpl in *. lia.
      * intros row col Hr Hc. rewrite length_app in Hr. simpl in Hr.
        destruct (decide (row < length poss)%nat) as [Hlt|Hge]; [by apply Hold|].
        assert (row = length poss) as -> by lia.
        unfold entry. apply H3; [done| lia |]. simpl in Hlen. nia.
    + apply IH; [rewrite H1; simpl in Hlen; lia | done].
Qed.

(** So the matrix that [template_locate] hands to the selection meets what
    the selection needs, whatever the block it was allocated in held. *)
Lemma priorities_matrix_rows (garbage : nat -> Z) (st : Store) (tscope : option Symtab)
    (parms : ParmList) (partials_ : list NodeId) :
  Forall (fun q => is_Some (parm_type q) \/ is_Some (parm_value q)) parms ->
  let r := scan_partials st tscope parms partials_ [] 0
             (map garbage (seq 0 (length partials_ * length parms))) in
  (length r.1 * length parms <= length r.2)%nat /\
  forall row col, (row < length r.1)%nat -> (col < length parms)%nat ->
    -1 <= entry r.2 (length parms) row col.
Proof.
  intros Hparms.
  destruct (scan_partials_rows st tscope parms Hparms partials_ []
              (map garbage (seq 0 (length partials_ * length parms)))) as [H1 H2].
  - rewrite length_map, length_seq. simpl. lia.
  - intros row col Hr. simpl in Hr. lia.
  - split; [exact H1|]. intros row col Hr Hc. specialize (H2 row col Hr Hc). simpl in H2. lia.
Qed.

(** C4.  For the candidates [possiblepartials] that survived, with their
    priorities in the matrix [m] (no entry below -1, the value of a
    parameter that did not match) and each registered under its
    [templcsymname]: the reduction sets an entry to 1 if it equals the
    maximum of its column and to 0 otherwise; the count of a row reaches
    [parms_len], so that the candidate wins, if and only if the candidate is
    column-best on every parameter; the node returned is that of the first
    winner in the order of discovery, or of the first of all the candidates
    when none wins; and when more than one candidate is left in the list
    that is used, the ambiguity is reported with the node that is used and
    each node that is ignored, none otherwise. *)
Theorem select_partial_reduction (st : Store) (primary_scope : option Symtab)
    (tname : String) (parms_len : nat) (possiblepartials : list NodeId) (m : list Z)
    (node_of : NodeId -> NodeId) :
  (length possiblepartials * parms_len <= length m)%nat ->
  (forall row col, (row < length possiblepartials)%nat -> (col < parms_len)%nat ->
     -1 <= entry m parms_len row col) ->
  (forall x, x ∈ possiblepartials ->
     clookup_local_opt (templcsymname (st x)) primary_scope = Some (node_of x)) ->
  let posslen := length possiblepartials in
  let flags := flag_matrix m posslen parms_len in
  let won := winners m parms_len possiblepartials in
  let used := match won with [] => possiblepartials | _ => won end in
  (forall row col, (row < posslen)%nat -> (col < parms_len)%nat ->
     entry flags parms_len row col
     = if column_best m posslen parms_len row col then 1 else 0) /\
  (forall row, (row < posslen)%nat ->
     highest_count flags parms_len row = Z.of_nat parms_len
     <-> wins m posslen parms_len row = true) /\
  select_partial st primary_scope tname parms_len possiblepartials m
  = (Ret (node_of <$> head used),
     match used with
     | chosen :: (_ :: _) as ignored =>
         Warn_ambiguous (SwigType_namestr tname)
         :: Warn_ambiguous_used (node_of chosen)
              (SwigType_namestr <$> name (st (node_of chosen)))
         :: map (fun x => Warn_ambiguous_ignored (node_of x)
                            (SwigType_namestr <$> name (st (node_of x)))) (tail used)
     | _ => []
     end).
Proof.
  intros Hlen Hlow Hfound posslen flags won used.
  split; [|split].
  - intros row col Hr Hc. by apply flag_matrix_entry.
  - intros row Hr. by apply highest_count_wins.
  - assert (forall x, x ∈ used -> x ∈ possiblepartials) as Hsub.
    { subst used. destruct won as [|w ws] eqn:Ew; [done|].
      intros x Hx. rewrite <- Ew in Hx. by eapply select_rows_elem_of. }
    assert (select_partial st primary_scope tname parms_len possiblepartials m
            = match used with
              | [] => (Ret None, [])
              | first :: others =>
                  let n := clookup_local_opt (templcsymname (st first)) primary_scope in
                  if (1 <? length used)%nat then
                    let ds := match n with
                              | Some n' =>
                                  [Warn_ambiguous (SwigType_namestr tname);
                                   Warn_ambiguous_used n'
                                     (SwigType_namestr <$> name (st n'))]
                              | None => []
                              end in
                    match warn_ignored st primary_scope others with
                    | Ret ds' => (Ret n, ds ++ ds')
                    | Abort => (Abort, ds)
                    | OutOfFuel => (OutOfFuel, ds)
                    end
                  else (Ret n, [])
              end) as ->.
    { unfold select_partial. fold posslen.
      replace (if (1 <? posslen)%nat then _ else possiblepartials) with used; [done|].
      subst used. destruct (1 <? posslen)%nat eqn:E1.
      - fold flags. subst flags won. unfold winners. fold posslen.
        rewrite choose_partials_winners by (done || lia).
        by destruct (select_rows _ 0 possiblepartials).
      - apply Nat.ltb_ge in E1. subst won posslen. unfold winners.
        destruct possiblepartials as [|x [|y l]]; [done| |simpl in E1; lia].
        cbn [select_rows length]. unfold wins.
        rewrite (proj2 (forallb_forall _ _)); [done|].
        intros c _. unfold column_best. simpl. by rewrite Z.leb_refl. }
    destruct used as [|first others] eqn:Eu; [done|]. cbv zeta.
    rewrite Hfound by apply Hsub, list_elem_of_here.
    destruct others as [|second others']; [done|].
    rewrite (proj2 (Nat.ltb_lt 1 _)) by (simpl; lia).
    rewrite (warn_ignored_found st primary_scope node_of); [done|].
    intros x Hx. by apply Hfound, Hsub, list_elem_of_further.
Qed.

End Selection.

(** The instantiation [X<const int *>] with the partial specializations
    [X<T *>] and [X<const T *>]: the priorities are 2 and 11, and the second
    candidate is chosen without a warning. *)
Lemma select_partial_reduction_witness :
  @select_partial Demo.type_ops (Demo.table_symbols Demo.partial_table) Demo.partial_store
    None (str "X<(p.q(const).int)>") 1 [4; 5]%nat [2; 11]
  = (Ret (Some 5%nat), []).
Proof.
  pose proof (@select_partial_reduction Demo.type_ops (Demo.table_symbols Demo.partial_table)
                Demo.partial_store None (str "X<(p.q(const).int)>") 1 [4; 5]%nat [2; 11]
                (fun x => x)) as W.
  cbv zeta in W. destruct W as (_ & _ & W).
  - simpl. lia.
  - intros [|[|row]] [|col] Hr Hc; simpl in Hr, Hc; try lia; vm_compute; discriminate.
  - intros x Hx. apply list_elem_of_In in Hx. simpl in Hx.
    destruct Hx as [<-|[<-|[]]]; reflexivity.
  - exact W.
Defined.

(** The whole of [template_locate] on that instantiation. *)
Example template_locate_partial_specialization :
  @template_locate Demo.type_ops (Demo.table_symbols Demo.partial_table) (fun _ => 0)
    Demo.partial_store (str "X") [Demo.targ "p.q(const).int"] (Some (str "XCI")) None
  = (Ret (Some 5%nat), []).
Proof. reflexivity. Qed.

(** ** Identifier replacement *)

Section IdentifierReplacement.

Lemma is_prefix_length (p s : String) : is_prefix p s = true -> (length p <= length s)%nat.
Proof.
  revert s. induction p as [|a p IH]; intros [|b s]; simpl; try done; [lia|].
  intros E. apply andb_true_iff in E as [_ E]. apply IH in E. lia.
Qed.

Lemma strstr_bound (s token : String) (k : nat) :
  strstr s token = Some k -> (k + length token <= length s)%nat.
Proof.
  revert k. induction s as [|c s IH]; intros k; simpl.
  - destruct (is_prefix token []) eqn:E; [|done]. intros [= <-].
    by apply is_prefix_length in E.
  - destruct (is_prefix token (c :: s)) eqn:E.
    + intros [= <-]. by apply is_prefix_length in E.
    + destruct (strstr s token) as [k'|] eqn:E'; [|done]. simpl. intros [= <-].
      specialize (IH k' eq_refl). lia.
Qed.

Lemma idchar_NUL : idchar NUL = false.
Proof. reflexivity. Qed.

Lemma is_prefix_app (t u : String) : is_prefix t u = true -> u = t ++ drop (length t) u.
Proof.
  revert u. induction t as [|a t IH]; intros [|b u]; simpl; try done.
  intros E. apply andb_true_iff in E as [E1 E2]. apply eqb_ascii_true in E1 as ->.
  f_equal. by apply IH.
Qed.

Lemma is_prefix_head (t u : String) :
  identifier t -> idchar (char_at u 0) = false -> is_prefix t u = false.
Proof.
  intros [Hne Hid] Hu. destruct t as [|a t]; [done|]. destruct u as [|b u]; [done|].
  simpl in *. apply andb_true_iff in Hid as [Ha _].
  destruct (Ascii.eqb a b) eqn:E; [|done]. apply eqb_ascii_true in E as ->.
  unfold char_at in Hu. simpl in Hu. congruence.
Qed.

Lemma last_id_cons (p : bool) (x : ascii) (a : String) :
  last_id p (x :: a) = last_id (idchar x) a.
Proof.
  unfold last_id. destruct a as [|y a]; [done|]. rewrite last_cons_cons.
  destruct (last (y :: a)) eqn:E; [done|]. by apply last_None in E.
Qed.

Lemma separated_cons (x : ascii) (a b : String) :
  separated (x :: a) b -> separated a b.
Proof.
  intros [?|[Hl|Hb]]; [done| |by right; right].
  destruct a as [|y a]; [by left|]. right; left.
  unfold last_id in *. by rewrite last_cons_cons in Hl.
Qed.

(** The test at the head of [a ++ b] is the test at the head of [a]. *)
Lemma id_here_app (t : String) (p : bool) (a b : String) :
  forallb idchar t = true -> a <> [] -> separated a b ->
  id_here t p (a ++ b) = id_here t p a.
Proof.
  intros Hid Hne Hs. unfold id_here. rewrite <- !andb_assoc. f_equal.
  clear p. revert a Hne Hs. induction t as [|y t IH]; intros [|x a] Hne Hs; try done.
  simpl in Hid. apply andb_true_iff in Hid as [Hy Hid]. simpl.
  destruct (Ascii.eqb y x) eqn:E; [|done]. apply eqb_ascii_true in E as <-. simpl.
  destruct a as [|x' a].
  - destruct Hs as [?|[Hl|Hb]]; [done| |].
    + unfold last_id in Hl. simpl in Hl. congruence.
    + simpl. destruct t as [|z t].
      * simpl. unfold char_at in *. simpl. destruct b; simpl in *; by rewrite ?Hb.
      * simpl. destruct b as [|b0 b]; [done|]. simpl in Hid.
        apply andb_true_iff in Hid as [Hz _].
        destruct (Ascii.eqb z b0) eqn:E; [|done]. apply eqb_ascii_true in E as <-.
        unfold char_at in Hb. simpl in Hb. congruence.
  - apply (IH Hid (x' :: a)); [done|]. by apply separated_cons in Hs.
Qed.

Lemma find_id_unfold (t : String) (p : bool) (u : String) :
  find_id t p u = if id_here t p u then Some 0%nat
                  else match u with
                       | [] => None
                       | c :: u' => S <$> find_id t (idchar c) u'
                       end.
Proof. by destruct u. Qed.

Lemma find_id_nil (t : String) (p : bool) : t <> [] -> find_id t p [] = None.
Proof. intros Hne. destruct t; [done|]. simpl. unfold id_here. simpl. by rewrite andb_false_r. Qed.

(** The first occurrence in [a ++ b] is the first one in [a], or else the
    first one in [b]. *)
Lemma find_id_app (t : String) (a : String) : forall (p : bool) (b : String),
  identifier t -> separated a b ->
  find_id t p (a ++ b) =
    match find_id t p a with
    | Some k => Some k
    | None => (fun k => (length a + k)%nat) <$> find_id t (last_id p a) b
    end.
Proof.
  induction a as [|x a IH]; intros p b Ht Hs.
  - rewrite find_id_nil by apply Ht. simpl. unfold last_id. simpl.
    by destruct (find_id t p b).
  - cbn [app find_id]. change (x :: a ++ b) with ((x :: a) ++ b).
    rewrite id_here_app; [|apply Ht|done|done].
    destruct (id_here t p (x :: a)); [done|].
    rewrite IH; [|done|by apply separated_cons in Hs].
    rewrite last_id_cons. destruct (find_id t (idchar x) a); [done|].
    destruct (find_id t _ b); done.
Qed.

(** No occurrence starts within a run of identifier characters. *)
Lemma find_id_skip (t : String) (a b : String) :
  forallb idchar a = true ->
  find_id t true (a ++ b) = (fun k => (length a + k)%nat) <$> find_id t true b.
Proof.
  induction a as [|x a IH]; intros Ha.
  - simpl. by destruct (find_id t true b).
  - simpl in Ha. apply andb_true_iff in Ha as [Hx Ha]. cbn [app find_id].
    unfold id_here at 1. simpl. rewrite Hx, IH by done.
    by destruct (find_id t true b).
Qed.

Lemma find_id_prev (t : String) (p : bool) (u : String) :
  find_id t false u = None -> find_id t p u = None.
Proof.
  destruct p; [|done]. destruct u as [|c u]; cbn [find_id]; unfold id_here; simpl.
  - by destruct t.
  - destruct (is_prefix t (c :: u) && _); [done|]. done.
Qed.

Lemma find_id_head (t : String) (p p' : bool) (u : String) :
  identifier t -> idchar (char_at u 0) = false -> find_id t p u = find_id t p' u.
Proof.
  intros Ht Hu. destruct u as [|c u]; cbn [find_id]; unfold id_here;
    rewrite (is_prefix_head t _ Ht Hu); by rewrite !andb_false_r.
Qed.


Lemma fmap_add_0 (x : option nat) : (fun k => (0 + k)%nat) <$> x = x.
Proof. by destruct x. Qed.

Lemma char_at_drop (u : String) (s k : nat) : char_at (drop s u) k = char_at u (s + k).
Proof. unfold char_at. rewrite !nth_lookup, lookup_drop. done. Qed.

Lemma char_at_cons (c : ascii) (u : String) (k : nat) : char_at (c :: u) (S k) = char_at u k.
Proof. reflexivity. Qed.

Lemma strstr_None_find (t : String) (u : String) : forall p,
  strstr u t = None -> find_id t p u = None.
Proof.
  induction u as [|c u IH]; intros p; cbn [strstr find_id]; unfold id_here.
  - destruct (is_prefix t []); [done|]. by rewrite andb_false_r.
  - destruct (is_prefix t (c :: u)); [done|]. rewrite andb_false_r. simpl.
    destruct (strstr u t) eqn:E; [done|]. intros _. by rewrite IH.
Qed.

Lemma strstr_Some_find (t : String) (u : String) : forall (p : bool) (k : nat),
  strstr u t = Some k ->
  is_prefix t (drop k u) = true /\
  find_id t p u
  = (fun n => (k + n)%nat) <$>
      find_id t (match k with O => p | S k' => idchar (char_at u k') end) (drop k u).
Proof.
  induction u as [|c u IH]; intros p k; cbn [strstr].
  - destruct (is_prefix t []) eqn:E; [|done]. intros [= <-]. split; [done|].
    by rewrite fmap_add_0.
  - destruct (is_prefix t (c :: u)) eqn:E.
    + intros [= <-]. split; [done|]. by rewrite fmap_add_0.
    + destruct (strstr u t) as [k'|] eqn:E'; [|done]. simpl. intros [= <-].
      destruct (IH (idchar c) k' eq_refl) as [I1 I2]. split; [done|].
      cbn [find_id]. unfold id_here at 1. rewrite E, andb_false_r. simpl.
      rewrite I2. clear. destruct k' as [|k'']; unfold char_at; cbn [nth drop];
        by destruct (find_id _ _ _).
Qed.

Lemma idchar_nth (t : String) (k : nat) :
  forallb idchar t = true -> (k < length t)%nat -> idchar (char_at t k) = true.
Proof.
  intros Ht Hk. rewrite forallb_forall in Ht. apply Ht. unfold char_at. by apply nth_In.
Qed.

(** An occurrence of [t] that fails the test is passed whole. *)
Lemma find_id_reject (t : String) (p : bool) (v : String) :
  identifier t -> is_prefix t v = true -> id_here t p v = false ->
  find_id t p v = (fun k => (length t + k)%nat) <$> find_id t true (drop (length t) v).
Proof.
  intros [Hne Hid] Hpre Hrej. pose proof (is_prefix_app _ _ Hpre) as E.
  remember (drop (length t) v) as rest eqn:Er. clear Er. subst v.
  destruct t as [|t0 t]; [done|]. simpl in Hid. apply andb_true_iff in Hid as [H0 Hid].
  change ((t0 :: t) ++ rest) with (t0 :: (t ++ rest)) in *.
  cbn [find_id]. rewrite Hrej, H0, find_id_skip by done.
  destruct (find_id (t0 :: t) true rest); done.
Qed.

(** [match_identifier] finds the first occurrence of an identifier. *)
Lemma match_identifier_find (t : String) (base : String) :
  identifier t ->
  forall (fuel s : nat), (length base - s < fuel)%nat ->
  match_identifier fuel base s t
  = (fun k => (s + k)%nat) <$> find_id t (prev_id base s) (drop s base).
Proof.
  intros Ht. pose proof Ht as [Hne Hid].
  induction fuel as [|fuel IH]; intros s Hf; [lia|].
  cbn [match_identifier].
  destruct (strstr (drop s base) t) as [k|] eqn:Ek.
  2:{ by rewrite strstr_None_find. }
  pose proof (strstr_bound _ _ _ Ek) as Hb. rewrite length_drop in Hb.
  destruct (strstr_Some_find _ _ (prev_id base s) _ Ek) as [Hpre Hfind].
  rewrite Hfind. rewrite drop_drop in *.
  assert (match k with O => prev_id base s | S k' => idchar (char_at (drop s base) k') end
          = prev_id base (s + k)) as ->.
  { destruct k as [|k']; [by rewrite Nat.add_0_r|].
    unfold prev_id. rewrite char_at_drop.
    replace (s + S k' - 1)%nat with (s + k')%nat by lia.
    destruct (Nat.ltb_spec 0 (s + S k')); [done|lia]. }
  assert (0 < length t)%nat as Hlen by (destruct t; [done|simpl; lia]).
  assert (id_here t (prev_id base (s + k)) (drop (s + k) base) = false ->
          match_identifier fuel base (s + k + length t) t
          = (fun n => (s + n)%nat) <$>
              ((fun n => (k + n)%nat) <$> find_id t (prev_id base (s + k)) (drop (s + k) base)))
    as Hrej.
  { intros Hr. rewrite (find_id_reject _ _ _ Ht Hpre Hr), drop_drop.
    rewrite IH by lia.
    assert (prev_id base (s + k + length t) = true) as ->.
    { unfold prev_id. destruct (Nat.ltb_spec 0 (s + k + length t)); [|lia]. simpl.
      replace (s + k + length t - 1)%nat with ((s + k) + (length t - 1))%nat by lia.
      rewrite <- char_at_drop. rewrite (is_prefix_app _ _ Hpre).
      unfold char_at. rewrite app_nth1 by lia. apply idchar_nth; [done|lia]. }
    destruct (find_id t true _); simpl; [f_equal; lia|done]. }
  change ((0 <? s + k)%nat && idchar (char_at base (s + k - 1))) with (prev_id base (s + k)).
  destruct (prev_id base (s + k)) eqn:E1.
  - apply Hrej. done.
  - destruct (idchar (char_at base (s + k + length t))) eqn:E2.
    + apply Hrej. unfold id_here. rewrite char_at_drop, E2. by rewrite andb_false_r.
    + rewrite find_id_unfold. unfold id_here. rewrite Hpre, char_at_drop, E2. simpl.
      f_equal. lia.
Qed.

Lemma last_id_separated (p : bool) (a b : String) : last_id p a = false -> separated a b.
Proof.
  intros Hl. destruct a as [|x a]; [by left|]. right; left.
  by rewrite last_id_cons in *.
Qed.

(** The first occurrence: where it is and what stands around it. *)
Lemma find_id_Some (t : String) (u : String) : forall (p : bool) (k : nat),
  find_id t p u = Some k ->
  is_prefix t (drop k u) = true /\
  last_id p (take k u) = false /\
  idchar (char_at u (k + length t)) = false.
Proof.
  induction u as [|c u IH]; intros p k; cbn [find_id].
  - destruct (id_here t p []) eqn:E; [|done]. intros [= <-]. unfold id_here in E.
    apply andb_true_iff in E as [E E3]. apply andb_true_iff in E as [E1 E2].
    split; [done|]. split; [by destruct p|]. by apply negb_true_iff in E3.
  - destruct (id_here t p (c :: u)) eqn:E.
    + intros [= <-]. unfold id_here in E.
      apply andb_true_iff in E as [E E3]. apply andb_true_iff in E as [E1 E2].
      split; [done|]. split; [by destruct p|]. by apply negb_true_iff in E3.
    + destruct (find_id t (idchar c) u) as [k'|] eqn:E'; [|done]. simpl. intros [= <-].
      destruct (IH _ _ E') as (I1 & I2 & I3). split; [done|].
      split; [by rewrite firstn_cons, last_id_cons|done].
Qed.

Lemma find_id_bound (t : String) (p : bool) (u : String) (k : nat) :
  identifier t -> find_id t p u = Some k -> (k + length t <= length u)%nat.
Proof.
  intros [Hne _] E. apply find_id_Some in E as (E & _ & _). apply is_prefix_length in E.
  rewrite length_drop in E. destruct t; [done|]. simpl in *. lia.
Qed.

(** Nothing is found before the first occurrence. *)
Lemma find_id_first (t : String) (p : bool) (u : String) (k : nat) :
  identifier t -> find_id t p u = Some k -> find_id t p (take k u) = None.
Proof.
  intros Ht E. pose proof (find_id_Some _ _ _ _ E) as (E1 & E2 & E3).
  pose proof (last_id_separated _ _ (drop k u) E2) as Hs.
  rewrite <- (take_drop k u) in E at 1. rewrite find_id_app in E by done.
  destruct (find_id t p (take k u)) as [k'|] eqn:E'; [|done].
  apply find_id_bound in E'; [|done]. rewrite length_take in E'. destruct Ht as [Hne _].
  destruct t; [done|]. simpl in E'. injection E as ->. lia.
Qed.


Lemma match_id_find (t base : String) (s : nat) :
  identifier t ->
  match_id base s t = (fun k => (s + k)%nat) <$> find_id t (prev_id base s) (drop s base).
Proof. intros Ht. unfold match_id. apply match_identifier_find; [done|lia]. Qed.

Lemma occurs_id_find (q s : String) :
  identifier q -> occurs_id q s = false <-> find_id q false s = None.
Proof.
  intros Hq. unfold occurs_id. destruct q as [|q0 q]; [by destruct Hq|].
  rewrite match_id_find by done. rewrite drop_0.
  change (prev_id s 0) with false.
  destruct (find_id (q0 :: q) false s); simpl; split; done.
Qed.

(** The text that [replace_from] makes from offset [s] on holds no occurrence
    of the identifier [q], when the replacement holds none and either [q] is
    the identifier replaced or the text held none. *)
Lemma replace_from_no_id (t q rep base : String) :
  identifier t -> identifier q -> find_id q false rep = None ->
  forall (fuel s : nat) (p : bool),
    (length base - s < fuel)%nat ->
    (s = 0%nat /\ p = false) \/ idchar (char_at base s) = false ->
    t = q \/ find_id q p (drop s base) = None ->
    let out := (replace_from match_id fuel None base s t rep).1 in
    find_id q p out = None /\
    (idchar (char_at base s) = false -> idchar (char_at out 0) = false).
Proof.
  intros Ht Hq Hrep.
  induction fuel as [|fuel IH]; intros s p Hf Hs Hc; [lia|].
  cbn [replace_from]. rewrite match_id_find by done.
  assert (forall u, (u = [] \/ idchar (char_at u 0) = idchar (char_at base s)) ->
                    find_id q (prev_id base s) u = find_id q p u) as Hflag.
  { intros u Hu. destruct Hs as [[-> ->]|Hs]; [done|].
    destruct Hu as [->|Hu]; [by rewrite !find_id_nil by apply Hq|].
    apply find_id_head; [done|congruence]. }
  destruct (find_id t (prev_id base s) (drop s base)) as [k|] eqn:Ek; simpl.
  2:{ split; [|by rewrite char_at_drop, Nat.add_0_r].
      destruct Hc as [->|Hc]; [|done].
      rewrite <- Hflag; [done|]. right. by rewrite char_at_drop, Nat.add_0_r. }
  pose proof (find_id_Some _ _ _ _ Ek) as (E1 & E2 & E3).
  pose proof (find_id_first _ _ _ _ Ht Ek) as E4.
  pose proof (find_id_bound _ _ _ _ Ht Ek) as E5. rewrite length_drop in E5.
  rewrite char_at_drop, Nat.add_assoc in E3. rewrite drop_drop in E1.
  pose proof (is_prefix_app _ _ E1) as E6. rewrite drop_drop in E6.
  assert (0 < length t)%nat as Hlen by (destruct Ht as [? _]; destruct t; [done|simpl; lia]).
  set (seg := take (s + k - s) (drop s base)).
  assert (seg = take k (drop s base)) as Eseg by (unfold seg; f_equal; lia).
  assert (separated seg (t ++ drop (s + k + length t) base)) as Hsep1.
  { rewrite Eseg. eapply last_id_separated, E2. }
  assert (drop s base = seg ++ t ++ drop (s + k + length t) base) as Ebase.
  { rewrite Eseg, <- E6, <- (drop_drop base k s). by rewrite take_drop. }
  assert (separated t (drop (s + k + length t) base)) as Hsep2.
  { right; right. by rewrite char_at_drop, Nat.add_0_r. }
  assert (idchar (char_at base s) = false -> seg <> [] /\ char_at seg 0 = char_at base s) as Hhead.
  { intros Hb. destruct k as [|k].
    - rewrite Nat.add_0_r in E1.
      rewrite (is_prefix_head t (drop s base) Ht) in E1; [done|].
      by rewrite char_at_drop, Nat.add_0_r.
    - rewrite Eseg. destruct (drop s base) as [|c u] eqn:Eu.
      + apply (f_equal length) in Eu. rewrite length_drop in Eu. simpl in Eu. lia.
      + split; [done|]. rewrite <- (Nat.add_0_r s), <- char_at_drop, Eu. done. }
  assert (find_id q p seg = None) as Hseg.
  { destruct Hc as [<-|Hc].
    - rewrite Eseg. destruct Hs as [[-> ->]|Hs]; [exact E4|].
      rewrite <- Hflag; [exact E4|]. right.
      destruct (Hhead Hs) as [_ He]. by rewrite <- Eseg, He.
    - rewrite Ebase, find_id_app in Hc by done.
      by destruct (find_id q p seg). }
  destruct (replace_from match_id fuel None base (s + k + length t) t rep) as [rest n] eqn:Er.
  cbn [fst].
  destruct (IH (s + k + length t)%nat (last_id (last_id p seg) rep)) as [I1 I2].
  { lia. }
  { by right. }
  { destruct Hc as [->|Hc]; [by left|]. right.
    rewrite Ebase, find_id_app, Hseg in Hc by done.
    rewrite find_id_app in Hc by done.
    destruct (find_id q (last_id p seg) t); [done|].
    destruct (find_id q _ (drop (s + k + length t) base)) eqn:E; [done|].
    erewrite find_id_head; [exact E|done|]. by rewrite char_at_drop, Nat.add_0_r. }
  rewrite Er in I1, I2. cbn [fst] in I1, I2. specialize (I2 E3).
  split.
  - rewrite find_id_app, Hseg; [|done|].
    2:{ rewrite Eseg. eapply last_id_separated, E2. }
    rewrite find_id_app; [|done|by right; right].
    rewrite (find_id_prev _ _ _ Hrep). by rewrite I1.
  - intros Hb. destruct (Hhead Hb) as [Hne He].
    destruct seg as [|c seg']; [done|]. unfold char_at in *. simpl in *. congruence.
Qed.

(** An identifier replacement leaves no occurrence of the identifier [q]
    when the replacement holds none, and either [q] is what is replaced or the
    string held none. *)
Lemma Replaceid_no_id (s t q rep : String) :
  identifier t -> identifier q -> find_id q false rep = None ->
  t = q \/ find_id q false s = None ->
  find_id q false (Replaceid s t rep).1 = None.
Proof.
  intros Ht Hq Hrep Hc. unfold Replaceid, replace_simple.
  destruct t as [|t0 t]; [by destruct Ht|].
  apply (replace_from_no_id (t0 :: t) q rep s Ht Hq Hrep (S (length s)) 0 false).
  - lia.
  - by left.
  - by rewrite drop_0.
Qed.

(** An identifier that does not occur is not replaced. *)
Lemma Replaceid_absent (s token rep : String) :
  occurs_id token s = false -> (Replaceid s token rep).1 = s.
Proof.
  unfold occurs_id, Replaceid, replace_simple. destruct token as [|t0 token]; [done|].
  intros E. apply bool_decide_eq_false in E. cbn [replace_from].
  destruct (match_id s 0 (t0 :: token)) as [c|]; [|done].
  exfalso. apply E. by eexists.
Qed.

End IdentifierReplacement.

(** ** C8: defaults that refer to earlier parameters *)

(** [Map<int>] with [template<class K, class C = Less<K>>]. *)
Example parms_expand_default :
  Swig_cparse_template_parms_expand [Demo.targ "int"] (Demo.map_template "K" "C" "Less<(K)>")
  = [mkParm (Some (str "int")) None (Some (str "K")) None;
     mkParm (Some (str "typename")) (Some (str "Less<(int)>")) (Some (str "C"))
            (Some (str "1"))].
Proof. reflexivity. Qed.

(** An occurrence that a substituted value brings in: in [Map<Key>] with
    [template<class Key, class Cmp = less<Key>>] the argument is a type with
    the name of the parameter it is bound to; [Key] is replaced by [Key], and
    the value of [Cmp] holds that identifier. *)
Example parms_expand_same_name :
  exists P v,
    Swig_cparse_template_parms_expand [Demo.targ "Key"]
      (Demo.map_template "Key" "Cmp" "less<(Key)>") !! 1%nat = Some P /\
    parm_value P = Some v /\ v = str "less<(Key)>" /\ occurs_id (str "Key") v = true.
Proof. eexists _, _. repeat split; reflexivity. Qed.

Section Defaults.

Lemma set_value_or_type_same tp v :
  value_or_type tp = Some v -> set_value_or_type tp v = tp.
Proof.
  destruct tp as [t [va|] n d]; unfold value_or_type, set_value_or_type; simpl.
  - by intros [= ->].
  - by intros ->.
Qed.

Lemma value_or_type_set tp v : value_or_type (set_value_or_type tp v) = Some v.
Proof. by destruct tp as [t [va|] n d]. Qed.

Lemma set_value_or_type_twice tp a b :
  set_value_or_type (set_value_or_type tp a) b = set_value_or_type tp b.
Proof. by destruct tp as [t [va|] n d]. Qed.

Lemma parm_name_set tp v : parm_name (set_value_or_type tp v) = parm_name tp.
Proof. by destruct tp as [t [va|] n d]. Qed.

Lemma parm_default_set tp v : parm_default (set_value_or_type tp v) = parm_default tp.
Proof. by destruct tp as [t [va|] n d]. Qed.

Lemma parm_value_set tp v v0 :
  parm_value tp = Some v0 -> parm_value (set_value_or_type tp v) = Some v.
Proof. destruct tp as [t [va|] n d]; [done | by intros [=]]. Qed.

Lemma expand_default_value_unfold l i tv :
  expand_default_value l i tv = foldl (default_value_step l i) tv (seq 0 (length l)).
Proof. reflexivity. Qed.

(** The inner loop rewrites the string of the parameter at [i] and nothing
    else. *)
Lemma inner_loop_fold (l : ParmList) (i : nat) (tp : Parm) :
  l !! i = Some tp ->
  forall js tv,
    foldl (fun l j => expand_defaults_step l i j) (<[i := set_value_or_type tp tv]> l) js
    = <[i := set_value_or_type tp (foldl (default_value_step l i) tv js)]> l.
Proof.
  intros Hi. pose proof (lookup_lt_Some _ _ _ Hi) as Hlt.
  induction js as [|j js IH]; intros tv; [done|].
  cbn [foldl]. rewrite <- IH. f_equal.
  unfold expand_defaults_step, default_value_step.
  rewrite list_lookup_insert_eq by done. rewrite value_or_type_set.
  destruct (decide (j = i)) as [->|Hne].
  - rewrite list_lookup_insert_eq by done. rewrite Hi, parm_name_set.
    destruct (parm_name tp); [|done].
    unfold replacement_of. rewrite value_or_type_set. cbn [default].
    by rewrite list_insert_insert_eq, set_value_or_type_twice.
  - rewrite list_lookup_insert_ne by done.
    destruct (l !! j) as [p|]; [|done].
    destruct (parm_name p); [|done].
    by rewrite list_insert_insert_eq, set_value_or_type_twice.
Qed.

Lemma inner_loop_spec (l : ParmList) (i : nat) (tp : Parm) :
  l !! i = Some tp ->
  foldl (fun l j => expand_defaults_step l i j) l (seq 0 (length l))
  = match value_or_type tp with
    | Some v0 => <[i := set_value_or_type tp (expand_default_value l i v0)]> l
    | None => l
    end.
Proof.
  intros Hi. destruct (value_or_type tp) as [v0|] eqn:Ev.
  - rewrite expand_default_value_unfold, <- inner_loop_fold by done.
    by rewrite (set_value_or_type_same tp v0), list_insert_id.
  - generalize (seq 0 (length l)). intros js. induction js as [|j js IH]; [done|].
    cbn [foldl]. unfold expand_defaults_step at 2. rewrite Hi, Ev.
    by destruct (l !! j).
Qed.

Lemma defaults_upto_S l K :
  defaults_upto l (S K)
  = foldl (fun l j => expand_defaults_step l K j) (defaults_upto l K)
          (seq 0 (length (defaults_upto l K))).
Proof. unfold defaults_upto. by rewrite seq_S, foldl_app. Qed.

Lemma defaults_upto_inv (l : ParmList) (K : nat) :
  (K <= length l)%nat ->
  length (defaults_upto l K) = length l /\
  (forall k, (K <= k)%nat -> defaults_upto l K !! k = l !! k) /\
  (forall k tp, (k < K)%nat -> l !! k = Some tp ->
     defaults_upto l K !! k = Some (treated (defaults_upto l k) k tp)).
Proof.
  induction K as [|K IH]; intros HK.
  - split; [done|]. split; [done|]. intros; lia.
  - destruct IH as (IH1 & IH2 & IH3); [lia|].
    destruct (lookup_lt_is_Some_2 l K) as [tp Htp]; [lia|].
    assert (defaults_upto l K !! K = Some tp) as HK' by (by rewrite IH2).
    assert (defaults_upto l (S K) = <[K := treated (defaults_upto l K) K tp]> (defaults_upto l K))
      as E.
    { rewrite defaults_upto_S, (inner_loop_spec _ K tp HK'). unfold treated.
      destruct (value_or_type tp); [done|]. by rewrite list_insert_id. }
    rewrite E.
    split; [by rewrite length_insert|]. split.
    + intros k Hk. rewrite list_lookup_insert_ne by lia. apply IH2. lia.
    + intros k tp' Hk Hl. destruct (decide (k = K)) as [->|Hne].
      * rewrite list_lookup_insert_eq by lia. congruence.
      * rewrite list_lookup_insert_ne by done. apply IH3; [lia|done].
Qed.

(** What [expand_defaults] leaves in the parameter at [i]: the string it had,
    with the names of all the parameters replaced in the order of the list;
    the parameters before [i] are substituted as [expand_defaults] leaves
    them, those after [i] as they were. *)
Lemma expand_defaults_spec (l : ParmList) (i : nat) (tp : Parm) :
  l !! i = Some tp ->
  expand_defaults l !! i
  = Some (treated (take i (expand_defaults l) ++ drop i l) i tp).
Proof.
  intros Hi. pose proof (lookup_lt_Some _ _ _ Hi) as Hlt.
  change (expand_defaults l) with (defaults_upto l (length l)).
  destruct (defaults_upto_inv l (length l)) as (F1 & _ & F3); [done|].
  destruct (defaults_upto_inv l i) as (I1 & I2 & I3); [lia|].
  rewrite (F3 i tp) by done. do 2 f_equal.
  apply list_eq. intros k. destruct (decide (k < i)%nat) as [Hk|Hk].
  - rewrite lookup_app_l by (rewrite length_take; lia).
    rewrite lookup_take_lt by done.
    destruct (lookup_lt_is_Some_2 l k) as [tpk Htpk]; [lia|].
    rewrite (I3 k tpk), (F3 k tpk) by (done || lia). done.
  - rewrite lookup_app_r by (rewrite length_take; lia).
    rewrite length_take, lookup_drop, I2 by lia. f_equal. lia.
Qed.

Lemma merge_parameters_length p tp : length (merge_parameters p tp) = length p.
Proof.
  revert tp. induction p as [|q p IH]; intros [|tq tp]; simpl; try done. by rewrite IH.
Qed.

Lemma default_value_upto_S (l : ParmList) (i : nat) (tv : String) (k : nat) :
  default_value_upto l i tv (S k)
  = default_value_step l i (default_value_upto l i tv k) k.
Proof. unfold default_value_upto. by rewrite seq_S, foldl_app. Qed.

(** A turn of the inner loop of [expand_defaults] brings no occurrence of
    the identifier [qn] into a string that holds none, unless it replaces a
    name by a string that holds one. *)
Lemma default_value_step_no_id (l : ParmList) (i : nat) (qn : String) (k : nat) (tv : String) :
  identifier qn -> named_by_identifiers l ->
  (k <> i -> forall R n, l !! k = Some R -> parm_name R = Some n ->
     occurs_id n tv = true -> find_id qn false (replacement_of R) = None) ->
  find_id qn false tv = None ->
  find_id qn false (default_value_step l i tv k) = None.
Proof.
  intros Hq Hn Hv Htv. unfold default_value_step.
  destruct (l !! k) as [R|] eqn:ER; [|done].
  destruct (parm_name R) as [n|] eqn:En; [|done].
  assert (identifier n) as Hid.
  { unfold named_by_identifiers in Hn. rewrite Forall_lookup in Hn. by apply (Hn k R). }
  destruct (decide (k = i)) as [->|Hne].
  - apply Replaceid_no_id; by try right.
  - destruct (occurs_id n tv) eqn:Eo.
    + apply Replaceid_no_id; try done; [by apply (Hv Hne R n)|by right].
    + by rewrite Replaceid_absent.
Qed.

(** The turn of the parameter named [qn] removes the occurrences of [qn],
    unless the string it puts in their place holds one. *)
Lemma default_value_step_replaces (l : ParmList) (i j : nat) (Q : Parm) (qn tv : String) :
  identifier qn -> l !! j = Some Q -> parm_name Q = Some qn -> j <> i ->
  (occurs_id qn tv = true -> find_id qn false (replacement_of Q) = None) ->
  find_id qn false (default_value_step l i tv j) = None.
Proof.
  intros Hq HQ Hn Hne Hv. unfold default_value_step.
  rewrite HQ, Hn. rewrite decide_False by done.
  destruct (occurs_id qn tv) eqn:Eo.
  - apply Replaceid_no_id; try done; [by apply Hv|by left].
  - rewrite Replaceid_absent by done. by apply occurs_id_find.
Qed.

(** Once the name [qn] of the parameter at [j] has been replaced, the
    string of the parameter at [i] holds no occurrence of it, when no string
    that is put in the place of a name from [j] on holds one. *)
Lemma expand_default_value_no_id (l : ParmList) (i j : nat) (Q : Parm) (qn tv : String) :
  identifier qn -> named_by_identifiers l ->
  l !! j = Some Q -> parm_name Q = Some qn -> j <> i ->
  (forall k R n, (j <= k)%nat -> k <> i -> l !! k = Some R -> parm_name R = Some n ->
     occurs_id n (default_value_upto l i tv k) = true ->
     occurs_id qn (replacement_of R) = false) ->
  occurs_id qn (expand_default_value l i tv) = false.
Proof.
  intros Hq Hn HQ Hqn Hne Hv. apply occurs_id_find; [done|].
  pose proof (lookup_lt_Some _ _ _ HQ) as Hlt.
  unfold expand_default_value.
  assert (forall d, (S j + d <= length l)%nat ->
            find_id qn false (default_value_upto l i tv (S j + d)) = None) as Hall.
  { induction d as [|d IH]; intros Hd.
    - rewrite Nat.add_0_r, default_value_upto_S.
      apply (default_value_step_replaces l i j Q qn); try done.
      intros Ho. apply occurs_id_find; [done|]. by apply (Hv j Q qn).
    - replace (S j + S d)%nat with (S (S j + d)) by lia. rewrite default_value_upto_S.
      apply default_value_step_no_id; try done; [|apply IH; lia].
      intros Hki R n HR HRn Ho. apply occurs_id_find; [done|].
      apply (Hv (S j + d)%nat R n); try done. lia. }
  replace (length l) with (S j + (length l - S j))%nat by lia. apply Hall. lia.
Qed.

Lemma merge_parameters_names (p : ParmList) : forall (tps : ParmList) (k : nat) (R : Parm),
  (length p <= length tps)%nat -> merge_parameters p tps !! k = Some R ->
  exists tp, tps !! k = Some tp /\ parm_name R = parm_name tp.
Proof.
  induction p as [|q p IH]; intros [|tq tps] k R Hl; simpl in *; try done; [lia|].
  destruct k as [|k]; simpl.
  - intros [= <-]. by exists tq.
  - apply IH. lia.
Qed.

Lemma parm_name_treated (l : ParmList) (k : nat) (tp : Parm) :
  parm_name (treated l k tp) = parm_name tp.
Proof. unfold treated. destruct (value_or_type tp); [|done]. apply parm_name_set. Qed.

(** The parameters that [expand_defaults] works on, and those of its result,
    carry the names of the template parameters. *)
Lemma expanded_names (instantiated_parms templateparms_ : ParmList) (i : nat) :
  (length instantiated_parms <= length templateparms_)%nat ->
  named_by_identifiers templateparms_ ->
  let merged :=
    merge_parameters instantiated_parms templateparms_
    ++ mark_defaults (drop (length instantiated_parms) templateparms_) in
  named_by_identifiers (take i (expand_defaults merged) ++ drop i merged).
Proof.
  intros Hl Hn merged.
  assert (forall k R, merged !! k = Some R ->
            exists tp, templateparms_ !! k = Some tp /\ parm_name R = parm_name tp) as Hm.
  { intros k R. subst merged. destruct (decide (k < length instantiated_parms)%nat).
    - rewrite lookup_app_l by (rewrite merge_parameters_length; lia).
      by apply merge_parameters_names.
    - rewrite lookup_app_r by (rewrite merge_parameters_length; lia).
      rewrite merge_parameters_length. unfold mark_defaults.
      rewrite list_lookup_fmap, lookup_drop.
      replace (length instantiated_parms + (k - length instantiated_parms))%nat with k by lia.
      destruct (templateparms_ !! k) as [tp|]; [|done]. simpl. intros [= <-]. by exists tp. }
  unfold named_by_identifiers in *. rewrite Forall_lookup in Hn. apply Forall_lookup.
  intros k R HR n HRn.
  assert (exists tp, templateparms_ !! k = Some tp /\ parm_name R = parm_name tp)
    as (tp & Htp & En).
  { apply lookup_app_Some in HR as [HR|[Hk HR]].
    - apply lookup_take_Some in HR as [HR Hk].
      destruct (merged !! k) as [mk|] eqn:Emk.
      + rewrite (expand_defaults_spec _ _ _ Emk) in HR. injection HR as <-.
        rewrite parm_name_treated. by apply Hm.
      + apply lookup_ge_None in Emk. apply lookup_lt_Some in HR.
        assert (length (expand_defaults merged) = length merged) as El.
        { change (expand_defaults merged) with (defaults_upto merged (length merged)).
          by apply defaults_upto_inv. }
        lia.
    - rewrite lookup_drop in HR. apply Hm in HR. 
      destruct (decide (i <= length (expand_defaults merged))%nat) as [Hi|Hi].
      + rewrite length_take, Nat.min_l in HR, Hk by done.
        by replace (i + (k - i))%nat with k in HR by lia.
      + rewrite take_ge in HR, Hk by lia. 
        assert (length (expand_defaults merged) = length merged) as El.
        { change (expand_defaults merged) with (defaults_upto merged (length merged)).
          by apply defaults_upto_inv. }
        destruct HR as (tp & HR & _). apply lookup_lt_Some in HR.
        exfalso. revert HR Hk Hi. rewrite El. unfold merged.
        rewrite length_app, merge_parameters_length. unfold mark_defaults.
        rewrite length_map, length_drop. lia. }
  apply (Hn k tp Htp). congruence.
Qed.


End Defaults.



(** ** C9: pack expansion *)

Section PackExpansion.
Context `{TypeOps} `{Symbols}.

Lemma Char_app_l (h k : Strs) (l : loc) : (l < length h)%nat -> Char (h ++ k) l = Char h l.
Proof. intros. unfold Char. by apply lookup_total_app_l. Qed.

Lemma Char_app_new (h k : Strs) (s : String) : Char (h ++ s :: k) (length h) = s.
Proof.
  unfold Char. rewrite lookup_total_app_r by done. by rewrite Nat.sub_diag.
Qed.

Lemma Char_opt_app_l (h k : Strs) (o : option loc) :
  (forall l, o = Some l -> (l < length h)%nat) -> Char_opt (h ++ k) o = Char_opt h o.
Proof.
  intros Ho. destruct o as [l|]; [|done]. simpl. f_equal. apply Char_app_l. by apply Ho.
Qed.

Lemma parm_view_app (h k : Strs) (x : XParm) :
  allocated h x -> parm_view (h ++ k) x = parm_view h x.
Proof.
  intros (Ht & Hv & Hn). unfold parm_view.
  by rewrite !Char_opt_app_l.
Qed.

Lemma parms_view_app (h k : Strs) (l : list XParm) :
  Forall (allocated h) l -> parms_view (h ++ k) l = parms_view h l.
Proof.
  intros Hl. unfold parms_view. apply map_ext_Forall.
  eapply Forall_impl; [exact Hl|]. intros x Hx. by apply parm_view_app.
Qed.

Lemma allocated_app (h k : Strs) (x : XParm) : allocated h x -> allocated (h ++ k) x.
Proof.
  intros (Ht & Hv & Hn). unfold allocated. rewrite length_app.
  repeat split; intros l Hl; [apply Ht in Hl | apply Hv in Hl | apply Hn in Hl]; lia.
Qed.

(** A string that is allocated if there is one: the location, and the
    store. *)
Lemma alloc_opt_spec (o : option String) (w : W) :
  exists l k,
    alloc_opt o w = Ret (l, with_strs w (strs w ++ k)) /\
    (forall x, l = Some x -> (x < length (strs w ++ k))%nat) /\
    Char_opt (strs w ++ k) l = o /\
    (forall k', Char_opt ((strs w ++ k) ++ k') l = o).
Proof.
  destruct o as [s|].
  - exists (Some (length (strs w))), [s]. split; [done|]. split; [|split].
    + intros x [= <-]. rewrite length_app. simpl. lia.
    + simpl. by rewrite Char_app_new.
    + intros k'. simpl. rewrite <- app_assoc. simpl. by rewrite Char_app_new.
  - exists None, []. split; [|done]. unfold alloc_opt, ret, with_strs.
    rewrite app_nil_r. by destruct w.
Qed.

Lemma expand_one_spec (type rest : String) (unexpanded_name : option String) (ep : Parm)
    (w : W) :
  SwigType_del_variadic type = Some rest ->
  exists x k,
    expand_one type unexpanded_name ep w = Ret (x, with_strs w (strs w ++ k)) /\
    allocated (strs w ++ k) x /\
    parm_view (strs w ++ k) x = expanded_parm rest unexpanded_name ep.
Proof.
  intros Hd. unfold expand_one, bind.
  destruct (alloc_opt_spec (parm_value ep) w) as (lv & kv & -> & Av & Cv & Cv').
  set (w1 := with_strs w (strs w ++ kv)).
  destruct (alloc_opt_spec (parm_name ep) w1) as (ln & kn & -> & An & Cn & Cn').
  set (w2 := with_strs w1 (strs w1 ++ kn)).
  rewrite Hd. cbn [need ret alloc].
  set (nt := Replaceid_opt rest unexpanded_name (parm_type ep)).
  exists (mkXParm (Some (length (strs w2))) lv ln), (kv ++ kn ++ [nt]).
  assert (strs w2 ++ [nt] = strs w ++ kv ++ kn ++ [nt]) as E.
  { subst w2 w1. simpl. by rewrite <- !app_assoc. }
  split; [|split].
  - unfold with_strs. simpl. by rewrite <- !app_assoc.
  - rewrite <- E. repeat split; simpl; intros l Hl.
    + injection Hl as <-. rewrite !length_app. simpl. lia.
    + apply Av in Hl. subst w2 w1. simpl in *. rewrite !length_app in *. lia.
    + apply An in Hl. subst w2 w1. simpl in *. rewrite !length_app in *. lia.
  - rewrite <- E. unfold parm_view, expanded_parm. simpl. f_equal.
    + by rewrite Char_app_new.
    + subst w2 w1. simpl. rewrite <- app_assoc. apply Cv'.
    + subst w2. apply Cn'.
Qed.

Lemma expand_pack_spec (type rest : String) (unexpanded_name : option String) :
  SwigType_del_variadic type = Some rest ->
  forall (pack : ParmList) (acc : list XParm) (w : W),
    Forall (allocated (strs w)) acc ->
    exists xs k,
      foldM (fun acc ep => x <- expand_one type unexpanded_name ep ;; ret (acc ++ [x]))
            acc pack w
      = Ret (acc ++ xs, with_strs w (strs w ++ k)) /\
      Forall (allocated (strs w ++ k)) (acc ++ xs) /\
      parms_view (strs w ++ k) xs = map (expanded_parm rest unexpanded_name) pack.
Proof.
  intros Hd. induction pack as [|ep pack IH]; intros acc w Hacc.
  - exists [], []. rewrite !app_nil_r. split; [|done].
    unfold foldM, ret, with_strs. by destruct w.
  - destruct (expand_one_spec type rest unexpanded_name ep w Hd) as (x & k & E & Ax & Vx).
    cbn [foldM]. unfold bind at 1. unfold bind at 1. rewrite E. cbn [ret].
    destruct (IH (acc ++ [x]) (with_strs w (strs w ++ k))) as (xs & k' & E' & Axs & Vxs).
    { apply Forall_app. split.
      - eapply Forall_impl; [exact Hacc|]. intros y. apply allocated_app.
      - by constructor. }
    simpl in E', Axs, Vxs. rewrite <- !app_assoc in E', Axs, Vxs.
    exists (x :: xs), (k ++ k'). split; [|split].
    + rewrite E'. unfold with_strs. simpl. by rewrite <- !app_assoc.
    + rewrite <- app_assoc in Axs. exact Axs.
    + cbn [parms_view map]. rewrite app_assoc, parm_view_app, Vx by done. f_equal.
      rewrite <- app_assoc. exact Vxs.
Qed.

Lemma Getparms_Setparms (a : Attrs) (k : string) (p : list XParm) :
  Getparms (Setparms a k p) k = p.
Proof.
  unfold Getparms, Setparms. destruct p.
  - by rewrite lookup_delete_eq.
  - by rewrite lookup_insert_eq.
Qed.

Lemma Setparms_other (a : Attrs) (k k' : string) (p : list XParm) :
  k' <> k -> Setparms a k p !! k' = a !! k'.
Proof.
  intros Hk. unfold Setparms. destruct p.
  - by rewrite lookup_delete_ne.
  - by rewrite lookup_insert_ne.
Qed.

Lemma XParmList_variadic_parm_Some (h : Strs) (p : list XParm) (V : XParm) :
  XParmList_variadic_parm h p = Some V ->
  exists p' l rest,
    p = p' ++ [V] /\ xp_type V = Some l /\
    Char h l = "v"%char :: "."%char :: rest /\
    SwigType_del_variadic (Char h l) = Some rest.
Proof.
  unfold XParmList_variadic_parm. destruct (last p) as [q|] eqn:El; [|done].
  destruct (SwigType_isvariadic _) eqn:Ev; [|done]. intros [= ->].
  apply last_Some in El as [p' ->]. exists p'.
  destruct (xp_type V) as [l|]; [|done]. simpl in Ev.
  destruct (Char h l) as [|c1 [|c2 rest]] eqn:Ec; try done; simpl in Ev.
  - destruct c1 as [[] [] [] [] [] [] [] []]; done.
  - exists l, rest.
    destruct c1 as [[] [] [] [] [] [] [] []]; try done;
      destruct c2 as [[] [] [] [] [] [] [] []]; try done.
    by rewrite Ec.
Qed.


End PackExpansion.



(** ** Pack expansion and the variadic marker *)

Section VariadicElimination.
Context `{TypeOps} `{Symbols}.

Lemma isvariadic_starts (s : String) : SwigType_isvariadic (Some s) = starts_variadic s.
Proof.
  destruct s as [|a [|b s]]; simpl.
  - done.
  - by destruct a as [[] [] [] [] [] [] [] []].
  - destruct (Ascii.eqb a "v"%char) eqn:Ea.
    + apply eqb_ascii_true in Ea as ->. destruct (Ascii.eqb b "."%char) eqn:Eb.
      * by apply eqb_ascii_true in Eb as ->.
      * destruct b as [[] [] [] [] [] [] [] []]; try done.
    + destruct a as [[] [] [] [] [] [] [] []]; try done.
Qed.

(** A match of [match_identifier] lies within the string and is not
    preceded by an identifier character. *)
Lemma match_identifier_Some (token : String) (fuel : nat) : forall (base : String) (s c : nat),
  (s <= length base)%nat ->
  match_identifier fuel base s token = Some c ->
  (c + length token <= length base)%nat /\
  ((0 <? c)%nat && idchar (char_at base (c - 1)) = false).
Proof.
  induction fuel as [|fuel IH]; intros base s c Hs; [done|].
  cbn [match_identifier].
  destruct (strstr (drop s base) token) as [k|] eqn:Ek; [|done].
  apply strstr_bound in Ek. rewrite length_drop in Ek.
  destruct ((0 <? s + k)%nat && idchar (char_at base (s + k - 1))) eqn:E1.
  - intros E. apply IH in E; [done|lia].
  - destruct (idchar (char_at base (s + k + length token))) eqn:E2.
    + intros E. apply IH in E; [done|lia].
    + intros [= <-]. split; [lia|done].
Qed.

Lemma idchar_v : idchar "v"%char = true.
Proof. reflexivity. Qed.

(** An identifier replacement does not make a type variadic, unless the
    replacement is variadic, empty, or the bare name [v]. *)
Lemma Replaceid_not_variadic (s token rep : String) :
  starts_variadic s = false ->
  starts_variadic rep = false -> rep <> [] -> rep <> str "v" ->
  starts_variadic (Replaceid s token rep).1 = false.
Proof.
  intros Hs Hr Hne Hv. unfold Replaceid, replace_simple.
  destruct token as [|t0 token]; [done|].
  cbn [replace_from]. destruct (match_id s 0 (t0 :: token)) as [c|] eqn:Ec; [|done].
  destruct (replace_from _ _ _ _ _ _ _) as [rest k]. cbn [fst].
  rewrite Nat.sub_0_r. unfold match_id in Ec.
  apply match_identifier_Some in Ec as [Hc Hp]; [|lia].
  destruct c as [|[|c]].
  - simpl. destruct rep as [|a [|b rep]]; [done| |done].
    simpl. destruct (Ascii.eqb a "v"%char) eqn:Ea; [|by destruct rest].
    apply eqb_ascii_true in Ea as ->. done.
  - destruct s as [|x s]; [simpl in Hc; lia|]. simpl in Hp. unfold char_at in Hp. simpl in Hp.
    simpl. destruct (rep ++ rest); [done|]. simpl.
    destruct (Ascii.eqb x "v"%char) eqn:Ex; [|done].
    apply eqb_ascii_true in Ex as ->. by rewrite idchar_v in Hp.
  - destruct s as [|x [|y s]]; [simpl in Hc; lia | simpl in Hc; lia|]. done.
Qed.

Lemma no_variadic_parm (h : Strs) (l : list XParm) :
  Forall (fun q => SwigType_isvariadic (parm_type q) = false) (parms_view h l) ->
  XParmList_variadic_parm h l = None.
Proof.
  intros Hl. unfold XParmList_variadic_parm.
  destruct (last l) as [q|] eqn:El; [|done].
  apply last_Some in El as [l' ->]. unfold parms_view in Hl.
  rewrite map_app in Hl. apply Forall_app in Hl as [_ Hq].
  apply Forall_inv in Hq. simpl in Hq. by rewrite Hq.
Qed.

(** When an unexpanded variadic template parameter
    is in scope and the parameter list of the attribute ends with a variadic
    parameter [V], pack expansion leaves no variadic parameter in the list,
    provided that the type of [V] carries one variadic marker only, that no
    parameter before [V] is variadic, and that every argument of the pack has
    a type which is not variadic, not empty and not the bare name [v].
    ([expand_variadic_parms] does nothing without a pack in scope, and the
    walker does not visit a node that carries [error].) *)
Theorem expand_variadic_parms_no_variadic (a : Attrs) (attribute : string) (u : Parm)
    (expanded_variadic_parms : ParmList) (w : W) (V : XParm) :
  let p := Getparms a attribute in
  Forall (allocated (strs w)) p ->
  XParmList_variadic_parm (strs w) p = Some V ->
  (forall rest, Char_opt (strs w) (xp_type V) = Some ("v"%char :: "."%char :: rest) ->
     SwigType_isvariadic (Some rest) = false) ->
  Forall (fun q => SwigType_isvariadic (parm_type q) = false)
         (removelast (parms_view (strs w) p)) ->
  Forall (fun E => exists t, parm_type E = Some t /\ t <> [] /\ t <> str "v" /\
                             SwigType_isvariadic (Some t) = false)
         expanded_variadic_parms ->
  exists a' w',
    expand_variadic_parms a attribute (Some u) expanded_variadic_parms w = Ret (a', w') /\
    Forall (fun q => SwigType_isvariadic (parm_type q) = false)
           (parms_view (strs w') (Getparms a' attribute)) /\
    XParmList_variadic_parm (strs w') (Getparms a' attribute) = None.
Proof.
  intros p Hp EV Hone Hbefore Hpack.
  destruct (XParmList_variadic_parm_Some _ _ _ EV) as (p' & l & rest & Ep & Et & Ec & Ed).
  destruct (expand_pack_spec (Char (strs w) l) rest (parm_name u) Ed
              expanded_variadic_parms [] w) as (xs & k & E & Axs & Vxs); [done|].
  exists (Setparms a attribute (ParmList_replace_last p xs)), (with_strs w (strs w ++ k)).
  assert (Forall (fun q => SwigType_isvariadic (parm_type q) = false)
            (parms_view (strs w ++ k) (ParmList_replace_last p xs))) as Hall.
  { assert (ParmList_replace_last p xs = p' ++ xs) as ->.
    { rewrite Ep. unfold ParmList_replace_last.
      destruct (p' ++ [V]) eqn:E'; [by destruct p'|]. rewrite <- E'.
      by rewrite removelast_last. }
    unfold parms_view. rewrite map_app. apply Forall_app. split.
    - rewrite Ep in Hp, Hbefore. apply Forall_app in Hp as [Hp' _].
      unfold parms_view in Hbefore. rewrite map_app in Hbefore. simpl in Hbefore.
      rewrite removelast_last in Hbefore.
      fold (parms_view (strs w ++ k) p'). by rewrite parms_view_app.
    - fold (parms_view (strs w ++ k) xs). rewrite Vxs. apply Forall_map.
      eapply Forall_impl; [exact Hpack|]. intros ep (t & Ht & Hne & Hv & Hnv).
      unfold expanded_parm. cbn [parm_type].
      rewrite Ht. rewrite isvariadic_starts in Hnv.
      assert (starts_variadic rest = false) as Hrest.
      { rewrite <- isvariadic_starts. apply Hone. by rewrite Et; simpl; rewrite Ec. }
      rewrite isvariadic_starts. unfold Replaceid_opt.
      destruct (parm_name u); [|done]. by apply Replaceid_not_variadic. }
  split; [|split].
  - unfold expand_variadic_parms. fold p. rewrite EV.
    unfold bind at 1. rewrite Et. cbn [need ret]. unfold bind at 1, read at 1.
    unfold bind at 1. simpl in E. change (ret l w) with (Ret (l, w)). cbv beta iota.
    rewrite E. done.
  - by rewrite Getparms_Setparms.
  - rewrite Getparms_Setparms. by apply no_variadic_parm.
Qed.

End VariadicElimination.

(** The constructor [X(T&... tt)] once more: no parameter of [A&, B&, C&] is
    variadic. *)
Lemma expand_variadic_parms_no_variadic_witness :
  match expand_variadic_parms
          {["parms"%string := AParms [mkXParm (Some 0%nat) None (Some 1%nat)]]} "parms"
          (Some (Demo.tparm "v.typename" "T" None))
          [Demo.targ "A"; Demo.targ "B"; Demo.targ "C"]
          (mkW [str "v.r.T"; str "tt"] [] [] [] false)
  with
  | Ret (a', w') => XParmList_variadic_parm (strs w') (Getparms a' "parms") = None
  | _ => False
  end.
Proof.
  destruct (expand_variadic_parms_no_variadic
              {["parms"%string := AParms [mkXParm (Some 0%nat) None (Some 1%nat)]]} "parms"
              (Demo.tparm "v.typename" "T" None)
              [Demo.targ "A"; Demo.targ "B"; Demo.targ "C"]
              (mkW [str "v.r.T"; str "tt"] [] [] [] false)
              (mkXParm (Some 0%nat) None (Some 1%nat)))
    as (a' & w' & E & _ & Hn).
  - replace (Getparms _ _) with [mkXParm (Some 0%nat) None (Some 1%nat)]
      by (vm_compute; reflexivity).
    constructor; [|constructor]. unfold allocated. simpl.
    repeat split; intros l Hl; inversion Hl; subst; lia.
  - vm_compute. reflexivity.
  - intros rest [= <-]. reflexivity.
  - replace (Getparms _ _) with [mkXParm (Some 0%nat) None (Some 1%nat)]
      by (vm_compute; reflexivity).
    simpl. constructor.
  - repeat (constructor;
            [eexists; split; [reflexivity|]; split; [discriminate|];
             split; [vm_compute; discriminate | reflexivity]|]).
    constructor.
  - rewrite E. exact Hn.
Defined.

(** A proviso that cannot be dropped: with a pack named [p] and a pointer
    to it, [f(p *... a)], the argument [v] gives the type [v.v]. *)
Example expand_variadic_parms_marker_reappears :
  Replaceid_opt (str "p.p") (Some (str "p")) (Some (str "v")) = str "v.v".
Proof. reflexivity. Qed.

(** ** C7: the guard of the typename replacement *)

Section Substitutions.
Context `{TypeOps} `{Symbols}.

Lemma bind_Ret {A B} (m : M A) (k : A -> M B) (w : W) (b : B) (w' : W) :
  bind m k w = Ret (b, w') -> exists a w1, m w = Ret (a, w1) /\ k a w1 = Ret (b, w').
Proof.
  unfold bind. destruct (m w) as [[a w1]| |]; [|done..]. intros E. by exists a, w1.
Qed.

Lemma Char_insert_eq (h : Strs) (l : loc) (s : String) :
  (l < length h)%nat -> Char (<[l := s]> h) l = s.
Proof. intros. unfold Char. by apply list_lookup_total_insert_eq. Qed.

Lemma Char_insert_ne (h : Strs) (l s : loc) (x : String) :
  l <> s -> Char (<[s := x]> h) l = Char h l.
Proof. intros Hne. unfold Char. by apply list_lookup_total_insert_ne. Qed.

(** C7.  One turn of the loop over [typelist] for a template parameter
    [name] with value [dvalue], on a string [s] of the store that is not
    variadic.  The string is first rewritten by the variadic replacement,
    and the result [c1] is looked up in the symbol table.  The two typename
    replacements are skipped if and only if the lookup yields a node whose
    [sym:name] is present and equal to the [sym:name] of the template, which
    is present too, and the node has no [templatetype]: the string is then
    left as [c1].  In every other case both replacements are performed, of
    [name] by [dvalue] and then of the base name by the name of the
    instance. *)
Theorem patch_type_collision_guard (st : Store) (tsname : option loc)
    (name_ dvalue tbase : String) (iname : loc) (uvp : option Parm) (evp : ParmList)
    (s : loc) (w : W) :
  let h := strs w in
  let c1 := SwigType_variadic_replace (Char h s) uvp evp in
  let h1 := <[s := c1]> h in
  let tynode := st <$> Swig_symbol_clookup c1 None in
  let tsname_ := Char_opt h1 tsname in
  let skipped :=
    exists node tyname,
      tynode = Some node /\ sym_name node = Some tyname /\ tsname_ = Some tyname /\
      templatetype node = None in
  let r1 := SwigType_typename_replace c1 name_ dvalue in
  let r2 := SwigType_typename_replace r1 tbase (Char (<[s := r1]> h) iname) in
  (s < length h)%nat ->
  SwigType_isvariadic (Some (Char h s)) = false ->
  (skipped <-> replace_template_args tynode tsname_ = false) /\
  (skipped ->
     patch_type st tsname name_ dvalue tbase iname uvp evp s w = Ret (tt, with_strs w h1)) /\
  (~ skipped ->
     patch_type st tsname name_ dvalue tbase iname uvp evp s w
     = Ret (tt, with_strs w (<[s := r2]> h))).
Proof.
  intros h c1 h1 tynode tsname_ skipped r1 r2 Hs Hv.
  assert (skipped <-> replace_template_args tynode tsname_ = false) as Hguard.
  { subst skipped. unfold replace_template_args. split.
    - intros (node & tyname & -> & Hn & -> & Ht). simpl. rewrite Hn, Ht. simpl.
      by rewrite (proj2 (Equal_true tyname tyname)) by done.
    - destruct tynode as [node|]; simpl; [|done].
      destruct (sym_name node) as [tyname|] eqn:En; [|done].
      destruct tsname_ as [ts|]; [|done].
      intros E. apply orb_false_iff in E as [E1 E2].
      apply negb_false_iff, Equal_true in E1 as <-.
      apply bool_decide_eq_false in E2.
      exists node, tyname. repeat split; try done.
      destruct (templatetype node); [|done]. exfalso. apply E2. by eexists. }
  split; [done|].
  assert (forall b, replace_template_args tynode tsname_ = b ->
            patch_type st tsname name_ dvalue tbase iname uvp evp s w
            = Ret (tt, with_strs w (if b then <[s := r2]> h else h1))) as Hrun.
  { intros b Hb. unfold patch_type, bind, read, assert_, write, read_opt, ret.
    cbn [strs]. fold h. rewrite Hv. cbn [negb].
    replace (replace_template_args _ _) with b by (symmetry; exact Hb).
    destruct b; [|done]. cbn [strs patchlist typelist cpatchlist expanded].
    unfold with_strs. do 2 f_equal. fold c1 r1.
    rewrite !list_insert_insert_eq.
    rewrite Char_insert_eq by (rewrite ?length_insert; done).
    done. }
  split.
  - intros Hsk. apply Hguard in Hsk. by rewrite (Hrun false).
  - intros Hsk. rewrite (Hrun true); [done|].
    destruct (replace_template_args tynode tsname_) eqn:E; [done|].
    exfalso. by apply Hsk, Hguard.
Qed.

End Substitutions.

(** A type [Q] that the symbol table resolves to the class made by the
    instantiation [IntBox], while the template that is expanded has the
    [sym:name] [IntBox] too: the typename replacements are skipped. *)
Lemma patch_type_collision_guard_witness :
  @patch_type Demo.type_ops (Demo.table_symbols [(str "Q", 2%nat)])
    (Demo.class_store Demo.one_parameter) (Some 1%nat) (str "T") (str "int") (str "X") 2%nat
    None [] 0%nat (mkW [str "Q"; str "IntBox"; str "X"] [] [] [] false)
  = Ret (tt, mkW [str "Q"; str "IntBox"; str "X"] [] [] [] false).
Proof.
  pose proof (@patch_type_collision_guard Demo.type_ops (Demo.table_symbols [(str "Q", 2%nat)])
                (Demo.class_store Demo.one_parameter) (Some 1%nat) (str "T") (str "int")
                (str "X") 2%nat None [] 0%nat
                (mkW [str "Q"; str "IntBox"; str "X"] [] [] [] false)) as W.
  cbv zeta in W. destruct W as (_ & W & _).
  - simpl. lia.
  - reflexivity.
  - apply W. eexists _, _. repeat split; reflexivity.
Defined.

(** The strings of that tree after the expansion: the name of the class and
    of its constructor is [Box<(int)>], the member [x] has the type [int],
    the constructor has the symbol name [IntBox] and takes a
    [r.q(const).int]. *)
Example template_expand_box :
  match @run_template_expand Demo.type_ops (Demo.table_symbols []) (fun _ => Demo.no_node)
          Demo.box_strs Demo.box_tree (str "IntBox") Demo.box_int None with
  | Ret (_, _, _, h) =>
      h = [str "template"; str "class"; str "Box<(int)>"; str "Box";
           str "cdecl"; str "int"; str "x";
           str "constructor"; str "Box<(int)>"; str "IntBox"; str "f(r.q(const).int).";
           str "r.q(const).int"; str "v"]
  | _ => False
  end.
Proof. vm_compute. reflexivity. Qed.

(** * Further properties *)

(** ** The locator and the store *)

Section LocateStore.
Context `{TypeOps} `{Symbols}.

Lemma flags_only_SetFlag (st : Store) (n : NodeId) : flags_only (SetFlag_instantiate st n) st.
Proof. intros k. unfold SetFlag_instantiate. by destruct (decide (k = n)) as [->|]. Qed.

(** A pass over the siblings sets flags on templates that it accepts, and
    changes nothing else; the node it keeps is one that is flagged. *)
Lemma mark_siblings_frame (accept : ParmList -> bool) (fuel : nat) :
  forall (st : Store) (n m : option NodeId) (st' : Store) (m' : option NodeId),
    mark_siblings accept fuel st n m = Ret (st', m') ->
    (forall k, st' k = st k \/
               (st' k = flagged (st k) /\ Equal_lit (nodeType (st k)) "template" = true)) /\
    match m with
    | Some x => m' = Some x
    | None =>
        match m' with
        | Some x => st' x = flagged (st x) /\ Equal_lit (nodeType (st x)) "template" = true
        | None => forall k, st' k = st k
        end
    end.
Proof.
  induction fuel as [|fuel IH]; intros st n m st' m'.
  - destruct n; [done|]. simpl. intros [= <- <-]. split; [by left|]. by destruct m.
  - destruct n as [x|]; [|simpl; intros [= <- <-]; split; [by left|by destruct m]].
    cbn [mark_siblings].
    destruct (Equal_lit (nodeType (st x)) "template" && accept (templateparms (st x))) eqn:E.
    + apply andb_true_iff in E as [Et _]. intros Hm. apply IH in Hm as [F1 F2].
      assert (forall k, st' k = st k \/
                (st' k = flagged (st k) /\ Equal_lit (nodeType (st k)) "template" = true)) as F.
      { intros k. specialize (F1 k). unfold SetFlag_instantiate in F1.
        destruct (decide (k = x)) as [->|Hne]; [|done].
        right. split; [|done]. by destruct F1 as [->|[-> _]]. }
      split; [exact F|].
      destruct m as [y|]; [done|]. subst m'.
      destruct (F x) as [Hx|Hx]; [|done].
      specialize (F1 x). unfold SetFlag_instantiate in F1. rewrite decide_True in F1 by done.
      split; [|done]. by destruct F1 as [->|[-> _]].
    + intros Hm. by apply IH in Hm.
Qed.

(** X1.  [Swig_cparse_template_locate] sets the flag [instantiate] on templates
    and changes nothing else in the store. *)
Theorem template_locate_sets_flags_only (garbage : nat -> Z) (fuel : nat) (st : Store)
    (name_ : String) (instantiated_parms : ParmList) (symname : option String)
    (tscope : option Symtab) :
  let st' :=
    (Swig_cparse_template_locate garbage fuel st name_ instantiated_parms symname tscope).1.2 in
  forall k, st' k = st k \/
            (st' k = flagged (st k) /\ Equal_lit (nodeType (st k)) "template" = true).
Proof.
  cbv zeta. unfold Swig_cparse_template_locate.
  destruct (template_locate garbage st name_ instantiated_parms symname tscope) as [[[n|]| |] ds];
    try (intros k; by left).
  destruct (Equal_lit (nodeType (st n)) "template") eqn:Et; simpl; [|intros k; by left].
  destruct (Equal_lit (templatetype (st n)) "class").
  - simpl. intros k. unfold SetFlag_instantiate.
    destruct (decide (k = n)) as [->|]; [by right|by left].
  - destruct (mark_siblings (accept_nonvariadic instantiated_parms) fuel st
                (Swig_symbol_clookup_local name_ None) None) as [[st1 m1]| |] eqn:E1;
      try (intros k; by left).
    apply mark_siblings_frame in E1 as [F1 G1].
    destruct m1 as [m1|]; [exact F1|].
    destruct (mark_siblings (accept_variadic instantiated_parms) fuel st1
                (Swig_symbol_clookup_local name_ None) None) as [[st2 m2]| |] eqn:E2;
      try exact F1.
    apply mark_siblings_frame in E2 as [F2 G2].
    assert (forall k, st2 k = st k \/
              (st2 k = flagged (st k) /\ Equal_lit (nodeType (st k)) "template" = true)) as F.
    { intros k. specialize (F2 k). by rewrite !G1 in F2. }
    by destruct m2.
Qed.

(** X2.  The node that [Swig_cparse_template_locate] returns is a template, and
    it is marked for instantiation in the store that results. *)
Theorem template_locate_returns_flagged_template (garbage : nat -> Z) (fuel : nat)
    (st st' : Store) (name_ : String) (instantiated_parms : ParmList)
    (symname : option String) (tscope : option Symtab) (m : NodeId) (ds : list Diag) :
  Swig_cparse_template_locate garbage fuel st name_ instantiated_parms symname tscope
  = (Ret (Some m), st', ds) ->
  Equal_lit (nodeType (st' m)) "template" = true /\
  GetFlag (instantiate (st' m)) = true.
Proof.
  unfold Swig_cparse_template_locate.
  destruct (template_locate garbage st name_ instantiated_parms symname tscope)
    as [[[n|]| |] ds0]; try done.
  destruct (Equal_lit (nodeType (st n)) "template") eqn:Et; simpl; [|done].
  destruct (Equal_lit (templatetype (st n)) "class").
  - intros [= <- <- <-]. unfold SetFlag_instantiate. by rewrite decide_True.
  - destruct (mark_siblings (accept_nonvariadic instantiated_parms) fuel st
                (Swig_symbol_clookup_local name_ None) None) as [[st1 m1]| |] eqn:E1;
      try done.
    apply mark_siblings_frame in E1 as [F1 G1].
    destruct m1 as [m1|].
    + intros [= <- <- <-]. destruct G1 as [-> G1]. done.
    + destruct (mark_siblings (accept_variadic instantiated_parms) fuel st1
                  (Swig_symbol_clookup_local name_ None) None) as [[st2 m2]| |] eqn:E2;
        try done.
      apply mark_siblings_frame in E2 as [F2 G2].
      destruct m2 as [m2|]; [|done].
      intros [= <- <- <-]. destruct G2 as [-> G2]. done.
Qed.

(** [template_locate] returns nothing for a named instantiation only with
    a diagnostic. *)
Lemma template_locate_None_reported (garbage : nat -> Z) (st : Store) (name_ : String)
    (instantiated_parms : ParmList) (s : String) (tscope : option Symtab) (ds : list Diag) :
  template_locate garbage st name_ instantiated_parms (Some s) tscope = (Ret None, ds) ->
  ds <> [].
Proof.
  unfold template_locate.
  destruct (Swig_symbol_clookup name_ None) as [templ|]; [|by intros [= <-]].
  destruct (prepare_parms st templ instantiated_parms tscope) as [ep ps].
  destruct (search_explicit _ _ _) as [n|].
  - unfold found_by_name.
    destruct (Equal_lit (nodeType (st n)) "template"); [done|].
    destruct (template (st n)); [|by intros [= <-]].
    destruct (if GetFlag (hidden (st n)) then _ else _); [by intros [= <-]|done].
  - destruct (match partials (st templ) with Some _ => _ | None => _ end) as [poss m].
    destruct (select_partial _ _ _ _ _ _) as [[n| |] ds1]; try done.
    destruct (Equal_lit _ "template"); [done|].
    intros [= <-]. by destruct ds1.
Qed.

(** X3.  A named instantiation for which [Swig_cparse_template_locate] returns
    nothing is reported: at least one diagnostic is emitted; and no node is
    marked for instantiation. *)
Theorem template_locate_failure_reported (garbage : nat -> Z) (fuel : nat) (st st' : Store)
    (name_ : String) (instantiated_parms : ParmList) (s : String)
    (tscope : option Symtab) (ds : list Diag) :
  Swig_cparse_template_locate garbage fuel st name_ instantiated_parms (Some s) tscope
  = (Ret None, st', ds) ->
  ds <> [] /\ forall k, st' k = st k.
Proof.
  unfold Swig_cparse_template_locate.
  destruct (template_locate garbage st name_ instantiated_parms (Some s) tscope)
    as [[[n|]| |] ds0] eqn:E0; try done.
  - destruct (Equal_lit (nodeType (st n)) "template") eqn:Et; simpl; [|done].
    destruct (Equal_lit (templatetype (st n)) "class"); [done|].
    destruct (mark_siblings (accept_nonvariadic instantiated_parms) fuel st
                (Swig_symbol_clookup_local name_ None) None) as [[st1 m1]| |] eqn:E1;
      try done.
    apply mark_siblings_frame in E1 as [F1 G1].
    destruct m1 as [m1|]; [done|].
    destruct (mark_siblings (accept_variadic instantiated_parms) fuel st1
                (Swig_symbol_clookup_local name_ None) None) as [[st2 m2]| |] eqn:E2;
      try done.
    apply mark_siblings_frame in E2 as [F2 G2].
    destruct m2 as [m2|]; [done|].
    intros [= <- <-]. split; [by destruct ds0|]. intros k. by rewrite G2, G1.
  - intros [= <- <-]. split; [|done]. by eapply template_locate_None_reported.
Qed.

(** What [template_locate] reads of a node is not its flag. *)
Lemma scan_partials_flags (st st' : Store) (tscope : option Symtab) (parms : ParmList)
    (partials_ : list NodeId) :
  flags_only st st' ->
  forall possiblepartials row m,
    scan_partials st' tscope parms partials_ possiblepartials row m
    = scan_partials st tscope parms partials_ possiblepartials row m.
Proof.
  intros Hf. induction partials_ as [|item rest IH]; intros poss row m; [done|].
  cbn [scan_partials].
  replace (partialparms (st' item)) with (partialparms (st item))
    by (symmetry; exact (f_equal partialparms (Hf item))).
  destruct (_ =? _); [|apply IH].
  destruct (match_parms _ _ _ _ _ _) as [[] m']; apply IH.
Qed.

Lemma warn_ignored_flags (st st' : Store) (primary_scope : option Symtab)
    (ignored : list NodeId) :
  flags_only st st' ->
  warn_ignored st' primary_scope ignored = warn_ignored st primary_scope ignored.
Proof.
  intros Hf. induction ignored as [|item rest IH]; [done|].
  cbn [warn_ignored]. rewrite IH.
  replace (templcsymname (st' item)) with (templcsymname (st item))
    by (symmetry; exact (f_equal templcsymname (Hf item))).
  destruct (clookup_local_opt _ _) as [n|]; [|done].
  replace (name (st' n)) with (name (st n)) by (symmetry; exact (f_equal name (Hf n))).
  done.
Qed.

Lemma select_partial_flags (st st' : Store) (primary_scope : option Symtab) (tname : String)
    (parms_len : nat) (possiblepartials : list NodeId) (m : list Z) :
  flags_only st st' ->
  select_partial st' primary_scope tname parms_len possiblepartials m
  = select_partial st primary_scope tname parms_len possiblepartials m.
Proof.
  intros Hf. unfold select_partial.
  destruct (if (1 <? length possiblepartials)%nat then _ else _) as [|first others]; [done|].
  cbv zeta.
  replace (templcsymname (st' first)) with (templcsymname (st first))
    by (symmetry; exact (f_equal templcsymname (Hf first))).
  rewrite (warn_ignored_flags st st') by done.
  destruct (clookup_local_opt _ _) as [n|]; [|done].
  replace (name (st' n)) with (name (st n)) by (symmetry; exact (f_equal name (Hf n))).
  done.
Qed.

Lemma found_by_name_flags (st st' : Store) (name_ : String) (instantiated_parms : ParmList)
    (symname : option String) (n : NodeId) :
  flags_only st st' ->
  found_by_name st' name_ instantiated_parms symname n
  = found_by_name st name_ instantiated_parms symname n.
Proof.
  intros Hf. unfold found_by_name.
  replace (nodeType (st' n)) with (nodeType (st n)) by (symmetry; exact (f_equal nodeType (Hf n))).
  replace (template (st' n)) with (template (st n)) by (symmetry; exact (f_equal template (Hf n))).
  replace (hidden (st' n)) with (hidden (st n)) by (symmetry; exact (f_equal hidden (Hf n))).
  replace (csym_nextSibling (st' n)) with (csym_nextSibling (st n)) by (symmetry; exact (f_equal csym_nextSibling (Hf n))).
  destruct (Equal_lit (nodeType (st n)) "template"); [done|].
  destruct (template (st n)); [|done]. destruct symname; [|done].
  destruct (if GetFlag (hidden (st n)) then csym_nextSibling (st n) else Some n)
    as [prev|]; [|done].
  replace (name (st' prev)) with (name (st prev)) by (symmetry; exact (f_equal name (Hf prev))).
  replace (sym_name (st' prev)) with (sym_name (st prev)) by (symmetry; exact (f_equal sym_name (Hf prev))).
  done.
Qed.

Lemma template_locate_flags (garbage : nat -> Z) (st st' : Store) (name_ : String)
    (instantiated_parms : ParmList) (symname : option String) (tscope : option Symtab) :
  flags_only st st' ->
  template_locate garbage st' name_ instantiated_parms symname tscope
  = template_locate garbage st name_ instantiated_parms symname tscope.
Proof.
  intros Hf. unfold template_locate.
  destruct (Swig_symbol_clookup name_ None) as [templ|]; [|done].
  assert (prepare_parms st' templ instantiated_parms tscope
          = prepare_parms st templ instantiated_parms tscope) as ->.
  { unfold prepare_parms.
    replace (sym_symtab (st' templ)) with (sym_symtab (st templ))
      by (symmetry; exact (f_equal sym_symtab (Hf templ))).
    by replace (templateparms (st' templ)) with (templateparms (st templ))
      by (symmetry; exact (f_equal templateparms (Hf templ))). }
  replace (sym_symtab (st' templ)) with (sym_symtab (st templ)) by (symmetry; exact (f_equal sym_symtab (Hf templ))).
  replace (partials (st' templ)) with (partials (st templ)) by (symmetry; exact (f_equal partials (Hf templ))).
  destruct (prepare_parms st templ instantiated_parms tscope) as [ep ps].
  destruct (search_explicit _ _ _) as [n|].
  - by rewrite (found_by_name_flags st st').
  - assert (match partials (st templ) with
            | Some partials0 =>
                scan_partials st' tscope ps partials0 [] 0
                  (map garbage (seq 0 (length partials0 * length ps)))
            | None => ([], [])
            end
            = match partials (st templ) with
              | Some partials0 =>
                  scan_partials st tscope ps partials0 [] 0
                    (map garbage (seq 0 (length partials0 * length ps)))
              | None => ([], [])
              end) as ->.
    { destruct (partials (st templ)); [|done]. by apply scan_partials_flags. }
    destruct (match partials (st templ) with Some _ => _ | None => _ end) as [poss m].
    rewrite (select_partial_flags st st') by done.
    destruct (select_partial _ _ _ _ _ _) as [[n| |] ds1]; try done.
    set (n' := match n with Some n0 => n0 | None => templ end).
    replace (nodeType (st' n')) with (nodeType (st n')) by (symmetry; exact (f_equal nodeType (Hf n'))).
    done.
Qed.

Lemma sym_chain_flags (st st' : Store) (n : option NodeId) (l : list NodeId) :
  flags_only st st' -> sym_chain st n l -> sym_chain st' n l.
Proof.
  intros Hf. induction 1 as [|n l Hc IH]; constructor.
  by replace (sym_nextSibling (st' n)) with (sym_nextSibling (st n)) by (symmetry; exact (f_equal sym_nextSibling (Hf n))).
Qed.

Lemma accepted_flags (accept : ParmList -> bool) (st st' : Store) (l : list NodeId) :
  flags_only st st' -> accepted accept st' l = accepted accept st l.
Proof.
  intros Hf. unfold accepted. apply list_filter_iff. intros k.
  replace (nodeType (st' k)) with (nodeType (st k)) by (symmetry; exact (f_equal nodeType (Hf k))).
  by replace (templateparms (st' k)) with (templateparms (st k))
    by (symmetry; exact (f_equal templateparms (Hf k))).
Qed.

(** A pass that ends walked a chain that ends within the fuel. *)
Lemma mark_siblings_chain (accept : ParmList -> bool) (fuel : nat) :
  forall (st : Store) (n m : option NodeId) (r : Store * option NodeId),
    mark_siblings accept fuel st n m = Ret r ->
    exists l, sym_chain st n l /\ (length l <= fuel)%nat.
Proof.
  induction fuel as [|fuel IH]; intros st n m r.
  - destruct n; [done|]. intros _. exists []. split; [constructor|done].
  - destruct n as [x|]; [|intros _; exists []; split; [constructor|simpl; lia]].
    cbn [mark_siblings].
    destruct (Equal_lit (nodeType (st x)) "template" && accept (templateparms (st x))).
    + intros Hm. apply IH in Hm as (l & Hl & Hlen).
      exists (x :: l). split; [|simpl; lia]. constructor.
      apply (sym_chain_flags (SetFlag_instantiate st x) st) in Hl;
        [|apply flags_only_SetFlag].
      unfold SetFlag_instantiate in Hl at 1. by rewrite decide_True in Hl.
    + intros Hm. apply IH in Hm as (l & Hl & Hlen).
      exists (x :: l). split; [by constructor|simpl; lia].
Qed.

Lemma flags_only_sym (st st' : Store) : flags_only st st' -> flags_only st' st.
Proof. intros Hf k. by rewrite Hf. Qed.

(** The store after a pass that ends, by the spec of the pass. *)
Lemma mark_siblings_Ret (accept : ParmList -> bool) (fuel : nat) (st : Store)
    (n : option NodeId) (st1 : Store) (m1 : option NodeId) :
  mark_siblings accept fuel st n None = Ret (st1, m1) ->
  exists l, sym_chain st n l /\ (length l <= fuel)%nat /\
            m1 = head (accepted accept st l) /\
            forall k, st1 k = if decide (k ∈ accepted accept st l) then flagged (st k)
                              else st k.
Proof.
  intros E. destruct (mark_siblings_chain _ _ _ _ _ _ E) as (l & Hl & Hlen).
  exists l. split; [done|]. split; [done|].
  destruct (mark_siblings_spec accept l fuel st n None Hl Hlen) as (st1' & E' & Hst).
  rewrite E in E'. injection E' as -> ->. done.
Qed.

(** A pass on a store that the same pass has flagged already. *)
Lemma mark_siblings_again (accept : ParmList -> bool) (fuel : nat) (st st1 : Store)
    (n : option NodeId) (l : list NodeId) :
  sym_chain st n l -> (length l <= fuel)%nat -> flags_only st st1 ->
  (forall k, k ∈ accepted accept st l -> st1 k = flagged (st k)) ->
  exists st2, mark_siblings accept fuel st1 n None = Ret (st2, head (accepted accept st l)) /\
              forall k, st2 k = st1 k.
Proof.
  intros Hl Hlen Hf Hacc.
  destruct (mark_siblings_spec accept l fuel st1 n None) as (st2 & E & Hst);
    [by apply (sym_chain_flags st)|done|].
  exists st2. rewrite (accepted_flags accept st st1) in E, Hst by done.
  split; [done|]. intros k. rewrite Hst.
  destruct (decide (k ∈ accepted accept st l)) as [Hk|]; [|done].
  by rewrite (Hacc k Hk).
Qed.

(** X4.  Locating the same instantiation once more gives the same node and the
    same diagnostics, and sets no further flag. *)
Theorem template_locate_again (garbage : nat -> Z) (fuel : nat) (st st' : Store)
    (name_ : String) (instantiated_parms : ParmList) (symname : option String)
    (tscope : option Symtab) (r : option NodeId) (ds : list Diag) :
  Swig_cparse_template_locate garbage fuel st name_ instantiated_parms symname tscope
  = (Ret r, st', ds) ->
  exists st'',
    Swig_cparse_template_locate garbage fuel st' name_ instantiated_parms symname tscope
    = (Ret r, st'', ds) /\
    forall k, st'' k = st' k.
Proof.
  unfold Swig_cparse_template_locate at 1.
  destruct (template_locate garbage st name_ instantiated_parms symname tscope)
    as [[[n|]| |] ds0] eqn:E0; try done.
  2:{ intros [= <- <- <-]. exists st. split; [|done].
      unfold Swig_cparse_template_locate. by rewrite E0. }
  destruct (Equal_lit (nodeType (st n)) "template") eqn:Et; simpl; [|done].
  destruct (Equal_lit (templatetype (st n)) "class") eqn:Ec.
  - intros [= <- <- <-].
    assert (flags_only st (SetFlag_instantiate st n)) as Hf
      by apply flags_only_sym, flags_only_SetFlag.
    exists (SetFlag_instantiate (SetFlag_instantiate st n) n).
    unfold Swig_cparse_template_locate. rewrite (template_locate_flags _ st) by done.
    rewrite E0.
    replace (nodeType (SetFlag_instantiate st n n)) with (nodeType (st n))
      by (symmetry; exact (f_equal nodeType (Hf n))).
    replace (templatetype (SetFlag_instantiate st n n)) with (templatetype (st n))
      by (symmetry; exact (f_equal templatetype (Hf n))).
    replace (templateparms (SetFlag_instantiate st n n)) with (templateparms (st n))
      by (symmetry; exact (f_equal templateparms (Hf n))).
    rewrite Et, Ec. simpl. split; [done|].
    intros k. unfold SetFlag_instantiate. destruct (decide (k = n)) as [->|]; [|done].
    by rewrite decide_True.
  - destruct (mark_siblings (accept_nonvariadic instantiated_parms) fuel st
                (Swig_symbol_clookup_local name_ None) None) as [[st1 m1]| |] eqn:E1;
      try done.
    destruct (mark_siblings_Ret _ _ _ _ _ _ E1) as (l & Hl & Hlen & Hm1 & Hst1).
    assert (flags_only st st1) as Hf1.
    { intros k. rewrite Hst1. by destruct (decide _). }
    assert (forall st2, flags_only st st2 ->
              template_locate garbage st2 name_ instantiated_parms symname tscope
              = (Ret (Some n), ds0) /\
              Equal_lit (nodeType (st2 n)) "template" = true /\
              Equal_lit (templatetype (st2 n)) "class" = false) as Hsame.
    { intros st2 Hf. rewrite (template_locate_flags _ st) by done.
      split; [done|].
      replace (nodeType (st2 n)) with (nodeType (st n))
        by (symmetry; exact (f_equal nodeType (Hf n))).
      by replace (templatetype (st2 n)) with (templatetype (st n))
        by (symmetry; exact (f_equal templatetype (Hf n))). }
    destruct (mark_siblings_again (accept_nonvariadic instantiated_parms) fuel st st1
                (Swig_symbol_clookup_local name_ None) l Hl Hlen Hf1)
      as (st1' & E1' & Hst1').
    { intros k Hk. rewrite Hst1. by rewrite decide_True. }
    rewrite <- Hm1 in E1'.
    destruct m1 as [m1|].
    + intros [= <- <- <-]. exists st1'.
      unfold Swig_cparse_template_locate.
      destruct (Hsame st1 Hf1) as (-> & -> & ->). simpl. by rewrite E1'.
    + destruct (mark_siblings (accept_variadic instantiated_parms) fuel st1
                  (Swig_symbol_clookup_local name_ None) None) as [[st2 m2]| |] eqn:E2;
        try done.
      destruct (mark_siblings_Ret _ _ _ _ _ _ E2) as (l2 & Hl2 & Hlen2 & Hm2 & Hst2).
      assert (flags_only st1 st2) as Hf12.
      { intros k. rewrite Hst2. by destruct (decide _). }
      assert (flags_only st st2) as Hf2.
      { intros k. by rewrite Hf12, Hf1. }
      assert (accepted (accept_nonvariadic instantiated_parms) st l = []) as Hnil.
      { by destruct (accepted _ st l). }
      (* the first pass on [st2] *)
      destruct (mark_siblings_again (accept_nonvariadic instantiated_parms) fuel st st2
                  (Swig_symbol_clookup_local name_ None) l Hl Hlen Hf2)
        as (st3 & E3 & Hst3).
      { intros k Hk. rewrite Hnil in Hk. by apply elem_of_nil in Hk. }
      rewrite Hnil in E3. simpl in E3.
      (* the second pass *)
      assert (flags_only st1 st3) as Hf13.
      { intros k. by rewrite Hst3, Hf12. }
      destruct (mark_siblings_again (accept_variadic instantiated_parms) fuel st1 st3
                  (Swig_symbol_clookup_local name_ None) l2 Hl2 Hlen2 Hf13)
        as (st4 & E4 & Hst4).
      { intros k Hk. rewrite Hst3, Hst2. by rewrite decide_True. }
      rewrite <- Hm2 in E4.
      assert (forall k, st4 k = st2 k) as H42 by (intros k; by rewrite Hst4, Hst3).
      destruct (Hsame st2 Hf2) as (Ha & Hb & Hc).
      destruct m2 as [m2|]; intros [= <- <- <-]; exists st4;
        unfold Swig_cparse_template_locate; rewrite Ha, Hb, Hc; simpl;
        by rewrite E3, E4.
Qed.

End LocateStore.

(** [%template(fid) f<int, double>] with the three overloads of [f]. *)
Lemma template_locate_returns_flagged_template_witness :
  exists st',
    (@Swig_cparse_template_locate Demo.type_ops (Demo.table_symbols [(str "f", 1%nat)])
       (fun _ => 0) 3 Demo.function_store (str "f") [Demo.targ "int"; Demo.targ "double"]
       (Some (str "fid")) None) = (Ret (Some 2%nat), st', []) /\
    GetFlag (instantiate (st' 2%nat)) = true.
Proof.
  exists (SetFlag_instantiate Demo.function_store 2%nat). split; [reflexivity|].
  apply (@template_locate_returns_flagged_template Demo.type_ops
           (Demo.table_symbols [(str "f", 1%nat)]) (fun _ => 0) 3%nat Demo.function_store
           (SetFlag_instantiate Demo.function_store 2%nat) (str "f")
           [Demo.targ "int"; Demo.targ "double"] (Some (str "fid")) None 2%nat []).
  reflexivity.
Defined.

(** [%template(Y) Y<int>] with no template [Y]: the error of an undefined
    template is the diagnostic. *)
Lemma template_locate_failure_reported_witness :
  exists st' ds,
    (@Swig_cparse_template_locate Demo.type_ops (Demo.table_symbols [(str "X", 1%nat)])
       (fun _ => 0) 3 (Demo.class_store Demo.one_parameter) (str "Y") [Demo.targ "int"]
       (Some (str "Y")) None) = (Ret None, st', ds) /\
    ds <> [].
Proof.
  exists (Demo.class_store Demo.one_parameter), [Error_template_undefined (str "Y")].
  split; [reflexivity|].
  apply (@template_locate_failure_reported Demo.type_ops
           (Demo.table_symbols [(str "X", 1%nat)]) (fun _ => 0) 3%nat
           (Demo.class_store Demo.one_parameter) (Demo.class_store Demo.one_parameter)
           (str "Y") [Demo.targ "int"] (str "Y") None [Error_template_undefined (str "Y")]).
  reflexivity.
Defined.

(** The second [%template(fid) f<int, double>]. *)
Lemma template_locate_again_witness :
  exists st' st'',
    (@Swig_cparse_template_locate Demo.type_ops (Demo.table_symbols [(str "f", 1%nat)])
       (fun _ => 0) 3 Demo.function_store (str "f") [Demo.targ "int"; Demo.targ "double"]
       (Some (str "fid")) None) = (Ret (Some 2%nat), st', []) /\
    (@Swig_cparse_template_locate Demo.type_ops (Demo.table_symbols [(str "f", 1%nat)])
       (fun _ => 0) 3 st' (str "f") [Demo.targ "int"; Demo.targ "double"]
       (Some (str "fid")) None) = (Ret (Some 2%nat), st'', []).
Proof.
  exists (SetFlag_instantiate Demo.function_store 2%nat).
  destruct (@template_locate_again Demo.type_ops (Demo.table_symbols [(str "f", 1%nat)])
              (fun _ => 0) 3%nat Demo.function_store
              (SetFlag_instantiate Demo.function_store 2%nat) (str "f")
              [Demo.targ "int"; Demo.targ "double"] (Some (str "fid")) None
              (Some 2%nat) [] eq_refl) as (st'' & E & _).
  exists st''. split; [reflexivity|exact E].
Defined.

(** ** The priorities matrix *)

Section Garbage.
Context `{TypeOps} `{Symbols}.

Lemma select_rows_ext {A} (keep1 keep2 : nat -> bool) (l : list A) : forall row,
  (forall r, (row <= r < row + length l)%nat -> keep1 r = keep2 r) ->
  select_rows keep1 row l = select_rows keep2 row l.
Proof.
  induction l as [|x l IH]; intros row Hk; [done|].
  cbn [select_rows]. rewrite (Hk row) by (simpl; lia). f_equal.
  apply IH. intros r Hr. apply Hk. simpl. lia.
Qed.

Lemma forallb_seq_ext (f g : nat -> bool) (n : nat) :
  (forall k, (k < n)%nat -> f k = g k) -> forallb f (seq 0 n) = forallb g (seq 0 n).
Proof.
  intros Hfg. apply eq_iff_eq_true. rewrite !forallb_forall.
  split; intros Hall k Hk; pose proof Hk as Hk'; apply in_seq in Hk';
    [rewrite <- Hfg by lia | rewrite Hfg by lia]; by apply Hall.
Qed.

(** The candidates that win are read off the rows of the candidates. *)
Lemma winners_ext (m1 m2 : list Z) (C : nat) (l : list NodeId) :
  (forall k, (k < length l * C)%nat -> cell m1 k = cell m2 k) ->
  winners m1 C l = winners m2 C l.
Proof.
  intros Hm. unfold winners. apply select_rows_ext. intros r Hr.
  unfold wins. apply forallb_seq_ext. intros c Hc.
  unfold column_best. apply forallb_seq_ext. intros r' Hr'.
  unfold entry. rewrite !Hm by nia. done.
Qed.

(** The selection reads the rows of the candidates only. *)
Lemma select_partial_ext (st : Store) (primary_scope : option Symtab) (tname : String)
    (C : nat) (l : list NodeId) (m1 m2 : list Z) :
  (length l * C <= length m1)%nat -> (length l * C <= length m2)%nat ->
  (forall r c, (r < length l)%nat -> (c < C)%nat -> -1 <= entry m1 C r c) ->
  (forall r c, (r < length l)%nat -> (c < C)%nat -> -1 <= entry m2 C r c) ->
  (forall k, (k < length l * C)%nat -> cell m1 k = cell m2 k) ->
  select_partial st primary_scope tname C l m1 = select_partial st primary_scope tname C l m2.
Proof.
  intros L1 L2 B1 B2 Hm. unfold select_partial.
  destruct (1 <? length l)%nat; [|done].
  rewrite !choose_partials_winners by (done || lia).
  change (select_rows (wins m1 (length l) C) 0 l) with (winners m1 C l).
  change (select_rows (wins m2 (length l) C) 0 l) with (winners m2 C l).
  by rewrite (winners_ext m1 m2 C l Hm).
Qed.

(** The loop over the parameters of a candidate writes the same priorities
    whatever the matrix holds. *)
Lemma match_parms_agree (tscope : option Symtab) (row : nat) (p : ParmList) :
  Forall (fun q => is_Some (parm_type q) \/ is_Some (parm_value q)) p ->
  forall (pp : ParmList) (i : nat) (m1 m2 : list Z),
    length pp = length p -> (1 <= i)%nat -> length m1 = length m2 ->
    (row + i - 1 + length p <= length m1)%nat ->
    let r1 := match_parms tscope p pp i row m1 in
    let r2 := match_parms tscope p pp i row m2 in
    r1.1 = r2.1 /\ length r1.2 = length m1 /\ length r2.2 = length m2 /\
    forall k, cell m1 k = cell m2 k \/
              (r1.1 = true /\ (row + i - 1 <= k < row + i - 1 + length p)%nat) ->
              cell r1.2 k = cell r2.2 k.
Proof.
  induction 1 as [|q p Hq Hp IH]; intros pp i m1 m2 Hlen Hi Hm Hb; cbv zeta.
  - simpl. repeat split; try done. intros k [Hk|[_ Hk]]; [done|]. simpl in Hk. lia.
  - destruct pp as [|qq pp]; [done|]. simpl in Hlen, Hb.
    cbn [match_parms]. cbv zeta.
    destruct (match parm_type q with Some t => Some t | None => parm_value q end)
      as [t|] eqn:Et.
    2:{ exfalso. destruct Hq as [[? E]|[? E]]; rewrite E in Et; [done|].
        by destruct (parm_type q). }
    destruct (match parm_type qq with
              | Some pt => does_parm_match t pt (placeholder i) tscope
              | None => (ExactNoMatch, -1)
              end) as [mt priority].
    destruct (EMatch_val mt <? EMatch_val PartiallySpecializedMatch) eqn:Em.
    + simpl. rewrite !length_insert. repeat split; try done.
      intros k [Hk|[? _]]; [|done].
      destruct (decide (k = row + i - 1)%nat) as [->|Hne].
      * rewrite !cell_insert_eq by lia. done.
      * by rewrite !cell_insert_ne by done.
    + specialize (IH pp (S i) (<[(row + i - 1)%nat := priority]> m1)
                    (<[(row + i - 1)%nat := priority]> m2)).
      destruct IH as (IH1 & IH2 & IH3 & IH4); [lia|lia|by rewrite !length_insert| |].
      { rewrite length_insert. lia. }
      rewrite !length_insert in *. repeat split; try done.
      intros k Hk. apply IH4.
      destruct (decide (k = row + i - 1)%nat) as [->|Hne].
      * left. rewrite !cell_insert_eq by lia. done.
      * destruct Hk as [Hk|[Hk1 Hk2]].
        -- left. by rewrite !cell_insert_ne by done.
        -- right. split; [done|]. simpl in Hk2. lia.
Qed.

(** The candidates that the loop over [partials] keeps, and their rows, do
    not depend on what the matrix held, when every argument has a type or a
    value. *)
Lemma scan_partials_agree (st : Store) (tscope : option Symtab) (parms : ParmList) :
  Forall (fun q => is_Some (parm_type q) \/ is_Some (parm_value q)) parms ->
  forall (partials_ possiblepartials : list NodeId) (m1 m2 : list Z),
    length m1 = length m2 ->
    ((length possiblepartials + length partials_) * length parms <= length m1)%nat ->
    (forall k, (k < length possiblepartials * length parms)%nat -> cell m1 k = cell m2 k) ->
    let r1 := scan_partials st tscope parms partials_ possiblepartials
                (length possiblepartials * length parms) m1 in
    let r2 := scan_partials st tscope parms partials_ possiblepartials
                (length possiblepartials * length parms) m2 in
    r1.1 = r2.1 /\
    forall k, (k < length r1.1 * length parms)%nat -> cell r1.2 k = cell r2.2 k.
Proof.
  intros Hparms. induction partials_ as [|item rest IH]; intros poss m1 m2 Hm Hlen Hold;
    cbv zeta.
  - simpl. done.
  - cbn [scan_partials].
    destruct (ParmList_len (partialparms (st item)) =? ParmList_len parms) eqn:El.
    2:{ apply IH; [done | simpl in Hlen; lia | done]. }
    apply Z.eqb_eq in El. unfold ParmList_len in El. apply Nat2Z.inj in El.
    pose proof (match_parms_agree tscope (length poss * length parms) parms Hparms
                  (partialparms (st item)) 1 m1 m2 El (le_n 1) Hm) as Hrow.
    cbv zeta in Hrow.
    destruct (match_parms tscope parms (partialparms (st item)) 1
                (length poss * length parms) m1) as [ok1 m1'].
    destruct (match_parms tscope parms (partialparms (st item)) 1
                (length poss * length parms) m2) as [ok2 m2'].
    simpl in Hrow. destruct Hrow as (H1 & H2 & H3 & H4); [simpl in Hlen; lia|].
    subst ok2. destruct ok1.
    + replace (length poss * length parms + length parms)%nat
        with (length (poss ++ [item]) * length parms)%nat
        by (rewrite length_app; simpl; lia).
      apply IH.
      * congruence.
      * rewrite length_app, H2. simpl in *. lia.
      * intros k Hk. rewrite length_app in Hk. simpl in Hk. apply H4.
        destruct (decide (k < length poss * length parms)%nat) as [Hlt|Hge].
        -- left. by apply Hold.
        -- right. split; [done|]. lia.
    + apply IH; [congruence | rewrite H2; simpl in Hlen; lia |].
      intros k Hk. apply H4. left. by apply Hold.
Qed.

(** X5.  The block that [Malloc] hands out for the priorities matrix is not
    initialised.  When every argument of the instantiation, as
    [template_locate] prepares them, has a type or a value, what the block
    held has no part in the result: the node located, the flags set and the
    diagnostics are the same. *)
Theorem template_locate_matrix_content (garbage1 garbage2 : nat -> Z) (fuel : nat)
    (st : Store) (name_ : String) (instantiated_parms : ParmList) (symname : option String)
    (tscope : option Symtab) :
  (forall templ, Swig_symbol_clookup name_ None = Some templ ->
     Forall (fun q => is_Some (parm_type q) \/ is_Some (parm_value q))
            (prepare_parms st templ instantiated_parms tscope).2) ->
  template_locate garbage1 st name_ instantiated_parms symname tscope
  = template_locate garbage2 st name_ instantiated_parms symname tscope /\
  Swig_cparse_template_locate garbage1 fuel st name_ instantiated_parms symname tscope
  = Swig_cparse_template_locate garbage2 fuel st name_ instantiated_parms symname tscope.
Proof.
  intros Hparms.
  assert (template_locate garbage1 st name_ instantiated_parms symname tscope
          = template_locate garbage2 st name_ instantiated_parms symname tscope) as E.
  { unfold template_locate.
    destruct (Swig_symbol_clookup name_ None) as [templ|] eqn:Et; [|done].
    specialize (Hparms templ eq_refl).
    destruct (prepare_parms st templ instantiated_parms tscope) as [ep ps].
    simpl in Hparms.
    destruct (search_explicit _ _ _); [done|].
    destruct (partials (st templ)) as [pl|]; [|done].
    set (m1 := map garbage1 (seq 0 (length pl * length ps))).
    set (m2 := map garbage2 (seq 0 (length pl * length ps))).
    pose proof (scan_partials_agree st tscope ps Hparms pl [] m1 m2) as Ha.
    pose proof (priorities_matrix_rows garbage1 st tscope ps pl Hparms) as B1.
    pose proof (priorities_matrix_rows garbage2 st tscope ps pl Hparms) as B2.
    cbv zeta in Ha, B1, B2. fold m1 in B1. fold m2 in B2. simpl in Ha.
    destruct Ha as [Ha1 Ha2].
    { subst m1 m2. by rewrite !length_map, !length_seq. }
    { subst m1. rewrite length_map, length_seq. lia. }
    { intros k Hk. lia. }
    destruct (scan_partials st tscope ps pl [] 0 m1) as [l1 m1'].
    destruct (scan_partials st tscope ps pl [] 0 m2) as [l2 m2'].
    simpl in *. subst l2. destruct B1 as [L1 B1]. destruct B2 as [L2 B2].
    by rewrite (select_partial_ext st (sym_symtab (st templ))
                  (SwigType_add_template name_ ep) (length ps) l1 m1' m2'). }
  split; [exact E|]. unfold Swig_cparse_template_locate. by rewrite E.
Qed.

End Garbage.

(** [X<const int *>] with the partial specializations [X<T *>] and
    [X<const T *>]: the same template is located whether the block held
    zeros or large numbers. *)
Lemma template_locate_matrix_content_witness :
  @template_locate Demo.type_ops (Demo.table_symbols Demo.partial_table) (fun _ => 0)
    Demo.partial_store (str "X") [Demo.targ "p.q(const).int"] (Some (str "XCI")) None
  = @template_locate Demo.type_ops (Demo.table_symbols Demo.partial_table)
      (fun k => 100000 + Z.of_nat k)
      Demo.partial_store (str "X") [Demo.targ "p.q(const).int"] (Some (str "XCI")) None.
Proof.
  apply (@template_locate_matrix_content Demo.type_ops (Demo.table_symbols Demo.partial_table)
           (fun _ => 0) (fun k => 100000 + Z.of_nat k) 0 Demo.partial_store (str "X")
           [Demo.targ "p.q(const).int"] (Some (str "XCI")) None).
  intros templ [= <-]. simpl. constructor; [|constructor]. left. by eexists.
Defined.

(** ** The candidates among the partial specializations *)

Section Candidates.
Context `{TypeOps} `{Symbols}.


Lemma match_parms_all (tscope : option Symtab) (row : nat) (p : ParmList) :
  forall (pp : ParmList) (i : nat) (m : list Z),
    length pp = length p ->
    (match_parms tscope p pp i row m).1 = true <->
    forall j q qq, p !! j = Some q -> pp !! j = Some qq ->
                   parm_matches tscope (i + j) q qq.
Proof.
  induction p as [|q p IH]; intros pp i m Hlen.
  - simpl. split; [|done]. intros _ j q qq Hq. done.
  - destruct pp as [|qq pp]; [done|]. simpl in Hlen.
    cbn [match_parms]. cbv zeta.
    change (match parm_type q with Some t => Some t | None => parm_value q end)
      with (type_or_value q).
    destruct (type_or_value q) as [t|] eqn:Et.
    + destruct (parm_type qq) as [pt|] eqn:Ept.
      * destruct (does_parm_match t pt (placeholder i) tscope) as [mt priority] eqn:Em.
        destruct (EMatch_val mt <? EMatch_val PartiallySpecializedMatch) eqn:El.
        -- simpl. split; [done|]. intros Hall.
           destruct (Hall 0%nat q qq eq_refl eq_refl t Et) as (pt' & Hpt' & Hm).
           rewrite Ept in Hpt'. injection Hpt' as <-.
           rewrite Nat.add_0_r, Em in Hm. simpl in Hm. apply Z.ltb_lt in El. simpl in El. lia.
        -- rewrite IH by lia. split.
           ++ intros Hall [|j] q' qq' Hq Hqq.
              ** injection Hq as <-. injection Hqq as <-. intros t' Ht'.
                 rewrite Et in Ht'. injection Ht' as <-. exists pt. split; [done|].
                 rewrite Nat.add_0_r, Em. simpl. apply Z.ltb_ge in El. exact El.
              ** replace (i + S j)%nat with (S i + j)%nat by lia. by apply Hall.
           ++ intros Hall j q' qq' Hq Hqq.
              replace (S i + j)%nat with (i + S j)%nat by lia. by apply Hall.
      * simpl. split; [done|]. intros Hall.
        destruct (Hall 0%nat q qq eq_refl eq_refl t Et) as (pt' & Hpt' & _). congruence.
    + rewrite IH by lia. split.
      * intros Hall [|j] q' qq' Hq Hqq.
        -- injection Hq as <-. intros t' Ht'. congruence.
        -- replace (i + S j)%nat with (S i + j)%nat by lia. by apply Hall.
      * intros Hall j q' qq' Hq Hqq.
        replace (S i + j)%nat with (i + S j)%nat by lia. by apply Hall.
Qed.

Lemma scan_partials_kept (st : Store) (tscope : option Symtab) (parms : ParmList)
    (partials_ : list NodeId) :
  forall possiblepartials row m,
    exists kept,
      (scan_partials st tscope parms partials_ possiblepartials row m).1
      = possiblepartials ++ kept /\
      sublist kept partials_ /\
      forall x, x ∈ kept <->
        x ∈ partials_ /\
        length (partialparms (st x)) = length parms /\
        forall j q qq, parms !! j = Some q -> partialparms (st x) !! j = Some qq ->
                       parm_matches tscope (1 + j) q qq.
Proof.
  induction partials_ as [|item rest IH]; intros poss row m.
  - exists []. simpl. rewrite app_nil_r. split; [done|]. split; [done|].
    intros x. split; [by intros ?%elem_of_nil|by intros [?%elem_of_nil _]].
  - cbn [scan_partials].
    destruct (ParmList_len (partialparms (st item)) =? ParmList_len parms) eqn:El.
    + apply Z.eqb_eq in El. unfold ParmList_len in El. apply Nat2Z.inj in El.
      pose proof (match_parms_all tscope row parms (partialparms (st item)) 1 m El) as Hall.
      destruct (match_parms tscope parms (partialparms (st item)) 1 row m) as [ok m'].
      simpl in Hall. destruct ok.
      * destruct (IH (poss ++ [item]) (row + length parms)%nat m') as (kept & E & Hs & Hk).
        exists (item :: kept). rewrite E, <- app_assoc. split; [done|].
        split; [by constructor|].
        intros x. rewrite !elem_of_cons, Hk. split.
        -- intros [->|(? & ? & ?)]; [|by auto].
           split; [by left|]. split; [done|]. by apply Hall.
        -- intros ([->|Hx] & ? & ?); [by left|by right].
      * destruct (IH poss row m') as (kept & E & Hs & Hk).
        exists kept. split; [done|]. split; [by constructor|].
        intros x. rewrite elem_of_cons, Hk. split; [by intros (? & ? & ?); auto|].
        intros ([->|Hx] & Hlen & Hm); [|done].
        apply Hall in Hm. done.
    + destruct (IH poss row m) as (kept & E & Hs & Hk).
      exists kept. split; [done|]. split; [by constructor|].
      intros x. rewrite elem_of_cons, Hk. split; [by intros (? & ? & ?); auto|].
      intros ([->|Hx] & Hlen & Hm); [|done].
      apply Z.eqb_neq in El. unfold ParmList_len in El. lia.
Qed.

(** X6.  The partial specializations that [template_locate] keeps as candidates
    are those of [partials], in the order of [partials], that have as many
    parameters as the instantiation has arguments and whose parameters all
    match: for each argument that has a type or a value, [does_parm_match]
    on the parameter at its position, with the placeholder of the position,
    gives a match.  What the matrix holds has no part in it. *)
Theorem partial_specialization_candidates (st : Store) (tscope : option Symtab)
    (parms : ParmList) (partials_ : list NodeId) (m : list Z) :
  let kept := (scan_partials st tscope parms partials_ [] 0 m).1 in
  sublist kept partials_ /\
  forall x, x ∈ kept <->
    x ∈ partials_ /\
    length (partialparms (st x)) = length parms /\
    forall j q qq, parms !! j = Some q -> partialparms (st x) !! j = Some qq ->
                   parm_matches tscope (1 + j) q qq.
Proof.
  cbv zeta. destruct (scan_partials_kept st tscope parms partials_ [] 0%nat m)
    as (kept & -> & Hs & Hk). done.
Qed.

End Candidates.

(** ** Deduction *)

Section Deduction.
Context `{TypeOps} `{Symbols}.

(** X7.  Exact matches take precedence: the priority of a deduced match is the
    length of a prefix of the reduced type, so that it lies between 0 and the
    length of that type, and below [EXACT_MATCH_PRIORITY] for every type
    shorter than that. *)
Theorem deduced_priority_bound (type partial_parm_type placeholder_ : String)
    (tscope : option Symtab) :
  let ty := Swig_symbol_typedef_reduce type tscope in
  let prefix_ := (Replaceid partial_parm_type placeholder_ []).1 in
  let r := does_parm_match type partial_parm_type placeholder_ tscope in
  no_nul prefix_ ->
  r.1 = PartiallySpecializedMatch ->
  0 <= r.2 <= Len ty /\ (Len ty < EXACT_MATCH_PRIORITY -> r.2 < EXACT_MATCH_PRIORITY).
Proof.
  intros ty prefix_ r Hnul. subst r. rewrite does_parm_match_cases. fold ty prefix_.
  pose proof (Strncmp_prefix prefix_ ty Hnul) as Hpre.
  destruct (_ =? 1).
  - destruct (Strncmp prefix_ ty (Len prefix_) =? 0) eqn:E2; [|done].
    apply Z.eqb_eq in E2. apply Hpre in E2. apply prefix_length in E2.
    intros _. simpl. unfold Len. lia.
  - by destruct (Equal _ _).
Qed.

Lemma strstr_char_None (c : ascii) (s : String) :
  Forall (fun x => x <> c) s -> strstr s [c] = None.
Proof.
  induction 1 as [|x s Hx Hs IH]; [done|].
  cbn [strstr is_prefix]. apply eqb_ascii_false in Hx. rewrite Ascii.eqb_sym, Hx. simpl.
  by rewrite IH.
Qed.

Lemma strstr_char_first (c : ascii) (s rest : String) :
  Forall (fun x => x <> c) s -> strstr (s ++ c :: rest) [c] = Some (length s).
Proof.
  induction 1 as [|x s Hx Hs IH].
  - cbn [app strstr is_prefix]. by rewrite (proj2 (eqb_ascii_true c c) eq_refl).
  - cbn [app strstr is_prefix]. apply eqb_ascii_false in Hx. rewrite Ascii.eqb_sym, Hx. simpl.
    by rewrite IH.
Qed.

Lemma is_prefix_refl_app (p s : String) : is_prefix p (p ++ s) = true.
Proof.
  induction p as [|a p IH]; [done|]. simpl.
  by rewrite (proj2 (eqb_ascii_true a a) eq_refl).
Qed.

Lemma Replace_first_prefix (p s : String) : (Replace_first (p ++ s) p []).1 = s.
Proof.
  unfold Replace_first, replace_simple. destruct p as [|a p]; [done|].
  cbn [replace_from]. unfold match_simple at 1. rewrite drop_0.
  assert (strstr ((a :: p) ++ s) (a :: p) = Some 0%nat) as ->.
  { pose proof (is_prefix_refl_app (a :: p) s) as E.
    destruct ((a :: p) ++ s) eqn:Es; [done|]. cbn [strstr]. by rewrite E. }
  cbn [fmap option_fmap option_map Nat.add Nat.pred].
  destruct (length ((a :: p) ++ s)); cbn [replace_from fst Nat.sub take app].
  all: change (a :: p ++ s) with ((a :: p) ++ s); by rewrite drop_app_length.
Qed.

(** X8.  [partial_arg] deduces the argument of a placeholder: from a type that
    is the partial parameter up to its placeholder followed by [arg], it
    returns [arg]; and it returns the type as it is when the partial
    parameter holds no placeholder. *)
Theorem partial_arg_deduces (before arg rest p s : String) :
  Forall (fun x => x <> "$"%char) before ->
  Forall (fun x => x <> "$"%char) p ->
  partial_arg (before ++ arg) (before ++ "$"%char :: rest) = arg /\
  partial_arg s p = s.
Proof.
  intros Hb Hp. unfold partial_arg. split.
  - change (str "$") with ["$"%char]. rewrite strstr_char_first by done.
    rewrite take_app_length. apply Replace_first_prefix.
  - change (str "$") with ["$"%char]. by rewrite strstr_char_None.
Qed.

End Deduction.

(** The argument [int] of [X<T *>] for [X<int *>], and of [X<const T &>]
    for [X<const int &>]. *)
Lemma partial_arg_deduces_witness :
  @partial_arg (str "p.int") (str "p.$1") = str "int" /\
  @partial_arg (str "r.q(const).int") (str "r.q(const).$1") = str "int".
Proof.
  split.
  - apply (partial_arg_deduces (str "p.") (str "int") (str "1") [] []).
    + repeat constructor; done.
    + constructor.
  - apply (partial_arg_deduces (str "r.q(const).") (str "int") (str "1") [] []).
    + repeat constructor; done.
    + constructor.
Defined.

(** [T *] against [int *]: a deduced match of priority 2. *)
Lemma deduced_priority_bound_witness :
  (@does_parm_match Demo.type_ops (Demo.table_symbols []) (str "p.int") (str "p.$1")
     (str "$1") None).2 < EXACT_MATCH_PRIORITY.
Proof.
  apply (@deduced_priority_bound Demo.type_ops (Demo.table_symbols []) (str "p.int")
           (str "p.$1") (str "$1") None).
  - repeat constructor; done.
  - reflexivity.
  - reflexivity.
Defined.

(** ** The list of the prepared arguments *)

Section Prepared.

Lemma length_expand_defaults (l : ParmList) : length (expand_defaults l) = length l.
Proof.
  change (expand_defaults l) with (defaults_upto l (length l)).
  by apply defaults_upto_inv.
Qed.

Lemma merge_parameters_lookup_name (p : ParmList) :
  forall (tps : ParmList) (k : nat) (R tp : Parm),
    merge_parameters p tps !! k = Some R -> tps !! k = Some tp ->
    parm_name R = parm_name tp.
Proof.
  induction p as [|q p IH]; intros [|tq tps] k R tp; simpl; try done.
  destruct k as [|k]; simpl.
  - by intros [= <-] [= <-].
  - apply IH.
Qed.

Lemma expand_defaults_name (l : ParmList) (k : nat) (R : Parm) :
  expand_defaults l !! k = Some R ->
  exists tp, l !! k = Some tp /\ parm_name R = parm_name tp.
Proof.
  intros HR. destruct (l !! k) as [tp|] eqn:El.
  - rewrite (expand_defaults_spec _ _ _ El) in HR. injection HR as <-.
    exists tp. split; [done|]. apply parm_name_treated.
  - apply lookup_ge_None in El. apply lookup_lt_Some in HR.
    rewrite length_expand_defaults in HR. lia.
Qed.

(** What [Swig_cparse_template_parms_expand] works on: the arguments merged
    with the template parameters, followed, for a class template that is not
    variadic, by the template parameters that no argument stands for. *)
Lemma template_parms_expand_cases (instantiated_parms : ParmList) (primary : Node) :
  let tps := templateparms primary in
  let merged := merge_parameters instantiated_parms tps in
  let defaults := mark_defaults (drop (length instantiated_parms) tps) in
  Swig_cparse_template_parms_expand instantiated_parms primary
  = if Equal_lit (templatetype primary) "class"
       && negb (bool_decide (is_Some (ParmList_variadic_parm tps)))
    then match defaults with
         | [] => merged
         | _ => expand_defaults (merged ++ defaults)
         end
    else merged.
Proof.
  cbv zeta. unfold Swig_cparse_template_parms_expand, CopyParmList, ParmList_join,
    ParmList_nth_parm, ParmList_len. rewrite Nat2Z.id.
  destruct (Equal_lit (templatetype primary) "class"); [|done]. simpl.
  destruct (negb _); [|done].
  unfold mark_defaults. by destruct (drop _ _).
Qed.

(** X9.  The parameter list that [Swig_cparse_template_parms_expand] returns has
    one parameter for each argument; for a class template that is not
    variadic it has one more for each template parameter that no argument
    stands for. *)
Theorem template_parms_expand_length (instantiated_parms : ParmList) (primary : Node) :
  length (Swig_cparse_template_parms_expand instantiated_parms primary)
  = if Equal_lit (templatetype primary) "class"
       && negb (bool_decide (is_Some (ParmList_variadic_parm (templateparms primary))))
    then Nat.max (length instantiated_parms) (length (templateparms primary))
    else length instantiated_parms.
Proof.
  rewrite template_parms_expand_cases. cbv zeta.
  destruct (_ && _); [|apply merge_parameters_length].
  destruct (mark_defaults _) as [|d ds] eqn:Ed.
  - apply (f_equal length) in Ed. unfold mark_defaults in Ed.
    rewrite length_map, length_drop in Ed. simpl in Ed.
    rewrite merge_parameters_length. lia.
  - rewrite length_expand_defaults, length_app, merge_parameters_length, <- Ed.
    unfold mark_defaults. rewrite length_map, length_drop.
    apply (f_equal length) in Ed. unfold mark_defaults in Ed.
    rewrite length_map, length_drop in Ed. simpl in Ed. lia.
Qed.

(** X10.  A parameter of the list returned carries the name of the template
    parameter at its position, if there is one. *)
Theorem template_parms_expand_names (instantiated_parms : ParmList) (primary : Node)
    (k : nat) (R tp : Parm) :
  Swig_cparse_template_parms_expand instantiated_parms primary !! k = Some R ->
  templateparms primary !! k = Some tp ->
  parm_name R = parm_name tp.
Proof.
  rewrite template_parms_expand_cases. cbv zeta. intros HR Htp.
  assert (forall R', (merge_parameters instantiated_parms (templateparms primary)
                      ++ mark_defaults (drop (length instantiated_parms)
                                             (templateparms primary))) !! k = Some R' ->
                     parm_name R' = parm_name tp) as Hm.
  { intros R' HR'. apply lookup_app_Some in HR' as [HR'|[Hk HR']].
    - by eapply merge_parameters_lookup_name.
    - rewrite merge_parameters_length in Hk, HR'. unfold mark_defaults in HR'.
      rewrite list_lookup_fmap, lookup_drop in HR'.
      replace (length instantiated_parms + (k - length instantiated_parms))%nat
        with k in HR' by lia.
      rewrite Htp in HR'. by injection HR' as <-. }
  destruct (_ && _); [|by eapply merge_parameters_lookup_name].
  destruct (mark_defaults _) as [|d ds] eqn:Ed; [by eapply merge_parameters_lookup_name|].
  apply expand_defaults_name in HR as (R' & HR' & ->). by apply Hm.
Qed.


(** The inner loop of [expand_defaults] leaves a string that holds none of
    the names of the list as it is. *)
Lemma expand_default_value_absent (l : ParmList) (i : nat) (tv : String) :
  (forall k p n, l !! k = Some p -> parm_name p = Some n -> occurs_id n tv = false) ->
  expand_default_value l i tv = tv.
Proof.
  intros Hl. rewrite expand_default_value_unfold.
  induction (seq 0 (length l)) as [|j js IH]; [done|].
  cbn [foldl]. replace (default_value_step l i tv j) with tv; [done|].
  unfold default_value_step. destruct (l !! j) as [p|] eqn:Ep; [|done].
  destruct (parm_name p) as [n|] eqn:En; [|done].
  symmetry; apply Replaceid_absent; by eapply Hl.
Qed.

(** X11.  An argument, or a default, that mentions none of the names of the
    parameters of the list comes out of [Swig_cparse_template_parms_expand]
    as it went in: with the name of its template parameter, and with its
    type and its value as they were. *)
Theorem template_parms_expand_untouched (instantiated_parms : ParmList) (primary : Node)
    (i : nat) (tp : Parm) (v : String) :
  let merged :=
    merge_parameters instantiated_parms (templateparms primary)
    ++ mark_defaults (drop (length instantiated_parms) (templateparms primary)) in
  Equal_lit (templatetype primary) "class" = true ->
  ParmList_variadic_parm (templateparms primary) = None ->
  merged !! i = Some tp ->
  value_or_type tp = Some v ->
  (forall k q n, merged !! k = Some q -> parm_name q = Some n -> occurs_id n v = false) ->
  Swig_cparse_template_parms_expand instantiated_parms primary !! i = Some tp.
Proof.
  intros merged Hc Hv Hi Htv Hnames.
  assert (merged = merge_parameters instantiated_parms (templateparms primary)
                   ++ mark_defaults (drop (length instantiated_parms)
                                          (templateparms primary))) as Em by done.
  clearbody merged.
  rewrite template_parms_expand_cases. cbv zeta. rewrite Hc, Hv.
  rewrite (bool_decide_eq_false_2 (is_Some None)) by (by intros [? ?]). simpl.
  destruct (mark_defaults _) as [|d ds] eqn:Ed.
  { rewrite app_nil_r in Em. by rewrite <- Em. }
  rewrite <- Em.
  rewrite (expand_defaults_spec _ _ _ Hi). f_equal.
  unfold treated. rewrite Htv.
  rewrite expand_default_value_absent; [by apply set_value_or_type_same|].
  intros k p n Hp Hn.
  assert (exists q, merged !! k = Some q /\ parm_name p = parm_name q) as (q & Hq & En).
  { apply lookup_app_Some in Hp as [Hp|[Hk Hp]].
    - apply lookup_take_Some in Hp as [Hp _]. by apply expand_defaults_name in Hp.
    - rewrite lookup_drop in Hp. exists p. split; [|done].
      rewrite length_take, length_expand_defaults in Hk, Hp.
      apply lookup_lt_Some in Hi.
      rewrite Nat.min_l in Hk, Hp by lia.
      by replace (i + (k - i))%nat with k in Hp by lia. }
  apply (Hnames k q n Hq). congruence.
Qed.

End Prepared.

(** [Map<int>] with [template<class K, class C = Less<K>>]: the argument
    [int] stays [int], and the second parameter is named [C]. *)
Lemma template_parms_expand_untouched_witness :
  Swig_cparse_template_parms_expand [Demo.targ "int"] (Demo.map_template "K" "C" "Less<(K)>")
  !! 0%nat = Some (mkParm (Some (str "int")) None (Some (str "K")) None).
Proof.
  apply (template_parms_expand_untouched [Demo.targ "int"]
           (Demo.map_template "K" "C" "Less<(K)>") 0
           (mkParm (Some (str "int")) None (Some (str "K")) None) (str "int")).
  - reflexivity.
  - reflexivity.
  - reflexivity.
  - reflexivity.
  - intros [|[|k]] q n; simpl; [| |done]; intros [= <-] [= <-]; reflexivity.
Defined.

Lemma template_parms_expand_names_witness :
  parm_name <$> (Swig_cparse_template_parms_expand [Demo.targ "int"]
                   (Demo.map_template "K" "C" "Less<(K)>") !! 1%nat)
  = Some (Some (str "C")).
Proof.
  destruct (Swig_cparse_template_parms_expand [Demo.targ "int"]
              (Demo.map_template "K" "C" "Less<(K)>") !! 1%nat) as [R|] eqn:E.
  - simpl. f_equal.
    apply (template_parms_expand_names [Demo.targ "int"]
             (Demo.map_template "K" "C" "Less<(K)>") 1 R
             (Demo.tparm "typename" "C" (Some (str "Less<(K)>"))) E).
    reflexivity.
  - vm_compute in E. discriminate.
Defined.

(** ** What the expansion leaves as it is *)

Section WalkerFrame.
Context `{TypeOps} `{Symbols}.

Lemma extends_refl (w : W) : extends w w.
Proof. repeat split; done. Qed.

Lemma extends_trans (w1 w2 w3 : W) : extends w1 w2 -> extends w2 w3 -> extends w1 w3.
Proof.
  intros (A1 & A2 & A3 & A4 & A5) (B1 & B2 & B3 & B4 & B5).
  split; [congruence|]. split; [by etrans|]. split; [by etrans|]. split; [by etrans|lia].
Qed.

Lemma keeps_ret {A} (a : A) : keeps (ret a).
Proof. intros w a' w' [= <- <-]. apply extends_refl. Qed.

Lemma keeps_bind {A B} (m : M A) (k : A -> M B) :
  keeps m -> (forall a, keeps (k a)) -> keeps (bind m k).
Proof.
  intros Hm Hk w b w' E. unfold bind in E.
  destruct (m w) as [[a w1]| |] eqn:E1; [|done..].
  eapply extends_trans; [by eapply Hm|by eapply Hk].
Qed.

Lemma keeps_abort {A} : keeps (@abort A).
Proof. by intros w a w'. Qed.

Lemma keeps_diverge {A} : keeps (@diverge A).
Proof. by intros w a w'. Qed.

Lemma keeps_assert (b : bool) : keeps (assert_ b).
Proof. destruct b; [apply keeps_ret|apply keeps_abort]. Qed.

Lemma keeps_need {A} (o : option A) : keeps (need o).
Proof. destruct o; [apply keeps_ret|apply keeps_abort]. Qed.

Lemma keeps_read (l : loc) : keeps (read l).
Proof. intros w a w' [= <- <-]. apply extends_refl. Qed.

Lemma keeps_read_opt (o : option loc) : keeps (read_opt o).
Proof. intros w a w' [= <- <-]. apply extends_refl. Qed.

Lemma keeps_write (l : loc) (s : String) : keeps (write l s).
Proof.
  intros w a w' [= <- <-]. repeat split; simpl; try done. by rewrite length_insert.
Qed.

Lemma keeps_alloc (s : String) : keeps (alloc s).
Proof.
  intros w a w' [= <- <-]. repeat split; simpl; try done. rewrite length_app. lia.
Qed.

Lemma keeps_Append_patchlist (o : option loc) : keeps (Append_patchlist o).
Proof.
  intros w a w' [= <- <-]. repeat split; simpl; try done.
  destruct o; simpl; [by apply prefix_app_r|done].
Qed.

Lemma keeps_Append_typelist (o : option loc) : keeps (Append_typelist o).
Proof.
  intros w a w' [= <- <-]. repeat split; simpl; try done.
  destruct o; simpl; [by apply prefix_app_r|done].
Qed.

Lemma keeps_Append_cpatchlist (o : option loc) : keeps (Append_cpatchlist o).
Proof.
  intros w a w' [= <- <-]. repeat split; simpl; try done.
  destruct o; simpl; [by apply prefix_app_r|done].
Qed.

Lemma keeps_get_expanded : keeps get_expanded.
Proof. intros w a w' [= <- <-]. apply extends_refl. Qed.

Lemma keeps_get_typelist : keeps get_typelist.
Proof. intros w a w' [= <- <-]. apply extends_refl. Qed.

Lemma keeps_get_patchlist : keeps get_patchlist.
Proof. intros w a w' [= <- <-]. apply extends_refl. Qed.

Lemma keeps_get_cpatchlist : keeps get_cpatchlist.
Proof. intros w a w' [= <- <-]. apply extends_refl. Qed.

Lemma keeps_foldM {A B} (f : B -> A -> M B) (l : list A) :
  (forall b a, keeps (f b a)) -> forall b, keeps (foldM f b l).
Proof.
  intros Hf. induction l as [|a l IH]; intros b; cbn [foldM]; [apply keeps_ret|].
  apply keeps_bind; [apply Hf|apply IH].
Qed.

Lemma keeps_iterM {A} (f : A -> M unit) (l : list A) :
  (forall a, keeps (f a)) -> keeps (iterM f l).
Proof. intros Hf. apply keeps_foldM. intros _ a. apply Hf. Qed.

End WalkerFrame.

Create HintDb keeps.

#[local] Hint Resolve keeps_ret keeps_abort keeps_diverge keeps_assert keeps_need keeps_read
  keeps_read_opt keeps_write keeps_alloc keeps_Append_patchlist keeps_Append_typelist
  keeps_Append_cpatchlist keeps_get_expanded keeps_get_typelist keeps_get_patchlist
  keeps_get_cpatchlist : keeps.

(** Decompose a computation into its steps. *)
Ltac keeps_step :=
  lazymatch goal with
  | |- keeps (bind _ _) => apply keeps_bind; [|intros ?]
  | |- keeps (if ?b then _ else _) => destruct b
  | |- keeps (match ?x with _ => _ end) => destruct x
  | |- keeps (foldM _ _ _) => apply keeps_foldM; intros ? ?
  | |- keeps (iterM _ _) => apply keeps_iterM; intros ?
  | |- keeps _ => solve [auto with keeps]
  end.

Ltac keeps_auto := repeat keeps_step.

(** Membership in a list of keys that is written out. *)
Ltac in_keys :=
  unfold walker_keys, branch_keys;
  repeat first [apply list_elem_of_here | apply list_elem_of_further].

Section WalkerFrame2.
Context `{TypeOps} `{Symbols}.

Lemma keeps_alloc_opt (s : option String) : keeps (alloc_opt s).
Proof. unfold alloc_opt. keeps_auto. Qed.

Lemma keeps_Copy (o : option loc) : keeps (Copy o).
Proof. unfold Copy. keeps_auto. apply keeps_alloc_opt. Qed.

Lemma keeps_add_parms (p : list XParm) (Append_patch Append_type : option loc -> M unit)
    (is_pattern : bool) :
  (forall o, keeps (Append_patch o)) -> (forall o, keeps (Append_type o)) ->
  keeps (add_parms p Append_patch Append_type is_pattern).
Proof.
  intros Hp Ht. induction p as [|q p IH]; cbn [add_parms]; keeps_auto; auto.
Qed.

Lemma keeps_expand_one (type : String) (unexpanded_name : option String) (ep : Parm) :
  keeps (expand_one type unexpanded_name ep).
Proof. unfold expand_one. keeps_auto; apply keeps_alloc_opt. Qed.

Lemma keeps_expand_variadic_parms (a : Attrs) (attribute : string)
    (uvp : option Parm) (evp : ParmList) :
  keeps (expand_variadic_parms a attribute uvp evp).
Proof.
  unfold expand_variadic_parms. destruct uvp as [u|]; [|apply keeps_ret].
  intros w a' w'. destruct (XParmList_variadic_parm _ _) as [v|]; [|apply keeps_ret].
  revert w a' w'. change (keeps (type <- (l <- need (xp_type v) ;; read l) ;;
             expanded <- foldM (fun acc ep =>
                                  x <- expand_one type (parm_name u) ep ;; ret (acc ++ [x]))
                               [] evp ;;
             ret (Setparms a attribute (ParmList_replace_last (Getparms a attribute) expanded)))).
  keeps_auto. apply keeps_expand_one.
Qed.

Lemma keeps_expand_parms (a : Attrs) (attribute : string) (uvp : option Parm)
    (evp : ParmList) (Append_patch Append_type : option loc -> M unit) (is_pattern : bool) :
  (forall o, keeps (Append_patch o)) -> (forall o, keeps (Append_type o)) ->
  keeps (expand_parms a attribute uvp evp Append_patch Append_type is_pattern).
Proof.
  intros Hp Ht. unfold expand_parms. keeps_auto.
  - apply keeps_expand_variadic_parms.
  - by apply keeps_add_parms.
Qed.

Lemma keeps_expand_parms_c (a : Attrs) (attribute : string) (uvp : option Parm)
    (evp : ParmList) (is_pattern : bool) :
  keeps (expand_parms a attribute uvp evp Append_cpatchlist Append_typelist is_pattern).
Proof. apply keeps_expand_parms; auto with keeps. Qed.

Lemma keeps_checkAttribute (a : Attrs) (k lit : string) : keeps (checkAttribute a k lit).
Proof. unfold checkAttribute. keeps_auto. Qed.

Lemma keeps_expand_cdecl (a : Attrs) (uvp : option Parm) (evp : ParmList) :
  keeps (expand_cdecl a uvp evp).
Proof.
  unfold expand_cdecl. keeps_auto;
    first [apply keeps_checkAttribute | apply keeps_expand_parms_c].
Qed.

Lemma keeps_patch_bases (uvp : option Parm) (evp : ParmList) (ilen k : nat) :
  forall bases, keeps (patch_bases uvp evp ilen k bases).
Proof.
  induction k as [|k IH]; intros bases; cbn [patch_bases]; [apply keeps_ret|].
  keeps_auto; first [apply IH | apply keeps_expand_variadic_parms | apply keeps_Copy].
Qed.

Lemma keeps_expand_class_bases (a : Attrs) (uvp : option Parm) (evp : ParmList) :
  keeps (expand_class_bases a uvp evp).
Proof. unfold expand_class_bases. keeps_auto. apply keeps_patch_bases. Qed.

Lemma keeps_Replaceid_at (l : loc) (token rep : String) : keeps (Replaceid_at l token rep).
Proof. unfold Replaceid_at. keeps_auto. Qed.

Lemma keeps_Replace_any_at (l : loc) (token rep : String) :
  keeps (Replace_any_at l token rep).
Proof. unfold Replace_any_at. keeps_auto. Qed.

Lemma keeps_Append_at (l : loc) (x : String) : keeps (Append_at l x).
Proof. unfold Append_at. keeps_auto. Qed.

Lemma keeps_expand_constructor (a : Attrs) (tname rname templateargs : String)
    (uvp : option Parm) (evp : ParmList) :
  keeps (expand_constructor a tname rname templateargs uvp evp).
Proof.
  unfold expand_constructor. keeps_auto;
    first [apply keeps_Replaceid_at | apply keeps_Append_at | apply keeps_expand_parms_c].
Qed.

Lemma keeps_expand_destructor (a : Attrs) (is_dtor : bool)
    (tname rname templateargs : String) :
  keeps (expand_destructor a is_dtor tname rname templateargs).
Proof.
  unfold expand_destructor. keeps_auto;
    first [apply keeps_Replace_any_at | apply keeps_Append_at].
Qed.

Lemma keeps_expand_using (a : Attrs) : keeps (expand_using a).
Proof. unfold expand_using. keeps_auto. Qed.

Lemma keeps_expand_other (a : Attrs) (uvp : option Parm) (evp : ParmList) :
  keeps (expand_other a uvp evp).
Proof. unfold expand_other. keeps_auto; apply keeps_expand_parms_c. Qed.

Lemma agree_refl (K : list string) (a : Attrs) : agree K a a.
Proof. by intros k _. Qed.

Lemma agree_trans (K : list string) (a1 a2 a3 : Attrs) :
  agree K a1 a2 -> agree K a2 a3 -> agree K a1 a3.
Proof. intros A B k Hk. by rewrite B, A. Qed.

Lemma agree_mono (K K' : list string) (a a' : Attrs) :
  K ⊆ K' -> agree K a a' -> agree K' a a'.
Proof. intros HK A k Hk. apply A. intros Hin. by apply Hk, HK. Qed.

Lemma agree_Setattr (K : list string) (a : Attrs) (k : string) (v : option loc) :
  k ∈ K -> agree K a (Setattr a k v).
Proof.
  intros Hk k' Hk'. assert (k <> k') by (intros ->; done).
  unfold Setattr. destruct v; [by rewrite lookup_insert_ne|by rewrite lookup_delete_ne].
Qed.

Lemma agree_Setparms (K : list string) (a : Attrs) (k : string) (p : list XParm) :
  k ∈ K -> agree K a (Setparms a k p).
Proof.
  intros Hk k' Hk'. assert (k <> k') by (intros ->; done).
  unfold Setparms. destruct p; [by rewrite lookup_delete_ne|by rewrite lookup_insert_ne].
Qed.

Lemma agree_insert (K : list string) (a : Attrs) (k : string) (v : Attr) :
  k ∈ K -> agree K a (<[k := v]> a).
Proof. intros Hk k' Hk'. assert (k <> k') by (intros ->; done). by rewrite lookup_insert_ne. Qed.

Lemma changes_only_ret (K : list string) (a0 a : Attrs) :
  agree K a0 a -> changes_only K a0 (ret a).
Proof. intros Ha w a' w' [= <- <-]. split; [apply extends_refl|done]. Qed.

(** A step that returns attributes, followed by the rest. *)
Lemma changes_only_bind (K : list string) (a0 a : Attrs) (m : M Attrs) (k : Attrs -> M Attrs) :
  agree K a0 a -> changes_only K a m ->
  (forall a1, agree K a0 a1 -> changes_only K a0 (k a1)) ->
  changes_only K a0 (bind m k).
Proof.
  intros Ha Hm Hk w a' w' E. apply bind_Ret in E as (a1 & w1 & E1 & E).
  apply Hm in E1 as [X1 A1].
  assert (agree K a0 a1) as A01 by (by eapply agree_trans).
  apply (Hk a1 A01) in E as [X2 A2]. split; [by eapply extends_trans|done].
Qed.

(** A step that does not return attributes, followed by the rest. *)
Lemma changes_only_seq {A} (K : list string) (a0 : Attrs) (m : M A) (k : A -> M Attrs) :
  keeps m -> (forall x, changes_only K a0 (k x)) -> changes_only K a0 (bind m k).
Proof.
  intros Hm Hk w a' w' E. apply bind_Ret in E as (x & w1 & E1 & E).
  apply Hm in E1. apply Hk in E as [X2 A2]. split; [by eapply extends_trans|done].
Qed.

Lemma changes_only_keeps (K : list string) (a0 : Attrs) (m : M Attrs) :
  changes_only K a0 m -> keeps m.
Proof. intros Hm w a w' E. by apply Hm in E as [? _]. Qed.

Lemma changes_only_expand_variadic_parms (K : list string) (a : Attrs) (attribute : string)
    (uvp : option Parm) (evp : ParmList) :
  attribute ∈ K -> changes_only K a (expand_variadic_parms a attribute uvp evp).
Proof.
  intros HK w a' w' E. split; [by eapply keeps_expand_variadic_parms|].
  revert E. unfold expand_variadic_parms. destruct uvp as [u|].
  2:{ intros [= <- <-]. apply agree_refl. }
  destruct (XParmList_variadic_parm _ _) as [v|].
  2:{ intros [= <- <-]. apply agree_refl. }
  intros E. apply bind_Ret in E as (t & w1 & _ & E).
  apply bind_Ret in E as (x & w2 & _ & E). injection E as <- <-.
  by apply agree_Setparms.
Qed.

Lemma changes_only_expand_parms (K : list string) (a : Attrs) (attribute : string)
    (uvp : option Parm) (evp : ParmList) (is_pattern : bool) :
  attribute ∈ K ->
  changes_only K a
    (expand_parms a attribute uvp evp Append_cpatchlist Append_typelist is_pattern).
Proof.
  intros HK. unfold expand_parms.
  apply (changes_only_bind K a a); [apply agree_refl| |].
  - by apply changes_only_expand_variadic_parms.
  - intros a1 A1. apply changes_only_seq; [apply keeps_add_parms; auto with keeps|].
    intros _. by apply changes_only_ret.
Qed.

Lemma changes_only_expand_cdecl (a : Attrs) (uvp : option Parm) (evp : ParmList) :
  changes_only branch_keys a (expand_cdecl a uvp evp).
Proof.
  unfold expand_cdecl.
  do 4 (apply changes_only_seq; [auto with keeps|intros _]).
  apply changes_only_seq; [keeps_auto|intros _].
  apply changes_only_seq; [apply keeps_checkAttribute|intros friend].
  apply (changes_only_bind branch_keys a a); [apply agree_refl| |].
  - destruct friend; [|by apply changes_only_ret, agree_refl].
    apply (changes_only_bind branch_keys a a); [apply agree_refl| |].
    + destruct (Getattr a "sym:name"); [|by apply changes_only_ret, agree_refl].
      do 2 (apply changes_only_seq; [auto with keeps|intros ?]).
      apply changes_only_ret, agree_Setattr. in_keys.
    + intros a1 A1. apply changes_only_seq; [auto with keeps|intros _].
      by apply changes_only_ret.
  - intros a1 A1. apply (changes_only_bind branch_keys a a1); [done| |].
    + apply changes_only_expand_parms. in_keys.
    + intros a2 A2 w a' w' E.
      apply (changes_only_expand_parms branch_keys a2) in E as [X A]; [|in_keys].
      split; [done|by eapply agree_trans].
Qed.

Lemma changes_only_expand_class_bases (a : Attrs) (uvp : option Parm) (evp : ParmList) :
  changes_only branch_keys a (expand_class_bases a uvp evp).
Proof.
  unfold expand_class_bases.
  assert (forall (ks : list string) a1,
            Forall (fun k => k ∈ branch_keys) ks -> agree branch_keys a a1 ->
            changes_only branch_keys a
              (foldM (fun a baselist =>
                        match Getlist a baselist with
                        | Some bases =>
                            bases' <- patch_bases uvp evp (length bases) (length bases) bases ;;
                            ret (<[baselist := AList bases']> a)
                        | None => ret a
                        end) a1 ks)) as Hfold.
  { induction ks as [|k ks IH]; intros a1 Hks A1; cbn [foldM].
    - by apply changes_only_ret.
    - apply (changes_only_bind branch_keys a a1); [done| |].
      + destruct (Getlist a1 k); [|apply changes_only_ret, agree_refl].
        apply changes_only_seq; [apply keeps_patch_bases|intros bases'].
        apply changes_only_ret, agree_insert. by apply Forall_inv in Hks.
      + intros a2 A2. apply IH; [by apply Forall_inv_tail in Hks|done]. }
  apply Hfold; [|apply agree_refl]. repeat (constructor; [in_keys|]). constructor.
Qed.

Lemma changes_only_expand_constructor (a : Attrs) (tname rname templateargs : String)
    (uvp : option Parm) (evp : ParmList) :
  changes_only branch_keys a (expand_constructor a tname rname templateargs uvp evp).
Proof.
  unfold expand_constructor.
  apply changes_only_seq.
  { keeps_auto; first [apply keeps_Replaceid_at | apply keeps_Append_at]. }
  intros _. do 2 (apply changes_only_seq; [auto with keeps|intros _]).
  apply (changes_only_bind branch_keys a a); [apply agree_refl| |].
  - apply changes_only_expand_parms. in_keys.
  - intros a2 A2 w a' w' E.
    apply (changes_only_expand_parms branch_keys a2) in E as [X A]; [|in_keys].
    split; [done|by eapply agree_trans].
Qed.

Lemma changes_only_expand_destructor (a : Attrs) (is_dtor : bool)
    (tname rname templateargs : String) :
  changes_only branch_keys a (expand_destructor a is_dtor tname rname templateargs).
Proof.
  unfold expand_destructor. destruct is_dtor; [|apply changes_only_ret, agree_refl].
  apply changes_only_seq; [keeps_auto; apply keeps_Append_at|intros _].
  apply (changes_only_bind branch_keys a a); [apply agree_refl| |].
  - destruct (Getattr a "sym:name"); [|apply changes_only_ret, agree_refl].
    apply changes_only_seq; [auto with keeps|intros sn].
    destruct (contains_lt sn).
    + apply changes_only_seq; [auto with keeps|intros ?].
      apply changes_only_ret, agree_Setattr. in_keys.
    + apply changes_only_seq; [apply keeps_Replace_any_at|intros _].
      apply changes_only_ret, agree_refl.
  - intros a1 A1. apply changes_only_seq; [auto with keeps|intros _].
    by apply changes_only_ret.
Qed.

Lemma changes_only_expand_using (a : Attrs) : changes_only branch_keys a (expand_using a).
Proof.
  unfold expand_using. destruct (Getattr a "uname"); [|apply changes_only_ret, agree_refl].
  apply changes_only_seq; [auto with keeps|intros u].
  apply changes_only_seq; [keeps_auto|intros _]. apply changes_only_ret, agree_refl.
Qed.

Lemma changes_only_expand_other (a : Attrs) (uvp : option Parm) (evp : ParmList) :
  changes_only branch_keys a (expand_other a uvp evp).
Proof.
  unfold expand_other.
  do 3 (apply changes_only_seq; [auto with keeps|intros _]).
  apply (changes_only_bind branch_keys a a); [apply agree_refl| |].
  { apply changes_only_expand_parms. in_keys. }
  intros a1 A1. apply (changes_only_bind branch_keys a a1); [done| |].
  { apply changes_only_expand_parms. in_keys. }
  intros a2 A2. apply (changes_only_bind branch_keys a a2); [done| |].
  { apply changes_only_expand_parms. in_keys. }
  intros a3 A3 w a' w' E.
  apply (changes_only_expand_parms branch_keys a3) in E as [X A]; [|in_keys].
  split; [done|by eapply agree_trans].
Qed.

End WalkerFrame2.

Section WalkerFrame3.
Context `{TypeOps} `{Symbols}.

Lemma XNode_children_ind (P : XNode -> Prop) :
  (forall a cs, Forall P cs -> P (mkXNode a cs)) -> forall n, P n.
Proof.
  intros Hstep. fix IH 1. intros [a cs]. apply Hstep.
  induction cs as [|c cs IHcs]; constructor; [apply IH|apply IHcs].
Qed.

(** [cparse_template_expand] on a node, by its parts. *)
Lemma cparse_template_expand_unfold (anc : list (option String)) (a : Attrs)
    (children : list XNode) (tname rname templateargs : String) (uvp : option Parm)
    (evp : ParmList) :
  cparse_template_expand anc (mkXNode a children) tname rname templateargs uvp evp
  = let visit_children nodeType_ :=
      visit_with (fun cn => cparse_template_expand (nodeType_ :: anc) cn tname rname
                              templateargs uvp evp) children in
    let branches := node_branches visit_children anc children tname rname templateargs
                      uvp evp in
    if has_attr a "error" then ret (mkXNode a children)
    else
      nodeType_ <- read_opt (Getattr a "nodeType") ;;
      if Equal_lit nodeType_ "template" then
        let a1 := Setattr a "nodeType" (Getattr a "templatetype") in
        nodeType1 <- read_opt (Getattr a1 "nodeType") ;;
        if Equal_lit nodeType1 "template" then diverge
        else
          e <- get_expanded ;;
          if negb e then
            set_expanded true ;;;
            n' <- branches a1 nodeType1 ;;
            set_expanded false ;;;
            ret n'
          else
            n' <- branches a1 nodeType1 ;;
            l <- alloc (str "template") ;;
            ret (mkXNode (Setattr (x_attrs n') "nodeType" (Some l)) (x_children n'))
      else branches a nodeType_.
Proof. reflexivity. Qed.

Lemma same_but_refl (K : list string) (n : XNode) : same_but K n n.
Proof.
  induction n as [a cs IH] using XNode_children_ind. constructor; [apply agree_refl|].
  induction IH; constructor; done.
Qed.

Lemma same_but_children (K : list string) (cs : list XNode) : Forall2 (same_but K) cs cs.
Proof. induction cs; constructor; [apply same_but_refl|done]. Qed.

Lemma same_but_mono (K K' : list string) (n n' : XNode) :
  K ⊆ K' -> same_but K n n' -> same_but K' n n'.
Proof.
  intros HK. revert n'. induction n as [a cs IH] using XNode_children_ind.
  intros n' Hs. inversion Hs as [a0 a' cs0 cs' Ha Hcs]; subst.
  constructor; [by eapply agree_mono|].
  clear Hs. revert cs' Hcs. induction IH as [|c cs Hc Hcs' IHc]; intros cs' Hcs;
    inversion Hcs; subst; constructor; [by apply Hc|by apply IHc].
Qed.

Lemma visit_with_frame (K : list string) (f : XNode -> M XNode) (cs : list XNode) :
  Forall (fun cn => forall w n' w', f cn w = Ret (n', w') ->
                                    extends w w' /\ same_but K cn n') cs ->
  forall w cs' w', visit_with f cs w = Ret (cs', w') ->
                   extends w w' /\ Forall2 (same_but K) cs cs'.
Proof.
  induction 1 as [|cn cs Hcn Hcs IH]; intros w cs' w'; cbn [visit_with].
  - intros [= <- <-]. split; [apply extends_refl|constructor].
  - intros E. apply bind_Ret in E as (cn' & w1 & E1 & E).
    apply bind_Ret in E as (cs'' & w2 & E2 & E). injection E as <- <-.
    apply Hcn in E1 as [X1 S1]. apply IH in E2 as [X2 S2].
    split; [by eapply extends_trans|by constructor].
Qed.

(** The branches set no attribute but those of [branch_keys]. *)
Lemma node_branches_frame (K : list string)
    (visit_children : option String -> M (list XNode))
    (anc : list (option String)) (children : list XNode)
    (tname rname templateargs : String) (uvp : option Parm) (evp : ParmList)
    (a : Attrs) (nodeType_ : option String) (w : W) (n' : XNode) (w' : W) :
  (forall nt w cs' w', visit_children nt w = Ret (cs', w') ->
                       extends w w' /\ Forall2 (same_but K) children cs') ->
  node_branches visit_children anc children tname rname templateargs uvp evp a nodeType_ w
  = Ret (n', w') ->
  extends w w' /\
  exists a' cs', n' = mkXNode a' cs' /\ agree branch_keys a a' /\
                 Forall2 (same_but K) children cs'.
Proof.
  intros Hv. unfold node_branches.
  assert (forall (m : M Attrs),
            changes_only branch_keys a m ->
            (a' <- m ;; ret (mkXNode a' children)) w = Ret (n', w') ->
            extends w w' /\
            exists a' cs', n' = mkXNode a' cs' /\ agree branch_keys a a' /\
                           Forall2 (same_but K) children cs') as Hleaf.
  { intros m Hm E. apply bind_Ret in E as (a' & w1 & E1 & E). injection E as <- <-.
    apply Hm in E1 as [X1 A1]. split; [done|].
    exists a', children. split; [done|]. split; [done|apply same_but_children]. }
  assert (forall (m : M Attrs) nt,
            changes_only branch_keys a m ->
            (a' <- m ;; cs <- visit_children nt ;; ret (mkXNode a' cs)) w = Ret (n', w') ->
            extends w w' /\
            exists a' cs', n' = mkXNode a' cs' /\ agree branch_keys a a' /\
                           Forall2 (same_but K) children cs') as Hvisit.
  { intros m nt Hm E. apply bind_Ret in E as (a' & w1 & E1 & E).
    apply bind_Ret in E as (cs' & w2 & E2 & E). injection E as <- <-.
    apply Hm in E1 as [X1 A1]. apply Hv in E2 as [X2 S2].
    split; [by eapply extends_trans|]. by exists a', cs'. }
  destruct (Equal_lit nodeType_ "cdecl"); [apply Hleaf, changes_only_expand_cdecl|].
  destruct (Equal_lit nodeType_ "class"); [apply Hvisit, changes_only_expand_class_bases|].
  destruct (Equal_lit nodeType_ "constructor");
    [apply Hleaf, changes_only_expand_constructor|].
  destruct (Equal_lit nodeType_ "destructor"); [apply Hleaf, changes_only_expand_destructor|].
  destruct (Equal_lit nodeType_ "using"); [apply Hleaf, changes_only_expand_using|].
  apply Hvisit, changes_only_expand_other.
Qed.

Lemma branch_keys_walker_keys : branch_keys ⊆ walker_keys.
Proof. intros k Hk. by apply list_elem_of_further. Qed.

(** The walker appends to the three patch lists, creates and rewrites
    strings without deleting any, leaves the flag [expanded] as it found
    it, and returns the tree it was given but for the attributes of
    [walker_keys]. *)
Lemma walker_frame (n : XNode) :
  forall anc tname rname templateargs uvp evp w n' w',
    cparse_template_expand anc n tname rname templateargs uvp evp w = Ret (n', w') ->
    extends w w' /\ same_but walker_keys n n'.
Proof.
  induction n as [a cs IH] using XNode_children_ind.
  intros anc tname rname templateargs uvp evp w n' w'.
  rewrite cparse_template_expand_unfold. cbv zeta.
  assert (forall nt w cs' w',
            visit_with (fun cn => cparse_template_expand (nt :: anc) cn tname rname
                                    templateargs uvp evp) cs w = Ret (cs', w') ->
            extends w w' /\ Forall2 (same_but walker_keys) cs cs') as Hv.
  { intros nt. apply visit_with_frame. eapply Forall_impl; [exact IH|].
    intros cn Hcn w0 n0 w0'. apply Hcn. }
  destruct (has_attr a "error").
  { intros [= <- <-]. split; [apply extends_refl|apply same_but_refl]. }
  intros E. apply bind_Ret in E as (nt & w1 & [= <- <-] & E). revert E.
  destruct (Equal_lit _ "template").
  2:{ intros E. eapply node_branches_frame in E as (X & a' & cs' & -> & A & S); [|exact Hv].
      split; [done|]. constructor; [|done].
      eapply agree_mono; [apply branch_keys_walker_keys|done]. }
  intros E. apply bind_Ret in E as (nt1 & w1 & [= <- <-] & E). revert E.
  destruct (Equal_lit _ "template"); [done|].
  intros E. apply bind_Ret in E as (e & w1 & [= <- <-] & E).
  assert (agree walker_keys a (Setattr a "nodeType" (Getattr a "templatetype"))) as A1
    by (apply agree_Setattr; apply list_elem_of_here).
  destruct (expanded w) eqn:Ee; cbn [negb] in E.
  - apply bind_Ret in E as (n1 & w1 & E1 & E).
    apply bind_Ret in E as (l & w2 & [= <- <-] & E). injection E as <- <-.
    eapply node_branches_frame in E1 as (X1 & a' & cs' & -> & A & S); [|exact Hv].
    split.
    + eapply extends_trans; [exact X1|]. by eapply (keeps_alloc (str "template") w1).
    + constructor; [|done]. cbn [x_attrs].
      eapply agree_trans; [exact A1|]. eapply agree_trans.
      * eapply agree_mono; [apply branch_keys_walker_keys|exact A].
      * apply (agree_insert walker_keys a' "nodeType"), list_elem_of_here.
  - apply bind_Ret in E as (u & w1 & [= <- <-] & E).
    apply bind_Ret in E as (n1 & w2 & E1 & E).
    apply bind_Ret in E as (u' & w3 & [= <- <-] & E). injection E as <- <-.
    eapply node_branches_frame in E1 as (X1 & a' & cs' & -> & A & S); [|exact Hv].
    split.
    + destruct X1 as (B1 & B2 & B3 & B4 & B5). simpl in *. repeat split; simpl; done.
    + constructor; [|done]. eapply agree_trans; [exact A1|].
      eapply agree_mono; [apply branch_keys_walker_keys|exact A].
Qed.

End WalkerFrame3.

Section ExpandFrame.
Context `{TypeOps} `{Symbols}.

Lemma keeps_patch_type (st : Store) (tsname : option loc) (name_ dvalue tbase : String)
    (iname : loc) (uvp : option Parm) (evp : ParmList) (s : loc) :
  keeps (patch_type st tsname name_ dvalue tbase iname uvp evp s).
Proof. unfold patch_type. keeps_auto. Qed.

Lemma keeps_patch_type_specialization (tbase : String) (iname : loc) (uvp : option Parm)
    (evp : ParmList) (s : loc) :
  keeps (patch_type_specialization tbase iname uvp evp s).
Proof. unfold patch_type_specialization. keeps_auto. Qed.

Lemma keeps_patch_code (name_ valuestr : String) (s : loc) :
  keeps (patch_code name_ valuestr s).
Proof. unfold patch_code. keeps_auto; apply keeps_Replaceid_at. Qed.

Lemma length_patch_default_arguments (l : ParmList) (j : nat) (name_ dvalue : String) :
  length (patch_default_arguments l j name_ dvalue) = length l.
Proof. unfold patch_default_arguments. apply length_imap. Qed.

(** The substitution rewrites strings: it appends to no list, and it keeps
    the number of the arguments. *)
Lemma patch_all_frame (st : Store) (tsdecl tscope : option Symtab) (tsname : option loc)
    (tbase : String) (iname : loc) (k : nat) :
  forall j tparms tps w tparms' tps' w',
    patch_all k j st tsdecl tscope tsname tbase iname tparms tps w
    = Ret (tparms', tps', w') ->
    extends w w' /\ length tparms' = length tparms.
Proof.
  induction k as [|k IH]; intros j tparms tps w tparms' tps' w'; cbn [patch_all].
  - intros [= <- <- <-]. split; [apply extends_refl|done].
  - destruct (tps !! j) as [tp|]; [|intros [= <- <- <-]; split; [apply extends_refl|done]].
    destruct (parm_name tp) as [name_|]; [|apply IH].
    intros E. apply bind_Ret in E as (value & w1 & E1 & E).
    apply keeps_need in E1.
    destruct (tparms !! j) as [p|] eqn:Ep.
    + apply bind_Ret in E as (pl & w2 & [= <- <-] & E).
      apply bind_Ret in E as (u1 & w3 & E3 & E).
      apply bind_Ret in E as (tl & w4 & [= <- <-] & E).
      apply bind_Ret in E as (u2 & w5 & E5 & E).
      apply bind_Ret in E as (cl & w6 & [= <- <-] & E).
      apply bind_Ret in E as (u3 & w7 & E7 & E).
      apply keeps_iterM in E3; [|intros s; apply keeps_Replaceid_at].
      apply keeps_iterM in E5; [|intros s; apply keeps_patch_type].
      apply keeps_iterM in E7; [|intros s; apply keeps_patch_code].
      apply IH in E as [X L]. rewrite length_patch_default_arguments in L.
      split; [|done].
      eapply extends_trans; [exact E1|]. eapply extends_trans; [exact E3|].
      eapply extends_trans; [exact E5|]. eapply extends_trans; [exact E7|]. done.
    + apply bind_Ret in E as (pl & w2 & [= <- <-] & E).
      apply bind_Ret in E as (u1 & w3 & E3 & E).
      apply bind_Ret in E as (tl & w4 & [= <- <-] & E).
      apply bind_Ret in E as (u2 & w5 & E5 & E).
      apply bind_Ret in E as (cl & w6 & [= <- <-] & E).
      apply bind_Ret in E as (u3 & w7 & E7 & E).
      apply keeps_iterM in E3; [|intros s; apply keeps_Replaceid_at].
      apply keeps_iterM in E5; [|intros s; apply keeps_patch_type].
      apply keeps_iterM in E7; [|intros s; apply keeps_patch_code].
      apply IH in E as [X L].
      split; [|done].
      eapply extends_trans; [exact E1|]. eapply extends_trans; [exact E3|].
      eapply extends_trans; [exact E5|]. eapply extends_trans; [exact E7|]. done.
Qed.

Lemma keeps_cparse_fix_function_decl (decl type : loc) :
  keeps (cparse_fix_function_decl decl type).
Proof. unfold cparse_fix_function_decl. keeps_auto. apply keeps_Append_at. Qed.

Lemma keeps_postprocess (n : XNode) : keeps (cparse_postprocess_expanded_template n).
Proof.
  induction n as [a cs IH] using XNode_children_ind.
  cbn [cparse_postprocess_expanded_template].
  destruct (has_attr a "error"); [apply keeps_ret|].
  apply keeps_bind; [auto with keeps|intros nt].
  destruct (Equal_lit nt "cdecl").
  - keeps_auto. apply keeps_cparse_fix_function_decl.
  - induction IH as [|c cs Hc Hcs IHcs]; [apply keeps_ret|].
    apply keeps_bind; [exact Hc|intros _; exact IHcs].
Qed.

Lemma length_patch_partial_types (p : ParmList) : forall tp,
  length (patch_partial_types p tp) = length tp.
Proof.
  induction p as [|q p IH]; intros [|tq tp]; simpl; try done. by rewrite IH.
Qed.

(** X14.  A call of [Swig_cparse_template_expand] that returns has appended to
    the patch lists of the call and has deleted no string object; the static
    flag [expanded] is what it was before the call; the tree returned has the
    shape of the tree given, and each of its nodes binds every key that is
    not in [expand_keys] to the object it was bound to: the same string
    object, list or table; and as many arguments are returned as were given.
    The text of the string objects is not part of the statement: the call
    rewrites names, types, declarators, values and code in place. *)
Theorem template_expand_frame (st : Store) (n : XNode) (rname : String)
    (tparms : ParmList) (tscope : option Symtab) (w : W)
    (r : Z) (n' : XNode) (tparms' : ParmList) (w' : W) :
  Swig_cparse_template_expand st n rname tparms tscope w = Ret (r, n', tparms', w') ->
  extends w w' /\ same_but expand_keys n n' /\ length tparms' = length tparms.
Proof.
  unfold Swig_cparse_template_expand. intros E.
  apply bind_Ret in E as (tname & w1 & E1 & E).
  assert (extends w w1) as X1.
  { revert E1. generalize w tname w1. change (keeps (l <- need (Getattr (x_attrs n) "name") ;; read l)).
    keeps_auto. }
  apply bind_Ret in E as (tparms1 & w2 & E2 & E).
  assert (extends w1 w2 /\ length tparms1 = length tparms) as [X2 L2].
  { revert E2. destruct (Getattr (x_attrs n) "partialargs") as [pa|].
    - intros E2. apply bind_Ret in E2 as (s & w1' & [= <- <-] & E2).
      apply bind_Ret in E2 as (u & w1' & E2' & E2). injection E2 as <- <-.
      apply keeps_assert in E2'. split; [done|apply length_patch_partial_types].
    - intros [= <- <-]. split; [apply extends_refl|done]. }
  apply bind_Ret in E as (n1 & w3 & E3 & E).
  apply walker_frame in E3 as [X3 S3].
  apply bind_Ret in E as (iname & w4 & E4 & E). apply keeps_need in E4.
  apply bind_Ret in E as (u & w5 & E5 & E). apply keeps_Append_at in E5.
  apply bind_Ret in E as ([tparms2 tps] & w6 & E6 & E).
  assert (extends w5 w6 /\ length tparms2 = length tparms1) as [X6 L6].
  { revert E6. destruct tparms1 as [|p1 tparms1].
    - intros E6. apply bind_Ret in E6 as (tl & w5' & [= <- <-] & E6).
      apply bind_Ret in E6 as (u' & w5' & E6' & E6). injection E6 as <- <- <-.
      apply keeps_iterM in E6'; [done|intros s; apply keeps_patch_type_specialization].
    - destruct (Gettemplateparms (x_attrs n1)) as [|tp1 tps1] eqn:Etp.
      + intros E6. apply bind_Ret in E6 as (tl & w5' & [= <- <-] & E6).
        apply bind_Ret in E6 as (u' & w5' & E6' & E6). injection E6 as <- <- <-.
        apply keeps_iterM in E6'; [done|intros s; apply keeps_patch_type_specialization].
      + intros E6. by apply patch_all_frame in E6. }
  apply bind_Ret in E as (u7 & w7 & E7 & E). apply keeps_postprocess in E7.
  apply bind_Ret in E as (u8 & w8 & E8 & E).
  assert (extends w7 w8) as X8.
  { revert E8. generalize w7 u8 w8.
    match goal with |- forall w a w', ?m w = Ret (a, w') -> _ => change (keeps m) end.
    keeps_auto. }
  injection E as <- <- <- <-.
  split; [|split].
  - eapply extends_trans; [exact X1|]. eapply extends_trans; [exact X2|].
    eapply extends_trans; [exact X3|]. eapply extends_trans; [exact E4|].
    eapply extends_trans; [exact E5|]. eapply extends_trans; [exact X6|].
    eapply extends_trans; [exact E7|]. exact X8.
  - inversion S3 as [a a' cs cs' A S]; subst. simpl. constructor.
    + assert (agree expand_keys a a') as A'.
      { eapply agree_mono; [|exact A]. intros k Hk. by apply list_elem_of_further. }
      destruct tps; [done|]. eapply agree_trans; [exact A'|].
      apply agree_insert, list_elem_of_here.
    + clear -S. revert cs' S. induction cs as [|c cs IH]; intros cs' S;
        inversion S; subst; constructor; [|by apply IH].
      eapply same_but_mono; [|done]. intros k Hk. by apply list_elem_of_further.
  - congruence.
Qed.

End ExpandFrame.

Section Rewrites.
Context `{TypeOps} `{Symbols}.

Lemma rewrites_only_ret {A} (L : list loc) (a : A) : rewrites_only L (ret a).
Proof. intros w a' w' [= <- <-]. done. Qed.

Lemma rewrites_only_bind {A B} (L : list loc) (m : M A) (k : A -> M B) :
  rewrites_only L m -> (forall a, rewrites_only L (k a)) -> rewrites_only L (bind m k).
Proof.
  intros Hm Hk w b w' E. apply bind_Ret in E as (a & w1 & E1 & E2).
  apply Hm in E1 as [L1 F1]. apply Hk in E2 as [L2 F2]. split; [lia|].
  intros l Hl Hn. rewrite F2 by (done || lia). by apply F1.
Qed.

Lemma rewrites_only_ret_bind {A B} (L : list loc) (a : A) (k : A -> M B) :
  rewrites_only L (k a) -> rewrites_only L (bind (ret a) k).
Proof. intros Hk w b w' E. by apply (Hk w b w'). Qed.

Lemma rewrites_only_abort_bind {A B} (L : list loc) (k : A -> M B) :
  rewrites_only L (bind abort k).
Proof. by intros w b w'. Qed.

Lemma rewrites_only_mono {A} (L L' : list loc) (m : M A) :
  L ⊆ L' -> rewrites_only L m -> rewrites_only L' m.
Proof.
  intros HL Hm w a w' E. apply Hm in E as [L1 F1]. split; [done|].
  intros l Hl Hn. apply F1; [done|]. intros Hin. apply Hn. by apply HL.
Qed.

Lemma rewrites_only_abort {A} (L : list loc) : rewrites_only L (@abort A).
Proof. by intros w a w'. Qed.

Lemma rewrites_only_diverge {A} (L : list loc) : rewrites_only L (@diverge A).
Proof. by intros w a w'. Qed.

Lemma rewrites_only_assert (L : list loc) (b : bool) : rewrites_only L (assert_ b).
Proof. destruct b; [apply rewrites_only_ret|apply rewrites_only_abort]. Qed.

Lemma rewrites_only_need {A} (L : list loc) (o : option A) : rewrites_only L (need o).
Proof. destruct o; [apply rewrites_only_ret|apply rewrites_only_abort]. Qed.

Lemma rewrites_only_read (L : list loc) (l : loc) : rewrites_only L (read l).
Proof. intros w a w' [= <- <-]. done. Qed.

Lemma rewrites_only_read_opt (L : list loc) (o : option loc) : rewrites_only L (read_opt o).
Proof. intros w a w' [= <- <-]. done. Qed.

Lemma rewrites_only_write (L : list loc) (l : loc) (s : String) :
  l ∈ L -> rewrites_only L (write l s).
Proof.
  intros Hl w a w' [= <- <-]. cbn [strs]. split; [by rewrite length_insert|].
  intros l' Hl' Hn. apply Char_insert_ne. by intros ->.
Qed.

Lemma rewrites_only_alloc (L : list loc) (s : String) : rewrites_only L (alloc s).
Proof.
  intros w a w' [= <- <-]. cbn [strs]. split; [rewrite length_app; lia|].
  intros l Hl Hn. by apply Char_app_l.
Qed.

Lemma rewrites_only_Append_patchlist (L : list loc) (o : option loc) :
  rewrites_only L (Append_patchlist o).
Proof. intros w a w' [= <- <-]. done. Qed.

Lemma rewrites_only_Append_typelist (L : list loc) (o : option loc) :
  rewrites_only L (Append_typelist o).
Proof. intros w a w' [= <- <-]. done. Qed.

Lemma rewrites_only_Append_cpatchlist (L : list loc) (o : option loc) :
  rewrites_only L (Append_cpatchlist o).
Proof. intros w a w' [= <- <-]. done. Qed.

Lemma rewrites_only_get_expanded (L : list loc) : rewrites_only L get_expanded.
Proof. intros w a w' [= <- <-]. done. Qed.

Lemma rewrites_only_set_expanded (L : list loc) (b : bool) : rewrites_only L (set_expanded b).
Proof. intros w a w' [= <- <-]. done. Qed.

Lemma rewrites_only_foldM {A B} (L : list loc) (f : B -> A -> M B) (l : list A) :
  (forall b a, rewrites_only L (f b a)) -> forall b, rewrites_only L (foldM f b l).
Proof.
  intros Hf. induction l as [|a l IH]; intros b; cbn [foldM]; [apply rewrites_only_ret|].
  apply rewrites_only_bind; [apply Hf|apply IH].
Qed.

End Rewrites.

Create HintDb rewrites.

#[local] Hint Resolve rewrites_only_ret rewrites_only_abort rewrites_only_diverge
  rewrites_only_assert rewrites_only_need rewrites_only_read rewrites_only_read_opt
  rewrites_only_alloc rewrites_only_Append_patchlist rewrites_only_Append_typelist
  rewrites_only_Append_cpatchlist rewrites_only_get_expanded rewrites_only_set_expanded
  : rewrites.

Ltac rewrites_step :=
  lazymatch goal with
  | |- rewrites_only _ (bind abort _) => apply rewrites_only_abort_bind
  | |- rewrites_only _ (bind (need None) _) => apply rewrites_only_abort_bind
  | |- rewrites_only _ (bind (ret _) _) => apply rewrites_only_ret_bind; cbv beta
  | |- rewrites_only _ (bind (need (Some _)) _) => apply rewrites_only_ret_bind; cbv beta
  | |- rewrites_only _ (bind _ _) => apply rewrites_only_bind; [|intros ?]
  | |- rewrites_only _ (if ?b then _ else _) => destruct b
  | |- rewrites_only _ (match ?x with _ => _ end) => destruct x eqn:?
  | |- rewrites_only _ (foldM _ _ _) => apply rewrites_only_foldM; intros ? ?
  | |- rewrites_only _ _ => solve [auto with rewrites]
  end.

Ltac rewrites_auto := repeat rewrites_step.

Section WalkerRewrites.
Context `{TypeOps} `{Symbols}.

Lemma rewrites_only_alloc_opt (L : list loc) (s : option String) :
  rewrites_only L (alloc_opt s).
Proof. unfold alloc_opt. rewrites_auto. Qed.

Lemma rewrites_only_Copy (L : list loc) (o : option loc) : rewrites_only L (Copy o).
Proof. unfold Copy. rewrites_auto. apply rewrites_only_alloc_opt. Qed.

Lemma rewrites_only_add_parms (L : list loc) (p : list XParm)
    (Append_patch Append_type : option loc -> M unit) (is_pattern : bool) :
  (forall o, rewrites_only L (Append_patch o)) -> (forall o, rewrites_only L (Append_type o)) ->
  rewrites_only L (add_parms p Append_patch Append_type is_pattern).
Proof.
  intros Hp Ht. induction p as [|q p IH]; cbn [add_parms]; [apply rewrites_only_ret|].
  repeat (apply rewrites_only_bind; [|intros ?]); try done.
  destruct is_pattern; [done|apply rewrites_only_ret].
Qed.

Lemma rewrites_only_expand_one (L : list loc) (type : String) (unexpanded_name : option String)
    (ep : Parm) :
  rewrites_only L (expand_one type unexpanded_name ep).
Proof.
  unfold expand_one.
  apply rewrites_only_bind; [apply rewrites_only_alloc_opt|intros v].
  apply rewrites_only_bind; [apply rewrites_only_alloc_opt|intros nm]. rewrites_auto.
Qed.

Lemma rewrites_only_expand_variadic_parms (L : list loc) (a : Attrs) (attribute : string)
    (uvp : option Parm) (evp : ParmList) :
  rewrites_only L (expand_variadic_parms a attribute uvp evp).
Proof.
  unfold expand_variadic_parms. destruct uvp as [u|]; [|apply rewrites_only_ret].
  intros w a' w'. destruct (XParmList_variadic_parm _ _) as [v|]; [|apply rewrites_only_ret].
  revert w a' w'.
  change (rewrites_only L (type <- (l <- need (xp_type v) ;; read l) ;;
             expanded <- foldM (fun acc ep =>
                                  x <- expand_one type (parm_name u) ep ;; ret (acc ++ [x]))
                               [] evp ;;
             ret (Setparms a attribute (ParmList_replace_last (Getparms a attribute) expanded)))).
  rewrites_auto. apply rewrites_only_expand_one.
Qed.

Lemma rewrites_only_expand_parms (L : list loc) (a : Attrs) (attribute : string)
    (uvp : option Parm) (evp : ParmList) (is_pattern : bool) :
  rewrites_only L
    (expand_parms a attribute uvp evp Append_cpatchlist Append_typelist is_pattern).
Proof.
  unfold expand_parms.
  apply rewrites_only_bind; [apply rewrites_only_expand_variadic_parms|intros a'].
  apply rewrites_only_bind; [|intros ?; apply rewrites_only_ret].
  apply rewrites_only_add_parms; intros o; auto with rewrites.
Qed.

Lemma rewrites_only_checkAttribute (L : list loc) (a : Attrs) (k lit : string) :
  rewrites_only L (checkAttribute a k lit).
Proof. unfold checkAttribute. rewrites_auto. Qed.

Lemma rewrites_only_Replaceid_at (L : list loc) (l : loc) (token rep : String) :
  l ∈ L -> rewrites_only L (Replaceid_at l token rep).
Proof. intros Hl. unfold Replaceid_at. rewrites_auto. by apply rewrites_only_write. Qed.

Lemma rewrites_only_Replace_any_at (L : list loc) (l : loc) (token rep : String) :
  l ∈ L -> rewrites_only L (Replace_any_at l token rep).
Proof. intros Hl. unfold Replace_any_at. rewrites_auto. by apply rewrites_only_write. Qed.

Lemma rewrites_only_Append_at (L : list loc) (l : loc) (x : String) :
  l ∈ L -> rewrites_only L (Append_at l x).
Proof. intros Hl. unfold Append_at. rewrites_auto. by apply rewrites_only_write. Qed.

#[local] Hint Resolve rewrites_only_alloc_opt rewrites_only_Copy rewrites_only_expand_parms
  rewrites_only_checkAttribute rewrites_only_expand_variadic_parms : rewrites.

(** The branches on a [cdecl], a [using] and another node, and the patching
    of the base classes, rewrite no string. *)
Lemma rewrites_only_expand_cdecl (L : list loc) (a : Attrs) (uvp : option Parm)
    (evp : ParmList) :
  rewrites_only L (expand_cdecl a uvp evp).
Proof. unfold expand_cdecl. rewrites_auto. Qed.

Lemma rewrites_only_expand_using (L : list loc) (a : Attrs) : rewrites_only L (expand_using a).
Proof. unfold expand_using. rewrites_auto. Qed.

Lemma rewrites_only_expand_other (L : list loc) (a : Attrs) (uvp : option Parm)
    (evp : ParmList) :
  rewrites_only L (expand_other a uvp evp).
Proof. unfold expand_other. rewrites_auto. Qed.

Lemma rewrites_only_patch_bases (L : list loc) (uvp : option Parm) (evp : ParmList)
    (ilen k : nat) :
  forall bases, rewrites_only L (patch_bases uvp evp ilen k bases).
Proof.
  induction k as [|k IH]; intros bases; cbn [patch_bases]; [apply rewrites_only_ret|].
  rewrites_auto; apply IH.
Qed.

Lemma rewrites_only_expand_class_bases (L : list loc) (a : Attrs) (uvp : option Parm)
    (evp : ParmList) :
  rewrites_only L (expand_class_bases a uvp evp).
Proof. unfold expand_class_bases. rewrites_auto. apply rewrites_only_patch_bases. Qed.

(** The branches on a [constructor] and on a [destructor] rewrite the name
    and the symbol name of the node. *)
Lemma rewrites_only_expand_constructor (L : list loc) (a : Attrs)
    (tname rname templateargs : String) (uvp : option Parm) (evp : ParmList) :
  (forall l, Getattr a "name" = Some l -> l ∈ L) ->
  (forall l, Getattr a "sym:name" = Some l -> l ∈ L) ->
  rewrites_only L (expand_constructor a tname rname templateargs uvp evp).
Proof.
  intros Hn Hs. unfold expand_constructor.
  destruct (Getattr a "name") as [nl|] eqn:En; destruct (Getattr a "sym:name") as [sl|] eqn:Es;
    cbn [need]; rewrites_auto;
    first [ apply rewrites_only_Replaceid_at | apply rewrites_only_Append_at
          | apply rewrites_only_write | apply rewrites_only_Replace_any_at ];
    auto.
Qed.

Lemma rewrites_only_expand_destructor (L : list loc) (a : Attrs) (is_dtor : bool)
    (tname rname templateargs : String) :
  (forall l, Getattr a "name" = Some l -> l ∈ L) ->
  (forall l, Getattr a "sym:name" = Some l -> l ∈ L) ->
  rewrites_only L (expand_destructor a is_dtor tname rname templateargs).
Proof.
  intros Hn Hs. unfold expand_destructor.
  destruct (Getattr a "name") as [nl|] eqn:En; destruct (Getattr a "sym:name") as [sl|] eqn:Es;
    rewrites_auto;
    first [ apply rewrites_only_Replaceid_at | apply rewrites_only_Append_at
          | apply rewrites_only_write | apply rewrites_only_Replace_any_at ];
    auto.
Qed.

Lemma visit_with_rewrites (L : list loc) (f : XNode -> M XNode) (cs : list XNode) :
  Forall (fun c => rewrites_only L (f c)) cs -> rewrites_only L (visit_with f cs).
Proof.
  induction 1 as [|c cs Hc Hcs IH]; cbn [visit_with]; [apply rewrites_only_ret|].
  apply rewrites_only_bind; [done|intros c'].
  apply rewrites_only_bind; [exact IH|intros cs']. apply rewrites_only_ret.
Qed.

Lemma node_branches_rewrites (L : list loc)
    (visit_children : option String -> M (list XNode))
    (anc : list (option String)) (children : list XNode)
    (tname rname templateargs : String) (uvp : option Parm) (evp : ParmList)
    (a : Attrs) (nodeType_ : option String) :
  (forall nt, rewrites_only L (visit_children nt)) ->
  (forall l, Getattr a "name" = Some l -> l ∈ L) ->
  (forall l, Getattr a "sym:name" = Some l -> l ∈ L) ->
  rewrites_only L
    (node_branches visit_children anc children tname rname templateargs uvp evp a nodeType_).
Proof.
  intros Hv Hn Hs. unfold node_branches.
  destruct (Equal_lit nodeType_ "cdecl").
  { apply rewrites_only_bind; [apply rewrites_only_expand_cdecl|intros ?].
    apply rewrites_only_ret. }
  destruct (Equal_lit nodeType_ "class").
  { apply rewrites_only_bind; [apply rewrites_only_expand_class_bases|intros ?].
    apply rewrites_only_bind; [apply Hv|intros ?; apply rewrites_only_ret]. }
  destruct (Equal_lit nodeType_ "constructor").
  { apply rewrites_only_bind; [by apply rewrites_only_expand_constructor|intros ?].
    apply rewrites_only_ret. }
  destruct (Equal_lit nodeType_ "destructor").
  { apply rewrites_only_bind; [by apply rewrites_only_expand_destructor|intros ?].
    apply rewrites_only_ret. }
  destruct (Equal_lit nodeType_ "using").
  { apply rewrites_only_bind; [apply rewrites_only_expand_using|intros ?].
    apply rewrites_only_ret. }
  apply rewrites_only_bind; [apply rewrites_only_expand_other|intros ?].
  apply rewrites_only_bind; [apply Hv|intros ?; apply rewrites_only_ret].
Qed.

Lemma Getattr_Setattr_ne (a : Attrs) (k k' : string) (v : option loc) :
  k' <> k -> Getattr (Setattr a k v) k' = Getattr a k'.
Proof.
  intros Hne. unfold Getattr, Setattr.
  destruct v; [by rewrite lookup_insert_ne|by rewrite lookup_delete_ne].
Qed.

(** The walk rewrites the names and the symbol names of the nodes of the
    tree, and no other string that existed. *)
Lemma walker_rewrites (n : XNode) :
  forall anc tname rname templateargs uvp evp,
    rewrites_only (name_locs n)
      (cparse_template_expand anc n tname rname templateargs uvp evp).
Proof.
  induction n as [a cs IH] using XNode_children_ind.
  intros anc tname rname templateargs uvp evp.
  rewrite cparse_template_expand_unfold. cbv zeta.
  set (L := name_locs (mkXNode a cs)).
  assert (forall l, Getattr a "name" = Some l -> l ∈ L) as Hn.
  { intros l El. unfold L. cbn [name_locs]. rewrite El. apply elem_of_app. left. by left. }
  assert (forall l, Getattr a "sym:name" = Some l -> l ∈ L) as Hs.
  { intros l El. unfold L. cbn [name_locs]. rewrite El. apply elem_of_app. right.
    apply elem_of_app. left. by left. }
  assert (forall anc', rewrites_only L
            (visit_with (fun cn => cparse_template_expand anc' cn tname rname templateargs
                                     uvp evp) cs)) as Hv.
  { intros anc'. apply visit_with_rewrites. rewrite Forall_forall in IH.
    apply Forall_forall. intros c Hc. eapply rewrites_only_mono; [|by apply IH].
    intros l Hl. unfold L. cbn [name_locs]. apply elem_of_app. right. apply elem_of_app. right.
    apply list_elem_of_In, in_flat_map. exists c. split; by apply list_elem_of_In. }
  destruct (has_attr a "error"); [apply rewrites_only_ret|].
  apply rewrites_only_bind; [apply rewrites_only_read_opt|intros nt].
  destruct (Equal_lit nt "template").
  2:{ apply node_branches_rewrites; [intros nt'; apply Hv|done..]. }
  cbv zeta.
  assert (forall nt', rewrites_only L
            (node_branches
               (fun nodeType_0 => visit_with (fun cn => cparse_template_expand
                   (nodeType_0 :: anc) cn tname rname templateargs uvp evp) cs)
               anc cs tname rname templateargs uvp evp
               (Setattr a "nodeType" (Getattr a "templatetype")) nt')) as Hbr.
  { intros nt'. apply node_branches_rewrites; [intros nt''; apply Hv| |].
    - intros l. rewrite Getattr_Setattr_ne by done. apply Hn.
    - intros l. rewrite Getattr_Setattr_ne by done. apply Hs. }
  rewrites_auto.
Qed.

End WalkerRewrites.

Section WalkerTheorems.
Context `{TypeOps} `{Symbols}.

(** X12.  [cparse_template_expand] appends to the three patch lists and removes
    or reorders nothing in them; it deletes no string object; it leaves the
    static flag [expanded] as it found it; the tree it returns has the shape
    of the tree it was given, and each of its nodes binds every key that is
    not in [walker_keys] to the object it was bound to: the same string
    object, list or table; and the text of a string object that existed is
    what it was, unless the object is the name or the symbol name of a node
    of the tree: the walk rewrites the names of constructors and destructors
    in place. *)
Theorem template_walk_frame (n : XNode) (anc : list (option String))
    (tname rname templateargs : String) (uvp : option Parm) (evp : ParmList)
    (w : W) (n' : XNode) (w' : W) :
  cparse_template_expand anc n tname rname templateargs uvp evp w = Ret (n', w') ->
  extends w w' /\ same_but walker_keys n n' /\
  forall l, (l < length (strs w))%nat -> l ∉ name_locs n ->
            Char (strs w') l = Char (strs w) l.
Proof.
  intros E. destruct (walker_frame _ _ _ _ _ _ _ _ _ _ E) as [X S].
  split; [exact X|]. split; [exact S|].
  by destruct (walker_rewrites _ _ _ _ _ _ _ _ _ _ E) as [_ F].
Qed.

Lemma nodeType_not_branch_key : "nodeType"%string ∉ branch_keys.
Proof.
  intros Hin. unfold branch_keys in Hin.
  repeat (apply elem_of_cons in Hin as [?|Hin]; [done|]). by apply elem_of_nil in Hin.
Qed.

Lemma Getattr_Setattr (a : Attrs) (k : string) (v : option loc) :
  Getattr (Setattr a k v) k = v.
Proof.
  unfold Getattr, Setattr. destruct v; [by rewrite lookup_insert_eq|by rewrite lookup_delete_eq].
Qed.

(** X13.  A [template] node that is expanded.  The root of the expansion, which
    is visited while [expanded] is 0, is left with the node type of its
    [templatetype]; a template inside it, which is visited while [expanded]
    is set, is a [template] again afterwards: its node type is a new string
    "template". *)
Theorem template_node_type_after_walk (anc : list (option String)) (a : Attrs)
    (cs : list XNode) (tname rname templateargs : String) (uvp : option Parm)
    (evp : ParmList) (w : W) (n' : XNode) (w' : W) :
  has_attr a "error" = false ->
  Equal_lit (Char_opt (strs w) (Getattr a "nodeType")) "template" = true ->
  cparse_template_expand anc (mkXNode a cs) tname rname templateargs uvp evp w
  = Ret (n', w') ->
  if expanded w then
    exists l, Getattr (x_attrs n') "nodeType" = Some l /\
              Char (strs w') l = str "template" /\
              (length (strs w) <= l)%nat
  else
    Getattr (x_attrs n') "nodeType" = Getattr a "templatetype".
Proof.
  intros Herr Ht. rewrite cparse_template_expand_unfold. cbv zeta. rewrite Herr.
  intros E. apply bind_Ret in E as (nt & w1 & [= <- <-] & E). rewrite Ht in E.
  apply bind_Ret in E as (nt1 & w1 & [= <- <-] & E).
  destruct (Equal_lit (Char_opt (strs w)
                         (Getattr (Setattr a "nodeType" (Getattr a "templatetype"))
                                  "nodeType")) "template"); [discriminate E|].
  apply bind_Ret in E as (e & w1 & [= <- <-] & E).
  assert (forall nt w cs' w',
            visit_with (fun cn => cparse_template_expand (nt :: anc) cn tname rname
                                    templateargs uvp evp) cs w = Ret (cs', w') ->
            extends w w' /\ Forall2 (same_but walker_keys) cs cs') as Hv.
  { intros nt. apply visit_with_frame. apply Forall_forall. intros cn _ w0 n0 w0'.
    apply walker_frame. }
  destruct (expanded w) eqn:Ee; cbn [negb] in E.
  - apply bind_Ret in E as (n1 & w1 & E1 & E).
    apply bind_Ret in E as (l & w2 & [= <- <-] & E). injection E as <- <-.
    eapply node_branches_frame in E1 as (X1 & a' & cs' & -> & A & S); [|exact Hv].
    exists (length (strs w1)). cbn [x_attrs strs].
    split; [apply (Getattr_Setattr a' "nodeType" (Some (length (strs w1))))|].
    split; [apply Char_app_new|]. by destruct X1 as (_ & _ & _ & _ & ?).
  - apply bind_Ret in E as (u & w1 & [= <- <-] & E).
    apply bind_Ret in E as (n1 & w2 & E1 & E).
    apply bind_Ret in E as (u' & w3 & [= <- <-] & E). injection E as <- <-.
    eapply node_branches_frame in E1 as (X1 & a' & cs' & -> & A & S); [|exact Hv].
    cbn [x_attrs]. unfold Getattr at 1. rewrite (A "nodeType"%string nodeType_not_branch_key).
    apply Getattr_Setattr.
Qed.

End WalkerTheorems.

(** The walk over [template<class T> struct Box { T x; Box(const T& v); }]:
    the root becomes a [class], and [expanded] is 0 again. *)
Lemma template_walk_frame_witness :
  match @cparse_template_expand Demo.type_ops [] Demo.box_tree (str "Box") (str "IntBox")
          (str "<(int)>") None [] (mkW Demo.box_strs [] [] [] false) with
  | Ret (n', w') =>
      expanded w' = false /\ (length Demo.box_strs <= length (strs w'))%nat /\
      Char (strs w') 11%nat = str "r.q(const).T"
  | _ => False
  end.
Proof.
  destruct (@cparse_template_expand Demo.type_ops [] Demo.box_tree (str "Box") (str "IntBox")
              (str "<(int)>") None [] (mkW Demo.box_strs [] [] [] false))
    as [[n' w']| |] eqn:E.
  - destruct (template_walk_frame _ _ _ _ _ _ _ _ _ _ E) as [(X1 & _ & _ & _ & X5) [_ F]].
    split; [exact X1|]. split; [exact X5|]. apply (F 11%nat); [simpl; lia|].
    apply (bool_decide_unpack _). vm_compute. reflexivity.
  - vm_compute in E. discriminate.
  - vm_compute in E. discriminate.
Defined.

Lemma template_node_type_after_walk_witness :
  match @cparse_template_expand Demo.type_ops [] Demo.box_tree (str "Box") (str "IntBox")
          (str "<(int)>") None [] (mkW Demo.box_strs [] [] [] false) with
  | Ret (n', w') => Char_opt (strs w') (Getattr (x_attrs n') "nodeType") = Some (str "class")
  | _ => False
  end.
Proof.
  destruct (@cparse_template_expand Demo.type_ops [] Demo.box_tree (str "Box") (str "IntBox")
              (str "<(int)>") None [] (mkW Demo.box_strs [] [] [] false))
    as [[n' w']| |] eqn:E.
  - pose proof (@template_node_type_after_walk Demo.type_ops [] (x_attrs Demo.box_tree)
                  (x_children Demo.box_tree) (str "Box") (str "IntBox") (str "<(int)>")
                  None [] (mkW Demo.box_strs [] [] [] false) n' w' eq_refl eq_refl E) as W.
    cbn [expanded] in W. rewrite W. vm_compute in E. injection E as <- <-. reflexivity.
  - vm_compute in E. discriminate.
  - vm_compute in E. discriminate.
Defined.

Lemma template_expand_frame_witness :
  match @Swig_cparse_template_expand Demo.type_ops (Demo.table_symbols [])
          (fun _ => Demo.no_node) Demo.box_tree (str "IntBox") Demo.box_int None
          (mkW Demo.box_strs [] [] [] false) with
  | Ret (r, n', tparms', w') => expanded w' = false /\ length tparms' = 1%nat
  | _ => False
  end.
Proof.
  destruct (@Swig_cparse_template_expand Demo.type_ops (Demo.table_symbols [])
              (fun _ => Demo.no_node) Demo.box_tree (str "IntBox") Demo.box_int None
              (mkW Demo.box_strs [] [] [] false))
    as [[[[r n'] tp'] w']| |] eqn:E.
  - destruct (template_expand_frame _ _ _ _ _ _ _ _ _ _ E) as ((X1 & _) & _ & L).
    split; [exact X1|exact L].
  - vm_compute in E. discriminate.
  - vm_compute in E. discriminate.
Defined.

(** ** The declarator of a function *)

Section FixDecl.
Context `{TypeOps} `{Symbols}.

(** The loop that takes the trailing qualifiers and arrays off a prefix
    ends, when each last element that [SwigType_last] gives is a part of the
    string, and not empty; what is left is the start of the prefix, and its
    last element is neither a qualifier nor an array. *)
Lemma strip_qualifiers_spec :
  (forall p l, SwigType_last p = Some l -> (0 < length l <= length p)%nat) ->
  forall fuel p, (length p < fuel)%nat ->
    exists moved, strip_qualifiers fuel p = Some moved /\ moved `prefix_of` p /\
      forall l, SwigType_last moved = Some l ->
                SwigType_isqualifier l || SwigType_isarray l = false.
Proof.
  intros Hlast. induction fuel as [|fuel IH]; intros p Hp; [lia|].
  cbn [strip_qualifiers]. destruct (SwigType_last p) as [l|] eqn:El.
  - destruct (SwigType_isqualifier l || SwigType_isarray l) eqn:Eq.
    + destruct (Hlast p l El) as [Hl1 Hl2].
      destruct (IH (take (length p - length l) p)) as (moved & E & Hpre & Hm).
      { rewrite length_take. lia. }
      exists moved. split; [done|]. split; [|done].
      etrans; [exact Hpre|]. apply prefix_take.
    + exists p. split; [done|]. split; [done|]. intros l' El'. congruence.
  - exists p. split; [done|]. split; [done|]. intros l' El'. congruence.
Qed.


(** X16.  The expansion of a partial specialization stops at the assertion when
    the list of its partial arguments is not as long as the list of the
    template arguments. *)
Theorem template_expand_partialargs_mismatch (st : Store) (n : XNode) (rname : String)
    (tparms : ParmList) (tscope : option Symtab) (w : W) (partialargs : loc) :
  Getattr (x_attrs n) "partialargs" = Some partialargs ->
  length (SwigType_function_parms (Char (strs w) partialargs)) <> length tparms ->
  Swig_cparse_template_expand st n rname tparms tscope w = Abort.
Proof.
  intros Hpa Hlen. unfold Swig_cparse_template_expand. rewrite Hpa.
  unfold bind at 1.
  destruct (Getattr (x_attrs n) "name") as [nm|]; [|done]. cbn [need bind ret read].
  unfold bind, read, ret. cbn [strs].
  rewrite (proj2 (Z.eqb_neq _ _)); [done|].
  unfold ParmList_len. rewrite length_patch_partial_types. lia.
Qed.

End FixDecl.

Lemma split_elements_concat (c : String) : forall cur depth,
  concat (DemoDecl.split_elements c cur depth) = cur ++ c.
Proof.
  induction c as [|ch c IH]; intros cur depth; cbn [DemoDecl.split_elements].
  - destruct cur; simpl; by rewrite ?app_nil_r.
  - destruct (_ && _); [|by rewrite IH, <- app_assoc].
    cbn [concat]. by rewrite IH, <- app_assoc.
Qed.

Lemma split_elements_nonempty (c : String) : forall cur depth,
  Forall (fun e => e <> []) (DemoDecl.split_elements c cur depth).
Proof.
  induction c as [|ch c IH]; intros cur depth; cbn [DemoDecl.split_elements].
  - destruct cur; repeat constructor; done.
  - destruct (_ && _); [|apply IH]. constructor; [by destruct cur|apply IH].
Qed.

Lemma last_element_length (p l : String) :
  DemoDecl.last_element p = Some l -> (0 < length l <= length p)%nat.
Proof.
  unfold DemoDecl.last_element. intros El. apply last_Some in El as [es Ees].
  pose proof (split_elements_concat p [] 0) as Ec.
  pose proof (split_elements_nonempty p [] 0) as Hne.
  rewrite Ees in Ec, Hne. apply Forall_app in Hne as [_ Hl]. apply Forall_inv in Hl.
  rewrite concat_app in Ec. simpl in Ec. rewrite app_nil_r in Ec.
  apply (f_equal length) in Ec. rewrite length_app in Ec.
  destruct l; [done|]. simpl in *. lia.
Qed.


(** The examples of the source: [decl="f().", type="p.q(const).char"]
    gives [decl="f().p.", type="q(const).char"]; [decl="f().p.",
    type="p.SomeClass"] gives [decl="f().p.p.", type="SomeClass"]; and
    [decl="f().", type="r.q(const).p.int"] gives [decl="f().r.q(const).p.",
    type="int"]. *)
Example fix_function_decl_examples :
  @cparse_fix_function_decl DemoDecl.type_ops 0%nat 1%nat
    (mkW [str "f()."; str "p.q(const).char"] [] [] [] false)
  = Ret (tt, mkW [str "f().p."; str "q(const).char"] [] [] [] false) /\
  @cparse_fix_function_decl DemoDecl.type_ops 0%nat 1%nat
    (mkW [str "f().p."; str "p.SomeClass"] [] [] [] false)
  = Ret (tt, mkW [str "f().p.p."; str "SomeClass"] [] [] [] false) /\
  @cparse_fix_function_decl DemoDecl.type_ops 0%nat 1%nat
    (mkW [str "f()."; str "r.q(const).p.int"] [] [] [] false)
  = Ret (tt, mkW [str "f().r.q(const).p."; str "int"] [] [] [] false).
Proof. repeat split; vm_compute; reflexivity. Qed.

(** A partial specialization with two template arguments whose partial
    arguments are read as none. *)
Lemma template_expand_partialargs_mismatch_witness :
  @Swig_cparse_template_expand Demo.type_ops (Demo.table_symbols [])
    (fun _ => Demo.no_node)
    (mkXNode (list_to_map [("name", AStr 0%nat); ("partialargs", AStr 1%nat)]%string) [])
    (str "XI") [Demo.targ "int"] None
    (mkW [str "X"; str "f(p.$1)."] [] [] [] false)
  = Abort.
Proof.
  apply (@template_expand_partialargs_mismatch Demo.type_ops (Demo.table_symbols [])
           (fun _ => Demo.no_node) _ (str "XI") [Demo.targ "int"] None _ 1%nat).
  - reflexivity.
  - simpl. lia.
Defined.

(** ** The bases of a class *)

Section VariadicBase.
Context `{TypeOps} `{Symbols}.

Lemma patch_bases_variadic_abort (uvp : option Parm) (evp : ParmList) (ilen i : nat)
    (item : loc) :
  (i < ilen - 1)%nat ->
  forall (k : nat) (bases : list loc) (w : W),
    length bases = ilen -> (ilen - k <= i)%nat -> (k <= ilen)%nat ->
    bases !! i = Some item -> (item < length (strs w))%nat ->
    SwigType_isvariadic (Some (Char (strs w) item)) = true ->
    (forall j l, (ilen - k <= j < i)%nat -> bases !! j = Some l ->
       (l < length (strs w))%nat /\ SwigType_isvariadic (Some (Char (strs w) l)) = false) ->
    patch_bases uvp evp ilen k bases w = Abort.
Proof.
  intros Hi. induction k as [|k IH]; intros bases w Hlen Hk Hk' Hitem Halloc Hv Hbefore;
    [lia|].
  cbn [patch_bases]. cbv zeta.
  destruct (decide (ilen - S k = i)%nat) as [Ep|Hp].
  - rewrite Ep, Hitem. unfold bind, need, ret, read, alloc. cbn [strs].
    rewrite Hv. cbn [strs]. rewrite bool_decide_eq_false_2 by lia. done.
  - destruct (lookup_lt_is_Some_2 bases (ilen - S k)) as [l Hl]; [lia|].
    destruct (Hbefore (ilen - S k)%nat l) as [Hl1 Hl2]; [lia|done|].
    rewrite Hl. unfold bind at 1. unfold need, ret. unfold bind at 1. unfold read.
    unfold bind at 1. unfold alloc. cbn [strs]. rewrite Hl2.
    unfold bind at 1. unfold Append_typelist.
    apply IH.
    + by rewrite length_insert.
    + lia.
    + lia.
    + rewrite list_lookup_insert_ne by lia. done.
    + cbn [strs]. rewrite length_app. lia.
    + cbn [strs]. by rewrite Char_app_l.
    + intros j l' Hj Hl'. rewrite list_lookup_insert_ne in Hl' by lia.
      destruct (Hbefore j l') as [A B]; [lia|done|].
      cbn [strs]. rewrite length_app, Char_app_l by done. split; [lia|done].
Qed.

(** X17.  A variadic base class must be the last base: when a list of bases holds
    a variadic type before its last place, and the bases before it are not
    variadic, the patching of the list stops at the assertion. *)
Theorem variadic_base_not_last (uvp : option Parm) (evp : ParmList) (bases : list loc)
    (w : W) (i : nat) (item : loc) :
  Forall (fun l => (l < length (strs w))%nat) bases ->
  bases !! i = Some item ->
  (i < length bases - 1)%nat ->
  SwigType_isvariadic (Some (Char (strs w) item)) = true ->
  (forall j l, (j < i)%nat -> bases !! j = Some l ->
     SwigType_isvariadic (Some (Char (strs w) l)) = false) ->
  patch_bases uvp evp (length bases) (length bases) bases w = Abort.
Proof.
  intros Hall Hitem Hi Hv Hbefore. rewrite Forall_lookup in Hall.
  apply (patch_bases_variadic_abort uvp evp (length bases) i item Hi); try done.
  - lia.
  - by eapply Hall.
  - intros j l Hj Hl. split; [by eapply Hall|]. apply (Hbefore j l); [lia|done].
Qed.

Lemma patch_bases_copy_loop (uvp : option Parm) (evp : ParmList) (ilen : nat) :
  forall (k : nat) (seen rest : list loc) (w : W),
    length rest = k -> length (seen ++ rest) = ilen ->
    Forall (fun l => (l < length (strs w))%nat /\
                     SwigType_isvariadic (Some (Char (strs w) l)) = false) rest ->
    patch_bases uvp evp ilen k (seen ++ rest) w
    = Ret (seen ++ seq (length (strs w)) k,
           mkW (strs w ++ map (Char (strs w)) rest) (patchlist w)
               (typelist w ++ seq (length (strs w)) k) (cpatchlist w) (expanded w)).
Proof.
  induction k as [|k IH]; intros seen rest w Hk Hlen Hrest.
  - destruct rest; [|done]. cbn [patch_bases seq map]. rewrite !app_nil_r. by destruct w.
  - destruct rest as [|l rest]; [done|]. simpl in Hk.
    apply Forall_cons in Hrest as [[Hl Hv] Hrest].
    cbn [patch_bases]. cbv zeta.
    assert (ilen - S k = length seen)%nat as Ei.
    { rewrite length_app in Hlen. simpl in Hlen. lia. }
    rewrite Ei. rewrite (lookup_app_r seen (l :: rest) (length seen)) by done.
    rewrite Nat.sub_diag. cbn [lookup list_lookup].
    unfold bind at 1. unfold need, ret. unfold bind at 1. unfold read.
    unfold bind at 1. unfold alloc. cbn [strs]. rewrite Hv.
    unfold bind at 1. unfold Append_typelist. cbn [strs patchlist typelist cpatchlist expanded
      Append_item].
    replace (<[length seen := length (strs w)]> (seen ++ l :: rest))
      with ((seen ++ [length (strs w)]) ++ rest).
    2:{ rewrite (insert_app_r_alt seen (l :: rest) (length seen)) by done.
        rewrite Nat.sub_diag. cbn [insert list_insert]. by rewrite <- app_assoc. }
    rewrite IH.
    + cbn [strs patchlist typelist cpatchlist expanded]. rewrite length_app. cbn [length].
      rewrite <- !app_assoc. cbn [app map seq].
      replace (length (strs w) + 1)%nat with (S (length (strs w))) by lia.
      do 3 f_equal. f_equal. f_equal.
      apply map_ext_Forall. eapply Forall_impl; [exact Hrest|].
      intros l' [Hl' _]. cbn beta. by apply Char_app_l.
    + lia.
    + rewrite !length_app in *. simpl in *. lia.
    + eapply Forall_impl; [exact Hrest|]. intros l' [Hl' Hv']. cbn [strs].
      rewrite length_app, Char_app_l by done. split; [lia|done].
Qed.

(** X18.  The bases of a class that are not variadic are not patched in place:
    each is replaced in the list by a copy, and the copies are what the
    list of types to patch receives.  The strings that the list held are
    left as they are. *)
Theorem patch_bases_copies (uvp : option Parm) (evp : ParmList) (bases : list loc) (w : W) :
  Forall (fun l => (l < length (strs w))%nat /\
                   SwigType_isvariadic (Some (Char (strs w) l)) = false) bases ->
  let copies := seq (length (strs w)) (length bases) in
  exists w',
    patch_bases uvp evp (length bases) (length bases) bases w = Ret (copies, w') /\
    typelist w' = typelist w ++ copies /\
    map (Char (strs w')) copies = map (Char (strs w)) bases /\
    (forall l, (l < length (strs w))%nat -> Char (strs w') l = Char (strs w) l) /\
    patchlist w' = patchlist w /\ cpatchlist w' = cpatchlist w.
Proof.
  intros Hall copies.
  pose proof (patch_bases_copy_loop uvp evp (length bases) (length bases) [] bases w
                eq_refl eq_refl Hall) as E.
  cbn [app] in E. eexists. split; [exact E|]. cbn [strs patchlist typelist cpatchlist].
  split; [done|]. split; [|split; [|done]].
  - subst copies. apply list_eq. intros j.
    rewrite !list_lookup_fmap. destruct (decide (j < length bases)%nat) as [Hj|Hj].
    + rewrite lookup_seq_lt by done. cbn [fmap option_fmap option_map].
      destruct (lookup_lt_is_Some_2 bases j Hj) as [l Hl]. rewrite Hl. cbn. f_equal.
      unfold Char. rewrite lookup_total_app_r by lia.
      replace (length (strs w) + j - length (strs w))%nat with j by lia.
      apply list_lookup_total_correct. by rewrite list_lookup_fmap, Hl.
    + rewrite lookup_seq_ge by lia. by rewrite lookup_ge_None_2 by lia.
  - intros l Hl. by apply Char_app_l.
Qed.

End VariadicBase.

(** [template<typename... T> struct X : T..., B]: the bases [v.T] and [B]. *)
Lemma variadic_base_not_last_witness :
  patch_bases None [] 2 2 [0; 1]%nat (mkW [str "v.T"; str "B"] [] [] [] false)
  = Abort.
Proof.
  apply (variadic_base_not_last None [] [0; 1]%nat
           (mkW [str "v.T"; str "B"] [] [] [] false) 0%nat 0%nat).
  - repeat constructor; simpl; lia.
  - reflexivity.
  - simpl. lia.
  - reflexivity.
  - intros j l Hj. lia.
Defined.

(** [struct D : A, B]: the two bases are copied. *)
Lemma patch_bases_copies_witness :
  exists w',
    patch_bases None [] 2 2 [0; 1]%nat (mkW [str "A"; str "B"] [] [] [] false)
    = Ret ([2; 3]%nat, w') /\
    typelist w' = [2; 3]%nat.
Proof.
  destruct (patch_bases_copies None [] [0; 1]%nat (mkW [str "A"; str "B"] [] [] [] false))
    as (w' & E & Ht & _).
  - repeat constructor; simpl; lia.
  - exists w'. split; [exact E|exact Ht].
Defined.

(** * The expansion as a whole *)

(** ** C6: the assertion on the types *)

Section Registered.
Context `{TypeOps} `{Symbols}.

Lemma registered_mono (tl tl' : list loc) (p : list XParm) :
  tl `prefix_of` tl' -> registered tl p -> registered tl' p.
Proof.
  intros [k ->] Hp. eapply Forall_impl; [exact Hp|]. intros q Hq l Hl.
  apply elem_of_app. left. by apply Hq.
Qed.

Lemma lists_registered_refl (tl : list loc) (a : Attrs) : lists_registered tl a a.
Proof. by intros k Hk. Qed.

Lemma lists_registered_trans (tl : list loc) (a1 a2 a3 : Attrs) :
  lists_registered tl a1 a2 -> lists_registered tl a2 a3 -> lists_registered tl a1 a3.
Proof.
  intros A B k Hk. destruct (decide (Getparms a3 k = Getparms a2 k)) as [E|E].
  - rewrite E. apply A. by rewrite <- E.
  - by apply B.
Qed.

Lemma lists_registered_mono (tl tl' : list loc) (a a' : Attrs) :
  tl `prefix_of` tl' -> lists_registered tl a a' -> lists_registered tl' a a'.
Proof. intros Hp A k Hk. eapply registered_mono; [done|by apply A]. Qed.

Lemma lists_registered_Setattr (tl : list loc) (a : Attrs) (k : string) (v : option loc) :
  lists_registered tl a (Setattr a k v).
Proof.
  intros k' Hk'. destruct (decide (k' = k)) as [->|Hne].
  - unfold Getparms at 1, Setattr. destruct v; [rewrite lookup_insert_eq|rewrite lookup_delete_eq];
      constructor.
  - exfalso. apply Hk'. unfold Getparms, Setattr.
    destruct v; [by rewrite lookup_insert_ne|by rewrite lookup_delete_ne].
Qed.

Lemma lists_registered_insert_list (tl : list loc) (a : Attrs) (k : string) (l : list loc) :
  lists_registered tl a (<[k := AList l]> a).
Proof.
  intros k' Hk'. destruct (decide (k' = k)) as [->|Hne].
  - unfold Getparms at 1. rewrite lookup_insert_eq. constructor.
  - exfalso. apply Hk'. unfold Getparms. by rewrite lookup_insert_ne.
Qed.

Lemma registers_ret (a0 a : Attrs) :
  (forall tl, lists_registered tl a0 a) -> registers a0 (ret a).
Proof. intros Ha w a' w' [= <- <-]. split; [apply extends_refl|done]. Qed.

Lemma registers_bind (a0 : Attrs) (m : M Attrs) (k : Attrs -> M Attrs) :
  registers a0 m -> (forall a1, registers a1 (k a1)) -> registers a0 (bind m k).
Proof.
  intros Hm Hk w a' w' E. apply bind_Ret in E as (a1 & w1 & E1 & E).
  apply Hm in E1 as [X1 A1]. apply Hk in E as [X2 A2].
  split; [by eapply extends_trans|].
  eapply lists_registered_trans; [|exact A2].
  eapply lists_registered_mono; [|exact A1]. apply X2.
Qed.

Lemma registers_seq {A} (a0 : Attrs) (m : M A) (k : A -> M Attrs) :
  keeps m -> (forall x, registers a0 (k x)) -> registers a0 (bind m k).
Proof.
  intros Hm Hk w a' w' E. apply bind_Ret in E as (x & w1 & E1 & E).
  apply Hm in E1. apply Hk in E as [X2 A2]. split; [by eapply extends_trans|done].
Qed.

Lemma add_parms_registered (is_pattern : bool) (p : list XParm) :
  forall w u w',
    add_parms p Append_cpatchlist Append_typelist is_pattern w = Ret (u, w') ->
    registered (typelist w') p.
Proof.
  induction p as [|q p IH]; intros w u w' E; [constructor|].
  cbn [add_parms] in E.
  apply bind_Ret in E as (u1 & w1 & E1 & E).
  assert (keeps (Append_typelist (xp_value q) ;;;
                 (if is_pattern then Append_typelist (xp_name q) else ret tt) ;;;
                 Append_cpatchlist (xp_value q) ;;;
                 add_parms p Append_cpatchlist Append_typelist is_pattern)) as Hk.
  { keeps_auto. apply keeps_add_parms; auto with keeps. }
  pose proof (Hk _ _ _ E) as (_ & _ & P & _).
  constructor.
  - intros l Hl. injection E1 as <- <-. cbn [typelist] in P. rewrite Hl in P. cbn in P.
    destruct P as [k ->]. apply elem_of_app. left. apply elem_of_app. right.
    apply list_elem_of_here.
  - apply bind_Ret in E as (u2 & w2 & E2 & E).
    apply bind_Ret in E as (u3 & w3 & E3 & E).
    apply bind_Ret in E as (u4 & w4 & E4 & E).
    by eapply IH.
Qed.

Lemma registers_expand_parms (a : Attrs) (attribute : string) (uvp : option Parm)
    (evp : ParmList) (is_pattern : bool) :
  registers a (expand_parms a attribute uvp evp Append_cpatchlist Append_typelist is_pattern).
Proof.
  intros w a' w' E. split; [by eapply keeps_expand_parms_c|].
  unfold expand_parms in E.
  apply bind_Ret in E as (a1 & w1 & E1 & E).
  apply bind_Ret in E as (u & w2 & E2 & E). injection E as <- <-.
  apply (changes_only_expand_variadic_parms [attribute]) in E1 as [_ A1];
    [|apply list_elem_of_here].
  apply add_parms_registered in E2.
  intros k Hk. destruct (decide (k = attribute)) as [->|Hne]; [done|].
  exfalso. apply Hk. unfold Getparms. rewrite A1; [done|].
  intros Hin. apply list_elem_of_singleton in Hin. done.
Qed.

Lemma registers_expand_cdecl (a : Attrs) (uvp : option Parm) (evp : ParmList) :
  registers a (expand_cdecl a uvp evp).
Proof.
  unfold expand_cdecl.
  do 4 (apply registers_seq; [auto with keeps|intros _]).
  apply registers_seq; [keeps_auto|intros _].
  apply registers_seq; [apply keeps_checkAttribute|intros friend].
  apply registers_bind.
  - destruct friend; [|by apply registers_ret; intros; apply lists_registered_refl].
    apply registers_bind.
    + destruct (Getattr a "sym:name");
        [|by apply registers_ret; intros; apply lists_registered_refl].
      do 2 (apply registers_seq; [auto with keeps|intros ?]).
      apply registers_ret. intros. apply lists_registered_Setattr.
    + intros a1. apply registers_seq; [auto with keeps|intros _].
      apply registers_ret. intros. apply lists_registered_refl.
  - intros a1. apply registers_bind; [apply registers_expand_parms|].
    intros a2. apply registers_expand_parms.
Qed.

Lemma registers_expand_class_bases (a : Attrs) (uvp : option Parm) (evp : ParmList) :
  registers a (expand_class_bases a uvp evp).
Proof.
  unfold expand_class_bases.
  generalize ["baselist"; "protectedbaselist"; "privatebaselist"]%string. intros ks.
  revert a. induction ks as [|k ks IH]; intros a; cbn [foldM].
  - apply registers_ret. intros. apply lists_registered_refl.
  - apply registers_bind; [|intros a1; apply IH].
    destruct (Getlist a k); [|apply registers_ret; intros; apply lists_registered_refl].
    apply registers_seq; [apply keeps_patch_bases|intros bases'].
    apply registers_ret. intros. apply lists_registered_insert_list.
Qed.

Lemma registers_expand_constructor (a : Attrs) (tname rname templateargs : String)
    (uvp : option Parm) (evp : ParmList) :
  registers a (expand_constructor a tname rname templateargs uvp evp).
Proof.
  unfold expand_constructor.
  apply registers_seq.
  { keeps_auto; first [apply keeps_Replaceid_at | apply keeps_Append_at]. }
  intros _. do 2 (apply registers_seq; [auto with keeps|intros _]).
  apply registers_bind; [apply registers_expand_parms|].
  intros a2. apply registers_expand_parms.
Qed.

Lemma registers_expand_destructor (a : Attrs) (is_dtor : bool)
    (tname rname templateargs : String) :
  registers a (expand_destructor a is_dtor tname rname templateargs).
Proof.
  unfold expand_destructor.
  destruct is_dtor; [|apply registers_ret; intros; apply lists_registered_refl].
  apply registers_seq; [keeps_auto; apply keeps_Append_at|intros _].
  apply registers_bind.
  - destruct (Getattr a "sym:name");
      [|apply registers_ret; intros; apply lists_registered_refl].
    apply registers_seq; [auto with keeps|intros sn].
    destruct (contains_lt sn).
    + apply registers_seq; [auto with keeps|intros ?].
      apply registers_ret. intros. apply lists_registered_Setattr.
    + apply registers_seq; [apply keeps_Replace_any_at|intros _].
      apply registers_ret. intros. apply lists_registered_refl.
  - intros a1. apply registers_seq; [auto with keeps|intros _].
    apply registers_ret. intros. apply lists_registered_refl.
Qed.

Lemma registers_expand_using (a : Attrs) : registers a (expand_using a).
Proof.
  unfold expand_using.
  destruct (Getattr a "uname"); [|apply registers_ret; intros; apply lists_registered_refl].
  apply registers_seq; [auto with keeps|intros u].
  apply registers_seq; [keeps_auto|intros _].
  apply registers_ret. intros. apply lists_registered_refl.
Qed.

Lemma registers_expand_other (a : Attrs) (uvp : option Parm) (evp : ParmList) :
  registers a (expand_other a uvp evp).
Proof.
  unfold expand_other.
  do 3 (apply registers_seq; [auto with keeps|intros _]).
  do 3 (apply registers_bind; [apply registers_expand_parms|intros ?]).
  apply registers_expand_parms.
Qed.

Lemma expansions_registered_refl (tl : list loc) (n : XNode) : expansions_registered tl n n.
Proof.
  induction n as [a cs IH] using XNode_children_ind.
  constructor; [apply lists_registered_refl|]. induction IH; constructor; done.
Qed.

Lemma expansions_registered_children (tl : list loc) (cs : list XNode) :
  Forall2 (expansions_registered tl) cs cs.
Proof. induction cs; constructor; [apply expansions_registered_refl|done]. Qed.

Lemma expansions_registered_mono (tl tl' : list loc) (n n' : XNode) :
  tl `prefix_of` tl' -> expansions_registered tl n n' -> expansions_registered tl' n n'.
Proof.
  intros HK. revert n'. induction n as [a cs IH] using XNode_children_ind.
  intros n' Hs. inversion Hs as [a0 a' cs0 cs' Ha Hcs]; subst.
  constructor; [by eapply lists_registered_mono|].
  clear Hs. revert cs' Hcs. induction IH as [|c cs Hc Hcs' IHc]; intros cs' Hcs;
    inversion Hcs; subst; constructor; [by apply Hc|by apply IHc].
Qed.

Lemma Forall2_expansions_registered_mono (tl tl' : list loc) (cs cs' : list XNode) :
  tl `prefix_of` tl' -> Forall2 (expansions_registered tl) cs cs' ->
  Forall2 (expansions_registered tl') cs cs'.
Proof.
  intros Hp Hcs. eapply Forall2_impl; [exact Hcs|].
  intros n n'. by apply expansions_registered_mono.
Qed.

Lemma visit_with_registered (f : XNode -> M XNode) (cs : list XNode) :
  Forall (fun cn => forall w n' w', f cn w = Ret (n', w') ->
                                    extends w w' /\ expansions_registered (typelist w') cn n') cs ->
  forall w cs' w', visit_with f cs w = Ret (cs', w') ->
                   extends w w' /\ Forall2 (expansions_registered (typelist w')) cs cs'.
Proof.
  induction 1 as [|cn cs Hcn Hcs IH]; intros w cs' w'; cbn [visit_with].
  - intros [= <- <-]. split; [apply extends_refl|constructor].
  - intros E. apply bind_Ret in E as (cn' & w1 & E1 & E).
    apply bind_Ret in E as (cs'' & w2 & E2 & E). injection E as <- <-.
    apply Hcn in E1 as [X1 S1]. apply IH in E2 as [X2 S2].
    split; [by eapply extends_trans|]. constructor; [|done].
    eapply expansions_registered_mono; [|exact S1]. apply X2.
Qed.

Lemma node_branches_registered
    (visit_children : option String -> M (list XNode))
    (anc : list (option String)) (children : list XNode)
    (tname rname templateargs : String) (uvp : option Parm) (evp : ParmList)
    (a : Attrs) (nodeType_ : option String) (w : W) (n' : XNode) (w' : W) :
  (forall nt w cs' w', visit_children nt w = Ret (cs', w') ->
                       extends w w' /\
                       Forall2 (expansions_registered (typelist w')) children cs') ->
  node_branches visit_children anc children tname rname templateargs uvp evp a nodeType_ w
  = Ret (n', w') ->
  extends w w' /\
  exists a' cs', n' = mkXNode a' cs' /\ lists_registered (typelist w') a a' /\
                 Forall2 (expansions_registered (typelist w')) children cs'.
Proof.
  intros Hv. unfold node_branches.
  assert (forall (m : M Attrs),
            registers a m ->
            (a' <- m ;; ret (mkXNode a' children)) w = Ret (n', w') ->
            extends w w' /\
            exists a' cs', n' = mkXNode a' cs' /\ lists_registered (typelist w') a a' /\
                           Forall2 (expansions_registered (typelist w')) children cs') as Hleaf.
  { intros m Hm E. apply bind_Ret in E as (a' & w1 & E1 & E). injection E as <- <-.
    apply Hm in E1 as [X1 A1]. split; [done|].
    exists a', children. split; [done|]. split; [done|apply expansions_registered_children]. }
  assert (forall (m : M Attrs) nt,
            registers a m ->
            (a' <- m ;; cs <- visit_children nt ;; ret (mkXNode a' cs)) w = Ret (n', w') ->
            extends w w' /\
            exists a' cs', n' = mkXNode a' cs' /\ lists_registered (typelist w') a a' /\
                           Forall2 (expansions_registered (typelist w')) children cs') as Hvisit.
  { intros m nt Hm E. apply bind_Ret in E as (a' & w1 & E1 & E).
    apply bind_Ret in E as (cs' & w2 & E2 & E). injection E as <- <-.
    apply Hm in E1 as [X1 A1]. apply Hv in E2 as [X2 S2].
    split; [by eapply extends_trans|]. exists a', cs'. split; [done|]. split; [|done].
    eapply lists_registered_mono; [|exact A1]. apply X2. }
  destruct (Equal_lit nodeType_ "cdecl"); [apply Hleaf, registers_expand_cdecl|].
  destruct (Equal_lit nodeType_ "class"); [apply Hvisit, registers_expand_class_bases|].
  destruct (Equal_lit nodeType_ "constructor");
    [apply Hleaf, registers_expand_constructor|].
  destruct (Equal_lit nodeType_ "destructor"); [apply Hleaf, registers_expand_destructor|].
  destruct (Equal_lit nodeType_ "using"); [apply Hleaf, registers_expand_using|].
  apply Hvisit, registers_expand_other.
Qed.

(** The parameter lists that the walk has put into the tree have the types
    of their parameters in [typelist]. *)
Lemma walker_registered (n : XNode) :
  forall anc tname rname templateargs uvp evp w n' w',
    cparse_template_expand anc n tname rname templateargs uvp evp w = Ret (n', w') ->
    extends w w' /\ expansions_registered (typelist w') n n'.
Proof.
  induction n as [a cs IH] using XNode_children_ind.
  intros anc tname rname templateargs uvp evp w n' w'.
  rewrite cparse_template_expand_unfold. cbv zeta.
  assert (forall nt w cs' w',
            visit_with (fun cn => cparse_template_expand (nt :: anc) cn tname rname
                                    templateargs uvp evp) cs w = Ret (cs', w') ->
            extends w w' /\ Forall2 (expansions_registered (typelist w')) cs cs') as Hv.
  { intros nt. apply visit_with_registered. eapply Forall_impl; [exact IH|].
    intros cn Hcn w0 n0 w0'. apply Hcn. }
  destruct (has_attr a "error").
  { intros [= <- <-]. split; [apply extends_refl|apply expansions_registered_refl]. }
  intros E. apply bind_Ret in E as (nt & w1 & [= <- <-] & E). revert E.
  destruct (Equal_lit _ "template").
  2:{ intros E. eapply node_branches_registered in E as (X & a' & cs' & -> & A & S);
        [|exact Hv].
      split; [done|]. by constructor. }
  intros E. apply bind_Ret in E as (nt1 & w1 & [= <- <-] & E). revert E.
  destruct (Equal_lit _ "template"); [done|].
  intros E. apply bind_Ret in E as (e & w1 & [= <- <-] & E).
  destruct (expanded w) eqn:Ee; cbn [negb] in E.
  - apply bind_Ret in E as (n1 & w1 & E1 & E).
    apply bind_Ret in E as (l & w2 & [= <- <-] & E). injection E as <- <-.
    eapply node_branches_registered in E1 as (X1 & a' & cs' & -> & A & S); [|exact Hv].
    split.
    + eapply extends_trans; [exact X1|]. by eapply (keeps_alloc (str "template") w1).
    + constructor; [|done]. cbn [x_attrs typelist].
      eapply lists_registered_trans; [apply lists_registered_Setattr|].
      eapply lists_registered_trans; [exact A|].
      apply (lists_registered_Setattr (typelist w1) a' "nodeType" (Some (length (strs w1)))).
  - apply bind_Ret in E as (u & w1 & [= <- <-] & E).
    apply bind_Ret in E as (n1 & w2 & E1 & E).
    apply bind_Ret in E as (u' & w3 & [= <- <-] & E). injection E as <- <-.
    eapply node_branches_registered in E1 as (X1 & a' & cs' & -> & A & S); [|exact Hv].
    split.
    + destruct X1 as (B1 & B2 & B3 & B4 & B5). simpl in *. repeat split; simpl; done.
    + constructor; [|done]. cbn [typelist] in *.
      eapply lists_registered_trans; [apply lists_registered_Setattr|exact A].
Qed.

End Registered.

Section Asserted.
Context `{TypeOps} `{Symbols}.

(** A turn of the loop over [typelist] that returns has found a string that
    is not variadic, and has rewritten no other string. *)
Lemma patch_type_asserts (st : Store) (tsname : option loc) (name_ dvalue tbase : String)
    (iname : loc) (uvp : option Parm) (evp : ParmList) (s : loc) (w : W) (u : unit) (w1 : W) :
  patch_type st tsname name_ dvalue tbase iname uvp evp s w = Ret (u, w1) ->
  SwigType_isvariadic (Some (Char (strs w) s)) = false /\
  forall l, l <> s -> Char (strs w1) l = Char (strs w) l.
Proof.
  unfold patch_type, bind, read, assert_, write, read_opt, ret. cbn [strs].
  destruct (SwigType_isvariadic _); [done|]. cbn [negb]. intros E. split; [done|].
  intros l Hl. revert E. destruct (replace_template_args _ _).
  - intros [= ?]. subst w1. cbn [strs]. by rewrite !Char_insert_ne.
  - intros [= ?]. subst w1. cbn [strs]. by rewrite !Char_insert_ne.
Qed.

Lemma patch_type_specialization_asserts (tbase : String) (iname : loc) (uvp : option Parm)
    (evp : ParmList) (s : loc) (w : W) (u : unit) (w1 : W) :
  patch_type_specialization tbase iname uvp evp s w = Ret (u, w1) ->
  SwigType_isvariadic (Some (Char (strs w) s)) = false /\
  forall l, l <> s -> Char (strs w1) l = Char (strs w) l.
Proof.
  unfold patch_type_specialization, bind, read, assert_, write, ret. cbn [strs].
  destruct (SwigType_isvariadic _); [done|]. cbn [negb]. intros [= ?]. subst w1.
  split; [done|]. intros l Hl. cbn [strs]. by rewrite !Char_insert_ne.
Qed.

(** A loop of such turns that returns has found no variadic string. *)
Lemma iterM_asserts (f : loc -> M unit) (tl : list loc) :
  (forall s w u w1, f s w = Ret (u, w1) ->
     SwigType_isvariadic (Some (Char (strs w) s)) = false /\
     forall l, l <> s -> Char (strs w1) l = Char (strs w) l) ->
  forall w u w', iterM f tl w = Ret (u, w') ->
    forall l, l ∈ tl -> SwigType_isvariadic (Some (Char (strs w) l)) = false.
Proof.
  intros Hf. induction tl as [|s tl IH]; intros w u w' E l Hl.
  - by apply elem_of_nil in Hl.
  - unfold iterM in E. cbn [foldM] in E. apply bind_Ret in E as (u1 & w1 & E1 & E).
    apply Hf in E1 as [Hs Hother]. destruct u1.
    destruct (decide (l = s)) as [->|Hne]; [done|].
    apply elem_of_cons in Hl as [?|Hl]; [done|].
    rewrite <- (Hother l Hne). by eapply (IH w1 u w').
Qed.

(** The loop over [patchlist] rewrites the strings of that list only. *)
Lemma replace_patchlist_frame (name_ dvalue : String) (pl : list loc) :
  forall w u w', iterM (fun s => Replaceid_at s name_ dvalue) pl w = Ret (u, w') ->
    forall l, l ∉ pl -> Char (strs w') l = Char (strs w) l.
Proof.
  induction pl as [|s pl IH]; intros w u w' E l Hl.
  - by injection E as <- <-.
  - unfold iterM in E. cbn [foldM] in E. apply bind_Ret in E as (u1 & w1 & E1 & E).
    apply not_elem_of_cons in Hl as [Hne Hl]. destruct u1.
    rewrite (IH w1 u w' E l Hl).
    unfold Replaceid_at, bind, read, write in E1. injection E1 as <-. cbn [strs].
    by apply Char_insert_ne.
Qed.

(** A run of the substitution for the template parameters that returns,
    and that has a named template parameter to substitute, has found no
    variadic string in [typelist], but for the strings that [patchlist]
    holds as well. *)
Lemma patch_all_asserts (st : Store) (tsdecl tscope : option Symtab) (tsname : option loc)
    (tbase : String) (iname : loc) (k : nat) :
  forall j tparms tps w r w',
    patch_all k j st tsdecl tscope tsname tbase iname tparms tps w = Ret (r, w') ->
    (exists j' tp, (j <= j' < j + k)%nat /\ tps !! j' = Some tp /\ is_Some (parm_name tp)) ->
    forall l, l ∈ typelist w -> l ∉ patchlist w ->
      SwigType_isvariadic (Some (Char (strs w) l)) = false.
Proof.
  induction k as [|k IH]; intros j tparms tps w r w'; cbn [patch_all].
  - intros _ (j' & tp & Hj & _). lia.
  - destruct (tps !! j) as [tp|] eqn:Etp.
    2:{ intros _ (j' & tp & Hj & Htp & _). apply lookup_ge_None in Etp.
        apply lookup_lt_Some in Htp. lia. }
    destruct (parm_name tp) as [name_|] eqn:En.
    2:{ intros E (j' & tp' & Hj & Htp & Hn). apply (IH _ _ _ _ _ _ E).
        exists j', tp'. split; [|done].
        destruct (decide (j' = j)) as [->|]; [|lia].
        rewrite Etp in Htp. injection Htp as <-. rewrite En in Hn. by destruct Hn. }
    intros E _ l Hl Hp. apply bind_Ret in E as (value & w1 & E1 & E).
    assert (w1 = w) as ->.
    { destruct (value_or_type _); [by injection E1|done]. }
    destruct (tparms !! j) as [p|] eqn:Ep.
    + apply bind_Ret in E as (pl & w2 & [= <- <-] & E).
      apply bind_Ret in E as (u1 & w3 & E3 & E).
      apply bind_Ret in E as (tl & w4 & [= <- <-] & E).
      apply bind_Ret in E as (u2 & w5 & E5 & E).
      rewrite <- (replace_patchlist_frame _ _ _ _ _ _ E3 l Hp).
      eapply (iterM_asserts _ _ (patch_type_asserts _ _ _ _ _ _ _ _) _ _ _ E5).
      assert (keeps (iterM (fun s => Replaceid_at s name_
                (let qvalue := Swig_symbol_typedef_reduce value tsdecl in
                 let dvalue := Swig_symbol_type_qualify qvalue tsdecl in
                 if SwigType_istemplate dvalue
                 then Swig_symbol_template_deftype dvalue tscope else dvalue))
                (patchlist w))) as Hk
        by (apply keeps_iterM; intros s; apply keeps_Replaceid_at).
      apply Hk in E3 as (_ & _ & [x ->] & _). apply elem_of_app. by left.
    + apply bind_Ret in E as (pl & w2 & [= <- <-] & E).
      apply bind_Ret in E as (u1 & w3 & E3 & E).
      apply bind_Ret in E as (tl & w4 & [= <- <-] & E).
      apply bind_Ret in E as (u2 & w5 & E5 & E).
      rewrite <- (replace_patchlist_frame _ _ _ _ _ _ E3 l Hp).
      eapply (iterM_asserts _ _ (patch_type_asserts _ _ _ _ _ _ _ _) _ _ _ E5).
      assert (keeps (iterM (fun s => Replaceid_at s name_
                (let qvalue := Swig_symbol_typedef_reduce value tsdecl in
                 let dvalue := Swig_symbol_type_qualify qvalue tsdecl in
                 if SwigType_istemplate dvalue
                 then Swig_symbol_template_deftype dvalue tscope else dvalue))
                (patchlist w))) as Hk
        by (apply keeps_iterM; intros s; apply keeps_Replaceid_at).
      apply Hk in E3 as (_ & _ & [x ->] & _). apply elem_of_app. by left.
Qed.


End Asserted.



(** ** C10: the value returned by the expansion *)

Section TotalRuns.

Lemma total_ret {A} (a : A) : total (ret a).
Proof. intros w. by exists a, w. Qed.

Lemma total_bind {A B} (m : M A) (k : A -> M B) :
  total m -> (forall a, total (k a)) -> total (bind m k).
Proof.
  intros Hm Hk w. destruct (Hm w) as (a & w1 & E). destruct (Hk a w1) as (b & w2 & E2).
  exists b, w2. unfold bind. by rewrite E.
Qed.

Lemma total_need {A} (a : A) : total (need (Some a)).
Proof. apply total_ret. Qed.

Lemma total_assert : total (assert_ true).
Proof. apply total_ret. Qed.

Lemma total_read (l : loc) : total (read l).
Proof. intros w. by eexists _, _. Qed.

Lemma total_read_opt (o : option loc) : total (read_opt o).
Proof. intros w. by eexists _, _. Qed.

Lemma total_write (l : loc) (s : String) : total (write l s).
Proof. intros w. by eexists _, _. Qed.

Lemma total_alloc (s : String) : total (alloc s).
Proof. intros w. by eexists _, _. Qed.

Lemma total_Append_patchlist (o : option loc) : total (Append_patchlist o).
Proof. intros w. by eexists _, _. Qed.

Lemma total_Append_typelist (o : option loc) : total (Append_typelist o).
Proof. intros w. by eexists _, _. Qed.

Lemma total_Append_cpatchlist (o : option loc) : total (Append_cpatchlist o).
Proof. intros w. by eexists _, _. Qed.

Lemma total_get_expanded : total get_expanded.
Proof. intros w. by eexists _, _. Qed.

Lemma total_set_expanded (b : bool) : total (set_expanded b).
Proof. intros w. by eexists _, _. Qed.

Lemma total_get_typelist : total get_typelist.
Proof. intros w. by eexists _, _. Qed.

Lemma total_get_patchlist : total get_patchlist.
Proof. intros w. by eexists _, _. Qed.

Lemma total_get_cpatchlist : total get_cpatchlist.
Proof. intros w. by eexists _, _. Qed.

Lemma total_foldM {A B} (f : B -> A -> M B) (l : list A) :
  (forall b a, total (f b a)) -> forall b, total (foldM f b l).
Proof.
  intros Hf. induction l as [|a l IH]; intros b; cbn [foldM]; [apply total_ret|].
  apply total_bind; [apply Hf|apply IH].
Qed.

Lemma total_iterM {A} (f : A -> M unit) (l : list A) :
  (forall a, total (f a)) -> total (iterM f l).
Proof. intros Hf. apply total_foldM. intros _ a. apply Hf. Qed.

End TotalRuns.

Create HintDb total.

#[local] Hint Resolve total_ret total_need total_assert total_read total_read_opt total_write
  total_alloc total_Append_patchlist total_Append_typelist total_Append_cpatchlist
  total_get_expanded total_set_expanded total_get_typelist total_get_patchlist
  total_get_cpatchlist : total.

Ltac total_step :=
  lazymatch goal with
  | |- total (bind _ _) => apply total_bind; [|intros ?]
  | |- total (if ?b then _ else _) => destruct b
  | |- total (match ?x with _ => _ end) => destruct x
  | |- total (foldM _ _ _) => apply total_foldM; intros ? ?
  | |- total (iterM _ _) => apply total_iterM; intros ?
  | |- total _ => solve [auto with total]
  end.

Ltac total_auto := repeat total_step.

Section Totality.
Context `{TypeOps} `{Symbols}.

Lemma total_alloc_opt (s : option String) : total (alloc_opt s).
Proof. unfold alloc_opt. total_auto. Qed.

Lemma total_Copy (o : option loc) : total (Copy o).
Proof. unfold Copy. total_auto. apply total_alloc_opt. Qed.

Lemma total_add_parms (p : list XParm) (Append_patch Append_type : option loc -> M unit)
    (is_pattern : bool) :
  (forall o, total (Append_patch o)) -> (forall o, total (Append_type o)) ->
  total (add_parms p Append_patch Append_type is_pattern).
Proof.
  intros Hp Ht. induction p as [|q p IH]; cbn [add_parms]; [apply total_ret|].
  repeat (apply total_bind; [|intros ?]); try done. destruct is_pattern; [done|apply total_ret].
Qed.

Lemma total_Replaceid_at (l : loc) (token rep : String) : total (Replaceid_at l token rep).
Proof. unfold Replaceid_at. total_auto. Qed.

Lemma total_Replace_any_at (l : loc) (token rep : String) :
  total (Replace_any_at l token rep).
Proof. unfold Replace_any_at. total_auto. Qed.

Lemma total_Append_at (l : loc) (x : String) : total (Append_at l x).
Proof. unfold Append_at. total_auto. Qed.

Lemma total_checkAttribute (a : Attrs) (k lit : string) : total (checkAttribute a k lit).
Proof. unfold checkAttribute. total_auto. Qed.

(** Pack expansion returns: a parameter that [ParmList_variadic_parm]
    finds has a type, and its type carries the marker to delete. *)
Lemma total_expand_one (type rest : String) (unexpanded_name : option String) (ep : Parm) :
  SwigType_del_variadic type = Some rest ->
  total (expand_one type unexpanded_name ep).
Proof.
  intros Hd. unfold expand_one. rewrite Hd.
  apply total_bind; [apply total_alloc_opt|intros v].
  apply total_bind; [apply total_alloc_opt|intros nm]. total_auto.
Qed.

Lemma total_expand_variadic_parms (a : Attrs) (attribute : string) (uvp : option Parm)
    (evp : ParmList) :
  total (expand_variadic_parms a attribute uvp evp).
Proof.
  unfold expand_variadic_parms. destruct uvp as [u|]; [|apply total_ret].
  intros w. destruct (XParmList_variadic_parm (strs w) (Getparms a attribute)) as [V|] eqn:EV.
  - destruct (XParmList_variadic_parm_Some _ _ _ EV) as (p' & l & rest & Ep & Et & Ec & Ed).
    rewrite Et.
    assert (total (foldM (fun acc ep =>
                            x <- expand_one (Char (strs w) l) (parm_name u) ep ;;
                            ret (acc ++ [x])) [] evp)) as Hf.
    { apply total_foldM. intros acc ep.
      apply total_bind; [by eapply total_expand_one|intros x; apply total_ret]. }
    destruct (Hf w) as (xs & w1 & E).
    eexists _, w1. unfold bind at 1. unfold bind at 1. cbn [need ret].
    unfold read at 1. cbv beta iota. unfold bind at 1. rewrite E. reflexivity.
  - by eexists _, _.
Qed.

Lemma total_expand_parms (a : Attrs) (attribute : string) (uvp : option Parm)
    (evp : ParmList) (Append_patch Append_type : option loc -> M unit) (is_pattern : bool) :
  (forall o, total (Append_patch o)) -> (forall o, total (Append_type o)) ->
  total (expand_parms a attribute uvp evp Append_patch Append_type is_pattern).
Proof.
  intros Hp Ht. unfold expand_parms.
  apply total_bind; [apply total_expand_variadic_parms|intros a'].
  apply total_bind; [by apply total_add_parms|intros _; apply total_ret].
Qed.

Lemma total_expand_parms_c (a : Attrs) (attribute : string) (uvp : option Parm)
    (evp : ParmList) (is_pattern : bool) :
  total (expand_parms a attribute uvp evp Append_cpatchlist Append_typelist is_pattern).
Proof.
  apply total_expand_parms; [apply total_Append_cpatchlist|apply total_Append_typelist].
Qed.

#[local] Hint Resolve total_alloc_opt total_Copy total_Replaceid_at total_Replace_any_at
  total_Append_at total_checkAttribute total_expand_variadic_parms total_expand_parms_c
  : total.

Lemma total_expand_cdecl (a : Attrs) (uvp : option Parm) (evp : ParmList) :
  total (expand_cdecl a uvp evp).
Proof. unfold expand_cdecl. total_auto. Qed.

Lemma total_expand_constructor (a : Attrs) (tname rname templateargs : String)
    (uvp : option Parm) (evp : ParmList) :
  has_attr a "templatetype" = true \/ is_Some (Getattr a "name") ->
  total (expand_constructor a tname rname templateargs uvp evp).
Proof.
  intros Hn. unfold expand_constructor.
  destruct (has_attr a "templatetype") eqn:Et; cbn [negb].
  - total_auto.
  - destruct Hn as [?|[l Hl]]; [done|]. rewrite Hl. total_auto.
Qed.

Lemma total_expand_destructor (a : Attrs) (is_dtor : bool)
    (tname rname templateargs : String) :
  total (expand_destructor a is_dtor tname rname templateargs).
Proof. unfold expand_destructor. total_auto. Qed.

Lemma total_expand_using (a : Attrs) : total (expand_using a).
Proof. unfold expand_using. total_auto. Qed.

Lemma total_expand_other (a : Attrs) (uvp : option Parm) (evp : ParmList) :
  total (expand_other a uvp evp).
Proof. unfold expand_other. total_auto. Qed.

(** A list of base classes with one base at most is patched: a variadic
    base is the last one. *)
Lemma total_patch_bases (uvp : option Parm) (evp : ParmList) (bases : list loc) :
  (length bases <= 1)%nat ->
  total (patch_bases uvp evp (length bases) (length bases) bases).
Proof.
  intros Hl. destruct bases as [|b [|b' bases]]; [apply total_ret| |simpl in Hl; lia].
  cbn [length patch_bases]. replace (1 - 1)%nat with 0%nat by done.
  cbn [lookup list_lookup]. total_auto.
Qed.

Lemma Getlist_insert_ne (a : Attrs) (k k' : string) (v : Attr) :
  k' <> k -> Getlist (<[k := v]> a) k' = Getlist a k'.
Proof. intros Hk. unfold Getlist. by rewrite lookup_insert_ne. Qed.

Lemma short_bases_spec (a : Attrs) (k : string) (bases : list loc) :
  short_bases a = true -> k ∈ base_keys -> Getlist a k = Some bases ->
  (length bases <= 1)%nat.
Proof.
  unfold short_bases. rewrite forallb_forall. intros Hs Hk Hg.
  specialize (Hs k). rewrite Hg in Hs. apply Nat.leb_le. apply Hs.
  by apply list_elem_of_In.
Qed.

Lemma total_class_bases_fold (uvp : option Parm) (evp : ParmList) (ks : list string) :
  NoDup ks ->
  forall a,
    (forall k bases, k ∈ ks -> Getlist a k = Some bases -> (length bases <= 1)%nat) ->
    total (foldM (fun a baselist =>
                    match Getlist a baselist with
                    | Some bases =>
                        bases' <- patch_bases uvp evp (length bases) (length bases) bases ;;
                        ret (<[baselist := AList bases']> a)
                    | None => ret a
                    end) a ks).
Proof.
  induction 1 as [|k ks Hk Hnd IH]; intros a Ha w; cbn [foldM]; [by eexists _, _|].
  unfold bind at 1. destruct (Getlist a k) as [bases|] eqn:Eb.
  - destruct (total_patch_bases uvp evp bases ltac:(eapply Ha; [by left|done]) w)
      as (bases' & w1 & E1).
    destruct (IH (<[k := AList bases']> a)) with (w := w1) as (r & w2 & E2).
    { intros k' b' Hin Hg. rewrite Getlist_insert_ne in Hg by (by intros ->).
      eapply Ha; [by right|done]. }
    exists r, w2. unfold bind at 1. rewrite E1. exact E2.
  - destruct (IH a) with (w := w) as (r & w2 & E2).
    { intros k' b' Hin Hg. eapply Ha; [by right|done]. }
    by exists r, w2.
Qed.

Lemma total_expand_class_bases (a : Attrs) (uvp : option Parm) (evp : ParmList) :
  (forall k bases, k ∈ base_keys -> Getlist a k = Some bases -> (length bases <= 1)%nat) ->
  total (expand_class_bases a uvp evp).
Proof.
  intros Ha. unfold expand_class_bases. apply (total_class_bases_fold uvp evp base_keys).
  - apply (bool_decide_unpack _). by vm_compute.
  - exact Ha.
Qed.

Lemma total_visit_with (f : XNode -> M XNode) (cs : list XNode) :
  Forall (fun c => total (f c)) cs -> total (visit_with f cs).
Proof.
  induction 1 as [|c cs Hc Hcs IH]; cbn [visit_with]; [apply total_ret|].
  apply total_bind; [done|intros c']. apply total_bind; [exact IH|intros cs'].
  apply total_ret.
Qed.

Lemma total_node_branches (visit_children : option String -> M (list XNode))
    (anc : list (option String)) (children : list XNode) (tname rname templateargs : String)
    (uvp : option Parm) (evp : ParmList) (a : Attrs) (nodeType_ : option String) :
  (forall nt, total (visit_children nt)) ->
  has_attr a "templatetype" = true \/ is_Some (Getattr a "name") ->
  (forall k bases, k ∈ base_keys -> Getlist a k = Some bases -> (length bases <= 1)%nat) ->
  total (node_branches visit_children anc children tname rname templateargs uvp evp a
           nodeType_).
Proof.
  intros Hv Hn Hb. unfold node_branches.
  destruct (Equal_lit nodeType_ "cdecl").
  { apply total_bind; [apply total_expand_cdecl|intros ?; apply total_ret]. }
  destruct (Equal_lit nodeType_ "class").
  { apply total_bind; [by apply total_expand_class_bases|intros ?].
    apply total_bind; [apply Hv|intros ?; apply total_ret]. }
  destruct (Equal_lit nodeType_ "constructor").
  { apply total_bind; [by apply total_expand_constructor|intros ?; apply total_ret]. }
  destruct (Equal_lit nodeType_ "destructor").
  { apply total_bind; [apply total_expand_destructor|intros ?; apply total_ret]. }
  destruct (Equal_lit nodeType_ "using").
  { apply total_bind; [apply total_expand_using|intros ?; apply total_ret]. }
  apply total_bind; [apply total_expand_other|intros ?].
  apply total_bind; [apply Hv|intros ?; apply total_ret].
Qed.

Lemma Getlist_Setattr (a : Attrs) (k k' : string) (v : option loc) (bases : list loc) :
  Getlist (Setattr a k v) k' = Some bases -> Getlist a k' = Some bases.
Proof.
  unfold Getlist, Setattr. destruct (decide (k' = k)) as [->|Hne].
  - destruct v; [by rewrite lookup_insert_eq|by rewrite lookup_delete_eq].
  - destruct v; [by rewrite lookup_insert_ne|by rewrite lookup_delete_ne].
Qed.

Lemma has_attr_Setattr_ne (a : Attrs) (k k' : string) (v : option loc) :
  k' <> k -> has_attr (Setattr a k v) k' = has_attr a k'.
Proof.
  intros Hne. unfold has_attr, Setattr.
  destruct v; [by rewrite lookup_insert_ne|by rewrite lookup_delete_ne].
Qed.

Lemma has_attr_Getattr (a : Attrs) (k : string) :
  has_attr a k = false -> Getattr a k = None.
Proof.
  unfold has_attr, Getattr. intros Hf. apply bool_decide_eq_false in Hf.
  destruct (a !! k); [|done]. exfalso. apply Hf. by eexists.
Qed.

(** The walk of a node that is walkable returns. *)
Lemma walker_total (n : XNode) :
  walkable n = true ->
  forall anc tname rname templateargs uvp evp,
    total (cparse_template_expand anc n tname rname templateargs uvp evp).
Proof.
  induction n as [a cs IH] using XNode_children_ind.
  intros Hw anc tname rname templateargs uvp evp. rewrite cparse_template_expand_unfold.
  cbv zeta. cbn [walkable] in Hw.
  destruct (has_attr a "error"); [apply total_ret|]. cbn [orb] in Hw.
  apply andb_prop in Hw as [Hw Hcs]. apply andb_prop in Hw as [Hw Hb].
  apply andb_prop in Hw as [Ht Hn]. apply negb_true_iff in Ht.
  apply bool_decide_eq_true in Hn.
  assert (forall anc', total (visit_with (fun cn => cparse_template_expand anc' cn tname rname
                                            templateargs uvp evp) cs)) as Hvisit.
  { intros anc'. apply total_visit_with. rewrite forallb_forall in Hcs.
    rewrite Forall_forall in IH. apply Forall_forall. intros c Hc. apply IH; [done|].
    apply Hcs. by apply list_elem_of_In. }
  apply total_bind; [apply total_read_opt|intros nodeType_].
  destruct (Equal_lit nodeType_ "template").
  - cbv zeta. rewrite (has_attr_Getattr _ _ Ht). cbn [Setattr].
    unfold Getattr at 1. rewrite lookup_delete_eq.
    intros w. unfold bind at 1, read_opt at 1. cbn [Char_opt fmap option_fmap option_map].
    change (Equal_lit None "template") with false. cbv iota. revert w.
    match goal with |- forall w, exists a' w', ?m w = _ => change (total m) end.
    assert (total (node_branches
                     (fun nodeType_0 => visit_with (fun cn => cparse_template_expand
                         (nodeType_0 :: anc) cn tname rname templateargs uvp evp) cs)
                     anc cs tname rname templateargs uvp evp (delete "nodeType"%string a) None))
      as Hbr.
    { apply total_node_branches.
      - intros nt. apply Hvisit.
      - right. change (delete "nodeType"%string a) with (Setattr a "nodeType" None).
        by rewrite Getattr_Setattr_ne.
      - intros k bases Hk Hg. eapply short_bases_spec; [exact Hb|exact Hk|].
        change (delete "nodeType"%string a) with (Setattr a "nodeType" None) in Hg.
        by eapply Getlist_Setattr. }
    total_auto.
  - apply total_node_branches; [intros nt; apply Hvisit|by right|].
    intros k bases. by apply short_bases_spec.
Qed.

End Totality.

Section Passes.
Context `{TypeOps} `{Symbols}.

Lemma establishes_bind {A B} (P : W -> Prop) (Q : A -> W -> Prop) (R : B -> W -> Prop)
    (m : M A) (k : A -> M B) :
  establishes P m Q -> (forall a, establishes (Q a) (k a) R) -> establishes P (bind m k) R.
Proof.
  intros Hm Hk w Hw. destruct (Hm w Hw) as (a & w1 & E & Hq).
  destruct (Hk a w1 Hq) as (b & w2 & E2 & Hr). exists b, w2. unfold bind. by rewrite E.
Qed.

Lemma establishes_ret_bind {A B} (P : W -> Prop) (R : B -> W -> Prop) (a : A)
    (k : A -> M B) :
  establishes P (k a) R -> establishes P (bind (ret a) k) R.
Proof. intros Hk w Hw. exact (Hk w Hw). Qed.

Lemma establishes_iterM {A} (P : W -> Prop) (f : A -> M unit) (l : list A) :
  (forall a, a ∈ l -> establishes P (f a) (fun _ => P)) ->
  establishes P (iterM f l) (fun _ => P).
Proof.
  induction l as [|a l IH]; intros Hf.
  - intros w Hw. by exists tt, w.
  - unfold iterM. cbn [foldM]. eapply establishes_bind.
    + apply Hf. by left.
    + intros []. apply IH. intros a' Ha'. apply Hf. by right.
Qed.

Lemma plain_spec (b : String) :
  plain b = true -> SwigType_isvariadic (Some b) = false /\ b <> [] /\ b <> str "v".
Proof.
  unfold plain. intros Hp. apply andb_prop in Hp as [Hp H3]. apply andb_prop in Hp as [H1 H2].
  apply negb_true_iff in H1. apply bool_decide_eq_true in H2, H3. done.
Qed.

Lemma Replaceid_plain (s token rep : String) :
  SwigType_isvariadic (Some s) = false -> plain rep = true ->
  SwigType_isvariadic (Some (Replaceid s token rep).1) = false.
Proof.
  intros Hs Hr. apply plain_spec in Hr as (H1 & H2 & H3).
  rewrite isvariadic_starts in *. by apply Replaceid_not_variadic.
Qed.

Lemma plain_quoted (x : String) : plain (dquote ++ x ++ dquote) = true.
Proof.
  unfold plain, dquote. cbn [app]. apply andb_true_intro. split; [apply andb_true_intro; split|].
  - reflexivity.
  - by apply bool_decide_eq_true.
  - apply bool_decide_eq_true. intros E. discriminate E.
Qed.

Lemma Char_insert_same (h : Strs) (s : loc) (x : String) :
  Char (<[s := x]> h) s = x \/ Char (<[s := x]> h) s = Char h s.
Proof.
  destruct (decide (s < length h)%nat) as [Hlt|Hge].
  - left. unfold Char. by apply list_lookup_total_insert_eq.
  - right. by rewrite list_insert_ge by lia.
Qed.

Section Invariant.
Variables (TL PL CL : list loc) (nl : loc) (I0 : String).

Hypothesis variadic_replace_plain :
  forall c u e, SwigType_isvariadic (Some c) = false ->
                SwigType_isvariadic (Some (SwigType_variadic_replace c u e)) = false.
Hypothesis typename_replace_plain :
  forall c a b, SwigType_isvariadic (Some c) = false -> plain b = true ->
                SwigType_isvariadic (Some (SwigType_typename_replace c a b)) = false.
Hypothesis name_apart : nl ∉ TL ++ PL ++ CL.
Hypothesis name_plain : plain I0 = true.

Abbreviation Inv := (types_plain TL PL CL nl I0).

(** A string that is rewritten, and that is not variadic if [TL] holds
    it. *)
Lemma types_plain_write (w : W) (s : loc) (x : String) :
  Inv w -> s <> nl -> (s ∈ TL -> SwigType_isvariadic (Some x) = false) ->
  Inv (mkW (<[s := x]> (strs w)) (patchlist w) (typelist w) (cpatchlist w) (expanded w)).
Proof.
  intros (Ht & Hp & Hc & Hn & Hv) Hs Hx. unfold types_plain.
  cbn [strs patchlist typelist cpatchlist].
  repeat split; try done.
  - by rewrite Char_insert_ne.
  - intros l Hl. destruct (decide (l = s)) as [->|Hne].
    + destruct (Char_insert_same (strs w) s x) as [-> | ->]; [by apply Hx|by apply Hv].
    + rewrite Char_insert_ne by done. by apply Hv.
Qed.

Lemma establishes_Replaceid_at (s : loc) (token rep : String) :
  s <> nl -> plain rep = true ->
  establishes Inv (Replaceid_at s token rep) (fun _ => Inv).
Proof.
  intros Hs Hr w Hw. eexists tt, _. split; [reflexivity|].
  apply types_plain_write; [done..|]. intros Hin. apply Replaceid_plain; [|done].
  destruct Hw as (_ & _ & _ & _ & Hv). by apply Hv.
Qed.

Lemma establishes_patch_code (name_ valuestr : String) (s : loc) :
  s <> nl -> plain valuestr = true ->
  establishes Inv (patch_code name_ valuestr s) (fun _ => Inv).
Proof.
  intros Hs Hv. unfold patch_code. eapply establishes_bind.
  - apply establishes_Replaceid_at; [done|apply plain_quoted].
  - intros ?. by apply establishes_Replaceid_at.
Qed.

Lemma establishes_patch_type (st : Store) (tsname : option loc) (name_ dvalue tbase : String)
    (uvp : option Parm) (evp : ParmList) (s : loc) :
  s ∈ TL -> plain dvalue = true ->
  establishes Inv (patch_type st tsname name_ dvalue tbase nl uvp evp s) (fun _ => Inv).
Proof.
  intros Hs Hd w Hw.
  assert (s <> nl) as Hne.
  { intros ->. apply name_apart. apply elem_of_app. by left. }
  pose proof Hw as (_ & _ & _ & _ & Hv).
  unfold patch_type. unfold bind at 1, read at 1. unfold bind at 1.
  rewrite (Hv s Hs). cbn [negb assert_ ret].
  unfold bind at 1, write at 1.
  set (w1 := mkW _ _ _ _ _).
  assert (Inv w1) as H1.
  { apply types_plain_write; [done..|]. intros _. apply variadic_replace_plain. by apply Hv. }
  unfold bind at 1, read_opt at 1.
  destruct (replace_template_args _ _).
  - unfold bind at 1, write at 1. set (w2 := mkW _ _ _ _ _).
    assert (Inv w2) as H2.
    { apply types_plain_write; [done..|]. intros _. apply typename_replace_plain; [|done].
      apply variadic_replace_plain. by apply Hv. }
    unfold bind at 1, read at 1. unfold bind at 1, read at 1.
    eexists tt, _. split; [reflexivity|].
    apply types_plain_write; [done..|]. intros _. apply typename_replace_plain.
    + destruct H2 as (_ & _ & _ & _ & Hv2). by apply Hv2.
    + destruct H2 as (_ & _ & _ & -> & _). done.
  - by exists tt, w1.
Qed.

Lemma establishes_patch_type_specialization (tbase : String) (uvp : option Parm)
    (evp : ParmList) (s : loc) :
  s ∈ TL ->
  establishes Inv (patch_type_specialization tbase nl uvp evp s) (fun _ => Inv).
Proof.
  intros Hs w Hw.
  assert (s <> nl) as Hne.
  { intros ->. apply name_apart. apply elem_of_app. by left. }
  pose proof Hw as (_ & _ & _ & _ & Hv).
  unfold patch_type_specialization. unfold bind at 1, read at 1. unfold bind at 1.
  rewrite (Hv s Hs). cbn [negb assert_ ret].
  unfold bind at 1, write at 1.
  set (w1 := mkW _ _ _ _ _).
  assert (Inv w1) as H1.
  { apply types_plain_write; [done..|]. intros _. apply variadic_replace_plain. by apply Hv. }
  unfold bind at 1, read at 1. unfold bind at 1, read at 1.
  eexists tt, _. split; [reflexivity|].
  apply types_plain_write; [done..|]. intros _. apply typename_replace_plain.
  - destruct H1 as (_ & _ & _ & _ & Hv1). by apply Hv1.
  - destruct H1 as (_ & _ & _ & -> & _). done.
Qed.

(** One turn of the substitution, for the parameter [name_] with the value
    [dvalue], keeps the invariant. *)
Lemma establishes_turn (st : Store) (tsname : option loc) (name_ dvalue valuestr tbase : String)
    (uvp : option Parm) (evp : ParmList) {A} (rest : M A) (Q : A -> W -> Prop) :
  plain dvalue = true -> plain valuestr = true ->
  establishes Inv rest Q ->
  establishes Inv
    (pl <- get_patchlist ;;
     iterM (fun s => Replaceid_at s name_ dvalue) pl ;;;
     tl <- get_typelist ;;
     iterM (patch_type st tsname name_ dvalue tbase nl uvp evp) tl ;;;
     cl <- get_cpatchlist ;;
     iterM (patch_code name_ valuestr) cl ;;;
     rest) Q.
Proof.
  intros Hd Hs Hrest.
  assert (forall l, l ∈ PL -> l <> nl) as HPL.
  { intros l Hl ->. apply name_apart. apply elem_of_app. right. apply elem_of_app. by left. }
  assert (forall l, l ∈ CL -> l <> nl) as HCL.
  { intros l Hl ->. apply name_apart. apply elem_of_app. right. apply elem_of_app. by right. }
  apply (establishes_bind _ (fun pl w => pl = PL /\ Inv w)).
  { intros w Hw. exists (patchlist w), w. split; [reflexivity|]. split; [|done].
    by destruct Hw as (_ & -> & _). }
  intros pl. apply (establishes_bind _ (fun _ => Inv)).
  { intros w [-> Hw]. revert w Hw. apply establishes_iterM. intros s Hs'.
    apply establishes_Replaceid_at; [by apply HPL|done]. }
  intros _. apply (establishes_bind _ (fun tl w => tl = TL /\ Inv w)).
  { intros w Hw. exists (typelist w), w. split; [reflexivity|]. split; [|done].
    by destruct Hw as (-> & _). }
  intros tl. apply (establishes_bind _ (fun _ => Inv)).
  { intros w [-> Hw]. revert w Hw. apply establishes_iterM. intros s Hs'.
    by apply establishes_patch_type. }
  intros _. apply (establishes_bind _ (fun cl w => cl = CL /\ Inv w)).
  { intros w Hw. exists (cpatchlist w), w. split; [reflexivity|]. split; [|done].
    by destruct Hw as (_ & _ & -> & _). }
  intros cl. apply (establishes_bind _ (fun _ => Inv)).
  { intros w [-> Hw]. revert w Hw. apply establishes_iterM. intros s Hs'.
    apply establishes_patch_code; [by apply HCL|done]. }
  intros _. exact Hrest.
Qed.

(** The turns of the substitution for the template parameters return. *)
Lemma establishes_patch_all (st : Store) (tsdecl tscope : option Symtab) (tsname : option loc)
    (tbase : String) (k : nat) :
  forall j tparms tps,
    values_plain k j tsdecl tscope tparms tps = true ->
    establishes Inv (patch_all k j st tsdecl tscope tsname tbase nl tparms tps)
      (fun _ => Inv).
Proof.
  induction k as [|k IH]; intros j tparms tps Hvp; cbn [patch_all values_plain] in *.
  { intros w Hw. by eexists _, w. }
  destruct (tps !! j) as [tp|]; [|intros w Hw; by eexists _, w].
  destruct (parm_name tp) as [name_|]; [|by apply IH].
  cbv zeta in Hvp.
  destruct (tparms !! j) as [p|] eqn:Ep.
  - destruct (value_or_type p) as [value|]; [|done]. cbn [need].
    apply andb_prop in Hvp as [Hvp Hrest]. apply andb_prop in Hvp as [Hd Hs].
    apply establishes_ret_bind. cbv beta iota zeta.
    apply establishes_turn; [done..|]. by apply IH.
  - destruct (value_or_type tp) as [value|]; [|done]. cbn [need].
    apply andb_prop in Hvp as [Hvp Hrest]. apply andb_prop in Hvp as [Hd Hs].
    apply establishes_ret_bind. cbv beta iota zeta.
    apply establishes_turn; [done..|]. by apply IH.
Qed.

End Invariant.

(** [cparse_fix_function_decl] and the pass over the expanded tree return,
    when each last element that [SwigType_last] gives is a part of the
    string, and not empty. *)
Lemma total_cparse_fix_function_decl (decl type : loc) :
  (forall p l, SwigType_last p = Some l -> (0 < length l <= length p)%nat) ->
  total (cparse_fix_function_decl decl type).
Proof.
  intros Hlast. unfold cparse_fix_function_decl.
  apply total_bind; [apply total_read|intros t].
  destruct (strip_qualifiers_spec Hlast (S (length (SwigType_prefix t))) (SwigType_prefix t))
    as (moved & -> & _); [lia|].
  destruct (0 <? length moved)%nat; [|apply total_ret].
  apply total_bind; [apply total_Append_at|intros _].
  apply total_bind; [apply total_read|intros t']. apply total_write.
Qed.

Lemma total_postprocess (n : XNode) :
  (forall p l, SwigType_last p = Some l -> (0 < length l <= length p)%nat) ->
  total (cparse_postprocess_expanded_template n).
Proof.
  intros Hlast. induction n as [a cs IH] using XNode_children_ind.
  cbn [cparse_postprocess_expanded_template].
  destruct (has_attr a "error"); [apply total_ret|].
  apply total_bind; [apply total_read_opt|intros nt].
  destruct (Equal_lit nt "cdecl").
  - destruct (Getattr a "decl"); [|apply total_ret].
    apply total_bind; [apply total_read|intros dc].
    destruct (SwigType_isfunction dc); [|apply total_ret].
    destruct (Getattr a "type"); [|apply total_ret].
    by apply total_cparse_fix_function_decl.
  - induction IH as [|c cs Hc Hcs IHcs]; [apply total_ret|].
    apply total_bind; [exact Hc|intros _; exact IHcs].
Qed.

End Passes.

#[local] Hint Resolve total_ret total_need total_assert total_read total_read_opt total_write
  total_alloc total_Append_patchlist total_Append_typelist total_Append_cpatchlist
  total_get_expanded total_set_expanded total_get_typelist total_get_patchlist
  total_get_cpatchlist total_alloc_opt total_Copy total_Replaceid_at total_Replace_any_at
  total_Append_at total_checkAttribute total_expand_variadic_parms total_expand_parms_c
  : total.

Section ReturnsZero.
Context `{TypeOps} `{Symbols}.

Lemma bind_returns {A B} (m : M A) (k : A -> M B) (w : W) (a : A) (w1 : W) (Q : B -> Prop) :
  m w = Ret (a, w1) ->
  (exists b w2, k a w1 = Ret (b, w2) /\ Q b) ->
  exists b w2, bind m k w = Ret (b, w2) /\ Q b.
Proof. intros E (b & w2 & E2 & Hq). exists b, w2. unfold bind. by rewrite E. Qed.

Lemma total_returns {A B} (m : M A) (k : A -> M B) (w : W) (Q : B -> Prop) :
  total m ->
  (forall a w1, m w = Ret (a, w1) -> exists b w2, k a w1 = Ret (b, w2) /\ Q b) ->
  exists b w2, bind m k w = Ret (b, w2) /\ Q b.
Proof.
  intros Hm Hk. destruct (Hm w) as (a & w1 & E). eapply bind_returns; [exact E|]. by apply Hk.
Qed.

(** The walk of the node that is expanded returns. *)
Lemma walker_total_root (n : XNode) (w : W) (tname rname templateargs : String)
    (uvp : option Parm) (evp : ParmList) :
  is_Some (Getattr (x_attrs n) "name") ->
  walkable_root (strs w) n = true ->
  exists n1 w1, cparse_template_expand [] n tname rname templateargs uvp evp w = Ret (n1, w1).
Proof.
  destruct n as [a cs]. intros Hn Hroot. cbn [x_attrs x_children] in *.
  unfold walkable_root in Hroot. cbn [x_attrs x_children] in Hroot.
  apply andb_prop in Hroot as [Hroot Hcs]. apply andb_prop in Hroot as [Hkind Hb].
  apply negb_true_iff in Hkind.
  rewrite cparse_template_expand_unfold. cbv zeta.
  destruct (has_attr a "error"); [by eexists _, _|].
  assert (forall anc', total (visit_with (fun cn => cparse_template_expand anc' cn tname rname
                                            templateargs uvp evp) cs)) as Hvisit.
  { intros anc'. apply total_visit_with. rewrite forallb_forall in Hcs.
    apply Forall_forall. intros c Hc. apply walker_total. apply Hcs.
    by apply list_elem_of_In. }
  unfold bind at 1, read_opt at 1.
  destruct (Equal_lit (Char_opt (strs w) (Getattr a "nodeType")) "template") eqn:Ent.
  - cbv zeta. unfold bind at 1, read_opt at 1. rewrite Getattr_Setattr.
    cbn [andb] in Hkind. rewrite Hkind.
    assert (total (node_branches
                     (fun nodeType_0 => visit_with (fun cn => cparse_template_expand
                         [nodeType_0] cn tname rname templateargs uvp evp) cs)
                     [] cs tname rname templateargs uvp evp
                     (Setattr a "nodeType" (Getattr a "templatetype"))
                     (Char_opt (strs w) (Getattr a "templatetype")))) as Hbr.
    { apply total_node_branches.
      - intros nt. apply Hvisit.
      - right. by rewrite Getattr_Setattr_ne.
      - intros k bases Hk Hg. eapply short_bases_spec; [exact Hb|exact Hk|].
        by eapply Getlist_Setattr. }
    match goal with |- exists n1 w1, ?m w = _ => assert (total m) as Ht; [|apply Ht] end.
    total_auto.
  - apply total_node_branches; [intros nt; apply Hvisit|by right|].
    intros k bases. by apply short_bases_spec.
Qed.


End ReturnsZero.


